(** * PaymobTask: order processing, exports and rate limiting

    A shallow embedding of the core of the logistics portal:

    - [core/models.py]  : the rows of the database ([Models]);
    - [core/tasks.py]   : the jobs [process_order] and [generate_export]
                          ([Tasks]);
    - [api/views.py]    : the [retry] action of [OrderViewSet] ([Views]);
    - [api/throttling.py]: the token bucket [allow_request], read over
                          the rationals ([Throttling]) and in the
                          arithmetic of Python's floats ([Throttling64]).

    Python integers are [Z], strings are [string], tables are finite maps
    from primary keys to rows.  Jobs are written in a small state and
    exception monad over the database, so that [try]/[except] and
    [transaction.atomic] read as in the source. *)

From stdpp Require Import base gmap strings pretty list sorting.
From Stdlib Require Import Ascii ZArith QArith Qminmax Qround Qpower Lqa Lia.

Open Scope Z_scope.

(* ===================================================================== *)
(** ** core/models.py *)
(* ===================================================================== *)

Module Models.

(** A Python [datetime]: the fields [strftime] reads. *)
Record datetime := {
  year : Z; month : Z; day : Z;
  hour : Z; minute : Z; second : Z; microsecond : Z
}.

(** Comparison of datetimes, field by field as Python's [datetime.__lt__]. *)
Fixpoint lex_compare (xs ys : list Z) : comparison :=
  match xs, ys with
  | x :: xs', y :: ys' =>
      match Z.compare x y with Eq => lex_compare xs' ys' | c => c end
  | [], [] => Eq
  | [], _ :: _ => Lt
  | _ :: _, [] => Gt
  end.

Definition datetime_fields (d : datetime) : list Z :=
  [year d; month d; day d; hour d; minute d; second d; microsecond d].

Definition datetime_compare (a b : datetime) : comparison :=
  lex_compare (datetime_fields a) (datetime_fields b).

Definition datetime_leb (a b : datetime) : bool :=
  match datetime_compare a b with Gt => false | _ => true end.

(** [Order.STATUS_CHOICES] *)
Inductive OrderStatus := Pending | Processing | Approved | Failed.

(** [Export.STATUS_CHOICES] *)
Inductive ExportStatus := ExportPending | ExportReady | ExportFailed.

(** [str(order.status)]: the stored value of the choice. *)
Definition order_status_str (s : OrderStatus) : string :=
  match s with
  | Pending => "pending"
  | Processing => "processing"
  | Approved => "approved"
  | Failed => "failed"
  end.

Global Instance OrderStatus_eq_dec : EqDecision OrderStatus.
Proof. solve_decision. Defined.

Global Instance ExportStatus_eq_dec : EqDecision ExportStatus.
Proof. solve_decision. Defined.

(** Rows.  The primary key [id] is the key of the table, foreign keys are
    stored as the key of the row they refer to ([product_id] for
    [order.product]). *)

Record Company := {
  company_name : string;
  company_domain : string;
  company_is_active : bool
}.

(** [django.contrib.auth.models.User], the fields the portal reads. *)
Record User := {
  username : string;
  is_superuser : bool
}.

Record Profile := {
  profile_user_id : Z;
  profile_company_id : Z;
  role : string;
  is_blocked : bool;
  profile_created_at : datetime;
  profile_updated_at : datetime
}.

Record Product := {
  sku : string;
  product_name : string;
  stock_quantity : Z;
  product_company_id : Z;
  product_is_active : bool;
  product_created_at : datetime;
  product_updated_at : datetime
}.

Record Order := {
  reference_code : string;
  product_id : Z;
  quantity : Z;
  status : OrderStatus;
  created_by_id : Z;
  has_been_processed : bool;
  created_at : datetime;
  updated_at : datetime
}.

Record Export := {
  requested_by_id : Z;
  export_created_at : datetime;
  export_status : ExportStatus;
  file : option string;
  note : string
}.

(** Attribute assignment on a loaded instance. *)

Definition order_set_status (s : OrderStatus) (o : Order) : Order :=
  {| reference_code := reference_code o; product_id := product_id o;
     quantity := quantity o; status := s; created_by_id := created_by_id o;
     has_been_processed := has_been_processed o;
     created_at := created_at o; updated_at := updated_at o |}.

Definition order_set_has_been_processed (b : bool) (o : Order) : Order :=
  {| reference_code := reference_code o; product_id := product_id o;
     quantity := quantity o; status := status o;
     created_by_id := created_by_id o; has_been_processed := b;
     created_at := created_at o; updated_at := updated_at o |}.

Definition order_set_updated_at (t : datetime) (o : Order) : Order :=
  {| reference_code := reference_code o; product_id := product_id o;
     quantity := quantity o; status := status o;
     created_by_id := created_by_id o;
     has_been_processed := has_been_processed o;
     created_at := created_at o; updated_at := t |}.

Definition product_set_stock_quantity (q : Z) (p : Product) : Product :=
  {| sku := sku p; product_name := product_name p; stock_quantity := q;
     product_company_id := product_company_id p;
     product_is_active := product_is_active p;
     product_created_at := product_created_at p;
     product_updated_at := product_updated_at p |}.

Definition product_set_updated_at (t : datetime) (p : Product) : Product :=
  {| sku := sku p; product_name := product_name p;
     stock_quantity := stock_quantity p;
     product_company_id := product_company_id p;
     product_is_active := product_is_active p;
     product_created_at := product_created_at p;
     product_updated_at := t |}.

Definition export_set_status (s : ExportStatus) (e : Export) : Export :=
  {| requested_by_id := requested_by_id e;
     export_created_at := export_created_at e;
     export_status := s; file := file e; note := note e |}.

Definition export_set_file (f : option string) (e : Export) : Export :=
  {| requested_by_id := requested_by_id e;
     export_created_at := export_created_at e;
     export_status := export_status e; file := f; note := note e |}.

Definition export_set_note (n : string) (e : Export) : Export :=
  {| requested_by_id := requested_by_id e;
     export_created_at := export_created_at e;
     export_status := export_status e; file := file e; note := n |}.

(** The database, and the files of the default storage. *)
Record Db := {
  companies : gmap Z Company;
  users : gmap Z User;
  profiles : gmap Z Profile;
  products : gmap Z Product;
  orders : gmap Z Order;
  exports : gmap Z Export;
  files : gmap string string
}.

Definition db_set_orders (m : gmap Z Order) (d : Db) : Db :=
  {| companies := companies d; users := users d; profiles := profiles d;
     products := products d; orders := m; exports := exports d;
     files := files d |}.

Definition db_set_products (m : gmap Z Product) (d : Db) : Db :=
  {| companies := companies d; users := users d; profiles := profiles d;
     products := m; orders := orders d; exports := exports d;
     files := files d |}.

Definition db_set_exports (m : gmap Z Export) (d : Db) : Db :=
  {| companies := companies d; users := users d; profiles := profiles d;
     products := products d; orders := orders d; exports := m;
     files := files d |}.

Definition db_set_files (m : gmap string string) (d : Db) : Db :=
  {| companies := companies d; users := users d; profiles := profiles d;
     products := products d; orders := orders d; exports := exports d;
     files := m |}.

(** The foreign keys are enforced by the database ([on_delete=CASCADE]):
    every reference resolves. *)
Definition referential_integrity (d : Db) : Prop :=
  (∀ i o, orders d !! i = Some o →
     is_Some (products d !! product_id o) ∧
     is_Some (profiles d !! created_by_id o)) ∧
  (∀ i p, products d !! i = Some p →
     is_Some (companies d !! product_company_id p)) ∧
  (∀ i p, profiles d !! i = Some p →
     is_Some (users d !! profile_user_id p) ∧
     is_Some (companies d !! profile_company_id p)) ∧
  (∀ i e, exports d !! i = Some e →
     is_Some (profiles d !! requested_by_id e)).

End Models.

(* ===================================================================== *)
(** ** The job monad: database state, a log of writes, exceptions *)
(* ===================================================================== *)

Module Job.
Import Models.

Inductive ModelName := MOrder | MProduct | MExport | MProfile | MUser | MCompany.

Definition model_name_str (m : ModelName) : string :=
  match m with
  | MOrder => "Order" | MProduct => "Product" | MExport => "Export"
  | MProfile => "Profile" | MUser => "User" | MCompany => "Company"
  end.

(** Exceptions: [Model.DoesNotExist] raised by [objects.get] and by the
    access to a related row, and an exception of a collaborator (the file
    storage) carrying its text.  The database itself always answers: a
    query or a [save()] raises nothing else. *)
Inductive Exn :=
| DoesNotExist (m : ModelName)
| BackendError (msg : string).

(** [str(e)] *)
Definition exn_str (e : Exn) : string :=
  match e with
  | DoesNotExist m => model_name_str m +:+ " matching query does not exist."
  | BackendError msg => msg
  end.

(** A call of a Celery task, as [task.delay(...)] puts it on the queue. *)
Inductive TaskCall :=
| ProcessOrderTask (order_id : Z)
| GenerateExportTask (export_id : Z) (order_ids : list Z).

(** One entry per effect that leaves the process: a row written to the
    database, a file handed to the storage, a task put on the queue. *)
Inductive Effect :=
| OrderSaved (id : Z) (o : Order)
| ProductSaved (id : Z) (p : Product)
| ExportSaved (id : Z) (e : Export)
| FileStored (name content : string)
| TaskQueued (t : TaskCall).

Record World := { db : Db; log : list Effect }.

Definition M (A : Type) : Type := World → (Exn + A) * World.

Global Instance M_ret : MRet M := λ A (a : A) w, (inr a, w).
Global Instance M_bind : MBind M := λ A B (f : A → M B) (c : M A) w,
  match c w with
  | (inl e, w') => (inl e, w')
  | (inr a, w') => f a w'
  end.

Definition raise {A} (e : Exn) : M A := λ w, (inl e, w).

(** [try: body except <handled>: handler]: the handler runs for the
    exceptions it is defined on, in the state the body reached. *)
Definition try_except {A} (body : M A) (handler : Exn → option (M A)) : M A :=
  λ w, match body w with
       | (inr a, w') => (inr a, w')
       | (inl e, w') =>
           match handler e with
           | Some h => h w'
           | None => (inl e, w')
           end
       end.

(** [with transaction.atomic(): body]: an exception leaving the block
    rolls the database back to the state at its entry. *)
Definition atomic {A} (body : M A) : M A :=
  λ w, match body w with
       | (inr a, w') => (inr a, w')
       | (inl e, _) => (inl e, w)
       end.

Definition get_db : M Db := λ w, (inr (db w), w).

Definition effect (d : Db) (ev : Effect) : M unit :=
  λ w, (inr tt, {| db := d; log := log w ++ [ev] |}).

(** [task.delay(...)] *)
Definition delay (t : TaskCall) : M unit :=
  d ← get_db; effect d (TaskQueued t).

(** The rows of order [id] written during a run, oldest first. *)
Definition order_writes (id : Z) (l : list Effect) : list Order :=
  omap (λ ev, match ev with
              | OrderSaved i o => if decide (i = id) then Some o else None
              | _ => None
              end) l.

(** [Model.objects.get(id=...)] *)
Definition get_row {R} (m : ModelName) (table : Db → gmap Z R) (id : Z) : M R :=
  d ← get_db;
  match table d !! id with
  | Some r => mret r
  | None => raise (DoesNotExist m)
  end.

(** [order.save()]: [updated_at] has [auto_now=True], so the save stamps
    it with the current time; all the fields of the instance are written. *)
Definition order_save (now : datetime) (id : Z) (o : Order) : M Order :=
  d ← get_db;
  let o' := order_set_updated_at now o in
  effect (db_set_orders (<[id := o']> (orders d)) d) (OrderSaved id o');;
  mret o'.

(** [product.save()], with the same [auto_now] stamp. *)
Definition product_save (now : datetime) (id : Z) (p : Product) : M Product :=
  d ← get_db;
  let p' := product_set_updated_at now p in
  effect (db_set_products (<[id := p']> (products d)) d) (ProductSaved id p');;
  mret p'.

(** [export.save()]: [Export] has no [auto_now] field. *)
Definition export_save (id : Z) (e : Export) : M unit :=
  d ← get_db;
  effect (db_set_exports (<[id := e]> (exports d)) d) (ExportSaved id e).

Definition run {A} (c : M A) (d : Db) : (Exn + A) * World :=
  c {| db := d; log := [] |}.

End Job.

(* ===================================================================== *)
(** ** core/tasks.py: process_order *)
(* ===================================================================== *)

Module Tasks.
Import Models Job.

(** What a run of [process_order] reads from outside the database:
    the draw of [random.random()] and the clock at each [save()].
    [random.random()] returns [draw / 2^53] with [0 <= draw < 2^53]. *)
Record ProcessEnv := {
  draw : Z;
  clock_processing : datetime;
  clock_stock : datetime;
  clock_done : datetime
}.

(** [random.random() < 0.7]: the double nearest to 0.7 is
    [6305039478318694 / 2^53], and the draw is a multiple of [2^-53], so
    the comparison of the two doubles is the comparison of the numerators. *)
Definition approval_decision (env : ProcessEnv) : bool :=
  draw env <? 6305039478318694.

(** The check-and-decrement of the approval branch (lines 45-54), on the
    stock read under the row lock: the new stock and whether the
    reservation succeeded. *)
Definition reserve (stock qty : Z) : Z * bool :=
  if stock >=? qty then (stock - qty, true) else (stock, false).

(** The approval branch: the block guarded by [transaction.atomic()]. *)
Definition approval_branch (env : ProcessEnv) (order : Order) : M Order :=
  atomic (
    (* order.product.id: the related row is fetched *)
    _ ← get_row MProduct products (product_id order);
    (* Product.objects.select_for_update().get(id=...) *)
    product ← get_row MProduct products (product_id order);
    match reserve (stock_quantity product) (quantity order) with
    | (stock', true) =>
        let product := product_set_stock_quantity stock' product in
        product_save (clock_stock env) (product_id order) product;;
        mret (order_set_status Approved order)
    | (_, false) =>
        mret (order_set_status Failed order)
    end).

(** The value the task returns. *)
Inductive ProcessResult :=
| Processed (reference : string) (st : OrderStatus)
| OrderNotFound (order_id : Z)
| ProcessError (msg : string).

Definition process_result_str (r : ProcessResult) : string :=
  match r with
  | Processed ref st =>
      "Order " +:+ ref +:+ " processed with status: " +:+ order_status_str st
  | OrderNotFound i => "Order " +:+ pretty i +:+ " not found"
  | ProcessError msg => "Error: " +:+ msg
  end.

Definition process_order_body (env : ProcessEnv) (order_id : Z) : M ProcessResult :=
  order ← get_row MOrder orders order_id;
  (* Mark as processing *)
  let order := order_set_status Processing order in
  order ← order_save (clock_processing env) order_id order;
  (* time.sleep(random.uniform(1, 3)) *)
  order ← (if approval_decision env
           then approval_branch env order
           else mret (order_set_status Failed order));
  (* Mark as processed *)
  let order := order_set_has_been_processed true order in
  order ← order_save (clock_done env) order_id order;
  mret (Processed (reference_code order) (status order)).

Definition process_order (env : ProcessEnv) (order_id : Z) : M ProcessResult :=
  try_except (process_order_body env order_id)
    (λ e, match e with
          | DoesNotExist MOrder => Some (mret (OrderNotFound order_id))
          | _ => Some (mret (ProcessError (exn_str e)))
          end).

(* --------------------------------------------------------------------- *)
(** *** generate_export *)

(** The characters the writer uses. *)
Definition dquote_char : ascii := "034"%char.
Definition newline_char : ascii := "010"%char.
Definition comma_char : ascii := ","%char.
Definition dquote : string := String dquote_char EmptyString.
Definition newline : string := String newline_char EmptyString.

(** A cell of [csv_content]: a [str] or an [int], rendered by [str(cell)]. *)
Inductive Cell := CellStr (s : string) | CellInt (n : Z).

Definition cell_str (c : Cell) : string :=
  match c with
  | CellStr s => s
  | CellInt n => pretty n
  end.

(** [strftime]: [%m], [%d], [%H], [%M], [%S] are zero-padded to two
    digits; [%Y] is the decimal year (the C library does not pad it;
    from year 1000 on that is four digits). *)
Definition pad2 (n : Z) : string :=
  if n <? 10 then "0" +:+ pretty n else pretty n.

Definition strftime_ymd_hms (d : datetime) : string :=
  pretty (year d) +:+ "-" +:+ pad2 (month d) +:+ "-" +:+ pad2 (day d)
  +:+ " " +:+ pad2 (hour d) +:+ ":" +:+ pad2 (minute d)
  +:+ ":" +:+ pad2 (second d).

(** [Order.Meta.ordering = ['-created_at']]: newest first.  (The database
    leaves the order of rows with equal [created_at] open; here they come
    in the order of the table scan.) *)
Definition newer_first (a b : Z * Order) : Prop :=
  datetime_leb (created_at (snd b)) (created_at (snd a)) = true.

Global Instance newer_first_dec a b : Decision (newer_first a b).
Proof. unfold newer_first. apply _. Defined.

Definition all_orders (d : Db) : list (Z * Order) :=
  merge_sort newer_first (map_to_list (orders d)).

(** A row of the query with its [select_related] rows. *)
Record OrderRow := {
  row_id : Z;
  row_order : Order;
  row_product : Product;
  row_company : Company;
  row_profile : Profile;
  row_user : User
}.

(** [select_related('product', 'created_by__user', 'product__company')]:
    the foreign keys are not nullable, so the related rows are joined with
    inner joins. *)
Definition select_related (d : Db) (io : Z * Order) : option OrderRow :=
  let o := snd io in
  p ← products d !! product_id o;
  c ← companies d !! product_company_id p;
  pr ← profiles d !! created_by_id o;
  u ← users d !! profile_user_id pr;
  Some {| row_id := fst io; row_order := o; row_product := p;
          row_company := c; row_profile := pr; row_user := u |}.

(** [Order.objects.filter(id__in=order_ids).select_related(...)] *)
Definition export_queryset (d : Db) (order_ids : list Z) : list OrderRow :=
  omap (λ io, if bool_decide (fst io ∈ order_ids)
              then select_related d io else None)
       (all_orders d).

Definition header_row : list Cell :=
  [CellStr "Reference Code"; CellStr "Product"; CellStr "SKU";
   CellStr "Quantity"; CellStr "Status"; CellStr "Created By";
   CellStr "Company"; CellStr "Created At"].

Definition order_row (r : OrderRow) : list Cell :=
  [CellStr (reference_code (row_order r));
   CellStr (product_name (row_product r));
   CellStr (sku (row_product r));
   CellInt (quantity (row_order r));
   CellStr (order_status_str (status (row_order r)));
   CellStr (username (row_user r));
   CellStr (company_name (row_company r));
   CellStr (strftime_ymd_hms (created_at (row_order r)))].

Definition csv_content (d : Db) (order_ids : list Z) : list (list Cell) :=
  header_row :: map order_row (export_queryset d order_ids).

(** [f'"{str(cell)}"'] *)
Definition quote_cell (c : Cell) : string :=
  dquote +:+ cell_str c +:+ dquote.

(** [','.join([... for cell in row])] *)
Definition csv_line (row : list Cell) : string :=
  String.concat "," (map quote_cell row).

(** ['\n'.join(csv_buffer)] *)
Definition csv_string (content : list (list Cell)) : string :=
  String.concat newline (map csv_line content).

(** The file storage is a collaborator: asked to save under a name it
    either raises (with the text of its exception) or answers with the
    name it stored the content under. *)
Record ExportEnv := {
  storage_outcome : string → string + string
}.

(** [export.file.save(filename, content, save=False)] for a field with
    [upload_to='exports/']. *)
Definition file_save (env : ExportEnv) (filename content : string)
    (e : Export) : M Export :=
  match storage_outcome env ("exports/" +:+ filename) with
  | inl msg => raise (BackendError msg)
  | inr stored =>
      d ← get_db;
      effect (db_set_files (<[stored := content]> (files d)) d)
             (FileStored stored content);;
      mret (export_set_file (Some stored) e)
  end.

Inductive ExportResult :=
| Generated (export_id : Z)
| ExportNotFound (export_id : Z)
| ExportError (msg : string).

Definition export_result_str (r : ExportResult) : string :=
  match r with
  | Generated i => "Export " +:+ pretty i +:+ " generated successfully"
  | ExportNotFound i => "Export " +:+ pretty i +:+ " not found"
  | ExportError msg => "Error: " +:+ msg
  end.

Definition generate_export_body (env : ExportEnv) (export_id : Z)
    (order_ids : list Z) : M ExportResult :=
  export ← get_row MExport exports export_id;
  (* Get orders, generate CSV *)
  d ← get_db;
  let csv := csv_string (csv_content d order_ids) in
  (* Save to Export model *)
  let filename := "export_" +:+ pretty export_id +:+ ".csv" in
  export ← file_save env filename csv export;
  let export := export_set_status ExportReady export in
  export_save export_id export;;
  (* the notification reads export.requested_by.user.username *)
  profile ← get_row MProfile profiles (requested_by_id export);
  _ ← get_row MUser users (profile_user_id profile);
  mret (Generated export_id).

(** The handler of [except Exception as e]; its own failure is swallowed
    by the bare [except: pass]. *)
Definition mark_export_failed (export_id : Z) (e : Exn) : M unit :=
  try_except
    (export ← get_row MExport exports export_id;
     let export := export_set_status ExportFailed export in
     let export := export_set_note (exn_str e) export in
     export_save export_id export)
    (λ _, Some (mret tt)).

Definition generate_export (env : ExportEnv) (export_id : Z)
    (order_ids : list Z) : M ExportResult :=
  try_except (generate_export_body env export_id order_ids)
    (λ e, match e with
          | DoesNotExist MExport => Some (mret (ExportNotFound export_id))
          | _ => Some (mark_export_failed export_id e;;
                       mret (ExportError (exn_str e)))
          end).

(** The rows a run of [generate_export] writes. *)
Definition export_path (export_id : Z) : string :=
  "exports/" +:+ ("export_" +:+ pretty export_id +:+ ".csv").

Definition export_ready (stored : string) (e : Export) : Export :=
  export_set_status ExportReady (export_set_file (Some stored) e).

Definition export_failed (msg : string) (e : Export) : Export :=
  export_set_note msg (export_set_status ExportFailed e).

(** What the notification needs: the requester of the export and their
    user. *)
Definition requester_user (d : Db) (e : Export) : Exn + User :=
  match profiles d !! requested_by_id e with
  | None => inl (DoesNotExist MProfile)
  | Some pr =>
      match users d !! profile_user_id pr with
      | None => inl (DoesNotExist MUser)
      | Some u => inr u
      end
  end.

(** C6 as the specification states it, for the failing runs: the export
    is [failed] and its note is not empty. *)
Definition failure_note_nonempty (env : ExportEnv) (export_id : Z)
    (order_ids : list Z) (d : Db) : Prop :=
  ∀ msg w,
    run (generate_export env export_id order_ids) d
    = (inr (ExportError msg), w) →
    ∃ e', exports (db w) !! export_id = Some e' ∧
          export_status e' = ExportFailed ∧ note e' ≠ EmptyString.

(** The shape of a text: in the format, ["d"] stands for a decimal digit
    and every other character for itself. *)
Definition is_digit (c : ascii) : bool :=
  (48 <=? nat_of_ascii c)%nat && (nat_of_ascii c <=? 57)%nat.

Fixpoint matches_format (fmt s : string) : bool :=
  match fmt, s with
  | EmptyString, EmptyString => true
  | String f fmt', String c s' =>
      (if decide (f = "d"%char) then is_digit c else bool_decide (c = f))
      && matches_format fmt' s'
  | _, _ => false
  end.

Definition timestamp_format : string := "dddd-dd-dd dd:dd:dd".

(** The datetimes of Python, from the year 1000 on. *)
Definition four_digit_datetime (t : datetime) : Prop :=
  1000 ≤ year t ≤ 9999 ∧ 1 ≤ month t ≤ 12 ∧ 1 ≤ day t ≤ 31 ∧
  0 ≤ hour t ≤ 23 ∧ 0 ≤ minute t ≤ 59 ∧ 0 ≤ second t ≤ 59.

(** [f(k) = true] for [lo <= k < lo + len], as a computation. *)
Definition holds_on_range (f : Z → bool) (lo len : Z) : bool :=
  forallb f (seqZ lo len).

(** A quoted field, and the header line of the artifact. *)
Definition quoted (s : string) : string := dquote +:+ s +:+ dquote.

Definition header_names : list string :=
  ["Reference Code"; "Product"; "SKU"; "Quantity"; "Status"; "Created By";
   "Company"; "Created At"].

Definition header_line : string :=
  quoted "Reference Code" +:+ "," +:+ quoted "Product" +:+ "," +:+
  quoted "SKU" +:+ "," +:+ quoted "Quantity" +:+ "," +:+
  quoted "Status" +:+ "," +:+ quoted "Created By" +:+ "," +:+
  quoted "Company" +:+ "," +:+ quoted "Created At".

(** The line of the artifact for a row of the query, written out: the
    reference code of the order, the name and the SKU of its product, the
    quantity, the status, the user name of its creator, the name of the
    company of the product and the creation time, each between double
    quotes, with commas in between. *)
Definition export_line (r : OrderRow) : string :=
  quoted (reference_code (row_order r)) +:+ "," +:+
  quoted (product_name (row_product r)) +:+ "," +:+
  quoted (sku (row_product r)) +:+ "," +:+
  quoted (pretty (quantity (row_order r))) +:+ "," +:+
  quoted (order_status_str (status (row_order r))) +:+ "," +:+
  quoted (username (row_user r)) +:+ "," +:+
  quoted (company_name (row_company r)) +:+ "," +:+
  quoted (strftime_ymd_hms (created_at (row_order r))).

(** The text of an artifact: the header line, then the lines of the rows,
    with line feeds in between. *)
Definition export_text (rows : list OrderRow) : string :=
  String.concat newline (header_line :: map export_line rows).

(** A sequence of reservation attempts against one product, each under
    the row lock, hence one after the other: the stock left and the
    outcome of each attempt. *)
Fixpoint reserve_all (stock : Z) (qtys : list Z) : Z * list bool :=
  match qtys with
  | [] => (stock, [])
  | q :: qs =>
      let '(stock', ok) := reserve stock q in
      let '(final, oks) := reserve_all stock' qs in
      (final, ok :: oks)
  end.

(** The stock after each attempt of the sequence. *)
Fixpoint stock_history (stock : Z) (qtys : list Z) : list Z :=
  match qtys with
  | [] => []
  | q :: qs => let stock' := fst (reserve stock q) in
               stock' :: stock_history stock' qs
  end.

(** The total quantity of the attempts that succeeded. *)
Fixpoint reserved_total (qtys : list Z) (oks : list bool) : Z :=
  match qtys, oks with
  | q :: qs, ok :: oks' => (if ok then q else 0) + reserved_total qs oks'
  | _, _ => 0
  end.

(** A sequence of runs of the approval branch, one after the other as
    the row lock orders them: whether each attempt ended [approved], and
    the state left. *)
Fixpoint run_attempts (attempts : list (ProcessEnv * Order)) (w : World)
    : list bool * World :=
  match attempts with
  | [] => ([], w)
  | (env, order) :: rest =>
      let '(r, w') := approval_branch env order w in
      let '(oks, w'') := run_attempts rest w' in
      (match r with
       | inr order' => bool_decide (status order' = Approved)
       | inl _ => false
       end :: oks, w'')
  end.

(** The rows a run of [process_order] writes. *)
Definition marked_processing (env : ProcessEnv) (o : Order) : Order :=
  order_set_updated_at (clock_processing env) (order_set_status Processing o).

Definition finished (env : ProcessEnv) (st : OrderStatus) (o : Order) : Order :=
  order_set_updated_at (clock_done env)
    (order_set_has_been_processed true
       (order_set_status st (marked_processing env o))).

Definition deducted (env : ProcessEnv) (qty : Z) (p : Product) : Product :=
  product_set_updated_at (clock_stock env)
    (product_set_stock_quantity (stock_quantity p - qty) p).

(** Approval is drawn and the stock of the product suffices. *)
Definition approves (env : ProcessEnv) (d : Db) (o : Order) : Prop :=
  approval_decision env = true ∧
  ∃ p, products d !! product_id o = Some p ∧ quantity o ≤ stock_quantity p.

(** The fields of an order other than [status] and [has_been_processed],
    and the fields of a product other than [stock_quantity]. *)
Definition order_rest_equal (o o' : Order) : Prop :=
  reference_code o' = reference_code o ∧ product_id o' = product_id o ∧
  quantity o' = quantity o ∧ created_by_id o' = created_by_id o ∧
  created_at o' = created_at o ∧ updated_at o' = updated_at o.

Definition product_rest_equal (p p' : Product) : Prop :=
  sku p' = sku p ∧ product_name p' = product_name p ∧
  product_company_id p' = product_company_id p ∧
  product_is_active p' = product_is_active p ∧
  product_created_at p' = product_created_at p ∧
  product_updated_at p' = product_updated_at p.

(** The same without the [auto_now] stamp [updated_at]. *)
Definition order_frame (o o' : Order) : Prop :=
  reference_code o' = reference_code o ∧ product_id o' = product_id o ∧
  quantity o' = quantity o ∧ created_by_id o' = created_by_id o ∧
  created_at o' = created_at o.

Definition product_frame (p p' : Product) : Prop :=
  sku p' = sku p ∧ product_name p' = product_name p ∧
  product_company_id p' = product_company_id p ∧
  product_is_active p' = product_is_active p ∧
  product_created_at p' = product_created_at p.

(** C9 as the specification states it: after a run only [status] and
    [has_been_processed] of the order and [stock_quantity] of its product
    may differ, the stock only when approval was drawn and the stock
    sufficed. *)
Definition touches_only_status_flag_and_stock (env : ProcessEnv) (id : Z)
    (d : Db) : Prop :=
  let d' := db (snd (run (process_order env id) d)) in
  (∀ j, j ≠ id → orders d' !! j = orders d !! j) ∧
  (∀ o, orders d !! id = Some o →
     (∃ o', orders d' !! id = Some o' ∧ order_rest_equal o o') ∧
     (∀ j, j ≠ product_id o → products d' !! j = products d !! j) ∧
     (∀ p, products d !! product_id o = Some p →
        ∃ p', products d' !! product_id o = Some p' ∧
              product_rest_equal p p' ∧
              (stock_quantity p' ≠ stock_quantity p →
               approval_decision env = true ∧
               quantity o ≤ stock_quantity p))).

End Tasks.

(* ===================================================================== *)
(** ** core/tasks.py: generate_export when the database may fail *)
(* ===================================================================== *)

Module Faults.
Import Models Job Tasks.

(** The database is a collaborator as well: a query or a [save()] may
    raise (the connection is lost, a lock times out).  A schedule gives
    the outcome of the accesses to the database in the order in which a
    block makes them: [Some msg] for an access that raises an exception
    with the text [msg], [None] for an access that is answered; past the
    end of the schedule every access is answered.  There is one schedule
    for the [try] block and one for the handler of [except Exception]. *)
Record DbFaults := {
  during_generation : list (option string);
  during_handler : list (option string)
}.

(** The database that always answers. *)
Definition reliable : DbFaults :=
  {| during_generation := []; during_handler := [] |}.

(** The first [n] accesses of a schedule are answered. *)
Definition answered (n : nat) (s : list (option string)) : bool :=
  forallb (λ o, bool_decide (o = None)) (take n s).

Record FWorld := { world : World; schedule : list (option string) }.

Definition F (A : Type) : Type := FWorld → (Exn + A) * FWorld.

Global Instance F_ret : MRet F := λ A (a : A) fw, (inr a, fw).
Global Instance F_bind : MBind F := λ A B (f : A → F B) (c : F A) fw,
  match c fw with
  | (inl e, fw') => (inl e, fw')
  | (inr a, fw') => f a fw'
  end.

(** A step that does not go to the database. *)
Definition lift {A} (c : M A) : F A :=
  λ fw, let '(r, w) := c (world fw) in
        (r, {| world := w; schedule := schedule fw |}).

(** A step that is one access to the database: it raises when the
    schedule says so, and is the step of the reliable database
    otherwise. *)
Definition access {A} (c : M A) : F A :=
  λ fw, let rest := {| world := world fw; schedule := tail (schedule fw) |} in
        match head (schedule fw) with
        | Some (Some msg) => (inl (BackendError msg), rest)
        | _ => lift c rest
        end.

(** A block whose accesses follow the schedule [s]. *)
Definition with_schedule {A} (s : list (option string)) (c : F A) : F A :=
  λ fw, c {| world := world fw; schedule := s |}.

Definition try_except {A} (body : F A) (handler : Exn → option (F A)) : F A :=
  λ fw, match body fw with
        | (inr a, fw') => (inr a, fw')
        | (inl e, fw') =>
            match handler e with
            | Some h => h fw'
            | None => (inl e, fw')
            end
        end.

Definition generate_export_body (env : ExportEnv) (export_id : Z)
    (order_ids : list Z) : F ExportResult :=
  export ← access (get_row MExport exports export_id);
  (* Get orders: the query runs when the loop goes over its rows *)
  d ← access get_db;
  (* Generate CSV *)
  let csv := csv_string (csv_content d order_ids) in
  (* Save to Export model *)
  let filename := "export_" +:+ pretty export_id +:+ ".csv" in
  export ← lift (file_save env filename csv export);
  let export := export_set_status ExportReady export in
  access (export_save export_id export);;
  (* the notification reads export.requested_by.user.username *)
  profile ← access (get_row MProfile profiles (requested_by_id export));
  _ ← access (get_row MUser users (profile_user_id profile));
  mret (Generated export_id).

(** The handler of [except Exception as e]; its own failure, of the
    query or of the [save()], is swallowed by the bare [except: pass]. *)
Definition mark_export_failed (export_id : Z) (e : Exn) : F unit :=
  try_except
    (export ← access (get_row MExport exports export_id);
     let export := export_set_status ExportFailed export in
     let export := export_set_note (exn_str e) export in
     access (export_save export_id export))
    (λ _, Some (mret tt)).

Definition generate_export (env : ExportEnv) (faults : DbFaults)
    (export_id : Z) (order_ids : list Z) : F ExportResult :=
  try_except
    (with_schedule (during_generation faults)
       (generate_export_body env export_id order_ids))
    (λ e, match e with
          | DoesNotExist MExport => Some (mret (ExportNotFound export_id))
          | _ => Some (with_schedule (during_handler faults)
                         (mark_export_failed export_id e);;
                       mret (ExportError (exn_str e)))
          end).

(** A run from the database [d]: the value returned, the database and
    the log left. *)
Definition run {A} (c : F A) (d : Db) : (Exn + A) * World :=
  let '(r, fw) := c {| world := {| db := d; log := [] |}; schedule := [] |} in
  (r, world fw).

(** The outcome of the next access of a schedule: the text of the
    exception, if it raises. *)
Definition fault_at (s : list (option string)) : option string :=
  match head s with Some (Some msg) => Some msg | _ => None end.

(** The [try] block step by step: the value it returns, or the exception
    that leaves it, and the state it leaves ([gs] is the schedule of the
    block, [e] the export row). *)
Definition body_outcome (env : ExportEnv) (gs : list (option string))
    (id : Z) (ids : list Z) (d : Db) (e : Export) : (Exn + ExportResult) * World :=
  let w0 := {| db := d; log := [] |} in
  let csv := csv_string (csv_content d ids) in
  match fault_at gs with
  | Some m => (inl (BackendError m), w0)
  | None =>
  match fault_at (tail gs) with
  | Some m => (inl (BackendError m), w0)
  | None =>
  match storage_outcome env (export_path id) with
  | inl m => (inl (BackendError m), w0)
  | inr stored =>
  let d1 := db_set_files (<[stored := csv]> (files d)) d in
  let w1 := {| db := d1; log := [FileStored stored csv] |} in
  match fault_at (tail (tail gs)) with
  | Some m => (inl (BackendError m), w1)
  | None =>
  let d2 := db_set_exports (<[id := export_ready stored e]> (exports d)) d1 in
  let w2 := {| db := d2; log := [FileStored stored csv;
                                 ExportSaved id (export_ready stored e)] |} in
  match fault_at (tail (tail (tail gs))) with
  | Some m => (inl (BackendError m), w2)
  | None =>
  match profiles d !! requested_by_id e with
  | None => (inl (DoesNotExist MProfile), w2)
  | Some pr =>
  match fault_at (tail (tail (tail (tail gs)))) with
  | Some m => (inl (BackendError m), w2)
  | None =>
  match users d !! profile_user_id pr with
  | None => (inl (DoesNotExist MUser), w2)
  | Some _ => (inr (Generated id), w2)
  end end end end end end end end.

(** C6 as the specification states it, for the runs in which the
    generation raised: the export is [failed]. *)
Definition failure_is_recorded (env : ExportEnv) (faults : DbFaults)
    (export_id : Z) (order_ids : list Z) (d : Db) : Prop :=
  ∀ msg w,
    run (generate_export env faults export_id order_ids) d
    = (inr (ExportError msg), w) →
    ∃ e', exports (db w) !! export_id = Some e' ∧
          export_status e' = ExportFailed.

(** The connection is lost after the export row is read, and is still
    down when the handler runs. *)
Definition connection_lost : DbFaults :=
  {| during_generation := [None; Some "server closed the connection unexpectedly"];
     during_handler := [Some "server closed the connection unexpectedly"] |}.

(** One query fails, the handler is answered. *)
Definition one_query_fails : DbFaults :=
  {| during_generation := [None; Some "deadlock detected"];
     during_handler := [] |}.

End Faults.

(* ===================================================================== *)
(** ** api/views.py: OrderViewSet.retry *)
(* ===================================================================== *)

Module Views.
Import Models Job.

(** [rest_framework.response.Response]: the status code and the payload. *)
Record Response := {
  status_code : Z;
  data : list (string * string)
}.

Definition HTTP_200_OK : Z := 200.
Definition HTTP_400_BAD_REQUEST : Z := 400.

(** [retry(self, request, pk)].  [self.get_object()] is the row with
    primary key [pk] among the rows the caller may see; the permission
    classes and the queryset filter run before the action and are not part
    of it.  [now] is the clock at [order.save()]. *)
Definition retry (now : datetime) (pk : Z) : M Response :=
  order ← get_row MOrder orders pk;
  if negb (bool_decide (status order = Failed)) then
    mret {| status_code := HTTP_400_BAD_REQUEST;
            data := [("error", "Only failed orders can be retried")] |}
  else if negb (has_been_processed order) then
    mret {| status_code := HTTP_400_BAD_REQUEST;
            data := [("error", "Order has not been processed yet")] |}
  else
    (* Reset order status *)
    let order := order_set_status Pending order in
    let order := order_set_has_been_processed false order in
    order ← order_save now pk order;
    (* Trigger processing *)
    delay (ProcessOrderTask pk);;
    mret {| status_code := HTTP_200_OK;
            data := [("message",
                      "Order " +:+ reference_code order +:+ " queued for retry")] |}.

(** The row an accepted retry writes. *)
Definition reset_for_retry (now : datetime) (o : Order) : Order :=
  order_set_updated_at now
    (order_set_has_been_processed false (order_set_status Pending o)).

End Views.

(* ===================================================================== *)
(** ** api/throttling.py *)
(* ===================================================================== *)

Module Throttling.
Local Open Scope Q_scope.

(** Numbers: [time.time()], the token count and the refill rate are
    Python floats (binary64) in the source.  This module reads the
    arithmetic over the rationals, so that [10 / 60] is one sixth and no
    operation rounds: it is the token bucket as designed.  The module
    [Throttling64] below has the same code with the rounding of binary64
    after every operation, which is what the program computes; the data
    (throttles, buckets, the cache, requests and keys) is shared. *)

(** The class attributes of a throttle. *)
Record Throttle := {
  capacity : Q;
  refill_rate : Q;
  cache_prefix : string
}.

Definition TokenBucketThrottle : Throttle :=
  {| capacity := 100; refill_rate := 10 # 60;
     cache_prefix := "throttle_bucket" |}.

Definition OrdersThrottle : Throttle :=
  {| capacity := 50; refill_rate := 50 # 60;
     cache_prefix := "throttle_orders" |}.

Definition ProductsThrottle : Throttle :=
  {| capacity := 100; refill_rate := 100 # 60;
     cache_prefix := "throttle_products" |}.

Definition ExportsThrottle : Throttle :=
  {| capacity := 10; refill_rate := 10 # 60;
     cache_prefix := "throttle_exports" |}.

(** [bucket_data]: the dictionary kept in the cache. *)
Record Bucket := {
  tokens : Q;
  last_update : Q
}.

(** The Django cache: a value lives until its expiry time. *)
Record CacheEntry := {
  entry_value : Bucket;
  expires_at : Q
}.

Definition cache_get (now : Q) (key : string)
    (cache : gmap string CacheEntry) : option Bucket :=
  match cache !! key with
  | Some e => if Qlt_le_dec now (expires_at e)
              then Some (entry_value e) else None
  | None => None
  end.

Definition cache_set (now : Q) (key : string) (v : Bucket) (timeout : Q)
    (cache : gmap string CacheEntry) : gmap string CacheEntry :=
  <[key := {| entry_value := v; expires_at := now + timeout |}]> cache.

(** [request.user]: [None] stands for the anonymous user, who is neither
    authenticated nor a superuser. *)
Record AuthUser := {
  user_id : Z;
  user_is_superuser : bool
}.

Record Request := {
  user : option AuthUser;
  (** [self.get_ident(request)]: the address of the client *)
  remote_ident : string
}.

(** [min(a, b)] of Python: [b] only when [b < a]. *)
Definition py_min (a b : Q) : Q :=
  if Qlt_le_dec b a then b else a.

(** [allow_request(self, request, view)], with [current_time] the value
    of [time.time()] (the cache reads the same clock). *)
Definition allow_request (self : Throttle) (request : Request)
    (current_time : Q) (cache : gmap string CacheEntry)
    : bool * gmap string CacheEntry :=
  (* Get user identifier *)
  let ident := match user request with
               | Some u => "user_" +:+ pretty (user_id u)
               | None => remote_ident request
               end in
  (* Superusers bypass throttling *)
  if match user request with
     | Some u => user_is_superuser u
     | None => false
     end
  then (true, cache)
  else
    let cache_key := cache_prefix self +:+ ":" +:+ ident in
    match cache_get current_time cache_key cache with
    | None =>
        (* Initialize new bucket *)
        let bucket_data := {| tokens := capacity self - 1;
                              last_update := current_time |} in
        (true, cache_set current_time cache_key bucket_data 3600 cache)
    | Some bucket_data =>
        let time_elapsed := current_time - last_update bucket_data in
        let tokens_to_add := time_elapsed * refill_rate self in
        let new_tokens :=
          py_min (tokens bucket_data + tokens_to_add) (capacity self) in
        if Qle_bool 1 new_tokens then
          (true, cache_set current_time cache_key
                   {| tokens := new_tokens - 1;
                      last_update := current_time |} 3600 cache)
        else
          (false, cache_set current_time cache_key
                    {| tokens := new_tokens;
                       last_update := current_time |} 3600 cache)
    end.

(** [wait(self)] *)
Definition wait (self : Throttle) : option Q :=
  if Qlt_le_dec 0 (refill_rate self) then Some (1 / refill_rate self)
  else None.

(** The key of the bucket of a request that is not a superuser's. *)
Definition cache_key_of (self : Throttle) (request : Request) : string :=
  cache_prefix self +:+ ":" +:+
  match user request with
  | Some u => "user_" +:+ pretty (user_id u)
  | None => remote_ident request
  end.

(** A sequence of calls, each with the time it arrives at: the answers
    and the cache left. *)
Fixpoint allow_requests (self : Throttle) (calls : list (Request * Q))
    (cache : gmap string CacheEntry) : list bool * gmap string CacheEntry :=
  match calls with
  | [] => ([], cache)
  | (request, t) :: rest =>
      let '(ok, cache') := allow_request self request t cache in
      let '(oks, cache'') := allow_requests self rest cache' in
      (ok :: oks, cache'')
  end.

(** The throttle classes of the module; their buckets live in one
    cache. *)
Definition throttle_classes : list Throttle :=
  [TokenBucketThrottle; OrdersThrottle; ProductsThrottle; ExportsThrottle].

(** Calls to the endpoints, each through the throttle of its view, with
    the time it arrives at. *)
Fixpoint serve (calls : list (Throttle * Request * Q))
    (cache : gmap string CacheEntry) : list bool * gmap string CacheEntry :=
  match calls with
  | [] => ([], cache)
  | (self, request, t) :: rest =>
      let '(ok, cache') := allow_request self request t cache in
      let '(oks, cache'') := serve rest cache' in
      (ok :: oks, cache'')
  end.

(** The arrival times of a sequence of calls do not decrease. *)
Fixpoint times_from {A} (t : Q) (calls : list (A * Q)) : Prop :=
  match calls with
  | [] => True
  | (_, t') :: rest => t <= t' ∧ times_from t' rest
  end.

(** The time of the last call of a sequence that starts at [t]. *)
Fixpoint last_time {A} (t : Q) (calls : list (A * Q)) : Q :=
  match calls with
  | [] => t
  | (_, t') :: rest => last_time t' rest
  end.

(** The request is not a superuser's: the limiter applies. *)
Definition not_superuser (request : Request) : Prop :=
  match user request with
  | Some u => user_is_superuser u = false
  | None => True
  end.

(** The key is one of the throttle's: its prefix, then a colon. *)
Definition owns (self : Throttle) (key : string) : bool :=
  String.prefix (cache_prefix self +:+ ":") key.

(** No key of [other] is one of [self]'s. *)
Definition separate (self other : Throttle) : Prop :=
  ∀ ident, owns self (cache_prefix other +:+ ":" +:+ ident) = false.

(** Capacities of at least one token, refill rates that are not
    negative, and prefixes that keep the buckets of two classes apart. *)
Definition well_configured (classes : list Throttle) : Prop :=
  Forall (λ T, 1 <= capacity T ∧ 0 <= refill_rate T) classes ∧
  ∀ T U, T ∈ classes → U ∈ classes → T = U ∨ separate T U.

(** The bounds of the data model on a stored bucket, which moreover is
    not stamped later than [now]. *)
Definition bucket_ok (self : Throttle) (now : Q) (b : Bucket) : Prop :=
  0 <= tokens b ∧ tokens b <= capacity self ∧ last_update b <= now.

Definition cache_ok (self : Throttle) (now : Q)
    (cache : gmap string CacheEntry) : Prop :=
  map_Forall (λ key e, owns self key = true →
                       bucket_ok self now (entry_value e)) cache.

(** The bounds of the data model on the token counts of the buckets of
    a throttle. *)
Definition tokens_within_bounds (self : Throttle)
    (cache : gmap string CacheEntry) : Prop :=
  map_Forall (λ key e, owns self key = true →
                       0 <= tokens (entry_value e) ∧
                       tokens (entry_value e) <= capacity self) cache.

(** The key holds a live bucket stamped [t] with [x] tokens. *)
Definition bucket_at (cache : gmap string CacheEntry) (key : string)
    (t x : Q) : Prop :=
  ∃ e, cache !! key = Some e ∧ tokens (entry_value e) == x ∧
       last_update (entry_value e) = t ∧ expires_at e = t + 3600.

End Throttling.

(* ===================================================================== *)
(** ** The numbers of Python: binary64 *)
(* ===================================================================== *)

(** A Python [float] is a number of IEEE 754 binary64.  A finite one is
    [k * 2^j] for integers [|k| < 2^53] and [-1074 <= j <= 971]; here it
    is the rational it denotes, and an operation on floats is the exact
    operation followed by the rounding to the nearest number of binary64,
    ties going to the one with an even [k].  Overflow is not modelled:
    the numbers of the rate limiter (clock readings, elapsed times, token
    counts) stay far below [2^1024]. *)
Module Binary64.
Local Open Scope Q_scope.

(** The floor of the binary logarithm of a positive rational. *)
Definition ilog2 (q : Q) : Z :=
  let k := (Z.log2 (Qnum q) - Z.log2 (Zpos (Qden q)))%Z in
  if Qle_bool (2 ^ k) q then k else (k - 1)%Z.

(** Rounding to the nearest integer, ties to the even one. *)
Definition rne (x : Q) : Z :=
  let f := Qfloor x in
  match Qcompare (x - inject_Z f) (1 # 2) with
  | Lt => f
  | Gt => (f + 1)%Z
  | Eq => if Z.even f then f else (f + 1)%Z
  end.

(** The exponent of the numbers of binary64 next to a positive [q]: 53
    binary digits down from its leading one, and no less than that of
    the subnormal numbers. *)
Definition exponent (q : Q) : Z := Z.max (ilog2 q - 52) (-1074).

Definition round_pos (q : Q) : Q :=
  let e := exponent q in
  Qred (inject_Z (rne (q / 2 ^ e)) * 2 ^ e).

(** The number of binary64 nearest to [q]. *)
Definition round64 (q : Q) : Q :=
  match Qnum q with
  | Z0 => 0
  | Zpos _ => round_pos q
  | Zneg _ => - round_pos (- q)
  end.

(** The numbers of binary64: [k * 2^j] with [|k| < 2^53] and
    [-1074 <= j]. *)
Definition representable (q : Q) : Prop :=
  ∃ k j, q == inject_Z k * 2 ^ j ∧ (Z.abs k < 2 ^ 53)%Z ∧ (-1074 <= j)%Z.

(** [q] is a float: rounding does not change it. *)
Definition is_float (q : Q) : Prop := round64 q == q.

(** [x + y], [x - y], [x * y] and [x / y] on floats. *)
Definition fadd (x y : Q) : Q := round64 (x + y).
Definition fsub (x y : Q) : Q := round64 (x - y).
Definition fmul (x y : Q) : Q := round64 (x * y).
Definition fdiv (x y : Q) : Q := round64 (x / y).

End Binary64.

(* ===================================================================== *)
(** ** api/throttling.py in binary64 *)
(* ===================================================================== *)

(** The token bucket with the arithmetic of the source: [time.time()],
    the refill rate and the token count are floats.  The capacity is a
    Python [int]; so is the token count of a new bucket, and an [int]
    below [2^53] is turned into a float, and decremented, without
    rounding.  The cache keeps its own time: an entry lives for the
    timeout it was set with. *)
Module Throttling64.
Import Throttling Binary64.
Local Open Scope Q_scope.

(** [refill_rate = 10 / 60] and the like: the quotient of two [int]s,
    rounded. *)
Definition TokenBucketThrottle : Throttle :=
  {| capacity := 100; refill_rate := fdiv 10 60;
     cache_prefix := "throttle_bucket" |}.

Definition OrdersThrottle : Throttle :=
  {| capacity := 50; refill_rate := fdiv 50 60;
     cache_prefix := "throttle_orders" |}.

Definition ProductsThrottle : Throttle :=
  {| capacity := 100; refill_rate := fdiv 100 60;
     cache_prefix := "throttle_products" |}.

Definition ExportsThrottle : Throttle :=
  {| capacity := 10; refill_rate := fdiv 10 60;
     cache_prefix := "throttle_exports" |}.

Definition throttle_classes : list Throttle :=
  [TokenBucketThrottle; OrdersThrottle; ProductsThrottle; ExportsThrottle].

(** [allow_request(self, request, view)], with [current_time] the value
    of [time.time()]. *)
Definition allow_request (self : Throttle) (request : Request)
    (current_time : Q) (cache : gmap string CacheEntry)
    : bool * gmap string CacheEntry :=
  (* Get user identifier *)
  let ident := match user request with
               | Some u => "user_" +:+ pretty (user_id u)
               | None => remote_ident request
               end in
  (* Superusers bypass throttling *)
  if match user request with
     | Some u => user_is_superuser u
     | None => false
     end
  then (true, cache)
  else
    let cache_key := cache_prefix self +:+ ":" +:+ ident in
    match cache_get current_time cache_key cache with
    | None =>
        (* Initialize new bucket *)
        let bucket_data := {| tokens := capacity self - 1;
                              last_update := current_time |} in
        (true, cache_set current_time cache_key bucket_data 3600 cache)
    | Some bucket_data =>
        (* Calculate tokens to add based on time elapsed *)
        let time_elapsed := fsub current_time (last_update bucket_data) in
        let tokens_to_add := fmul time_elapsed (refill_rate self) in
        (* Update token count (capped at capacity) *)
        let new_tokens :=
          py_min (fadd (tokens bucket_data) tokens_to_add) (capacity self) in
        if Qle_bool 1 new_tokens then
          (true, cache_set current_time cache_key
                   {| tokens := fsub new_tokens 1;
                      last_update := current_time |} 3600 cache)
        else
          (false, cache_set current_time cache_key
                    {| tokens := new_tokens;
                       last_update := current_time |} 3600 cache)
    end.

(** [wait(self)] *)
Definition wait (self : Throttle) : option Q :=
  if Qlt_le_dec 0 (refill_rate self) then Some (fdiv 1 (refill_rate self))
  else None.

(** A sequence of calls through one throttle, each with the time it
    arrives at: the answers and the cache left. *)
Fixpoint allow_requests (self : Throttle) (calls : list (Request * Q))
    (cache : gmap string CacheEntry) : list bool * gmap string CacheEntry :=
  match calls with
  | [] => ([], cache)
  | (request, t) :: rest =>
      let '(ok, cache') := allow_request self request t cache in
      let '(oks, cache'') := allow_requests self rest cache' in
      (ok :: oks, cache'')
  end.

(** Calls to the endpoints, each through the throttle of its view. *)
Fixpoint serve (calls : list (Throttle * Request * Q))
    (cache : gmap string CacheEntry) : list bool * gmap string CacheEntry :=
  match calls with
  | [] => ([], cache)
  | (self, request, t) :: rest =>
      let '(ok, cache') := allow_request self request t cache in
      let '(oks, cache'') := serve rest cache' in
      (ok :: oks, cache'')
  end.

(** A reading of the clock: a float, seconds since the epoch. *)
Definition clock_reading (t : Q) : Prop := is_float t ∧ 0 <= t.

(** A throttle as a class of the module can define it: the capacity is
    an [int] of at least one token, below [2^53]; the refill rate is a
    float that is not negative. *)
Definition python_throttle (self : Throttle) : Prop :=
  (∃ C : Z, capacity self == inject_Z C ∧ (1 <= C < 2 ^ 53)%Z) ∧
  is_float (refill_rate self) ∧ 0 <= refill_rate self.

(** Such throttles, with prefixes that keep the buckets of two classes
    apart. *)
Definition well_configured (classes : list Throttle) : Prop :=
  Forall python_throttle classes ∧
  ∀ T U, T ∈ classes → U ∈ classes → T = U ∨ separate T U.

(** C2 as the specification states it: from a fresh bucket [C] calls at
    one reading of the clock are admitted, the next one is denied, and
    at any reading that is at least [1 / refill_rate] seconds later one
    more call is admitted and the calls that follow it at once are
    denied. *)
Definition one_more_after_any_wait (self : Throttle) (C : nat)
    (request : Request) : Prop :=
  ∀ (t0 t1 : Q) (n : nat),
    clock_reading t0 → clock_reading t1 →
    1 / refill_rate self <= t1 - t0 →
    fst (allow_requests self
           (replicate (C + 1) (request, t0)
            ++ replicate (S n) (request, t1)) ∅)
    = replicate C true ++ [false] ++ [true] ++ replicate n false.

(** The answers, within a run, to the calls that use the bucket of
    [key]. *)
Fixpoint answers_on (self : Throttle) (key : string)
    (calls : list (Request * Q)) (cache : gmap string CacheEntry)
    : list bool :=
  match calls with
  | [] => []
  | (request, t) :: rest =>
      let '(ok, cache') := allow_request self request t cache in
      if decide (cache_key_of self request = key)
      then ok :: answers_on self key rest cache'
      else answers_on self key rest cache'
  end.

(** C4 as the specification states it: whatever the calls and the
    readings of the clock, the token counts of the stored buckets are
    within the bounds. *)
Definition always_within_bounds (self : Throttle) : Prop :=
  ∀ (calls : list (Request * Q)),
    Forall (λ c, clock_reading (snd c)) calls →
    tokens_within_bounds self (snd (allow_requests self calls ∅)).

End Throttling64.

(* ===================================================================== *)
(** ** Reading a quoted CSV document *)
(* ===================================================================== *)

(** The grammar of RFC 4180 for documents whose fields are all quoted,
    with the line feed as record separator: a field is enclosed in double
    quotes, a double quote inside a field is written twice, fields are
    separated by commas and records by line feeds; commas and line feeds
    inside the quotes belong to the field. *)
Module Csv.
Import Tasks.

Inductive ReaderState :=
| FieldStart      (* a field must open here *)
| InField         (* inside the quotes *)
| AfterQuote.     (* a quote was read inside a field: closing, or the
                     first half of a doubled quote *)

Definition snoc_char (field : string) (c : ascii) : string :=
  field +:+ String c EmptyString.

(** [read st field row rows s]: [rows] are the records completed so far,
    [row] the fields completed in the current record, [field] the
    characters of the current field, [s] what is left to read. *)
Fixpoint read (st : ReaderState) (field : string) (row : list string)
    (rows : list (list string)) (s : string) : option (list (list string)) :=
  match s with
  | EmptyString =>
      match st with
      | FieldStart => match row with [] => Some rows | _ => None end
      | InField => None
      | AfterQuote => Some (rows ++ [row ++ [field]])
      end
  | String c s' =>
      match st with
      | FieldStart =>
          if decide (c = dquote_char)
          then read InField EmptyString row rows s'
          else None
      | InField =>
          if decide (c = dquote_char)
          then read AfterQuote field row rows s'
          else read InField (snoc_char field c) row rows s'
      | AfterQuote =>
          if decide (c = dquote_char)
          then read InField (snoc_char field c) row rows s'
          else if decide (c = comma_char)
          then read FieldStart EmptyString (row ++ [field]) rows s'
          else if decide (c = newline_char)
          then read FieldStart EmptyString [] (rows ++ [row ++ [field]]) s'
          else None
      end
  end.

Definition read_csv (s : string) : option (list (list string)) :=
  read FieldStart EmptyString [] [] s.

(** The document follows the grammar. *)
Definition well_formed (s : string) : Prop := is_Some (read_csv s).

(** The number of double quotes in a string. *)
Fixpoint count_dquote (s : string) : nat :=
  match s with
  | EmptyString => 0
  | String c s' => (if decide (c = dquote_char) then 1 else 0) + count_dquote s'
  end.

Definition has_dquote (s : string) : Prop := (0 < count_dquote s)%nat.

(** The texts of the cells of a table. *)
Definition cells_text (content : list (list Cell)) : list (list string) :=
  map (map cell_str) content.

Definition no_dquote_in (content : list (list Cell)) : Prop :=
  Forall (Forall (λ c, count_dquote (cell_str c) = 0%nat)) content.

(** The double quotes a reader consumes for a field it hands back: the
    two around it and two for each quote inside; and the double quotes it
    has consumed for the field it is in. *)
Definition field_quotes (f : string) : nat := 2 + 2 * count_dquote f.

Fixpoint row_quotes (row : list string) : nat :=
  match row with
  | [] => 0
  | f :: row' => field_quotes f + row_quotes row'
  end.

Fixpoint rows_quotes (rows : list (list string)) : nat :=
  match rows with
  | [] => 0
  | row :: rows' => row_quotes row + rows_quotes rows'
  end.

Definition open_quotes (st : ReaderState) (field : string) : nat :=
  match st with
  | FieldStart => 0
  | InField => 1 + 2 * count_dquote field
  | AfterQuote => 2 + 2 * count_dquote field
  end.

(** The double quotes the writer puts out for a table: two around each
    cell and the ones of the cell, as they are. *)
Fixpoint row_written_quotes (row : list Cell) : nat :=
  match row with
  | [] => 0
  | c :: row' => 2 + count_dquote (cell_str c) + row_written_quotes row'
  end.

Fixpoint written_quotes (content : list (list Cell)) : nat :=
  match content with
  | [] => 0
  | row :: content' => row_written_quotes row + written_quotes content'
  end.

(** C10 as the specification states it: the artifact follows the
    grammar exactly when no cell has a double quote. *)
Definition well_formed_iff_no_dquote (content : list (list Cell)) : Prop :=
  well_formed (csv_string content) ↔ no_dquote_in content.

End Csv.

(* ===================================================================== *)
(** ** Sample data *)
(* ===================================================================== *)

Module Sample.
Import Models Job Tasks.

Definition at_second (h m s : Z) : datetime :=
  {| year := 2024; month := 3; day := 9;
     hour := h; minute := m; second := s; microsecond := 0 |}.

Definition acme : Company :=
  {| company_name := "Acme"; company_domain := "acme";
     company_is_active := true |}.

Definition globex : Company :=
  {| company_name := "Globex"; company_domain := "globex";
     company_is_active := true |}.

Definition alice : User := {| username := "alice"; is_superuser := false |}.
Definition bob : User := {| username := "bob"; is_superuser := false |}.

Definition alice_profile : Profile :=
  {| profile_user_id := 1; profile_company_id := 1;
     role := "operator"; is_blocked := false;
     profile_created_at := at_second 7 0 0;
     profile_updated_at := at_second 7 0 0 |}.

Definition bob_profile : Profile :=
  {| profile_user_id := 2; profile_company_id := 2;
     role := "admin"; is_blocked := false;
     profile_created_at := at_second 7 0 0;
     profile_updated_at := at_second 7 0 0 |}.

Definition widget : Product :=
  {| sku := "W-1"; product_name := "Widget"; stock_quantity := 10;
     product_company_id := 1; product_is_active := true;
     product_created_at := at_second 8 0 0;
     product_updated_at := at_second 8 0 0 |}.

Definition gadget : Product :=
  {| sku := "G-1"; product_name := "Gadget"; stock_quantity := 3;
     product_company_id := 2; product_is_active := true;
     product_created_at := at_second 8 0 0;
     product_updated_at := at_second 8 0 0 |}.

Definition mk_order (ref : string) (prod qty : Z) (st : OrderStatus)
    (by_ : Z) (processed : bool) (t : datetime) : Order :=
  {| reference_code := ref; product_id := prod; quantity := qty;
     status := st; created_by_id := by_; has_been_processed := processed;
     created_at := t; updated_at := t |}.

Definition order1 : Order :=
  mk_order "ORD-0000000A" 1 6 Pending 1 false (at_second 9 0 0).
Definition order2 : Order :=
  mk_order "ORD-0000000B" 1 6 Pending 1 false (at_second 9 0 1).
Definition order3 : Order :=
  mk_order "ORD-0000000C" 2 1 Failed 2 true (at_second 9 0 2).

Definition export1 : Export :=
  {| requested_by_id := 1; export_created_at := at_second 10 0 0;
     export_status := ExportPending; file := None; note := EmptyString |}.

Definition db0 : Db :=
  {| companies := {[ 1 := acme; 2 := globex ]};
     users := {[ 1 := alice; 2 := bob ]};
     profiles := {[ 1 := alice_profile; 2 := bob_profile ]};
     products := {[ 1 := widget; 2 := gadget ]};
     orders := {[ 1 := order1; 2 := order2; 3 := order3 ]};
     exports := {[ 1 := export1 ]};
     files := ∅ |}.

Definition both_reach_approval : list (ProcessEnv * Order) :=
  [({| draw := 0;
       clock_processing := at_second 9 1 0;
       clock_stock := at_second 9 1 2;
       clock_done := at_second 9 1 2 |}, order1);
   ({| draw := 1;
       clock_processing := at_second 9 1 0;
       clock_stock := at_second 9 1 3;
       clock_done := at_second 9 1 3 |}, order2)].

Definition env_approve : ProcessEnv :=
  {| draw := 0;
     clock_processing := at_second 9 1 0;
     clock_stock := at_second 9 1 2;
     clock_done := at_second 9 1 2 |}.

Definition env_reject : ProcessEnv :=
  {| draw := 9007199254740991;
     clock_processing := at_second 9 1 0;
     clock_stock := at_second 9 1 2;
     clock_done := at_second 9 1 2 |}.

(** A catalogue whose widget has a name with a doubled double quote. *)
Definition widget_doubled_quote : Product :=
  {| sku := "W-1";
     product_name := "Widget 19" +:+ dquote +:+ dquote;
     stock_quantity := 10;
     product_company_id := 1; product_is_active := true;
     product_created_at := at_second 8 0 0;
     product_updated_at := at_second 8 0 0 |}.

Definition db_doubled_quote : Db :=
  db_set_products {[ 1 := widget_doubled_quote; 2 := gadget ]} db0.

(** A storage that keeps the name it is asked for, and one whose
    failure carries no text (an exception raised without arguments, as
    [OSError()], has the empty [str]). *)
Definition storage_keeps_name : ExportEnv :=
  {| storage_outcome := λ name, inr name |}.

Definition storage_fails_silently : ExportEnv :=
  {| storage_outcome := λ _, inl EmptyString |}.

(** A client of the orders endpoints. *)
Definition operator_request : Throttling.Request :=
  {| Throttling.user :=
       Some {| Throttling.user_id := 7;
               Throttling.user_is_superuser := false |};
     Throttling.remote_ident := "10.0.0.1" |}.

End Sample.


(* ===================================================================== *)
(** ** Runs of the rate limiter *)
(* ===================================================================== *)

Module ThrottleRuns.
Import Throttling.
Local Open Scope Q_scope.

(** The calls of one client at the given times. *)
Definition calls_at (request : Request) (times : list Q) : list (Request * Q) :=
  map (λ t, (request, t)) times.

(** What a call at [t] finds in the bucket of [key] after the refill: the
    capacity when the bucket is absent or expired. *)
Definition tokens_found (self : Throttle) (key : string) (t : Q)
    (cache : gmap string CacheEntry) : Q :=
  match cache_get t key cache with
  | None => capacity self
  | Some b => py_min (tokens b + (t - last_update b) * refill_rate self)
                     (capacity self)
  end.

(** The calls of a run that use the bucket of [key], and the answers
    they get within the run. *)
Definition calls_on (self : Throttle) (key : string)
    (calls : list (Request * Q)) : list (Request * Q) :=
  filter (λ c, cache_key_of self (fst c) = key) calls.

Fixpoint answers_on (self : Throttle) (key : string)
    (calls : list (Request * Q)) (cache : gmap string CacheEntry)
    : list bool :=
  match calls with
  | [] => []
  | (request, t) :: rest =>
      let '(ok, cache') := allow_request self request t cache in
      if decide (cache_key_of self request = key)
      then ok :: answers_on self key rest cache'
      else answers_on self key rest cache'
  end.

(** The bucket of the key, when there is one, has no negative count, is
    not stamped later than [t] and expires an hour after its stamp (as
    every bucket that [allow_request] stores does). *)
Definition entry_ok (cache : gmap string CacheEntry) (key : string) (t : Q)
    : Prop :=
  ∀ e, cache !! key = Some e →
    0 <= tokens (entry_value e) ∧ last_update (entry_value e) <= t ∧
    expires_at e = last_update (entry_value e) + 3600.

End ThrottleRuns.

(* ===================================================================== *)
(** ** Runs of the task and of the retry action, one after the other *)
(* ===================================================================== *)

Module Pipeline.
Import Models Job Tasks Views.

(** The database a run leaves. *)
Definition db_after {A} (c : M A) (d : Db) : Db := db (snd (run c d)).

(** The stock of a product row. *)
Definition stock_of (d : Db) (pid : Z) : option Z :=
  stock_quantity <$> products d !! pid.

(** Runs of [process_order] for the same order, one after the other. *)
Fixpoint process_repeatedly (envs : list ProcessEnv) (id : Z) (d : Db) : Db :=
  match envs with
  | [] => d
  | env :: rest => process_repeatedly rest id (db_after (process_order env id) d)
  end.

(** Whether the log shows the task queued for order [id]. *)
Definition queued (id : Z) (l : list Effect) : bool :=
  existsb (λ ev, match ev with
                 | TaskQueued (ProcessOrderTask i) => bool_decide (i = id)
                 | _ => false
                 end) l.

(** The life of an order: the queued task runs, then the retry action is
    called; an accepted retry queues the task again, which opens the next
    round. *)
Fixpoint retry_rounds (rounds : list (ProcessEnv * datetime)) (id : Z)
    (d : Db) : Db :=
  match rounds with
  | [] => d
  | (env, now) :: rest =>
      let w := snd (run (retry now id) (db_after (process_order env id) d)) in
      if queued id (log w)
      then retry_rounds rest id (db w)
      else db w
  end.

End Pipeline.

(* ===================================================================== *)
(** ** api/serializers.py: the reference code of a new order *)
(* ===================================================================== *)

Module ReferenceCode.

(** [uuid.uuid4()]: sixteen random bytes read as a 128-bit integer, in
    which [UUID.__init__] then sets the variant and the version. *)
Definition uuid4 (random : Z) : Z :=
  let int := Z.land random (Z.lnot (Z.shiftl 0xc000 48)) in
  let int := Z.lor int (Z.shiftl 0x8000 48) in
  let int := Z.land int (Z.lnot (Z.shiftl 0xf000 64)) in
  Z.lor int (Z.shiftl 4 76).

Definition hex_digit (n : Z) : ascii :=
  if n <? 10 then ascii_of_nat (Z.to_nat (48 + n))
  else ascii_of_nat (Z.to_nat (97 + (n - 10))).

(** The [k] low hexadecimal digits of [n], the most significant first. *)
Fixpoint hex_digits (k : nat) (n : Z) : string :=
  match k with
  | O => EmptyString
  | S k' => String (hex_digit ((n / 16 ^ Z.of_nat k') mod 16)) (hex_digits k' n)
  end.

(** [UUID.hex]: ['%032x' % self.int] *)
Definition hex (u : Z) : string := hex_digits 32 u.

(** [str.upper()], on the characters of ASCII. *)
Definition upper_char (c : ascii) : ascii :=
  let n := nat_of_ascii c in
  if ((97 <=? n) && (n <=? 122))%nat then ascii_of_nat (n - 32) else c.

Fixpoint upper (s : string) : string :=
  match s with
  | EmptyString => EmptyString
  | String c s' => String (upper_char c) (upper s')
  end.

(** [f"ORD-{uuid.uuid4().hex[:8].upper()}"] *)
Definition reference_code_of (u : Z) : string :=
  "ORD-" +:+ upper (String.substring 0 8 (hex u)).

(** A character of an upper-case hexadecimal numeral. *)
Definition is_upper_hex (c : ascii) : bool :=
  let n := nat_of_ascii c in
  ((48 <=? n) && (n <=? 57) || (65 <=? n) && (n <=? 70))%nat.

Fixpoint all_chars (f : ascii → bool) (s : string) : bool :=
  match s with
  | EmptyString => true
  | String c s' => f c && all_chars f s'
  end.

End ReferenceCode.

(* ===================================================================== *)
(** ** api/permissions.py and the querysets of api/views.py *)
(* ===================================================================== *)

Module Api.
Import Models Job Tasks Views ReferenceCode.

(** Reads of related rows outside a job: the row, or the exception
    [DoesNotExist] of the model. *)
Global Instance exn_ret : MRet (sum Exn) := λ A (a : A), inr a.
Global Instance exn_bind : MBind (sum Exn) := λ A B (f : A → Exn + B) c,
  match c with
  | inl e => inl e
  | inr a => f a
  end.

Definition fetch {R} (m : ModelName) (table : gmap Z R) (id : Z) : Exn + R :=
  match table !! id with
  | Some r => inr r
  | None => inl (DoesNotExist m)
  end.

Definition lift {A} (c : Exn + A) : M A := λ w, (c, w).

Inductive Method := GET | HEAD | OPTIONS | POST | PUT | PATCH | DELETE.

Global Instance Method_eq_dec : EqDecision Method.
Proof. solve_decision. Defined.

(** [permissions.SAFE_METHODS] *)
Definition SAFE_METHODS : list Method := [GET; HEAD; OPTIONS].

(** What the permission classes and the views read of a request:
    [request.user], the id of the user row or [None] for the anonymous
    user, and [request.method]. *)
Record HttpRequest := {
  request_user : option Z;
  request_method : Method
}.

(** [user.profile], the reverse side of [Profile.user]: the profile row
    with its id, or nothing, in which case [hasattr(user, 'profile')] is
    false. *)
Definition profile_of (d : Db) (uid : Z) : option (Z * Profile) :=
  snd <$> list_find (λ ip, profile_user_id (snd ip) = uid)
                    (map_to_list (profiles d)).

Definition user_profile (d : Db) (request : HttpRequest) : option (Z * Profile) :=
  uid ← request_user request; profile_of d uid.

(** [profile.company]: the related row is read; model instances compare
    by primary key. *)
Definition company_of (d : Db) (profile : Profile) : Exn + Z :=
  _ ← fetch MCompany (companies d) (profile_company_id profile);
  mret (profile_company_id profile).

(* --------------------------------------------------------------------- *)
(** *** Permission classes *)

Inductive PermissionClass :=
| IsAuthenticated | IsCompanyMember | IsOperator | IsViewer | IsAdmin.

(** [rest_framework.permissions.IsAuthenticated] *)
Definition IsAuthenticated_has_permission (d : Db) (request : HttpRequest) : bool :=
  bool_decide (is_Some (request_user request)).

Definition IsCompanyMember_has_permission (d : Db) (request : HttpRequest) : bool :=
  match user_profile d request with
  | Some (_, profile) => negb (is_blocked profile)
  | None => false
  end.

Definition IsOperator_has_permission (d : Db) (request : HttpRequest) : bool :=
  match user_profile d request with
  | None => false
  | Some (_, profile) =>
      bool_decide (role profile ∈ ["operator"; "admin"])
      && negb (is_blocked profile)
  end.

Definition IsViewer_has_permission (d : Db) (request : HttpRequest) : bool :=
  match user_profile d request with
  | None => false
  | Some (_, profile) =>
      (* Viewers can only perform safe methods (GET, HEAD, OPTIONS) *)
      if bool_decide (request_method request ∈ SAFE_METHODS)
      then negb (is_blocked profile)
      else false
  end.

Definition IsAdmin_has_permission (d : Db) (request : HttpRequest) : bool :=
  match user_profile d request with
  | None => false
  | Some (_, profile) =>
      bool_decide (role profile = "admin") && negb (is_blocked profile)
  end.

Definition has_permission (c : PermissionClass) : Db → HttpRequest → bool :=
  match c with
  | IsAuthenticated => IsAuthenticated_has_permission
  | IsCompanyMember => IsCompanyMember_has_permission
  | IsOperator => IsOperator_has_permission
  | IsViewer => IsViewer_has_permission
  | IsAdmin => IsAdmin_has_permission
  end.

(** The objects of the three viewsets. *)
Inductive Obj :=
| ObjProduct (p : Product)
| ObjOrder (o : Order)
| ObjExport (e : Export).

Definition IsCompanyMember_has_object_permission (d : Db)
    (request : HttpRequest) (obj : Obj) : Exn + bool :=
  match user_profile d request with
  | None => mret false
  | Some (_, profile) =>
      user_company ← company_of d profile;
      (* Check based on object type *)
      match obj with
      | ObjProduct p =>
          (* hasattr(obj, 'company') *)
          _ ← fetch MCompany (companies d) (product_company_id p);
          mret (bool_decide (product_company_id p = user_company))
      | ObjOrder o =>
          (* hasattr(obj, 'product') *)
          p ← fetch MProduct (products d) (product_id o);
          _ ← fetch MCompany (companies d) (product_company_id p);
          mret (bool_decide (product_company_id p = user_company))
      | ObjExport e =>
          (* hasattr(obj, 'requested_by') *)
          pr ← fetch MProfile (profiles d) (requested_by_id e);
          _ ← fetch MCompany (companies d) (profile_company_id pr);
          mret (bool_decide (profile_company_id pr = user_company))
      end
  end.

(** [BasePermission.has_object_permission] answers [True]; only
    [IsCompanyMember] overrides it. *)
Definition has_object_permission (c : PermissionClass) (d : Db)
    (request : HttpRequest) (obj : Obj) : Exn + bool :=
  match c with
  | IsCompanyMember => IsCompanyMember_has_object_permission d request obj
  | _ => mret true
  end.

(** [permission_classes] of the viewsets. *)
Definition ProductViewSet_permission_classes : list PermissionClass :=
  [IsAuthenticated; IsCompanyMember].
Definition OrderViewSet_permission_classes : list PermissionClass :=
  [IsAuthenticated; IsCompanyMember; IsOperator].
Definition ExportViewSet_permission_classes : list PermissionClass :=
  [IsAuthenticated; IsCompanyMember].

(** [APIView.check_permissions]: the request passes when every class
    grants it. *)
Definition check_permissions (classes : list PermissionClass) (d : Db)
    (request : HttpRequest) : bool :=
  forallb (λ c, has_permission c d request) classes.

(** [APIView.check_object_permissions] *)
Fixpoint check_object_permissions (classes : list PermissionClass) (d : Db)
    (request : HttpRequest) (obj : Obj) : Exn + bool :=
  match classes with
  | [] => mret true
  | c :: rest =>
      ok ← has_object_permission c d request obj;
      if (ok : bool) then check_object_permissions rest d request obj
      else mret false
  end.

(* --------------------------------------------------------------------- *)
(** *** Querysets

    A queryset is taken as the rows it selects, a part of the table; the
    order in which the rows come plays no part in what follows. *)

Definition ProductViewSet_get_queryset (d : Db) (request : HttpRequest)
    : Exn + gmap Z Product :=
  match user_profile d request with
  | Some (_, profile) =>
      company ← company_of d profile;
      mret (filter (λ ip, product_company_id (snd ip) = company
                          ∧ product_is_active (snd ip) = true) (products d))
  | None => mret ∅
  end.

Definition OrderViewSet_get_queryset (d : Db) (request : HttpRequest)
    : Exn + gmap Z Order :=
  match user_profile d request with
  | None => mret ∅
  | Some (profile_id, profile) =>
      if decide (role profile = "admin") then
        company ← company_of d profile;
        mret (filter (λ io, product_company_id <$> products d !! product_id (snd io)
                            = Some company) (orders d))
      else if decide (role profile = "operator") then
        mret (filter (λ io, created_by_id (snd io) = profile_id) (orders d))
      else mret ∅
  end.

Definition ExportViewSet_get_queryset (d : Db) (request : HttpRequest)
    : Exn + gmap Z Export :=
  match user_profile d request with
  | Some (_, profile) =>
      company ← company_of d profile;
      mret (filter (λ ie, profile_company_id <$> profiles d !! requested_by_id (snd ie)
                          = Some company) (exports d))
  | None => mret ∅
  end.

(** How a request ends that does not reach the body of the action:
    [Http404] from [get_object_or_404], a denial from the permission
    checks. *)
Inductive Outcome (A : Type) :=
| Done (a : A)
| Http404
| PermissionDenied.
Global Arguments Done {A} a.
Global Arguments Http404 {A}.
Global Arguments PermissionDenied {A}.

(** [GenericAPIView.get_object]: the row with the primary key among the
    rows of [get_queryset()], then the object permissions. *)
Definition OrderViewSet_get_object (d : Db) (request : HttpRequest) (pk : Z)
    : Exn + Outcome Order :=
  queryset ← OrderViewSet_get_queryset d request;
  match queryset !! pk with
  | None => mret Http404
  | Some order =>
      ok ← check_object_permissions OrderViewSet_permission_classes d request
             (ObjOrder order);
      mret (if (ok : bool) then Done order else PermissionDenied)
  end.

(** A request to [POST /api/orders/<pk>/retry/]: the permissions of the
    viewset, [get_object], then the body of the action. *)
Definition OrderViewSet_retry (now : datetime) (request : HttpRequest)
    (pk : Z) : M (Outcome Response) :=
  d ← get_db;
  if negb (check_permissions OrderViewSet_permission_classes d request)
  then mret PermissionDenied
  else
    obj ← lift (OrderViewSet_get_object d request pk);
    match obj with
    | Done _ => resp ← retry now pk; mret (Done resp)
    | Http404 => mret Http404
    | PermissionDenied => mret PermissionDenied
    end.

(* --------------------------------------------------------------------- *)
(** *** Creating orders *)

(** What the creation of an order reads from outside: the random number
    behind [uuid.uuid4()], the clock (read once for [created_at], which
    has [auto_now_add], and once more for [updated_at], which has
    [auto_now]), and the text of the database's [IntegrityError] when the
    reference code is taken. *)
Record CreateEnv := {
  uuid_random : Z;
  create_clock : datetime;
  create_clock_updated : datetime;
  integrity_error : string
}.

(** The primary key the database gives a new row. *)
Definition next_id {R} (table : gmap Z R) : Z :=
  1 + foldr Z.max 0 (fst <$> map_to_list table).

(** [OrderSerializer.validate_product]: the text of the
    [ValidationError], or the value. *)
Definition validate_product (d : Db) (request : HttpRequest)
    (value : Z * Product) : Exn + (string + Z * Product) :=
  match user_profile d request with
  | Some (_, profile) =>
      _ ← fetch MCompany (companies d) (product_company_id (snd value));
      company ← company_of d profile;
      if decide (product_company_id (snd value) ≠ company)
      then mret (inl "Product does not belong to your company.")
      else mret (inr value)
  | None => mret (inr value)
  end.

(** [Order.objects.create] on the validated data: [status] and
    [has_been_processed] take their defaults, [created_at] and
    [updated_at] the clock; [reference_code] is unique. *)
Definition Order_objects_create (env : CreateEnv) (code : string)
    (product quantity created_by : Z) : M (Z * Order) :=
  d ← get_db;
  if bool_decide (Exists (λ io, reference_code (snd io) = code)
                         (map_to_list (orders d)))
  then raise (BackendError (integrity_error env))
  else
    let id := next_id (orders d) in
    let o := {| reference_code := code; product_id := product;
                quantity := quantity; status := Pending;
                created_by_id := created_by; has_been_processed := false;
                created_at := create_clock env;
                updated_at := create_clock_updated env |} in
    effect (db_set_orders (<[id := o]> (orders d)) d) (OrderSaved id o);;
    mret (id, o).

(** [OrderSerializer.create(validated_data)], on the validated product
    and quantity. *)
Definition OrderSerializer_create (env : CreateEnv) (request : HttpRequest)
    (product quantity : Z) : M (Z * Order) :=
  (* Auto-generate reference code *)
  let code := reference_code_of (uuid4 (uuid_random env)) in
  (* Set created_by from request context *)
  d ← get_db;
  match user_profile d request with
  | None => raise (DoesNotExist MProfile)
  | Some (profile_id, _) =>
      Order_objects_create env code product quantity profile_id
  end.

(** [OrderViewSet.perform_create] *)
Definition perform_create (env : CreateEnv) (request : HttpRequest)
    (product quantity : Z) : M unit :=
  order ← OrderSerializer_create env request product quantity;
  (* Trigger Celery task for processing *)
  delay (ProcessOrderTask (fst order)).

(** [BulkOrderSerializer.create(validated_data)]: one environment per
    order of the list. *)
Fixpoint BulkOrderSerializer_create (request : HttpRequest)
    (orders_data : list (CreateEnv * (Z * Z))) : M (list (Z * Order)) :=
  match orders_data with
  | [] => mret []
  | (env, (product, quantity)) :: rest =>
      let code := reference_code_of (uuid4 (uuid_random env)) in
      d ← get_db;
      order ← match user_profile d request with
              | None => raise (DoesNotExist MProfile)
              | Some (profile_id, _) =>
                  Order_objects_create env code product quantity profile_id
              end;
      created_orders ← BulkOrderSerializer_create request rest;
      mret (order :: created_orders)
  end.

(** The loop [for order in orders: process_order.delay(order.id)]. *)
Fixpoint delay_all (ids : list Z) : M unit :=
  match ids with
  | [] => mret tt
  | id :: rest => delay (ProcessOrderTask id);; delay_all rest
  end.

(** [bulk_create] once the serializer is valid: the orders are created,
    then the tasks queued, one per order. *)
Definition bulk_create_valid (request : HttpRequest)
    (orders_data : list (CreateEnv * (Z * Z))) : M (list (Z * Order)) :=
  orders ← BulkOrderSerializer_create request orders_data;
  (* Trigger processing for each order *)
  delay_all (fst <$> orders);;
  mret orders.

(** The row of a new order. *)
Definition new_order (env : CreateEnv) (product quantity created_by : Z) : Order :=
  {| reference_code := reference_code_of (uuid4 (uuid_random env));
     product_id := product; quantity := quantity; status := Pending;
     created_by_id := created_by; has_been_processed := false;
     created_at := create_clock env;
     updated_at := create_clock_updated env |}.

(** The tasks a log shows queued, oldest first. *)
Definition queued_tasks (l : list Effect) : list TaskCall :=
  omap (λ ev, match ev with TaskQueued t => Some t | _ => None end) l.

(** Who sees an order: the users for whom it is among the rows of
    [OrderViewSet.get_queryset]. *)
Definition sees_order (d : Db) (request : HttpRequest) (id : Z) : Prop :=
  ∃ queryset, OrderViewSet_get_queryset d request = inr queryset
              ∧ is_Some (queryset !! id).

(* --------------------------------------------------------------------- *)
(** *** Feature toggles and the download of an export *)

(** A row of [CompanyFeatureToggle]. *)
Record FeatureToggle := {
  bulk_orders_enabled : bool;
  exports_enabled : bool;
  api_access_enabled : bool;
  csv_upload_enabled : bool
}.

(** The table of toggles is kept by company, a [gmap Z FeatureToggle]:
    [company] is one-to-one, so a company has at most one row,
    [company.feature_toggle].

    [CompanyFeatureToggle.objects.create(company=company)]: every field
    takes its default. *)
Definition new_feature_toggle : FeatureToggle :=
  {| bulk_orders_enabled := true; exports_enabled := true;
     api_access_enabled := true; csv_upload_enabled := true |}.

(** [HasFeatureEnabled.has_permission], for a view whose [feature_name]
    attribute is [feature_name] ([None] when the view has none): the
    answer and the table of toggles it leaves. *)
Definition HasFeatureEnabled_has_permission (feature_name : option string)
    (d : Db) (toggles : gmap Z FeatureToggle) (request : HttpRequest)
    : Exn + (bool * gmap Z FeatureToggle) :=
  match user_profile d request with
  | None => mret (false, toggles)
  | Some (_, profile) =>
      company ← company_of d profile;
      (* Get feature toggle, create if doesn't exist *)
      let toggles :=
        match toggles !! company with
        | Some _ => toggles
        | None => <[company := new_feature_toggle]> toggles
        end in
      let feature_toggle := default new_feature_toggle (toggles !! company) in
      (* Check specific feature based on view's feature_name attribute *)
      mret (if decide (feature_name = Some "bulk_orders")
            then bulk_orders_enabled feature_toggle
            else if decide (feature_name = Some "exports")
            then exports_enabled feature_toggle
            else if decide (feature_name = Some "api_access")
            then api_access_enabled feature_toggle
            else if decide (feature_name = Some "csv_upload")
            then csv_upload_enabled feature_toggle
            else true,
            toggles)
  end.

(** The check that [bulk_create] and [download] make themselves: the
    feature is off when the company has a toggle row that says so. *)
Definition feature_disabled (field : FeatureToggle → bool) (toggles : gmap Z FeatureToggle)
    (d : Db) (request : HttpRequest) : Exn + bool :=
  match user_profile d request with
  | Some (_, profile) =>
      company ← company_of d profile;
      mret (match toggles !! company with
            | Some toggle => negb (field toggle)
            | None => false
            end)
  | None => mret false
  end.

(** What [bulk_create] answers: 403, 201 with the orders, or 400. *)
Inductive BulkResponse :=
| BulkDisabled
| BulkCreated (orders : list (Z * Order))
| BulkInvalid.

(** [OrderViewSet.bulk_create(request)], after the permissions.  The
    validated data of the serializer is [Some] list of items when
    [serializer.is_valid()], [None] otherwise. *)
Definition bulk_create (toggles : gmap Z FeatureToggle) (request : HttpRequest)
    (validated : option (list (CreateEnv * (Z * Z)))) : M BulkResponse :=
  d ← get_db;
  (* Check feature toggle *)
  disabled ← lift (feature_disabled bulk_orders_enabled toggles d request);
  if (disabled : bool) then mret BulkDisabled
  else
    match validated with
    | Some orders_data =>
        orders ← bulk_create_valid request orders_data;
        mret (BulkCreated orders)
    | None => mret BulkInvalid
    end.

(** Whether a feature is on for a company: it is, unless a toggle row
    says otherwise. *)
Definition feature_enabled (field : FeatureToggle → bool) (toggles : gmap Z FeatureToggle)
    (company : Z) : bool :=
  match toggles !! company with
  | Some toggle => field toggle
  | None => true
  end.

(** The features [HasFeatureEnabled] knows by name. *)
Definition named_features : list (string * (FeatureToggle → bool)) :=
  [("bulk_orders", bulk_orders_enabled); ("exports", exports_enabled);
   ("api_access", api_access_enabled); ("csv_upload", csv_upload_enabled)].

Definition export_status_str (s : ExportStatus) : string :=
  match s with
  | ExportPending => "pending"
  | ExportReady => "ready"
  | ExportFailed => "failed"
  end.

Definition HTTP_403_FORBIDDEN : Z := 403.
Definition HTTP_404_NOT_FOUND : Z := 404.

Definition ExportViewSet_get_object (d : Db) (request : HttpRequest) (pk : Z)
    : Exn + Outcome Export :=
  queryset ← ExportViewSet_get_queryset d request;
  match queryset !! pk with
  | None => mret Http404
  | Some export =>
      ok ← check_object_permissions ExportViewSet_permission_classes d request
             (ObjExport export);
      mret (if (ok : bool) then Done export else PermissionDenied)
  end.

(** What [download] answers: a JSON response, or the file with its
    [Content-Disposition]. *)
Inductive DownloadResponse :=
| Json (r : Response)
| FileResponse (content : string) (content_disposition : string).

(** [ExportViewSet.download(request, pk)], after the permissions of the
    viewset.  Opening the file fails when the storage has nothing under
    its name. *)
Definition download (toggles : gmap Z FeatureToggle) (d : Db) (request : HttpRequest)
    (pk : Z) : Exn + Outcome DownloadResponse :=
  obj ← ExportViewSet_get_object d request pk;
  match obj with
  | Http404 => mret Http404
  | PermissionDenied => mret PermissionDenied
  | Done export =>
      (* Check feature toggle *)
      disabled ← feature_disabled exports_enabled toggles d request;
      if (disabled : bool) then
        mret (Done (Json {| status_code := HTTP_403_FORBIDDEN;
                            data := [("error",
                                      "Exports are disabled for your company")] |}))
      else if negb (bool_decide (export_status export = ExportReady)) then
        mret (Done (Json {| status_code := HTTP_400_BAD_REQUEST;
                            data := [("error",
                                      "Export is not ready. Current status: "
                                      +:+ export_status_str (export_status export))] |}))
      else
        match file export with
        | None =>
            mret (Done (Json {| status_code := HTTP_404_NOT_FOUND;
                                data := [("error", "Export file not found")] |}))
        | Some name =>
            if decide (name = EmptyString) then
              mret (Done (Json {| status_code := HTTP_404_NOT_FOUND;
                                  data := [("error", "Export file not found")] |}))
            else
              match files d !! name with
              | Some content =>
                  mret (Done (FileResponse content
                                ("attachment; filename=" +:+
                                 quoted ("export_" +:+ pretty pk +:+ ".csv"))))
              | None => mret Http404
              end
        end
  end.

(** A profile that is not blocked stands behind the request. *)
Definition member (d : Db) (request : HttpRequest) (pid : Z) (pr : Profile) : Prop :=
  user_profile d request = Some (pid, pr) ∧ is_blocked pr = false.

End Api.

Module ApiSample.
Import Models Api.

(** Alice, operator of Acme, and Bob, admin of Globex. *)
Definition alice_request : HttpRequest :=
  {| request_user := Some 1; request_method := POST |}.
Definition bob_request : HttpRequest :=
  {| request_user := Some 2; request_method := POST |}.

Definition create_env' : CreateEnv :=
  {| uuid_random := 0x0123456789abcdef0123456789abcdef;
     create_clock := Sample.at_second 12 0 1;
     create_clock_updated := Sample.at_second 12 0 1;
     integrity_error := "UNIQUE constraint failed: core_order.reference_code" |}.

Definition create_env : CreateEnv :=
  {| uuid_random := 0xabcdef129abcdef0123456789abcdef0;
     create_clock := Sample.at_second 12 0 0;
     create_clock_updated := Sample.at_second 12 0 0;
     integrity_error := "UNIQUE constraint failed: core_order.reference_code" |}.

End ApiSample.

(* ===================================================================== *)
(** ** core/admin.py *)
(* ===================================================================== *)

Module Admin.
Import Models Job Tasks Views Api.

(** [request.user.is_superuser]; the anonymous user is none. *)
Definition is_superuser_request (d : Db) (request : HttpRequest) : bool :=
  match request_user request with
  | Some uid =>
      match users d !! uid with
      | Some u => is_superuser u
      | None => false
      end
  | None => false
  end.

(* --------------------------------------------------------------------- *)
(** *** Querysets of the admin site *)

Definition ProductAdmin_get_queryset (d : Db) (request : HttpRequest)
    : Exn + gmap Z Product :=
  let qs := products d in
  if is_superuser_request d request then mret qs
  else
    match user_profile d request with
    | Some (_, profile) =>
        company ← company_of d profile;
        mret (filter (λ ip, product_company_id (snd ip) = company) qs)
    | None => mret ∅
    end.

Definition OrderAdmin_get_queryset (d : Db) (request : HttpRequest)
    : Exn + gmap Z Order :=
  let qs := orders d in
  if is_superuser_request d request then mret qs
  else
    match user_profile d request with
    | Some (profile_id, profile) =>
        if decide (role profile = "admin") then
          company ← company_of d profile;
          mret (filter (λ io, product_company_id
                                <$> products d !! product_id (snd io)
                              = Some company) qs)
        else if decide (role profile = "operator") then
          mret (filter (λ io, created_by_id (snd io) = profile_id) qs)
        else mret ∅
    | None => mret ∅
    end.

Definition ExportAdmin_get_queryset (d : Db) (request : HttpRequest)
    : Exn + gmap Z Export :=
  let qs := exports d in
  if is_superuser_request d request then mret qs
  else
    match user_profile d request with
    | Some (profile_id, profile) =>
        if decide (role profile = "operator") then
          (* Operators only see their own exports *)
          mret (filter (λ ie, requested_by_id (snd ie) = profile_id) qs)
        else
          (* Admins and viewers see all company exports *)
          company ← company_of d profile;
          mret (filter (λ ie, profile_company_id
                                <$> profiles d !! requested_by_id (snd ie)
                              = Some company) qs)
    | None => mret ∅
    end.

(** [ProductUploadAdmin.has_add_permission] *)
Definition has_add_permission (toggles : gmap Z FeatureToggle) (d : Db)
    (request : HttpRequest) : Exn + bool :=
  match user_profile d request with
  | None => mret false
  | Some (_, profile) =>
      company ← company_of d profile;
      (* Check if feature is enabled *)
      match toggles !! company with
      | Some toggle => mret (csv_upload_enabled toggle)
      | None => mret true  (* Default to True if no toggle exists *)
      end
  end.

(* --------------------------------------------------------------------- *)
(** *** Actions

    The queryset of an action is the list of the ids of the selected
    rows, in the order the queryset yields them. *)

(** [OrderAdmin.approve_orders]: one [UPDATE] statement, no [save()];
    the number of rows it matched and the database it leaves. *)
Definition approve_orders (queryset : list Z) (d : Db) : nat * Db :=
  let matched := λ (id : Z) (o : Order),
    bool_decide (id ∈ queryset) && bool_decide (status o = Pending) in
  let updated := length (filter (λ io, matched (fst io) (snd io) = true)
                                (map_to_list (orders d))) in
  (updated,
   db_set_orders
     (map_imap (λ id o, Some (if matched id o
                              then order_set_status Approved o else o))
               (orders d)) d).

(** The rows of [queryset.filter(status='failed', has_been_processed=True)]. *)
Definition failed_and_processed (d : Db) (queryset : list Z) : list (Z * Order) :=
  omap (λ id, o ← orders d !! id;
              if decide (status o = Failed ∧ has_been_processed o = true)
              then Some (id, o) else None) queryset.

(** The loop of [retry_failed_orders]; [now id] is the clock at the
    [save()] of order [id]. *)
Fixpoint retry_each (now : Z → datetime) (orders : list (Z * Order))
    (count : nat) : M nat :=
  match orders with
  | [] => mret count
  | (id, order) :: rest =>
      let order := order_set_status Pending order in
      let order := order_set_has_been_processed false order in
      order_save (now id) id order;;
      (* Trigger processing *)
      delay (ProcessOrderTask id);;
      retry_each now rest (count + 1)
  end.

(** [OrderAdmin.retry_failed_orders]: the number it reports. *)
Definition retry_failed_orders (now : Z → datetime) (queryset : list Z) : M nat :=
  d ← get_db;
  retry_each now (failed_and_processed d queryset) 0.

(** The retry action of the API for each id in turn, with the answers. *)
Fixpoint retry_all (now : Z → datetime) (ids : list Z) : M (list Response) :=
  match ids with
  | [] => mret []
  | id :: rest =>
      resp ← retry (now id) id;
      resps ← retry_all now rest;
      mret (resp :: resps)
  end.

Definition accepted (resps : list Response) : nat :=
  length (filter (λ r, status_code r = HTTP_200_OK) resps).

(** [OrderAdmin.export_selected_orders]: the id of the export it
    creates, if any. *)
Definition export_selected_orders (now : datetime) (request : HttpRequest)
    (queryset : list Z) : M (option Z) :=
  d ← get_db;
  match user_profile d request with
  | None => mret None
  | Some (profile_id, _) =>
      (* Create Export record *)
      let id := next_id (exports d) in
      let export := {| requested_by_id := profile_id;
                       export_created_at := now;
                       export_status := ExportPending;
                       file := None; note := EmptyString |} in
      export_save id export;;
      (* Get order IDs, trigger Celery task *)
      delay (GenerateExportTask id queryset);;
      mret (Some id)
  end.

(** The export row [export_selected_orders] creates. *)
Definition new_export (now : datetime) (profile_id : Z) : Export :=
  {| requested_by_id := profile_id; export_created_at := now;
     export_status := ExportPending; file := None; note := EmptyString |}.

Definition profile_set_is_blocked (b : bool) (p : Profile) : Profile :=
  {| profile_user_id := profile_user_id p;
     profile_company_id := profile_company_id p;
     role := role p; is_blocked := b;
     profile_created_at := profile_created_at p;
     profile_updated_at := profile_updated_at p |}.

Definition profile_set_updated_at (t : datetime) (p : Profile) : Profile :=
  {| profile_user_id := profile_user_id p;
     profile_company_id := profile_company_id p;
     role := role p; is_blocked := is_blocked p;
     profile_created_at := profile_created_at p;
     profile_updated_at := t |}.

Definition db_set_profiles (m : gmap Z Profile) (d : Db) : Db :=
  {| companies := companies d; users := users d; profiles := m;
     products := products d; orders := orders d; exports := exports d;
     files := files d |}.

(** [profile.orders.filter(status='failed').count()] *)
Definition failed_count (d : Db) (profile_id : Z) : nat :=
  length (filter (λ io, created_by_id (snd io) = profile_id
                        ∧ status (snd io) = Failed)
                 (map_to_list (orders d))).

(** [profile.save()]: [updated_at] has [auto_now=True], so the save stamps
    it with the current time; all the fields of the instance are written. *)
Definition profile_save (now : datetime) (id : Z) (p : Profile) (d : Db) : Db :=
  db_set_profiles (<[id := profile_set_updated_at now p]> (profiles d)) d.

(** [ProfileAdmin.deactivate_profiles_with_failed_orders]: the loop over
    the rows of the queryset, read when it starts; [now id] is the clock
    at the [save()] of profile [id].  The profile is saved whether it was
    blocked already or not. *)
Fixpoint deactivate_each (now : Z → datetime)
    (profiles_read : list (Z * Profile)) (d : Db) : Db :=
  match profiles_read with
  | [] => d
  | (id, profile) :: rest =>
      let d :=
        if bool_decide (3 ≤ failed_count d id)%nat
        then profile_save (now id) id (profile_set_is_blocked true profile) d
        else d in
      deactivate_each now rest d
  end.

Definition deactivate_profiles_with_failed_orders (now : Z → datetime)
    (queryset : list Z) (d : Db) : Db :=
  deactivate_each now
    (omap (λ id, pr ← profiles d !! id; Some (id, pr)) queryset) d.

(** The row the blocking action writes for a profile. *)
Definition blocked_at (t : datetime) (p : Profile) : Profile :=
  profile_set_updated_at t (profile_set_is_blocked true p).

(** The one-to-one field [Profile.user]: a user has at most one profile. *)
Definition one_profile_per_user (d : Db) : Prop :=
  ∀ i j p q, profiles d !! i = Some p → profiles d !! j = Some q →
             profile_user_id p = profile_user_id q → i = j.

(** A row is listed by a queryset. *)
Definition listed {R} (q : Exn + gmap Z R) (i : Z) (r : R) : Prop :=
  ∃ qs, q = inr qs ∧ qs !! i = Some r.

End Admin.

(* ===================================================================== *)
(** ** core/tasks.py: process_product_upload *)
(* ===================================================================== *)

Module Upload.
Import Models Job Tasks Api.

(** [ProductUpload.STATUS_CHOICES] *)
Inductive UploadStatus :=
| UploadPending | UploadProcessing | UploadCompleted | UploadFailed.

Global Instance UploadStatus_eq_dec : EqDecision UploadStatus.
Proof. solve_decision. Defined.

(** A row of [ProductUpload]: [file] is the name of the file in the
    storage. *)
Record ProductUpload := {
  upload_company_id : Z;
  upload_file : string;
  uploaded_by_id : Z;
  upload_status : UploadStatus;
  processed_count : Z;
  error_count : Z;
  errors_log : string;
  upload_updated_at : datetime
}.

(** A row as [csv.DictReader] yields it is a [dict], here a
    [gmap string (option string)]: the columns of the header with their
    values; a column the line was too short for has the value [None].

    What the task reads from outside the database: [str.strip] and
    [int] of Python ([int] answers the text of its [ValueError] when it
    refuses the numeral); the file of the upload as [csv.DictReader]
    yields it, which is either an exception while the file is read and
    decoded, or the rows, possibly followed by an exception of the reader
    in the middle of the file; the verdict of the database on the values
    of a product it is asked to write, which is the text of its exception
    when it refuses them (an integer outside the range of the column, a
    text longer than the column); and the clock: at each [save()], and
    once more for the [auto_now_add] stamp of a product that is
    created. *)
Record UploadEnv := {
  py_strip : string → string;
  py_int : string → string + Z;
  read_rows : string → string + (list (gmap string (option string)) * option string);
  database_refuses : string → string → Z → option string;
  clock_started : datetime;
  clock_row_created : Z → datetime;
  clock_row : Z → datetime;
  clock_finished : datetime
}.

Global Instance sum_ret {E} : MRet (sum E) := λ A (a : A), inr a.
Global Instance sum_bind {E} : MBind (sum E) := λ A B (f : A → E + B) c,
  match c with
  | inl e => inl e
  | inr a => f a
  end.

(** The database and the table of uploads. *)
Record UploadWorld := {
  up_db : Db;
  up_uploads : gmap Z ProductUpload
}.

(** [row.get(key, '').strip()]: the text, or that of the
    [AttributeError] when the value is [None].  The default [''] is its
    own [strip()]. *)
Definition row_get (env : UploadEnv) (row : gmap string (option string)) (key : string)
    : string + string :=
  match row !! key with
  | None => inr EmptyString
  | Some None => inl "'NoneType' object has no attribute 'strip'"
  | Some (Some v) => inr (py_strip env v)
  end.

(** Parse stock quantity: the inner [try], whose handler replaces any
    [ValueError] by its own. *)
Definition parse_stock (env : UploadEnv) (stock_quantity_str : string)
    : string + Z :=
  let attempt : string + Z :=
    stock_quantity ← py_int env stock_quantity_str;
    if stock_quantity <? 0
    then inl "Stock Quantity must be non-negative"
    else inr stock_quantity in
  match attempt with
  | inl _ => inl ("Invalid Stock Quantity: " +:+ stock_quantity_str)
  | inr stock_quantity => inr stock_quantity
  end.

(** [Product.objects.get(sku=...)]; [sku] is unique. *)
Definition product_by_sku (d : Db) (s : string) : option (Z * Product) :=
  snd <$> list_find (λ ip, sku (snd ip) = s) (map_to_list (products d)).

(** What [update_or_create] writes when the database accepts the
    values: the product with this SKU is updated, or a new one is
    created; the database left and whether the product was created.
    [created] and [now] are the clock readings for [created_at] and
    [updated_at]. *)
Definition write_product (created now : datetime) (sku_ name : string)
    (stock_quantity company : Z) (d : Db) : Db * bool :=
  match product_by_sku d sku_ with
  | Some (id, p) =>
      let p' := {| sku := sku p; product_name := name;
                   stock_quantity := stock_quantity;
                   product_company_id := company;
                   product_is_active := true;
                   product_created_at := product_created_at p;
                   product_updated_at := now |} in
      (db_set_products (<[id := p']> (products d)) d, false)
  | None =>
      let p' := {| sku := sku_; product_name := name;
                   stock_quantity := stock_quantity;
                   product_company_id := company;
                   product_is_active := true;
                   product_created_at := created;
                   product_updated_at := now |} in
      (db_set_products (<[next_id (products d) := p']> (products d)) d, true)
  end.

(** [Product.objects.update_or_create(sku=sku, defaults={...})]: the
    text of the exception of the database when it refuses the values
    (nothing is written then: the call runs in a transaction of its
    own), or the database it leaves and whether the product was
    created. *)
Definition update_or_create (env : UploadEnv) (row_num : Z)
    (sku_ name : string) (stock_quantity company : Z) (d : Db)
    : string + Db * bool :=
  match database_refuses env sku_ name stock_quantity with
  | Some msg => inl msg
  | None =>
      inr (write_product (clock_row_created env row_num)
             (clock_row env row_num) sku_ name stock_quantity company d)
  end.

(** The body of the [try] for one row: the text of the exception, or the
    database after the product is written. *)
Definition process_row (env : UploadEnv) (company : Z) (row_num : Z)
    (row : gmap string (option string)) (d : Db) : string + Db :=
  (* Validate required fields *)
  sku_ ← row_get env row "SKU";
  name ← row_get env row "Name";
  stock_quantity_str ← row_get env row "Stock Quantity";
  if decide (sku_ = EmptyString) then inl "SKU is required"
  else if decide (name = EmptyString) then inl "Name is required"
  else if decide (stock_quantity_str = EmptyString)
  then inl "Stock Quantity is required"
  else
    (* Parse stock quantity *)
    stock_quantity ← parse_stock env stock_quantity_str;
    (* Create or update product; [upload.company] reads the company *)
    match companies d !! company with
    | None => inl (exn_str (DoesNotExist MCompany))
    | Some _ =>
        product_created ← update_or_create env row_num sku_ name
                            stock_quantity company d;
        inr (fst product_created)
    end.

(** The state of the loop over the rows. *)
Record Progress := {
  progress_db : Db;
  progress_processed : Z;
  progress_errors : Z;
  progress_log : list string
}.

(** [for row_num, row in enumerate(csv_reader, start=...)] *)
Fixpoint process_rows (env : UploadEnv) (company : Z) (row_num : Z)
    (rows : list (gmap string (option string))) (st : Progress) : Progress :=
  match rows with
  | [] => st
  | row :: rest =>
      let st :=
        match process_row env company row_num row (progress_db st) with
        | inr d' =>
            {| progress_db := d';
               progress_processed := progress_processed st + 1;
               progress_errors := progress_errors st;
               progress_log := progress_log st |}
        | inl e =>
            {| progress_db := progress_db st;
               progress_processed := progress_processed st;
               progress_errors := progress_errors st + 1;
               progress_log := progress_log st
                               ++ ["Row " +:+ pretty row_num +:+ ": " +:+ e] |}
        end in
      process_rows env company (row_num + 1) rest st
  end.

Inductive UploadResult :=
| UploadDone (upload_id processed errors : Z)
| UploadNotFound (upload_id : Z)
| UploadError (msg : string).

Definition upload_result_str (r : UploadResult) : string :=
  match r with
  | UploadDone i p e =>
      "Upload " +:+ pretty i +:+ " completed: " +:+ pretty p
      +:+ " processed, " +:+ pretty e +:+ " errors"
  | UploadNotFound i => "Upload " +:+ pretty i +:+ " not found"
  | UploadError msg => "Error: " +:+ msg
  end.

(** [upload.save()], with the [auto_now] stamp. *)
Definition upload_save (now : datetime) (id : Z) (u : ProductUpload)
    (w : UploadWorld) : UploadWorld :=
  {| up_db := up_db w;
     up_uploads :=
       <[id := {| upload_company_id := upload_company_id u;
                  upload_file := upload_file u;
                  uploaded_by_id := uploaded_by_id u;
                  upload_status := upload_status u;
                  processed_count := processed_count u;
                  error_count := error_count u;
                  errors_log := errors_log u;
                  upload_updated_at := now |}]> (up_uploads w) |}.

Definition upload_set_status (s : UploadStatus) (u : ProductUpload) : ProductUpload :=
  {| upload_company_id := upload_company_id u; upload_file := upload_file u;
     uploaded_by_id := uploaded_by_id u; upload_status := s;
     processed_count := processed_count u; error_count := error_count u;
     errors_log := errors_log u; upload_updated_at := upload_updated_at u |}.

Definition upload_set_errors_log (l : string) (u : ProductUpload) : ProductUpload :=
  {| upload_company_id := upload_company_id u; upload_file := upload_file u;
     uploaded_by_id := uploaded_by_id u; upload_status := upload_status u;
     processed_count := processed_count u; error_count := error_count u;
     errors_log := l; upload_updated_at := upload_updated_at u |}.

Definition upload_set_counts (p e : Z) (u : ProductUpload) : ProductUpload :=
  {| upload_company_id := upload_company_id u; upload_file := upload_file u;
     uploaded_by_id := uploaded_by_id u; upload_status := upload_status u;
     processed_count := p; error_count := e;
     errors_log := errors_log u; upload_updated_at := upload_updated_at u |}.

(** The handler of [except Exception as e]: the row is read again, marked
    failed with the text of the exception, and saved. *)
Definition mark_upload_failed (env : UploadEnv) (upload_id : Z) (msg : string)
    (w : UploadWorld) : UploadResult * UploadWorld :=
  (UploadError msg,
   match up_uploads w !! upload_id with
   | Some upload =>
       let upload := upload_set_status UploadFailed upload in
       let upload := upload_set_errors_log msg upload in
       upload_save (clock_finished env) upload_id upload w
   | None => w
   end).

Definition process_product_upload (env : UploadEnv) (upload_id : Z)
    (w : UploadWorld) : UploadResult * UploadWorld :=
  match up_uploads w !! upload_id with
  | None => (UploadNotFound upload_id, w)
  | Some upload =>
      let upload := upload_set_status UploadProcessing upload in
      let w := upload_save (clock_started env) upload_id upload w in
      (* Read CSV file *)
      match read_rows env (upload_file upload) with
      | inl msg => mark_upload_failed env upload_id msg w
      | inr (rows, reader_error) =>
          let st := process_rows env (upload_company_id upload) 2 rows
                      {| progress_db := up_db w; progress_processed := 0;
                         progress_errors := 0; progress_log := [] |} in
          let w := {| up_db := progress_db st; up_uploads := up_uploads w |} in
          match reader_error with
          | Some msg => mark_upload_failed env upload_id msg w
          | None =>
              (* Update upload record *)
              let upload := upload_set_counts (progress_processed st)
                              (progress_errors st) upload in
              let upload := upload_set_errors_log
                              (String.concat newline (progress_log st)) upload in
              let upload := upload_set_status UploadCompleted upload in
              (UploadDone upload_id (progress_processed st) (progress_errors st),
               upload_save (clock_finished env) upload_id upload w)
          end
      end
  end.

(** The unique constraint on [Product.sku]. *)
Definition unique_skus (d : Db) : Prop :=
  ∀ i j p q, products d !! i = Some p → products d !! j = Some q →
             sku p = sku q → i = j.

(** A row the validation accepts, with the product data it carries. *)
Definition valid_row (env : UploadEnv) (row : gmap string (option string))
    (s name : string) (q : Z) : Prop :=
  row_get env row "SKU" = inr s ∧ s ≠ EmptyString ∧
  row_get env row "Name" = inr name ∧ name ≠ EmptyString ∧
  ∃ qs, row_get env row "Stock Quantity" = inr qs ∧ qs ≠ EmptyString ∧
        parse_stock env qs = inr q.

(** The messages a row can be refused with: the six of the task, and
    the text of the database when it refuses the values of a row that
    passed the validation. *)
Definition row_error (env : UploadEnv) (row : gmap string (option string)) (msg : string) : Prop :=
  msg = "'NoneType' object has no attribute 'strip'"
  ∨ msg = "SKU is required" ∨ msg = "Name is required"
  ∨ msg = "Stock Quantity is required"
  ∨ (∃ s, row_get env row "Stock Quantity" = inr s
          ∧ msg = "Invalid Stock Quantity: " +:+ s)
  ∨ msg = exn_str (DoesNotExist MCompany)
  ∨ (∃ s name q, valid_row env row s name q
                 ∧ database_refuses env s name q = Some msg).

(** A product as an accepted row leaves it. *)
Definition uploaded_product (company : Z) (p : Product) : Prop :=
  product_company_id p = company ∧ product_is_active p = true
  ∧ 0 ≤ stock_quantity p ∧ sku p ≠ EmptyString
  ∧ product_name p ≠ EmptyString.

(** What a run may do to the database: the products it touched are as
    an accepted row leaves them, the others and the other tables are as
    before. *)
Definition upload_effect (company : Z) (d d' : Db) : Prop :=
  companies d' = companies d ∧ users d' = users d ∧
  profiles d' = profiles d ∧ orders d' = orders d ∧
  exports d' = exports d ∧ files d' = files d ∧
  (∀ i p, products d !! i = Some p →
     ∃ p', products d' !! i = Some p' ∧ sku p' = sku p ∧
           product_created_at p' = product_created_at p ∧
           (p' = p ∨ uploaded_product company p')) ∧
  (∀ i p', products d' !! i = Some p' → products d !! i = None →
     uploaded_product company p').

(** A row the validation accepts and whose values the database
    accepts. *)
Definition accepted_row (env : UploadEnv) (row : gmap string (option string)) (s name : string)
    (q : Z) : Prop :=
  valid_row env row s name q ∧ database_refuses env s name q = None.

(** The product data of a row that passes the validation and that the
    database accepts. *)
Definition row_values (env : UploadEnv) (row : gmap string (option string))
    : option (string * string * Z) :=
  match row_get env row "SKU", row_get env row "Name",
        row_get env row "Stock Quantity" with
  | inr s, inr name, inr qs =>
      if decide (s = EmptyString) then None
      else if decide (name = EmptyString) then None
      else if decide (qs = EmptyString) then None
      else match parse_stock env qs with
           | inr q => match database_refuses env s name q with
                      | None => Some (s, name, q)
                      | Some _ => None
                      end
           | inl _ => None
           end
  | _, _, _ => None
  end.

(** The name and stock of the last row of the file that passes the
    validation with SKU [s]. *)
Fixpoint last_values (env : UploadEnv) (rows : list (gmap string (option string)))
    (s : string) : option (string * Z) :=
  match rows with
  | [] => None
  | row :: rest =>
      match last_values env rest s with
      | Some v => Some v
      | None =>
          match row_values env row with
          | Some (s', name, q) =>
              if decide (s' = s) then Some (name, q) else None
          | None => None
          end
      end
  end.

(** A product with the data [v] of a row, under the SKU and creation
    time of [p]. *)
Definition upserted (company : Z) (v : string * Z) (p p' : Product) : Prop :=
  sku p' = sku p ∧ product_name p' = fst v ∧ stock_quantity p' = snd v ∧
  product_company_id p' = company ∧ product_is_active p' = true ∧
  product_created_at p' = product_created_at p.

(** Two products that differ at most in the [auto_now] stamp. *)
Definition same_product (p p' : Product) : Prop :=
  sku p' = sku p ∧ product_name p' = product_name p ∧
  stock_quantity p' = stock_quantity p ∧
  product_company_id p' = product_company_id p ∧
  product_is_active p' = product_is_active p ∧
  product_created_at p' = product_created_at p.

End Upload.

Module UploadSample.
Import Models Upload.

Definition csv_row (s name q : string) : gmap string (option string) :=
  {[ "SKU" := Some s; "Name" := Some name; "Stock Quantity" := Some q ]}.

(** A file of three rows: the SKU of Acme's widget, a row without SKU,
    and a negative stock. *)
Definition rows : list (gmap string (option string)) :=
  [csv_row "W-1" "Widget" "5"; csv_row EmptyString "Nameless" "1";
   csv_row "N-1" "New" "-1"].

Definition env : UploadEnv :=
  {| py_strip := λ s, s;
     py_int := λ s, if decide (s = "5") then inr 5
                    else if decide (s = "1") then inr 1
                    else if decide (s = "-1") then inr (-1)
                    else inl "invalid literal for int() with base 10";
     read_rows := λ _, inr (rows, None);
     database_refuses := λ _ _ q,
       if 9223372036854775807 <? q
       then Some "Python int too large to convert to SQLite INTEGER"
       else None;
     clock_started := Sample.at_second 13 0 0;
     clock_row_created := λ n, Sample.at_second 13 0 n;
     clock_row := λ n, Sample.at_second 13 0 n;
     clock_finished := Sample.at_second 13 1 0 |}.

(** The same file, when the reader fails after its rows. *)
Definition env_broken : UploadEnv :=
  {| py_strip := py_strip env; py_int := py_int env;
     read_rows := λ _, inr (rows, Some "line contains NUL");
     database_refuses := database_refuses env;
     clock_started := clock_started env;
     clock_row_created := clock_row_created env; clock_row := clock_row env;
     clock_finished := clock_finished env |}.

(** The same file with a fourth row, whose stock is beyond the integers
    of the database. *)
Definition rows_big : list (gmap string (option string)) :=
  rows ++ [csv_row "B-1" "Big" "9223372036854775808"].

Definition env_big : UploadEnv :=
  {| py_strip := py_strip env;
     py_int := λ s, if decide (s = "9223372036854775808")
                    then inr 9223372036854775808 else py_int env s;
     read_rows := λ _, inr (rows_big, None);
     database_refuses := database_refuses env;
     clock_started := clock_started env;
     clock_row_created := clock_row_created env; clock_row := clock_row env;
     clock_finished := clock_finished env |}.

(** An upload by Bob, of Globex. *)
Definition upload1 : ProductUpload :=
  {| upload_company_id := 2; upload_file := "product_uploads/products.csv";
     uploaded_by_id := 2; upload_status := UploadPending;
     processed_count := 0; error_count := 0; errors_log := EmptyString;
     upload_updated_at := Sample.at_second 12 59 0 |}.

Definition world0 : UploadWorld :=
  {| up_db := Sample.db0; up_uploads := {[ 1 := upload1 ]} |}.

End UploadSample.

(* ===================================================================== *)
(** * Properties *)
(* ===================================================================== *)

(* ===================================================================== *)
(** ** Facts on strings *)
(* ===================================================================== *)

Module StringFacts.

Lemma append_cons (c : ascii) (s t : string) :
  String c s +:+ t = String c (s +:+ t).
Proof. reflexivity. Qed.

Lemma append_nil_l (s : string) : EmptyString +:+ s = s.
Proof. reflexivity. Qed.

Lemma append_nil_r (s : string) : s +:+ EmptyString = s.
Proof.
  induction s as [|c s IH]; [done|]. rewrite append_cons. by rewrite IH.
Qed.

Lemma append_assoc (s1 s2 s3 : string) :
  (s1 +:+ s2) +:+ s3 = s1 +:+ (s2 +:+ s3).
Proof.
  induction s1 as [|c s1 IH]; [done|]. rewrite !append_cons. by rewrite IH.
Qed.

End StringFacts.

(* ===================================================================== *)
(** ** Stock reservation *)
(* ===================================================================== *)

Module ReservationSpec.
Import Models Job Tasks.

Lemma reserve_ok_iff stock qty : snd (reserve stock qty) = true ↔ qty ≤ stock.
Proof.
  unfold reserve. destruct (Z.geb_spec stock qty); simpl; split; intros; try lia; congruence.
Qed.

Lemma reserve_success stock qty :
  snd (reserve stock qty) = true → fst (reserve stock qty) = stock - qty.
Proof. unfold reserve. destruct (stock >=? qty); simpl; congruence. Qed.

Lemma reserve_failure stock qty :
  snd (reserve stock qty) = false → fst (reserve stock qty) = stock.
Proof. unfold reserve. destruct (stock >=? qty); simpl; congruence. Qed.

Lemma reserve_nonneg stock qty : 0 ≤ stock → 0 ≤ fst (reserve stock qty).
Proof.
  unfold reserve. destruct (Z.geb_spec stock qty); simpl; lia.
Qed.

(** The stock that left the shelf is the stock that was reserved. *)
Lemma reserve_all_balance qtys : ∀ stock,
  reserved_total qtys (snd (reserve_all stock qtys))
  = stock - fst (reserve_all stock qtys).
Proof.
  induction qtys as [|q qs IH]; intros stock; simpl; [lia|].
  destruct (reserve stock q) as [stock' ok] eqn:E.
  specialize (IH stock').
  destruct (reserve_all stock' qs) as [final oks]; simpl in *.
  rewrite IH. unfold reserve in E.
  destruct (stock >=? q); inversion E; subst; lia.
Qed.

Lemma reserve_all_nonneg qtys : ∀ stock,
  0 ≤ stock → 0 ≤ fst (reserve_all stock qtys).
Proof.
  induction qtys as [|q qs IH]; intros stock Hs; simpl; [lia|].
  pose proof (reserve_nonneg stock q Hs) as Hn.
  destruct (reserve stock q) as [stock' ok]; simpl in Hn.
  specialize (IH stock' Hn).
  destruct (reserve_all stock' qs); simpl in *; lia.
Qed.

Lemma stock_history_nonneg qtys : ∀ stock,
  0 ≤ stock → Forall (λ s, 0 ≤ s) (stock_history stock qtys).
Proof.
  induction qtys as [|q qs IH]; intros stock Hs; simpl; constructor.
  - by apply reserve_nonneg.
  - apply IH. by apply reserve_nonneg.
Qed.

Lemma reserve_all_length qtys : ∀ stock,
  length (snd (reserve_all stock qtys)) = length qtys.
Proof.
  induction qtys as [|q qs IH]; intros stock; simpl; [done|].
  destruct (reserve stock q) as [stock' ok].
  specialize (IH stock'). destruct (reserve_all stock' qs); simpl in *; lia.
Qed.

End ReservationSpec.

Module ProcessSpec.
Import Models Job Tasks.

Ltac step_job :=
  unfold run, process_order, process_order_body, approval_branch, try_except,
    atomic, get_row, order_save, product_save, effect, get_db, raise;
  unfold mbind, M_bind, mret, M_ret; simpl.

Lemma process_order_not_found env id d :
  orders d !! id = None →
  run (process_order env id) d = (inr (OrderNotFound id), {| db := d; log := [] |}).
Proof. intros H. step_job. rewrite H. reflexivity. Qed.

Lemma process_order_rejected env id d o :
  orders d !! id = Some o → approval_decision env = false →
  run (process_order env id) d =
    (inr (Processed (reference_code o) Failed),
     {| db := db_set_orders
                (<[id := finished env Failed o]>
                   (<[id := marked_processing env o]> (orders d))) d;
        log := [OrderSaved id (marked_processing env o);
                OrderSaved id (finished env Failed o)] |}).
Proof. intros H Hd. step_job. rewrite H. simpl. rewrite Hd. reflexivity. Qed.

Lemma process_order_product_missing env id d o :
  orders d !! id = Some o → approval_decision env = true →
  products d !! product_id o = None →
  run (process_order env id) d =
    (inr (ProcessError (exn_str (DoesNotExist MProduct))),
     {| db := db_set_orders (<[id := marked_processing env o]> (orders d)) d;
        log := [OrderSaved id (marked_processing env o)] |}).
Proof.
  intros H Hd Hp. step_job. rewrite H. simpl. rewrite Hd. simpl. rewrite Hp.
  reflexivity.
Qed.

Lemma process_order_approved env id d o p :
  orders d !! id = Some o → approval_decision env = true →
  products d !! product_id o = Some p →
  quantity o ≤ stock_quantity p →
  run (process_order env id) d =
    (inr (Processed (reference_code o) Approved),
     {| db := db_set_orders
                (<[id := finished env Approved o]>
                   (<[id := marked_processing env o]> (orders d)))
                (db_set_products
                   (<[product_id o := deducted env (quantity o) p]> (products d)) d);
        log := [OrderSaved id (marked_processing env o);
                ProductSaved (product_id o) (deducted env (quantity o) p);
                OrderSaved id (finished env Approved o)] |}).
Proof.
  intros H Hd Hp Hq. step_job. rewrite H. simpl. rewrite Hd. simpl.
  repeat (rewrite Hp; simpl). unfold reserve. destruct (Z.geb_spec (stock_quantity p) (quantity o)); [|lia].
  reflexivity.
Qed.

Lemma process_order_insufficient env id d o p :
  orders d !! id = Some o → approval_decision env = true →
  products d !! product_id o = Some p →
  stock_quantity p < quantity o →
  run (process_order env id) d =
    (inr (Processed (reference_code o) Failed),
     {| db := db_set_orders
                (<[id := finished env Failed o]>
                   (<[id := marked_processing env o]> (orders d))) d;
        log := [OrderSaved id (marked_processing env o);
                OrderSaved id (finished env Failed o)] |}).
Proof.
  intros H Hd Hp Hq. step_job. rewrite H. simpl. rewrite Hd. simpl.
  repeat (rewrite Hp; simpl). unfold reserve. destruct (Z.geb_spec (stock_quantity p) (quantity o)); [lia|].
  reflexivity.
Qed.


(** Every run returns a value: the task never lets an exception out. *)
Lemma process_order_cases env id d :
  match orders d !! id with
  | None =>
      run (process_order env id) d
      = (inr (OrderNotFound id), {| db := d; log := [] |})
  | Some o =>
      let d1 := db_set_orders (<[id := marked_processing env o]> (orders d)) d in
      let failed_run :=
        (inr (Processed (reference_code o) Failed),
         {| db := db_set_orders
                    (<[id := finished env Failed o]>
                       (<[id := marked_processing env o]> (orders d))) d;
            log := [OrderSaved id (marked_processing env o);
                    OrderSaved id (finished env Failed o)] |}) in
      if approval_decision env then
        match products d !! product_id o with
        | None =>
            run (process_order env id) d
            = (inr (ProcessError (exn_str (DoesNotExist MProduct))),
               {| db := d1; log := [OrderSaved id (marked_processing env o)] |})
        | Some p =>
            if decide (quantity o ≤ stock_quantity p) then
              run (process_order env id) d
              = (inr (Processed (reference_code o) Approved),
                 {| db := db_set_orders
                            (<[id := finished env Approved o]>
                               (<[id := marked_processing env o]> (orders d)))
                            (db_set_products
                               (<[product_id o := deducted env (quantity o) p]>
                                  (products d)) d);
                    log := [OrderSaved id (marked_processing env o);
                            ProductSaved (product_id o)
                              (deducted env (quantity o) p);
                            OrderSaved id (finished env Approved o)] |})
            else run (process_order env id) d = failed_run
        end
      else run (process_order env id) d = failed_run
  end.
Proof.
  destruct (orders d !! id) as [o|] eqn:Ho.
  - cbv zeta. destruct (approval_decision env) eqn:Hd.
    + destruct (products d !! product_id o) as [p|] eqn:Hp.
      * destruct (decide (quantity o ≤ stock_quantity p)).
        -- by apply process_order_approved.
        -- apply (process_order_insufficient env id d o p); auto; lia.
      * by apply process_order_product_missing.
    + by apply process_order_rejected.
  - by apply process_order_not_found.
Qed.

End ProcessSpec.

Module ReservationClaims.
Import Models Job Tasks ReservationSpec.

(** One run of the approval branch is [reserve] on the stock of the
    product row. *)
Lemma approval_branch_reserve env o w p :
  products (db w) !! product_id o = Some p →
  approval_branch env o w =
    if snd (reserve (stock_quantity p) (quantity o)) then
      (inr (order_set_status Approved o),
       {| db := db_set_products
                  (<[product_id o := deducted env (quantity o) p]>
                     (products (db w))) (db w);
          log := log w ++ [ProductSaved (product_id o)
                             (deducted env (quantity o) p)] |})
    else (inr (order_set_status Failed o), w).
Proof.
  intros Hp. unfold approval_branch, atomic, get_row, product_save, effect,
    get_db, raise, mbind, M_bind, mret, M_ret. simpl.
  repeat (rewrite Hp; simpl). unfold reserve.
  destruct (stock_quantity p >=? quantity o); reflexivity.
Qed.

Lemma run_attempts_reserve_all pid attempts : ∀ w p,
  products (db w) !! pid = Some p →
  Forall (λ a, product_id (snd a) = pid) attempts →
  let qtys := map (λ a, quantity (snd a)) attempts in
  fst (run_attempts attempts w) = snd (reserve_all (stock_quantity p) qtys) ∧
  stock_quantity <$> products (db (snd (run_attempts attempts w))) !! pid
  = Some (fst (reserve_all (stock_quantity p) qtys)).
Proof.
  induction attempts as [|[env o] rest IH]; intros w p Hp Hall; simpl.
  - by rewrite Hp.
  - inversion Hall as [|? ? Hpid Hrest]; subst. simpl in Hp.
    rewrite (approval_branch_reserve env o w p Hp).
    unfold reserve. destruct (stock_quantity p >=? quantity o) eqn:E; simpl.
    + set (w' := {| db := _; log := _ |}).
      assert (Hp' : products (db w') !! product_id o
                    = Some (deducted env (quantity o) p))
        by (subst w'; simpl; apply lookup_insert_eq).
      destruct (IH w' _ Hp' Hrest) as [IH1 IH2]. simpl in IH1, IH2.
      destruct (run_attempts rest w') as [oks w'']; simpl in *.
      destruct (reserve_all _ _) as [final oks']; simpl in *.
      by subst.
    + destruct (IH w p Hp Hrest) as [IH1 IH2]. simpl in IH1, IH2.
      destruct (run_attempts rest w) as [oks w'']; simpl in *.
      destruct (reserve_all _ _) as [final oks']; simpl in *.
      by subst.
Qed.

(** C1. For every product and every sequence of reservation attempts
    against it, run one after the other in the approval branch of order
    processing: an attempt succeeds exactly when the stock is at least the
    requested quantity, a successful attempt takes exactly that quantity
    off the stock, a failed one leaves the stock as it is; hence the total
    quantity of the successful reservations never exceeds the stock at the
    start of the sequence and the stock never becomes negative. *)
Theorem reservations_never_oversell (d : Db) (pid : Z) (p : Product)
    (attempts : list (ProcessEnv * Order)) :
  products d !! pid = Some p →
  0 ≤ stock_quantity p →
  Forall (λ a, product_id (snd a) = pid) attempts →
  let qtys := map (λ a, quantity (snd a)) attempts in
  let start := stock_quantity p in
  let oks := fst (run_attempts attempts {| db := d; log := [] |}) in
  let w := snd (run_attempts attempts {| db := d; log := [] |}) in
  (* the attempts are the check-and-decrement, in sequence *)
  oks = snd (reserve_all start qtys) ∧
  stock_quantity <$> products (db w) !! pid = Some (fst (reserve_all start qtys)) ∧
  (* one attempt *)
  (∀ stock qty,
     snd (reserve stock qty) = bool_decide (qty ≤ stock) ∧
     fst (reserve stock qty) = if snd (reserve stock qty) then stock - qty else stock) ∧
  (* the whole sequence *)
  reserved_total qtys oks = start - fst (reserve_all start qtys) ∧
  reserved_total qtys oks ≤ start ∧
  0 ≤ fst (reserve_all start qtys) ∧
  Forall (λ s, 0 ≤ s) (stock_history start qtys).
Proof.
  intros Hp Hs Hall qtys start oks w.
  pose proof (run_attempts_reserve_all pid attempts {| db := d; log := [] |} p
                Hp Hall) as [H1 H2].
  fold qtys start oks in H1. fold qtys start w in H2.
  pose proof (reserve_all_balance qtys start) as Hb.
  pose proof (reserve_all_nonneg qtys start Hs) as Hn.
  rewrite <- H1 in Hb.
  repeat split; auto; try lia.
  - unfold reserve. destruct (Z.geb_spec stock qty); simpl.
    + by rewrite bool_decide_true.
    + rewrite bool_decide_false; [done | lia].
  - unfold reserve. by destruct (stock >=? qty).
  - by apply stock_history_nonneg.
Qed.


Lemma reservations_never_oversell_witness :
  fst (run_attempts Sample.both_reach_approval
         {| db := Sample.db0; log := [] |}) = [true; false] ∧
  reserved_total (map (λ a, quantity (snd a)) Sample.both_reach_approval)
    (fst (run_attempts Sample.both_reach_approval
            {| db := Sample.db0; log := [] |}))
  ≤ stock_quantity Sample.widget.
Proof.
  split; [reflexivity|].
  apply (reservations_never_oversell Sample.db0 1 Sample.widget
           Sample.both_reach_approval).
  - reflexivity.
  - simpl. lia.
  - repeat constructor.
Defined.

End ReservationClaims.

Module ProcessClaims.
Import Models Job Tasks ProcessSpec.

Ltac solve_writes :=
  unfold order_writes; simpl; rewrite ?decide_True by done; reflexivity.

(** C3. A run of the job for an order that exists returns a value; unless
    approval was drawn and the product row is gone (the one unexpected
    exception of the run) it ends with [has_been_processed] set and the
    status [approved] or [failed], never [pending] or [processing]; the
    order is written twice, the first write leaves the flag as it was and
    the last one sets it, whether the run approved, failed at random or
    failed for lack of stock. *)
Theorem process_order_marks_processed (env : ProcessEnv) (id : Z) (d : Db)
    (o : Order) :
  orders d !! id = Some o →
  ∃ r w, run (process_order env id) d = (inr r, w) ∧
    ((∃ msg, r = ProcessError msg) ↔
       (approval_decision env = true ∧ products d !! product_id o = None)) ∧
    ((∀ msg, r ≠ ProcessError msg) →
       ∃ o', orders (db w) !! id = Some o' ∧
             r = Processed (reference_code o) (status o') ∧
             has_been_processed o' = true ∧
             (status o' = Approved ∨ status o' = Failed) ∧
             status o' ≠ Pending ∧ status o' ≠ Processing ∧
             (status o' = Approved ↔ approves env d o) ∧
             ∃ o1, order_writes id (log w) = [o1; o'] ∧
                   status o1 = Processing ∧
                   has_been_processed o1 = has_been_processed o).
Proof.
  intros Ho. pose proof (process_order_cases env id d) as Hc.
  rewrite Ho in Hc. cbv zeta in Hc. unfold approves.
  destruct (approval_decision env) eqn:Hd.
  - destruct (products d !! product_id o) as [p|] eqn:Hp.
    + destruct (decide (quantity o ≤ stock_quantity p)).
      * eexists _, _. split; [exact Hc|]. split.
        { split; [intros [msg ?]; discriminate | intros [_ ?]; discriminate]. }
        intros _. exists (finished env Approved o). simpl.
        rewrite lookup_insert_eq. split_and!; auto; try discriminate.
        { split; [eauto | done]. }
        exists (marked_processing env o). split_and!; auto. solve_writes.
      * eexists _, _. split; [exact Hc|]. split.
        { split; [intros [msg ?]; discriminate | intros [_ ?]; discriminate]. }
        intros _. exists (finished env Failed o). simpl.
        rewrite lookup_insert_eq. split_and!; auto; try discriminate.
        { split; [discriminate|]. intros (_ & p' & [= <-] & ?). lia. }
        exists (marked_processing env o). split_and!; auto. solve_writes.
    + eexists _, _. split; [exact Hc|]. split.
      { split; [auto | intros _; eauto]. }
      intros Hne. exfalso. by eapply Hne.
  - eexists _, _. split; [exact Hc|]. split.
    { split; [intros [msg ?]; discriminate | intros [? _]; discriminate]. }
    intros _. exists (finished env Failed o). simpl.
    rewrite lookup_insert_eq. split_and!; auto; try discriminate.
    { split; [discriminate | intros [? _]; discriminate]. }
    exists (marked_processing env o). split_and!; auto. solve_writes.
Qed.

Lemma process_order_marks_processed_witness :
  orders Sample.db0 !! 1 = Some Sample.order1 ∧
  ∃ r w, run (process_order Sample.env_approve 1) Sample.db0 = (inr r, w).
Proof.
  split; [reflexivity|].
  destruct (process_order_marks_processed Sample.env_approve 1 Sample.db0
              Sample.order1 eq_refl) as (r & w & Hrun & _).
  exists r, w. exact Hrun.
Defined.

(** C9 does not hold as stated: every [save()] stamps [updated_at]. *)
Lemma updated_at_is_touched :
  ¬ touches_only_status_flag_and_stock Sample.env_reject 1 Sample.db0.
Proof.
  intros [_ H]. destruct (H Sample.order1 eq_refl) as [(o' & Ho' & Hrest) _].
  vm_compute in Ho'. inversion Ho'; subst o'; clear Ho'.
  destruct Hrest as (_ & _ & _ & _ & _ & Hupd). discriminate Hupd.
Qed.

(** C9 (amended). A run of [process_order] leaves every table but
    [orders] and [products] as it was, every other order and every other
    product as they were; of the referenced order it changes at most
    [status], [has_been_processed] and the [auto_now] stamp [updated_at];
    of the referenced product it changes nothing, or, when approval was
    drawn and the stock suffices, [stock_quantity] (less the quantity) and
    the stamp [updated_at]. *)
Theorem process_order_frame (env : ProcessEnv) (id : Z) (d : Db) :
  let d' := db (snd (run (process_order env id) d)) in
  companies d' = companies d ∧ users d' = users d ∧
  profiles d' = profiles d ∧ exports d' = exports d ∧ files d' = files d ∧
  (∀ j, j ≠ id → orders d' !! j = orders d !! j) ∧
  (orders d !! id = None → d' = d) ∧
  (∀ o, orders d !! id = Some o →
     (∃ o', orders d' !! id = Some o' ∧ order_frame o o' ∧
            (updated_at o' = clock_processing env ∨
             updated_at o' = clock_done env)) ∧
     (∀ j, j ≠ product_id o → products d' !! j = products d !! j) ∧
     (products d !! product_id o = None → products d' !! product_id o = None) ∧
     (∀ p, products d !! product_id o = Some p →
        ∃ p', products d' !! product_id o = Some p' ∧ product_frame p p' ∧
              (p' = p ∨
               (approval_decision env = true ∧
                quantity o ≤ stock_quantity p ∧
                stock_quantity p' = stock_quantity p - quantity o ∧
                product_updated_at p' = clock_stock env)))).
Proof.
  intros d'. pose proof (process_order_cases env id d) as Hc.
  destruct (orders d !! id) as [o|] eqn:Ho.
  2:{ subst d'. rewrite Hc. simpl. split_and!; auto. intros ? ?; discriminate. }
  cbv zeta in Hc.
  assert (Hframe : ∀ st, order_frame o (finished env st o))
    by (intros st; repeat split).
  assert (Hsame : ∀ m : gmap Z Product,
            ∀ p, m !! product_id o = Some p →
              ∃ p', m !! product_id o = Some p' ∧ product_frame p p' ∧
                (p' = p ∨
                 (approval_decision env = true ∧
                  quantity o ≤ stock_quantity p ∧
                  stock_quantity p' = stock_quantity p - quantity o ∧
                  product_updated_at p' = clock_stock env))).
  { intros m p Hm. exists p. split_and!; auto; by repeat split. }
  assert (Hwritten : ∀ (m : gmap Z Order) o',
            order_frame o o' →
            (updated_at o' = clock_processing env ∨
             updated_at o' = clock_done env) →
            ∃ o'', <[id := o']> m !! id = Some o'' ∧ order_frame o o'' ∧
              (updated_at o'' = clock_processing env ∨
               updated_at o'' = clock_done env)).
  { intros m o' ? ?. exists o'. by rewrite lookup_insert_eq. }
  destruct (approval_decision env) eqn:Hd;
    [destruct (products d !! product_id o) as [p|] eqn:Hp;
       [destruct (decide (quantity o ≤ stock_quantity p))|]|];
    subst d'; rewrite Hc; simpl;
    (split_and!; auto; try discriminate;
     [intros j Hj; by rewrite !lookup_insert_ne|]);
    intros ? [= <-]; (split_and!; [apply Hwritten; auto; by repeat split|..]);
    auto;
    try (intros j Hj; by rewrite lookup_insert_ne);
    try (intros Hn; rewrite Hp in Hn; discriminate).
  intros p0 Hp0. rewrite Hp in Hp0. injection Hp0 as <-.
  exists (deducted env (quantity o) p).
  split; [apply lookup_insert_eq|]. split; [by repeat split|].
  right. by split_and!.
Qed.

Lemma process_order_frame_witness :
  orders (db (snd (run (process_order Sample.env_approve 1) Sample.db0))) !! 2
  = Some Sample.order2.
Proof.
  destruct (process_order_frame Sample.env_approve 1 Sample.db0)
    as (_ & _ & _ & _ & _ & Hothers & _).
  rewrite (Hothers 2); [reflexivity | discriminate].
Defined.

End ProcessClaims.

Module RetryClaims.
Import Models Job Tasks Views.

Ltac step_retry :=
  unfold run, retry, get_row, order_save, delay, effect, get_db, raise;
  unfold mbind, M_bind, mret, M_ret; simpl.

Lemma retry_rejected now pk d o :
  orders d !! pk = Some o →
  ¬ (status o = Failed ∧ has_been_processed o = true) →
  ∃ resp, run (retry now pk) d = (inr resp, {| db := d; log := [] |}) ∧
          status_code resp = HTTP_400_BAD_REQUEST.
Proof.
  intros Ho Hn. step_retry. rewrite Ho. simpl.
  destruct (decide (status o = Failed)) as [Hs|Hs].
  - rewrite bool_decide_true by done. simpl.
    destruct (has_been_processed o) eqn:Hb; [tauto|]. simpl. eauto.
  - rewrite bool_decide_false by done. simpl. eauto.
Qed.

Lemma retry_accepted now pk d o :
  orders d !! pk = Some o →
  status o = Failed → has_been_processed o = true →
  run (retry now pk) d =
    (inr {| status_code := HTTP_200_OK;
            data := [("message", "Order " +:+ reference_code o
                                 +:+ " queued for retry")] |},
     {| db := db_set_orders (<[pk := reset_for_retry now o]> (orders d)) d;
        log := [OrderSaved pk (reset_for_retry now o);
                TaskQueued (ProcessOrderTask pk)] |}).
Proof.
  intros Ho Hs Hb. step_retry. rewrite Ho. simpl.
  rewrite bool_decide_true by done. rewrite Hb. reflexivity.
Qed.

(** C5. The retry action on an order is accepted exactly when the order
    is [failed] and has been processed; accepted, it sets the status to
    [pending] and the flag to [false], saves the order and submits it for
    processing again; rejected, it answers 400 and writes nothing. *)
Theorem retry_accepted_iff (now : datetime) (pk : Z) (d : Db) (o : Order) :
  orders d !! pk = Some o →
  ∃ resp w, run (retry now pk) d = (inr resp, w) ∧
    (status_code resp = HTTP_200_OK ↔
       (status o = Failed ∧ has_been_processed o = true)) ∧
    (status_code resp = HTTP_200_OK →
       ∃ o', orders (db w) !! pk = Some o' ∧
             status o' = Pending ∧ has_been_processed o' = false ∧
             order_frame o o' ∧
             log w = [OrderSaved pk o'; TaskQueued (ProcessOrderTask pk)]) ∧
    (status_code resp ≠ HTTP_200_OK →
       status_code resp = HTTP_400_BAD_REQUEST ∧
       w = {| db := d; log := [] |}).
Proof.
  intros Ho.
  destruct (decide (status o = Failed ∧ has_been_processed o = true))
    as [[Hs Hb]|Hn].
  - eexists _, _. split; [by apply retry_accepted|]. simpl. split_and!.
    + done.
    + intros _. exists (reset_for_retry now o).
      rewrite lookup_insert_eq. split_and!; auto. by repeat split.
    + intros Hne. by destruct Hne.
  - destruct (retry_rejected now pk d o Ho Hn) as (resp & Hrun & Hcode).
    exists resp, {| db := d; log := [] |}. split; [done|].
    rewrite Hcode. split_and!.
    + split; [discriminate | tauto].
    + discriminate.
    + done.
Qed.

Lemma retry_accepted_iff_witness :
  ∃ resp w, run (retry (Sample.at_second 11 0 0) 3) Sample.db0 = (inr resp, w) ∧
            status_code resp = HTTP_200_OK.
Proof.
  destruct (retry_accepted_iff (Sample.at_second 11 0 0) 3 Sample.db0
              Sample.order3 eq_refl) as (resp & w & Hrun & Hiff & _).
  exists resp, w. split; [exact Hrun|].
  apply Hiff. split; reflexivity.
Defined.

End RetryClaims.

Module ExportSpec.
Import Models Job Tasks.

Ltac step_export :=
  unfold run, generate_export, generate_export_body, mark_export_failed,
    file_save, export_save, try_except, get_row, effect, get_db, raise;
  unfold mbind, M_bind, mret, M_ret; simpl.

Lemma generate_export_not_found env id ids d :
  exports d !! id = None →
  run (generate_export env id ids) d
  = (inr (ExportNotFound id), {| db := d; log := [] |}).
Proof. intros H. step_export. rewrite H. reflexivity. Qed.

Lemma generate_export_storage_error env id ids d e msg :
  exports d !! id = Some e →
  storage_outcome env (export_path id) = inl msg →
  run (generate_export env id ids) d
  = (inr (ExportError msg),
     {| db := db_set_exports (<[id := export_failed msg e]> (exports d)) d;
        log := [ExportSaved id (export_failed msg e)] |}).
Proof.
  intros H Hs. step_export. rewrite H. simpl.
  unfold export_path in Hs. rewrite Hs. simpl. rewrite H. reflexivity.
Qed.

Lemma generate_export_stored env id ids d e stored :
  exports d !! id = Some e →
  storage_outcome env (export_path id) = inr stored →
  let csv := csv_string (csv_content d ids) in
  let d1 := db_set_exports (<[id := export_ready stored e]> (exports d))
              (db_set_files (<[stored := csv]> (files d)) d) in
  run (generate_export env id ids) d =
    match requester_user d e with
    | inr _ =>
        (inr (Generated id),
         {| db := d1;
            log := [FileStored stored csv;
                    ExportSaved id (export_ready stored e)] |})
    | inl ex =>
        (inr (ExportError (exn_str ex)),
         {| db := db_set_exports
                    (<[id := export_failed (exn_str ex) (export_ready stored e)]>
                       (exports d1)) d1;
            log := [FileStored stored csv;
                    ExportSaved id (export_ready stored e);
                    ExportSaved id
                      (export_failed (exn_str ex) (export_ready stored e))] |})
    end.
Proof.
  intros H Hs. step_export. rewrite H. simpl.
  unfold export_path in Hs. rewrite Hs. simpl.
  unfold requester_user.
  destruct (profiles d !! requested_by_id e) as [pr|]; simpl.
  - destruct (users d !! profile_user_id pr) as [u|]; simpl.
    + reflexivity.
    + rewrite lookup_insert_eq. reflexivity.
  - rewrite lookup_insert_eq. reflexivity.
Qed.

End ExportSpec.

Module FaultsSpec.
Import Models Job Tasks ExportSpec.
Import Faults(fault_at, body_outcome).

Lemma access_run {A} (c : M A) w s :
  Faults.access c {| Faults.world := w; Faults.schedule := s |}
  = match fault_at s with
    | Some msg => (inl (BackendError msg),
                   {| Faults.world := w; Faults.schedule := tail s |})
    | None => (fst (c w),
               {| Faults.world := snd (c w); Faults.schedule := tail s |})
    end.
Proof.
  unfold Faults.access, fault_at, Faults.lift.
  cbn [Faults.schedule Faults.world].
  destruct (head s) as [[msg|]|]; try done; by destruct (c w).
Qed.

Lemma answered_S n s :
  Faults.answered (S n) s
  = match fault_at s with
    | Some _ => false
    | None => Faults.answered n (tail s)
    end.
Proof.
  unfold Faults.answered, fault_at. destruct s as [|[msg|] rest]; try done.
  simpl. by destruct n.
Qed.

(** The handler: when its two accesses are answered the row is marked
    failed with the text of the exception; otherwise nothing is
    written. *)
Lemma mark_export_failed_run id ex hs w s e :
  exports (db w) !! id = Some e →
  ∃ s',
    Faults.with_schedule hs (Faults.mark_export_failed id ex)
      {| Faults.world := w; Faults.schedule := s |}
    = (inr tt,
       {| Faults.world :=
            if Faults.answered 2 hs
            then {| db := db_set_exports
                            (<[id := export_failed (exn_str ex) e]>
                               (exports (db w))) (db w);
                    log := log w ++ [ExportSaved id
                                       (export_failed (exn_str ex) e)] |}
            else w;
          Faults.schedule := s' |}).
Proof.
  intros He. unfold Faults.with_schedule, Faults.mark_export_failed,
    Faults.try_except. cbn [Faults.world].
  unfold mbind, Faults.F_bind. rewrite access_run.
  rewrite !answered_S.
  destruct (fault_at hs) as [m0|]; [by eexists|].
  unfold get_row, get_db, mbind, M_bind, mret, M_ret, raise. cbn [fst snd].
  rewrite He. cbn [fst snd]. rewrite access_run.
  destruct (fault_at (tail hs)) as [m1|]; [by eexists|].
  eexists. unfold Faults.answered. cbn [take forallb].
  destruct w as [d l]. reflexivity.
Qed.

Lemma get_row_run {R} m (table : Db → gmap Z R) id w :
  get_row m table id w
  = (match table (db w) !! id with
     | Some r => inr r
     | None => inl (DoesNotExist m)
     end, w).
Proof.
  unfold get_row, get_db, mbind, M_bind, mret, M_ret, raise.
  by destruct (table (db w) !! id).
Qed.

Lemma export_save_run id e w :
  export_save id e w
  = (inr tt, {| db := db_set_exports (<[id := e]> (exports (db w))) (db w);
                log := log w ++ [ExportSaved id e] |}).
Proof. reflexivity. Qed.

Lemma file_save_run env id csv e w :
  file_save env ("export_" +:+ pretty id +:+ ".csv") csv e w
  = match storage_outcome env (export_path id) with
    | inl msg => (inl (BackendError msg), w)
    | inr stored =>
        (inr (export_set_file (Some stored) e),
         {| db := db_set_files (<[stored := csv]> (files (db w))) (db w);
            log := log w ++ [FileStored stored csv] |})
    end.
Proof.
  unfold file_save.
  change ("exports/" +:+ ("export_" +:+ pretty id +:+ ".csv"))
    with (export_path id).
  by destruct (storage_outcome env (export_path id)).
Qed.

Lemma generate_export_body_run env gs id ids d e s :
  exports d !! id = Some e →
  ∃ s',
    Faults.with_schedule gs (Faults.generate_export_body env id ids)
      {| Faults.world := {| db := d; log := [] |}; Faults.schedule := s |}
    = (fst (body_outcome env gs id ids d e),
       {| Faults.world := snd (body_outcome env gs id ids d e);
          Faults.schedule := s' |}).
Proof.
  intros He. unfold Faults.with_schedule, Faults.generate_export_body,
    body_outcome. cbn [Faults.world].
  unfold mbind at 1, Faults.F_bind at 1. rewrite access_run, get_row_run.
  cbn [db fst snd]. rewrite He.
  destruct (fault_at gs) as [m|]; [by eexists|].
  unfold mbind at 1, Faults.F_bind at 1. rewrite access_run.
  unfold get_db at 1 2. cbn [fst snd db].
  destruct (fault_at (tail gs)) as [m|]; [by eexists|].
  unfold mbind at 1, Faults.F_bind at 1.
  unfold Faults.lift at 1. cbn [Faults.world Faults.schedule].
  rewrite file_save_run.
  destruct (storage_outcome env (export_path id)) as [m|stored];
    [by eexists|].
  cbn [db log app].
  unfold mbind at 1, Faults.F_bind at 1. rewrite access_run, export_save_run.
  cbn [fst snd db log app exports db_set_files].
  destruct (fault_at (tail (tail gs))) as [m|]; [by eexists|].
  unfold mbind at 1, Faults.F_bind at 1. rewrite access_run, get_row_run.
  cbn [fst snd db profiles requested_by_id export_set_status export_set_file
       db_set_exports db_set_files].
  destruct (fault_at (tail (tail (tail gs)))) as [m|]; [by eexists|].
  destruct (profiles d !! requested_by_id e) as [pr|]; [|by eexists].
  unfold mbind at 1, Faults.F_bind at 1. rewrite access_run, get_row_run.
  cbn [fst snd db users db_set_exports db_set_files].
  destruct (fault_at (tail (tail (tail (tail gs))))) as [m|]; [by eexists|].
  destruct (users d !! profile_user_id pr) as [u|]; by eexists.
Qed.

(** A run of the job on an existing export row. *)
Lemma generate_export_run env faults id ids d e :
  exports d !! id = Some e →
  let out := body_outcome env (Faults.during_generation faults) id ids d e in
  Faults.run (Faults.generate_export env faults id ids) d
  = match fst out with
    | inr r => (inr r, snd out)
    | inl (DoesNotExist MExport) => (inr (ExportNotFound id), snd out)
    | inl ex =>
        (inr (ExportError (exn_str ex)),
         match exports (db (snd out)) !! id with
         | Some e1 =>
             if Faults.answered 2 (Faults.during_handler faults)
             then {| db := db_set_exports
                             (<[id := export_failed (exn_str ex) e1]>
                                (exports (db (snd out)))) (db (snd out));
                     log := log (snd out)
                            ++ [ExportSaved id (export_failed (exn_str ex) e1)] |}
             else snd out
         | None => snd out
         end)
    end.
Proof.
  intros He. cbv zeta. unfold Faults.run, Faults.generate_export.
  unfold Faults.try_except at 1.
  destruct (generate_export_body_run env (Faults.during_generation faults)
              id ids d e [] He) as (s1 & ->).
  cbn [fst snd].
  destruct (body_outcome env _ id ids d e) as [[ex|r] w1] eqn:Hout;
    cbn [fst snd]; [|done].
  assert (Hrow : is_Some (exports (db w1) !! id)).
  { revert Hout. unfold body_outcome.
    repeat match goal with
           | |- context [match ?x with _ => _ end] => destruct x
           end; intros [= <- <-]; cbn [db exports db_set_exports db_set_files];
      rewrite ?lookup_insert_eq; eauto. }
  destruct Hrow as [e1 He1]. rewrite He1.
  assert (Hhandler : ∀ ex', ex' = ex →
            (Faults.with_schedule (Faults.during_handler faults)
               (Faults.mark_export_failed id ex');;
             mret (ExportError (exn_str ex')))
              {| Faults.world := w1; Faults.schedule := s1 |}
            = (inr (ExportError (exn_str ex)),
               {| Faults.world :=
                    if Faults.answered 2 (Faults.during_handler faults)
                    then {| db := db_set_exports
                                    (<[id := export_failed (exn_str ex) e1]>
                                       (exports (db w1))) (db w1);
                            log := log w1 ++ [ExportSaved id
                                                (export_failed (exn_str ex) e1)] |}
                    else w1;
                  Faults.schedule :=
                    Faults.schedule
                      (snd (Faults.with_schedule (Faults.during_handler faults)
                              (Faults.mark_export_failed id ex)
                              {| Faults.world := w1;
                                 Faults.schedule := s1 |})) |})).
  { intros ex' ->. unfold mbind, Faults.F_bind.
    destruct (mark_export_failed_run id ex (Faults.during_handler faults)
                w1 s1 e1 He1) as (s2 & ->). reflexivity. }
  assert (Hnot : ex ≠ DoesNotExist MExport).
  { revert Hout. unfold body_outcome.
    repeat match goal with
           | |- context [match ?x with _ => _ end] => destruct x
           end; by intros [= <- <-]. }
  destruct ex as [[]|msg]; try done;
    by rewrite (Hhandler _ eq_refl).
Qed.

(** On a database that answers, the job is [Tasks.generate_export]. *)
Lemma generate_export_reliable env faults id ids d :
  Faults.answered 5 (Faults.during_generation faults) = true →
  Faults.answered 2 (Faults.during_handler faults) = true →
  Faults.run (Faults.generate_export env faults id ids) d
  = run (generate_export env id ids) d.
Proof.
  intros Hg Hh.
  destruct (exports d !! id) as [e|] eqn:He.
  - rewrite (generate_export_run env faults id ids d e He). cbv zeta.
    rewrite Hh. unfold body_outcome.
    rewrite !answered_S in Hg.
    destruct (fault_at (Faults.during_generation faults)); [done|].
    destruct (fault_at (tail (Faults.during_generation faults))); [done|].
    destruct (storage_outcome env (export_path id)) as [msg|stored] eqn:Hs.
    { cbn [fst snd db]. rewrite He.
      by rewrite (generate_export_storage_error env id ids d e msg). }
    destruct (fault_at (tail (tail (Faults.during_generation faults))));
      [done|].
    destruct (fault_at (tail (tail (tail (Faults.during_generation faults)))));
      [done|].
    pose proof (generate_export_stored env id ids d e stored He Hs)
      as Hrun. cbv zeta in Hrun. rewrite Hrun. unfold requester_user.
    destruct (profiles d !! requested_by_id e) as [pr|].
    + destruct (fault_at
                  (tail (tail (tail (tail (Faults.during_generation faults))))));
        [done|].
      destruct (users d !! profile_user_id pr) as [u|]; cbn [fst snd db]; [done|].
      cbn [exports db_set_exports]. by rewrite lookup_insert_eq.
    + cbn [fst snd db exports db_set_exports]. by rewrite lookup_insert_eq.
  - rewrite (generate_export_not_found env id ids d He).
    unfold Faults.run, Faults.generate_export, Faults.try_except,
      Faults.with_schedule, Faults.generate_export_body.
    cbn [Faults.world]. unfold mbind at 1, Faults.F_bind at 1.
    rewrite access_run, get_row_run. cbn [db fst snd]. rewrite He.
    rewrite !answered_S in Hg.
    by destruct (fault_at (Faults.during_generation faults)).
Qed.

(** The states the [try] block can leave: the row is as it was, or it is
    ready. *)
Lemma body_outcome_cases env gs id ids d e :
  exports d !! id = Some e →
  let out := body_outcome env gs id ids d e in
  fst out = inr (Generated id) ∧
    Faults.answered 5 gs = true ∧
    (∃ stored u, storage_outcome env (export_path id) = inr stored ∧
       requester_user d e = inr u ∧
       exports (db (snd out)) !! id = Some (export_ready stored e) ∧
       files (db (snd out)) !! stored = Some (csv_string (csv_content d ids)))
  ∨ (∃ ex, fst out = inl ex ∧ ex ≠ DoesNotExist MExport ∧
       (Faults.answered 5 gs = false
        ∨ (∃ msg, storage_outcome env (export_path id) = inl msg)
        ∨ ∃ ex', requester_user d e = inl ex') ∧
       (Some (exn_str ex) ∈ take 5 gs
        ∨ storage_outcome env (export_path id) = inl (exn_str ex)
        ∨ requester_user d e = inl ex) ∧
       (exports (db (snd out)) !! id = Some e
        ∨ ∃ stored, exports (db (snd out)) !! id
                    = Some (export_ready stored e))).
Proof.
  intros He. cbv zeta. unfold body_outcome, requester_user.
  rewrite !answered_S. unfold fault_at.
  destruct gs as [|[m0|] [|[m1|] [|[m2|] [|[m3|] [|[m4|] gs]]]]];
    cbn [head tail take];
    destruct (storage_outcome env (export_path id)) as [msg|stored];
    try destruct (profiles d !! requested_by_id e) as [pr|];
    try destruct (users d !! profile_user_id pr) as [u|];
    cbn [fst snd db exports files db_set_exports db_set_files];
    rewrite ?lookup_insert_eq;
    first
      [ left; split; [done|]; split; [done|];
        eexists _, _; split_and!; try done; apply lookup_insert_eq
      | right; eexists; split; [reflexivity|]; split; [done|];
        cbn [exn_str]; split_and!; eauto 6;
        rewrite ?elem_of_cons; eauto 10 ].
Qed.

End FaultsSpec.


Module ExportClaims.
Import Models Job Tasks ExportSpec FaultsSpec.
Import Faults(fault_at, body_outcome).

(** C6 does not hold as stated: the note is the text of the exception,
    and an exception may carry none. *)
Lemma note_can_be_empty :
  ¬ failure_note_nonempty Sample.storage_fails_silently 1 [1; 3] Sample.db0.
Proof.
  intros H.
  destruct (H EmptyString _ eq_refl) as (e' & He' & _ & Hnote).
  vm_compute in He'. injection He' as <-. by apply Hnote.
Qed.

(** C6 (amended). After the export job has run for an export row that
    exists at its start, the job has returned and the row is still
    there.  On success, which means that no access to the database and
    no call of the storage failed, the artifact is in the storage under
    the name kept in [file] and the status is [ready].  When the
    generation raised, the job answers with the text of the exception;
    if the two accesses of the handler to the database are answered, the
    status is [failed] and the note is that text (empty when the
    exception has none), so that the status is not [pending]; if one of
    them raises, the exception is swallowed and the row stays as the
    generation left it, [pending] unless it had been saved as [ready]. *)
Theorem generate_export_never_pending (env : ExportEnv)
    (faults : Faults.DbFaults) (id : Z) (ids : list Z) (d : Db) (e : Export) :
  exports d !! id = Some e →
  ∃ r w e',
    Faults.run (Faults.generate_export env faults id ids) d = (inr r, w) ∧
    exports (db w) !! id = Some e' ∧
    (∀ i, r ≠ ExportNotFound i) ∧
    (∀ i, r = Generated i →
       i = id ∧ export_status e' = ExportReady ∧ note e' = note e ∧
       ∃ stored, file e' = Some stored ∧
         files (db w) !! stored = Some (csv_string (csv_content d ids))) ∧
    (r = Generated id ↔
       Faults.answered 5 (Faults.during_generation faults) = true ∧
       (∃ stored, storage_outcome env (export_path id) = inr stored) ∧
       (∃ u, requester_user d e = inr u)) ∧
    (∀ msg, r = ExportError msg →
       Some msg ∈ take 5 (Faults.during_generation faults)
       ∨ storage_outcome env (export_path id) = inl msg
       ∨ ∃ ex, requester_user d e = inl ex ∧ msg = exn_str ex) ∧
    (∀ msg, r = ExportError msg →
       if Faults.answered 2 (Faults.during_handler faults)
       then export_status e' = ExportFailed ∧ note e' = msg
       else e' = e ∨ ∃ stored, e' = export_ready stored e) ∧
    (Faults.answered 2 (Faults.during_handler faults) = true →
     export_status e' ≠ ExportPending).
Proof.
  intros He.
  rewrite (generate_export_run env faults id ids d e He). cbv zeta.
  destruct (body_outcome_cases env (Faults.during_generation faults) id ids
              d e He)
    as [(Hout & Hg & stored & u & Hs & Hu & Hrow & Hfile)
       |(ex & Hout & Hnot & Hwhy & Htext & Hrow)].
  - rewrite Hout. eexists _, _, (export_ready stored e).
    split; [reflexivity|]. split; [exact Hrow|].
    split_and!; try done.
    + intros i [= <-]. split_and!; try done. by exists stored.
    + split; [|done]. intros _. split_and!; eauto.
  - rewrite Hout.
    assert (Hshape : ∀ (X : Type) (a b : X),
              match ex with
              | DoesNotExist MExport => a
              | _ => b
              end = b).
    { intros X a b. by destruct ex as [[]|]. }
    rewrite Hshape. clear Hshape.
    assert (Hne : ¬ (Faults.answered 5 (Faults.during_generation faults) = true
                     ∧ (∃ stored, storage_outcome env (export_path id)
                                  = inr stored)
                     ∧ ∃ u, requester_user d e = inr u)).
    { intros (Hg & [stored Hs] & [u Hu]).
      destruct Hwhy as [Hg'|[[msg Hs']|[ex' Hu']]]; congruence. }
    assert (Htext' : Some (exn_str ex)
                       ∈ take 5 (Faults.during_generation faults)
                     ∨ storage_outcome env (export_path id) = inl (exn_str ex)
                     ∨ ∃ ex0, requester_user d e = inl ex0
                              ∧ exn_str ex = exn_str ex0)
      by (destruct Htext as [?|[?|?]]; eauto).
    destruct Hrow as [Hrow|[stored Hrow]]; rewrite Hrow;
      destruct (Faults.answered 2 (Faults.during_handler faults)) eqn:Hh.
    + eexists _, _, (export_failed (exn_str ex) e).
      split; [reflexivity|]. cbn [db exports db_set_exports].
      rewrite lookup_insert_eq.
      split_and!; try done; by intros msg [= <-].
    + eexists _, _, e.
      split; [reflexivity|].
      split_and!; try done; [by intros msg [= <-]|]. intros msg _. by left.
    + eexists _, _, (export_failed (exn_str ex) (export_ready stored e)).
      split; [reflexivity|]. cbn [db exports db_set_exports].
      rewrite lookup_insert_eq.
      split_and!; try done; by intros msg [= <-].
    + eexists _, _, (export_ready stored e).
      split; [reflexivity|].
      split_and!; try done; [by intros msg [= <-]|].
      intros msg _. right. by exists stored.
Qed.

Lemma generate_export_never_pending_witness :
  ∃ r w e',
    Faults.run (Faults.generate_export Sample.storage_keeps_name
                  Faults.one_query_fails 1 [1; 3]) Sample.db0 = (inr r, w) ∧
    exports (db w) !! 1 = Some e' ∧ export_status e' ≠ ExportPending.
Proof.
  destruct (generate_export_never_pending Sample.storage_keeps_name
              Faults.one_query_fails 1 [1; 3] Sample.db0 Sample.export1 eq_refl)
    as (r & w & e' & Hrun & He' & _ & _ & _ & _ & _ & Hst).
  exists r, w, e'. split_and!; [exact Hrun|exact He'|by apply Hst].
Defined.

(** When the handler cannot reach the database either, the export stays
    [pending] although the job has returned an error. *)
Lemma handler_failure_leaves_pending :
  ¬ Faults.failure_is_recorded Sample.storage_keeps_name
      Faults.connection_lost 1 [1; 3] Sample.db0.
Proof.
  intros H.
  destruct (H "server closed the connection unexpectedly" _ eq_refl)
    as (e' & He' & Hst).
  vm_compute in He'. injection He' as <-. discriminate Hst.
Qed.

End ExportClaims.

Module FormatSpec.
Import Models Job Tasks.

Lemma holds_on_range_spec f lo len k :
  holds_on_range f lo len = true → lo ≤ k < lo + len → f k = true.
Proof.
  unfold holds_on_range. rewrite forallb_forall. intros H Hk.
  apply H. apply list_elem_of_In, elem_of_seqZ. lia.
Qed.

Lemma matches_format_app f1 : ∀ s1 f2 s2,
  matches_format f1 s1 = true → matches_format f2 s2 = true →
  matches_format (f1 +:+ f2) (s1 +:+ s2) = true.
Proof.
  induction f1 as [|f f1 IH]; intros [|c s1] f2 s2 H1 H2; simpl in *;
    try discriminate; [done|].
  apply andb_true_iff in H1 as [Hc H1].
  rewrite Hc. simpl. by apply IH.
Qed.

Lemma year_four_digits y :
  1000 ≤ y ≤ 9999 → matches_format "dddd" (pretty y) = true.
Proof.
  intros Hy.
  apply (holds_on_range_spec (λ k, matches_format "dddd" (pretty k)) 1000 9000);
    [vm_compute; reflexivity | lia].
Qed.

Lemma pad2_two_digits n :
  0 ≤ n ≤ 99 → matches_format "dd" (pad2 n) = true.
Proof.
  intros Hn.
  apply (holds_on_range_spec (λ k, matches_format "dd" (pad2 k)) 0 100);
    [vm_compute; reflexivity | lia].
Qed.

Lemma strftime_format t :
  four_digit_datetime t →
  matches_format timestamp_format (strftime_ymd_hms t) = true.
Proof.
  intros (Hy & Hm & Hd & Hh & Hmi & Hs).
  unfold strftime_ymd_hms.
  change timestamp_format with
    ("dddd" +:+ "-" +:+ "dd" +:+ "-" +:+ "dd" +:+ " " +:+ "dd" +:+ ":"
     +:+ "dd" +:+ ":" +:+ "dd").
  repeat first
    [ apply matches_format_app
    | apply year_four_digits; lia
    | apply pad2_two_digits; lia
    | reflexivity ].
Qed.

End FormatSpec.

Module QuerySpec.
Import Models Job Tasks.

Lemma elem_of_all_orders d i o :
  (i, o) ∈ all_orders d ↔ orders d !! i = Some o.
Proof.
  unfold all_orders. rewrite merge_sort_Permutation.
  apply elem_of_map_to_list.
Qed.

Lemma NoDup_all_orders_ids d : NoDup ((all_orders d).*1).
Proof.
  unfold all_orders. rewrite merge_sort_Permutation.
  apply NoDup_fst_map_to_list.
Qed.

Lemma select_related_Some d io r :
  select_related d io = Some r →
  row_id r = fst io ∧ row_order r = snd io ∧
  products d !! product_id (snd io) = Some (row_product r) ∧
  companies d !! product_company_id (row_product r) = Some (row_company r) ∧
  profiles d !! created_by_id (snd io) = Some (row_profile r) ∧
  users d !! profile_user_id (row_profile r) = Some (row_user r).
Proof.
  unfold select_related. intros H.
  destruct (products d !! product_id io.2) as [p|] eqn:Hp; simpl in H; [|done].
  destruct (companies d !! product_company_id p) as [c|] eqn:Hc; simpl in H; [|done].
  destruct (profiles d !! created_by_id io.2) as [pr|] eqn:Hpr; simpl in H; [|done].
  destruct (users d !! profile_user_id pr) as [u|] eqn:Hu; simpl in H; [|done].
  injection H as <-. simpl. by split_and!.
Qed.

(** With the foreign keys in place the inner joins drop no order. *)
Lemma select_related_total d i o :
  referential_integrity d → orders d !! i = Some o →
  ∃ r, select_related d (i, o) = Some r.
Proof.
  intros (Ho & Hp & Hpr & _) Hio. unfold select_related. simpl.
  destruct (Ho i o Hio) as [[p Hp1] [pr Hpr1]].
  destruct (Hp _ p Hp1) as [c Hc].
  destruct (Hpr _ pr Hpr1) as [[u Hu] _].
  rewrite Hp1. simpl. rewrite Hc. simpl. rewrite Hpr1. simpl. rewrite Hu.
  simpl. eauto.
Qed.

Lemma elem_of_export_queryset d ids r :
  r ∈ export_queryset d ids ↔
  ∃ i o, orders d !! i = Some o ∧ i ∈ ids ∧ select_related d (i, o) = Some r.
Proof.
  unfold export_queryset. rewrite list_elem_of_omap. split.
  - intros ([i o] & Hin & Hf). simpl in Hf.
    destruct (decide (i ∈ ids)) as [Hi|Hi].
    + rewrite bool_decide_true in Hf by done.
      exists i, o. by rewrite <- elem_of_all_orders.
    + rewrite bool_decide_false in Hf by done. discriminate.
  - intros (i & o & Ho & Hi & Hr). exists (i, o).
    rewrite elem_of_all_orders. split; [done|]. simpl.
    by rewrite bool_decide_true.
Qed.

Lemma omap_keys_sublist {A B K} (f : A → option B) (g : B → K) (h : A → K)
    (l : list A) :
  (∀ x y, f x = Some y → g y = h x) →
  sublist (g <$> omap f l) (h <$> l).
Proof.
  intros Hfg. induction l as [|x l IH]; csimpl; [constructor|].
  destruct (f x) as [y|] eqn:E; csimpl.
  - rewrite (Hfg x y E). by constructor.
  - by constructor.
Qed.

Lemma NoDup_export_queryset_ids d ids :
  NoDup (row_id <$> export_queryset d ids).
Proof.
  apply (sublist_NoDup _ ((all_orders d).*1)); [apply NoDup_all_orders_ids|].
  apply omap_keys_sublist. intros [i o] r Hf. cbn [fst] in *.
  destruct (bool_decide (i ∈ ids)); [|done].
  by apply select_related_Some in Hf as [? _].
Qed.

Lemma export_queryset_same_ids d ids ids' :
  (∀ i, i ∈ ids ↔ i ∈ ids') →
  export_queryset d ids = export_queryset d ids'.
Proof.
  intros H. unfold export_queryset. apply list_omap_ext.
  apply Forall2_same_length_lookup. split; [done|].
  intros k x y Hx Hy. rewrite Hx in Hy. injection Hy as <-.
  by rewrite (bool_decide_ext _ _ (H (fst x))).
Qed.

Lemma export_queryset_count d ids :
  referential_integrity d →
  length (export_queryset d ids)
  = length (filter (λ i, is_Some (orders d !! i)) (remove_dups ids)).
Proof.
  intros Hri.
  rewrite <- (length_fmap row_id (export_queryset d ids)).
  apply Permutation_length, NoDup_Permutation.
  - apply NoDup_export_queryset_ids.
  - apply NoDup_filter, NoDup_remove_dups.
  - intros i. rewrite list_elem_of_fmap, list_elem_of_filter, elem_of_remove_dups.
    split.
    + intros (r & -> & Hr). apply elem_of_export_queryset in Hr
        as (i & o & Ho & Hi & Hsel).
      apply select_related_Some in Hsel as [-> _]. simpl. eauto.
    + intros [[o Ho] Hi].
      destruct (select_related_total d i o Hri Ho) as [r Hr].
      exists r. split.
      * by apply select_related_Some in Hr as [-> _].
      * apply elem_of_export_queryset. eauto.
Qed.

End QuerySpec.

Module ArtifactClaims.
Import Models Job Tasks Csv ExportSpec FormatSpec QuerySpec.

(** The file of a run whose storage accepted the content is the text of
    [csv_content], whoever requested the export. *)
Lemma generate_export_artifact env id ids d e stored :
  exports d !! id = Some e →
  storage_outcome env (export_path id) = inr stored →
  files (db (snd (run (generate_export env id ids) d))) !! stored
  = Some (csv_string (csv_content d ids)).
Proof.
  intros He Hs. rewrite (generate_export_stored env id ids d e stored He Hs).
  destruct (requester_user d e); simpl; apply lookup_insert_eq.
Qed.

Lemma csv_string_lines content :
  csv_string content
  = String.concat newline
      (map (λ row, String.concat "," (map quoted row)) (cells_text content)).
Proof.
  unfold csv_string, cells_text, csv_line. f_equal.
  rewrite map_map. apply map_ext. intros row. f_equal.
  rewrite map_map. reflexivity.
Qed.

Lemma csv_string_starts_with_header d ids :
  ∃ rest, csv_string (csv_content d ids) = header_line +:+ rest ∧
          (rest = EmptyString ∨ ∃ rest', rest = newline +:+ rest').
Proof.
  unfold csv_string, csv_content. simpl map.
  change (csv_line header_row) with header_line.
  destruct (map csv_line (map order_row (export_queryset d ids)))
    as [|l ls] eqn:E.
  - exists EmptyString. split; [|by left].
    simpl. by rewrite StringFacts.append_nil_r.
  - exists (newline +:+ String.concat newline (l :: ls)). split; [done|].
    right. eauto.
Qed.



Lemma csv_line_order_row r : csv_line (order_row r) = export_line r.
Proof. reflexivity. Qed.

Lemma csv_string_export_text d ids :
  csv_string (csv_content d ids) = export_text (export_queryset d ids).
Proof.
  unfold csv_string, csv_content, export_text. cbn [map]. f_equal. f_equal.
  rewrite map_map. apply map_ext, csv_line_order_row.
Qed.

(** C8. Under the foreign keys of the schema, the artifact has a row for
    every existing order whose id is in the list, whatever company the
    order belongs to and whoever requested the export, and for no other;
    an order is exported once, however often its id is listed.  The
    stored file is the header line followed by one line per such order:
    its reference code, product name, SKU, quantity, status, creator,
    company and creation time, each between double quotes. *)
Theorem export_rows_are_the_listed_orders (d : Db) (ids : list Z) :
  referential_integrity d →
  (* a row for every existing order of the list *)
  (∀ i o, orders d !! i = Some o → i ∈ ids →
     ∃ r, r ∈ export_queryset d ids ∧ row_id r = i ∧ row_order r = o ∧
          products d !! product_id o = Some (row_product r) ∧
          companies d !! product_company_id (row_product r)
          = Some (row_company r) ∧
          profiles d !! created_by_id o = Some (row_profile r) ∧
          users d !! profile_user_id (row_profile r) = Some (row_user r) ∧
          order_row r ∈ csv_content d ids) ∧
  (* and only for those *)
  (∀ r, r ∈ export_queryset d ids →
     orders d !! row_id r = Some (row_order r) ∧ row_id r ∈ ids) ∧
  (* one row per order *)
  NoDup (row_id <$> export_queryset d ids) ∧
  length (csv_content d ids)
  = S (length (filter (λ i, is_Some (orders d !! i)) (remove_dups ids))) ∧
  export_queryset d (ids ++ ids) = export_queryset d ids ∧
  (* the requester plays no part in the selection; the stored file is
     the header line and the lines of these rows *)
  (∀ env id e stored,
     exports d !! id = Some e →
     storage_outcome env (export_path id) = inr stored →
     files (db (snd (run (generate_export env id ids) d))) !! stored
     = Some (csv_string (csv_content d ids)) ∧
     files (db (snd (run (generate_export env id ids) d))) !! stored
     = Some (String.concat newline
               (header_line :: map export_line (export_queryset d ids)))).
Proof.
  intros Hri. split_and!.
  - intros i o Ho Hi.
    destruct (select_related_total d i o Hri Ho) as [r Hr].
    pose proof (select_related_Some d (i, o) r Hr) as Hsel.
    assert (Hin : r ∈ export_queryset d ids)
      by (apply elem_of_export_queryset; eauto).
    cbn [fst snd] in Hsel.
    destruct Hsel as (Hid & Hord & Hp & Hc & Hpr & Hu).
    exists r. split_and!; try done.
    unfold csv_content. apply elem_of_cons. right.
    apply list_elem_of_In, in_map, list_elem_of_In, Hin.
  - intros r Hr. apply elem_of_export_queryset in Hr
      as (i & o & Ho & Hi & Hsel).
    apply select_related_Some in Hsel as (-> & -> & _). by simpl.
  - apply NoDup_export_queryset_ids.
  - unfold csv_content. simpl. rewrite length_map.
    by rewrite export_queryset_count.
  - apply export_queryset_same_ids. intros i. rewrite elem_of_app. tauto.
  - intros env id e stored He Hs.
    pose proof (generate_export_artifact env id ids d e stored He Hs) as H.
    split; [exact H|]. rewrite H. f_equal. apply csv_string_export_text.
Qed.


Lemma export_rows_are_the_listed_orders_witness :
  referential_integrity Sample.db0 ∧
  ∃ r, r ∈ export_queryset Sample.db0 [1; 3; 3; 9] ∧ row_id r = 3 ∧
       row_order r = Sample.order3.
Proof.
  assert (Hri : referential_integrity Sample.db0).
  { unfold referential_integrity. split_and!.
    - intros i o Hi.
      apply elem_of_map_to_list, list_elem_of_In in Hi. vm_compute in Hi.
      decompose [or] Hi; try done;
        match goal with H : _ = (_, _) |- _ => injection H as <- <- end;
        split; by eexists.
    - intros i p Hi.
      apply elem_of_map_to_list, list_elem_of_In in Hi. vm_compute in Hi.
      decompose [or] Hi; try done;
        match goal with H : _ = (_, _) |- _ => injection H as <- <- end;
        by eexists.
    - intros i p Hi.
      apply elem_of_map_to_list, list_elem_of_In in Hi. vm_compute in Hi.
      decompose [or] Hi; try done;
        match goal with H : _ = (_, _) |- _ => injection H as <- <- end;
        split; by eexists.
    - intros i e Hi.
      apply elem_of_map_to_list, list_elem_of_In in Hi. vm_compute in Hi.
      decompose [or] Hi; try done;
        match goal with H : _ = (_, _) |- _ => injection H as <- <- end;
        by eexists. }
  split; [exact Hri|].
  destruct (export_rows_are_the_listed_orders Sample.db0 [1; 3; 3; 9] Hri)
    as (Hall & _).
  destruct (Hall 3 Sample.order3 eq_refl) as (r & Hr & Hid & Hord & _).
  - apply list_elem_of_further, list_elem_of_here.
  - by exists r.
Defined.

End ArtifactClaims.

Module CsvSpec.
Import Tasks Csv StringFacts.
Local Open Scope nat_scope.

Lemma count_dquote_app (s t : string) :
  count_dquote (s +:+ t) = count_dquote s + count_dquote t.
Proof.
  induction s as [|c s IH]; [done|]. rewrite append_cons. simpl.
  rewrite IH. lia.
Qed.

Lemma count_dquote_snoc (field : string) (c : ascii) :
  count_dquote (snoc_char field c)
  = count_dquote field + (if decide (c = dquote_char) then 1 else 0).
Proof. unfold snoc_char. rewrite count_dquote_app. simpl. lia. Qed.

(** *** Reading back what was written without quotes in the cells *)

Lemma read_field (f : string) : ∀ field row rows rest,
  count_dquote f = 0 →
  read InField field row rows (f +:+ String dquote_char rest)
  = read AfterQuote (field +:+ f) row rows rest.
Proof.
  induction f as [|c f IH]; intros field row rows rest Hf.
  - rewrite append_nil_l, append_nil_r. reflexivity.
  - rewrite append_cons. simpl in *.
    destruct (decide (c = dquote_char)); [lia|].
    rewrite IH by lia. unfold snoc_char. rewrite append_assoc.
    by rewrite append_cons, append_nil_l.
Qed.

Lemma read_quoted_cell (c : Cell) row rows rest :
  count_dquote (cell_str c) = 0 →
  read FieldStart EmptyString row rows (quote_cell c +:+ rest)
  = read AfterQuote (cell_str c) row rows rest.
Proof.
  intros Hc. unfold quote_cell, dquote.
  rewrite append_cons, append_nil_l, append_cons, append_assoc, append_cons,
    append_nil_l.
  simpl. by rewrite read_field.
Qed.

Lemma csv_line_cons c c' cs :
  csv_line (c :: c' :: cs) = quote_cell c +:+ "," +:+ csv_line (c' :: cs).
Proof. reflexivity. Qed.

Lemma csv_string_cons r r' rs :
  csv_string (r :: r' :: rs)
  = csv_line r +:+ newline +:+ csv_string (r' :: rs).
Proof. reflexivity. Qed.

Lemma read_line cs : ∀ c row rows more,
  Forall (λ c, count_dquote (cell_str c) = 0) (c :: cs) →
  read FieldStart EmptyString row rows
    (csv_line (c :: cs) +:+ String newline_char more)
  = read FieldStart EmptyString [] (rows ++ [row ++ map cell_str (c :: cs)]) more.
Proof.
  induction cs as [|c' cs IH]; intros c row rows more Hq;
    inversion Hq as [|? ? Hc Hcs]; subst.
  - change (csv_line [c]) with (quote_cell c).
    rewrite read_quoted_cell by done. reflexivity.
  - rewrite csv_line_cons, !append_assoc, read_quoted_cell by done.
    change ("," +:+ ?s) with (String comma_char s). simpl.
    rewrite IH by done. by rewrite <- app_assoc.
Qed.

Lemma read_last_line cs : ∀ c row rows,
  Forall (λ c, count_dquote (cell_str c) = 0) (c :: cs) →
  read FieldStart EmptyString row rows (csv_line (c :: cs))
  = Some (rows ++ [row ++ map cell_str (c :: cs)]).
Proof.
  induction cs as [|c' cs IH]; intros c row rows Hq;
    inversion Hq as [|? ? Hc Hcs]; subst.
  - change (csv_line [c]) with (quote_cell c).
    rewrite <- (append_nil_r (quote_cell c)).
    by rewrite read_quoted_cell.
  - rewrite csv_line_cons, read_quoted_cell by done.
    change ("," +:+ ?s) with (String comma_char s). simpl.
    rewrite IH by done. by rewrite <- app_assoc.
Qed.

Lemma read_written content : ∀ r rows,
  Forall (λ row, row ≠ []) (r :: content) →
  no_dquote_in (r :: content) →
  read FieldStart EmptyString [] rows (csv_string (r :: content))
  = Some (rows ++ cells_text (r :: content)).
Proof.
  induction content as [|r' rs IH]; intros r rows Hne Hq;
    inversion Hne as [|? ? Hr Hrs]; inversion Hq as [|? ? Hqr Hqrs]; subst;
    destruct r as [|c cs]; try done.
  - change (csv_string [c :: cs]) with (csv_line (c :: cs)).
    by rewrite read_last_line.
  - rewrite csv_string_cons.
    change (newline +:+ ?s) with (String newline_char s).
    rewrite read_line by done. rewrite IH by done.
    simpl. by rewrite <- app_assoc.
Qed.

(** *** Counting the quotes *)

Lemma row_quotes_app (r1 r2 : list string) :
  row_quotes (r1 ++ r2) = row_quotes r1 + row_quotes r2.
Proof. induction r1 as [|f r1 IH]; simpl; [done|]. rewrite IH. lia. Qed.

Lemma rows_quotes_app (rs1 rs2 : list (list string)) :
  rows_quotes (rs1 ++ rs2) = rows_quotes rs1 + rows_quotes rs2.
Proof. induction rs1 as [|r rs1 IH]; simpl; [done|]. rewrite IH. lia. Qed.

(** Whatever the reader accepts, it has consumed two quotes for each
    field it hands back and two for each quote inside a field. *)
Lemma read_counts_quotes (s : string) : ∀ st field row rows result,
  read st field row rows s = Some result →
  count_dquote s + open_quotes st field + row_quotes row + rows_quotes rows
  = rows_quotes result.
Proof.
  induction s as [|c s IH]; intros st field row rows result H.
  - destruct st; simpl in H.
    + destruct row; [|done]. injection H as <-. simpl. lia.
    + done.
    + injection H as <-.
      rewrite rows_quotes_app. simpl. rewrite row_quotes_app.
      simpl. unfold field_quotes. lia.
  - destruct st; simpl in H.
    + destruct (decide (c = dquote_char)) as [->|]; [|done].
      apply IH in H. simpl in *. lia.
    + destruct (decide (c = dquote_char)) as [->|Hc].
      * apply IH in H. simpl in *. lia.
      * apply IH in H. simpl in H. rewrite count_dquote_snoc in H.
        rewrite decide_False in H by done. simpl.
        rewrite decide_False by done. lia.
    + destruct (decide (c = dquote_char)) as [->|Hc].
      * apply IH in H. simpl in H. rewrite count_dquote_snoc in H.
        simpl in *. lia.
      * simpl. rewrite decide_False by done.
        destruct (decide (c = comma_char)) as [->|Hc'].
        -- apply IH in H. rewrite row_quotes_app in H.
           simpl in H. unfold field_quotes in H. lia.
        -- destruct (decide (c = newline_char)) as [->|]; [|done].
           apply IH in H.
           rewrite rows_quotes_app in H. simpl in H.
           rewrite row_quotes_app in H.
           simpl in H. unfold field_quotes in H. lia.
Qed.

Lemma read_csv_counts_quotes s result :
  read_csv s = Some result → count_dquote s = rows_quotes result.
Proof.
  intros H. apply read_counts_quotes in H. simpl in H. lia.
Qed.

Lemma count_dquote_csv_line row :
  count_dquote (csv_line row) = row_written_quotes row.
Proof.
  induction row as [|c [|c' cs] IH].
  - reflexivity.
  - change (csv_line [c]) with (quote_cell c). unfold quote_cell.
    rewrite !count_dquote_app. simpl. lia.
  - rewrite csv_line_cons, !count_dquote_app, IH. unfold quote_cell.
    rewrite !count_dquote_app. simpl. lia.
Qed.

Lemma count_dquote_csv_string content :
  count_dquote (csv_string content) = written_quotes content.
Proof.
  induction content as [|r [|r' rs] IH].
  - reflexivity.
  - change (csv_string [r]) with (csv_line r).
    rewrite count_dquote_csv_line. simpl. lia.
  - rewrite csv_string_cons, !count_dquote_app, IH, count_dquote_csv_line.
    simpl. lia.
Qed.

Lemma row_quotes_cells row :
  row_quotes (map cell_str row) = row_written_quotes row
  → Forall (λ c, count_dquote (cell_str c) = 0) row.
Proof.
  assert (Hle : ∀ r, row_written_quotes r ≤ row_quotes (map cell_str r)).
  { induction r as [|c r IH]; simpl; [done|]. unfold field_quotes. lia. }
  induction row as [|c row IH]; intros H; [constructor|].
  simpl in H. unfold field_quotes in H. pose proof (Hle row).
  constructor; [lia|]. apply IH. lia.
Qed.

Lemma rows_quotes_cells content :
  rows_quotes (cells_text content) = written_quotes content →
  no_dquote_in content.
Proof.
  assert (Hrow : ∀ r, row_written_quotes r ≤ row_quotes (map cell_str r)).
  { induction r as [|c r IH]; simpl; [done|]. unfold field_quotes. lia. }
  assert (Hle : ∀ ct, written_quotes ct ≤ rows_quotes (cells_text ct)).
  { induction ct as [|r ct IH]; simpl; [done|]. pose proof (Hrow r). lia. }
  induction content as [|r content IH]; intros H; [constructor|].
  simpl in H. pose proof (Hrow r). pose proof (Hle content).
  constructor; [apply row_quotes_cells; lia|]. apply IH. lia.
Qed.

(** What the reader gives back for the artifact is the table that was
    written exactly when no cell has a double quote. *)
Lemma read_back_iff content :
  Forall (λ row, row ≠ []) content →
  read_csv (csv_string content) = Some (cells_text content)
  ↔ no_dquote_in content.
Proof.
  intros Hne. split.
  - intros H. apply read_csv_counts_quotes in H.
    rewrite count_dquote_csv_string in H. by apply rows_quotes_cells.
  - intros Hq. destruct content as [|r rs]; [reflexivity|].
    unfold read_csv. by rewrite read_written.
Qed.

End CsvSpec.

Module CsvClaims.
Import Models Tasks Csv CsvSpec.

(** C10 does not hold as stated: a cell with two double quotes in a row
    gives a document that follows the grammar. *)
Lemma doubled_quote_is_well_formed :
  ¬ well_formed_iff_no_dquote (csv_content Sample.db_doubled_quote [1]).
Proof.
  intros [Hwf _].
  assert (H : no_dquote_in (csv_content Sample.db_doubled_quote [1])).
  { apply Hwf. vm_compute. eauto. }
  vm_compute in H.
  inversion H as [|? ? _ Hrows]. inversion Hrows as [|? ? Hrow _].
  inversion Hrow as [|? ? _ Hcells]. inversion Hcells as [|? ? Hname _].
  discriminate Hname.
Qed.

(** C10 (amended). The writer puts each cell between double quotes as it
    is, joins the cells of a row with commas and the rows with line feeds.
    When no cell has a double quote the artifact is a well-formed quoted
    CSV document; and it is a document that reads back as the table that
    was written exactly when no cell has a double quote. *)
Theorem csv_reads_back_iff_no_dquote (content : list (list Cell)) :
  Forall (λ row, row ≠ []) content →
  csv_string content
  = String.concat newline
      (map (λ row, String.concat ","
                     (map (λ c, dquote +:+ cell_str c +:+ dquote) row))
           content) ∧
  (no_dquote_in content → well_formed (csv_string content)) ∧
  (read_csv (csv_string content) = Some (cells_text content)
   ↔ no_dquote_in content).
Proof.
  intros Hne. split_and!.
  - reflexivity.
  - intros Hq. exists (cells_text content). by apply read_back_iff.
  - by apply read_back_iff.
Qed.

Lemma csv_reads_back_iff_no_dquote_witness :
  Forall (λ row : list Cell, row ≠ []) (csv_content Sample.db0 [1; 3]) ∧
  read_csv (csv_string (csv_content Sample.db0 [1; 3]))
  = Some (cells_text (csv_content Sample.db0 [1; 3])).
Proof.
  assert (Hne : Forall (λ row : list Cell, row ≠ [])
                  (csv_content Sample.db0 [1; 3])).
  { unfold csv_content. constructor; [done|].
    apply List.Forall_map, Forall_true. intros r. done. }
  split; [exact Hne|].
  apply (csv_reads_back_iff_no_dquote _ Hne).
  vm_compute. repeat constructor.
Defined.

End CsvClaims.

Module ThrottleSpec.
Import Throttling.
Local Open Scope Q_scope.

Lemma py_min_cases (a b : Q) :
  (py_min a b = a ∧ a <= b) ∨ (py_min a b = b ∧ b < a).
Proof. unfold py_min. destruct (Qlt_le_dec b a); auto. Qed.

Lemma py_min_Qmin (a b : Q) : py_min a b == Qmin b a.
Proof.
  destruct (py_min_cases a b) as [[-> H]|[-> H]].
  - symmetry. by apply Q.min_r.
  - symmetry. apply Q.min_l. by apply Qlt_le_weak.
Qed.

Lemma allow_request_superuser self request t cache u :
  user request = Some u → user_is_superuser u = true →
  allow_request self request t cache = (true, cache).
Proof. intros Hu Hs. unfold allow_request. by rewrite Hu, Hs. Qed.

Lemma allow_request_fresh self request t cache :
  not_superuser request →
  cache_get t (cache_key_of self request) cache = None →
  allow_request self request t cache
  = (true, cache_set t (cache_key_of self request)
             {| tokens := capacity self - 1; last_update := t |} 3600 cache).
Proof.
  intros Hn Hget. unfold allow_request, not_superuser, cache_key_of in *.
  destruct (user request) as [u|]; [rewrite Hn|]; by rewrite Hget.
Qed.

Lemma allow_request_refill self request t cache b :
  not_superuser request →
  cache_get t (cache_key_of self request) cache = Some b →
  let refilled :=
    py_min (tokens b + (t - last_update b) * refill_rate self) (capacity self) in
  allow_request self request t cache
  = if Qle_bool 1 refilled
    then (true, cache_set t (cache_key_of self request)
                  {| tokens := refilled - 1; last_update := t |} 3600 cache)
    else (false, cache_set t (cache_key_of self request)
                   {| tokens := refilled; last_update := t |} 3600 cache).
Proof.
  intros Hn Hget. unfold allow_request, not_superuser, cache_key_of in *.
  destruct (user request) as [u|]; [rewrite Hn|]; by rewrite Hget.
Qed.

Lemma cache_get_Some t key cache b :
  cache_get t key cache = Some b →
  ∃ e, cache !! key = Some e ∧ entry_value e = b ∧ t < expires_at e.
Proof.
  unfold cache_get. destruct (cache !! key) as [e|]; [|done].
  destruct (Qlt_le_dec t (expires_at e)); [|done].
  intros [= <-]. eauto.
Qed.

Lemma prefix_append (p s : string) : String.prefix p (p +:+ s) = true.
Proof.
  induction p as [|c p IH]; [by destruct s|].
  rewrite StringFacts.append_cons. simpl.
  destruct (ascii_dec c c); [exact IH | done].
Qed.

Lemma owns_cache_key self request :
  owns self (cache_key_of self request) = true.
Proof.
  unfold owns, cache_key_of. rewrite <- StringFacts.append_assoc.
  apply prefix_append.
Qed.

Lemma cache_ok_set self now t key b timeout cache :
  cache_ok self now cache → now <= t → bucket_ok self t b →
  cache_ok self t (cache_set t key b timeout cache).
Proof.
  intros Hc Ht Hb. unfold cache_ok, cache_set.
  apply map_Forall_insert_2; [done|].
  eapply map_Forall_impl; [exact Hc|]. simpl.
  intros k e Hk Hown. destruct (Hk Hown) as (H0 & H1 & H2).
  split_and!; auto. by eapply Qle_trans.
Qed.

Lemma superuser_or_not (request : Request) :
  (∃ u, user request = Some u ∧ user_is_superuser u = true) ∨
  not_superuser request.
Proof.
  unfold not_superuser. destruct (user request) as [u|]; [|by right].
  destruct (user_is_superuser u) eqn:Hs; [left; eauto | by right].
Qed.

Lemma cache_ok_later self now t cache :
  cache_ok self now cache → now <= t → cache_ok self t cache.
Proof.
  intros Hc Ht. eapply map_Forall_impl; [exact Hc|]. simpl.
  intros k e Hk Hown. destruct (Hk Hown) as (H0 & H1 & H2).
  split_and!; auto. by eapply Qle_trans.
Qed.

(** One call keeps the bounds of the buckets of its throttle. *)
Lemma allow_request_cache_ok self request now t cache :
  1 <= capacity self → 0 <= refill_rate self →
  cache_ok self now cache → now <= t →
  cache_ok self t (snd (allow_request self request t cache)).
Proof.
  intros Hcap Hrate Hc Ht.
  destruct (superuser_or_not request) as [(u & Hu & Hs)|Hn].
  { rewrite (allow_request_superuser self request t cache u) by done.
    by eapply cache_ok_later. }
  destruct (cache_get t (cache_key_of self request) cache) as [b|] eqn:Hget.
  - rewrite (allow_request_refill self request t cache b Hn Hget). cbv zeta.
    apply cache_get_Some in Hget as (e & He & <- & _).
    destruct (Hc _ _ He (owns_cache_key self request)) as (H0 & H1 & H2).
    assert (Hadd : 0 <= (t - last_update (entry_value e)) * refill_rate self).
    { apply Qmult_le_0_compat; [lra|done]. }
    set (x := tokens (entry_value e) + _) in *.
    destruct (py_min_cases x (capacity self)) as [[Hm Hle]|[Hm Hlt]];
      rewrite Hm; destruct (Qle_bool 1 _) eqn:Hb; simpl;
      try apply Qle_bool_iff in Hb;
      apply (cache_ok_set self now); auto; unfold bucket_ok; simpl;
      subst x; split_and!; lra.
  - rewrite (allow_request_fresh self request t cache Hn Hget). simpl.
    apply (cache_ok_set self now); auto. unfold bucket_ok; simpl.
    split_and!; lra.
Qed.

(** A call writes at most the bucket of its key. *)
Lemma allow_request_writes self request t cache :
  snd (allow_request self request t cache) = cache ∨
  ∃ b, snd (allow_request self request t cache)
       = cache_set t (cache_key_of self request) b 3600 cache.
Proof.
  destruct (superuser_or_not request) as [(u & Hu & Hs)|Hn].
  { left. by rewrite (allow_request_superuser self request t cache u). }
  right.
  destruct (cache_get t (cache_key_of self request) cache) as [b|] eqn:Hget.
  - rewrite (allow_request_refill self request t cache b Hn Hget). cbv zeta.
    destruct (Qle_bool 1 _); simpl; eauto.
  - rewrite (allow_request_fresh self request t cache Hn Hget). simpl. eauto.
Qed.

(** A call through another throttle leaves the buckets of [self] alone. *)
Lemma allow_request_cache_ok_other self other request now t cache :
  separate self other →
  cache_ok self now cache → now <= t →
  cache_ok self t (snd (allow_request other request t cache)).
Proof.
  intros Hsep Hc Ht.
  destruct (allow_request_writes other request t cache) as [->|[b ->]].
  - by eapply cache_ok_later.
  - unfold cache_set. apply map_Forall_insert_2.
    + intros Hown. unfold cache_key_of in Hown. by rewrite Hsep in Hown.
    + by eapply cache_ok_later.
Qed.

(** A sequence of calls through one throttle, at times that do not go
    back, keeps the bounds. *)
Lemma allow_requests_cache_ok self calls : ∀ now cache,
  1 <= capacity self → 0 <= refill_rate self →
  cache_ok self now cache → times_from now calls →
  cache_ok self (last_time now calls) (snd (allow_requests self calls cache)).
Proof.
  induction calls as [|[request t] rest IH]; intros now cache Hcap Hrate Hc Ht;
    simpl; [done|].
  destruct Ht as [Ht Hrest].
  pose proof (allow_request_cache_ok self request now t cache Hcap Hrate Hc Ht)
    as Hstep.
  destruct (allow_request self request t cache) as [ok cache'].
  specialize (IH t cache' Hcap Hrate Hstep Hrest).
  by destruct (allow_requests self rest cache') as [oks cache''].
Qed.

(** The same for calls through the throttles of several classes that
    share the cache. *)
Lemma serve_cache_ok classes calls : ∀ now cache,
  well_configured classes →
  Forall (λ c, fst (fst c) ∈ classes) calls →
  (∀ T, T ∈ classes → cache_ok T now cache) →
  times_from now calls →
  ∀ T, T ∈ classes →
    cache_ok T (last_time now calls) (snd (serve calls cache)).
Proof.
  induction calls as [|[[U request] t] rest IH];
    intros now cache Hwc Hin Hc Ht T HT; simpl; [by apply Hc|].
  destruct Ht as [Ht Hrest].
  inversion Hin as [|? ? HU Hin']; subst. simpl in HU.
  assert (Hstep : ∀ T', T' ∈ classes →
            cache_ok T' t (snd (allow_request U request t cache))).
  { intros T' HT'. destruct Hwc as [Hcfg Hsep].
    destruct (Hsep T' U HT' HU) as [->|Hs].
    - rewrite Forall_forall in Hcfg. destruct (Hcfg U HU) as [Hcap Hrate].
      eapply allow_request_cache_ok; eauto.
    - eapply allow_request_cache_ok_other; eauto. }
  destruct (allow_request U request t cache) as [ok cache'].
  specialize (IH t cache' Hwc Hin' Hstep Hrest T HT).
  by destruct (serve rest cache') as [oks cache''].
Qed.

Lemma cache_ok_bounds self now cache :
  cache_ok self now cache → tokens_within_bounds self cache.
Proof.
  intros Hc. eapply map_Forall_impl; [exact Hc|]. simpl.
  intros k e Hk Hown. by destruct (Hk Hown) as (H0 & H1 & _).
Qed.

(** The throttles of the source: capacities of at least one token,
    positive refill rates, prefixes that differ before the colon. *)
Lemma throttle_classes_well_configured : well_configured throttle_classes.
Proof.
  split.
  - repeat constructor; vm_compute; discriminate.
  - intros T U HT HU. unfold throttle_classes in *.
    repeat (apply elem_of_cons in HT as [->|HT]);
      try (by apply elem_of_nil in HT);
      repeat (apply elem_of_cons in HU as [->|HU]);
      try (by apply elem_of_nil in HU);
      first [by left | right; intros ident; reflexivity].
Qed.

End ThrottleSpec.

Module BurstSpec.
Import Throttling ThrottleSpec.
Local Open Scope Q_scope.

Lemma allow_requests_app self l1 : ∀ l2 cache,
  allow_requests self (l1 ++ l2) cache
  = let '(oks1, cache1) := allow_requests self l1 cache in
    let '(oks2, cache2) := allow_requests self l2 cache1 in
    ((oks1 ++ oks2)%list, cache2).
Proof.
  induction l1 as [|[request t] l1 IH]; intros l2 cache; simpl.
  - by destruct (allow_requests self l2 cache).
  - destruct (allow_request self request t cache) as [ok cache'].
    rewrite IH. destruct (allow_requests self l1 cache') as [oks1 cache1].
    by destruct (allow_requests self l2 cache1).
Qed.

Lemma bucket_at_get cache key t x t' :
  bucket_at cache key t x → t' < t + 3600 →
  ∃ b, cache_get t' key cache = Some b ∧ tokens b == x ∧ last_update b = t.
Proof.
  intros (e & He & Hx & Hl & Hexp) Ht. unfold cache_get. rewrite He, Hexp.
  destruct (Qlt_le_dec t' (t + 3600)); [eauto | lra].
Qed.

Lemma bucket_at_set cache key t b x :
  tokens b == x → last_update b = t →
  bucket_at (cache_set t key b 3600 cache) key t x.
Proof.
  intros Hx Hl. unfold bucket_at, cache_set.
  eexists. rewrite lookup_insert_eq. split; [done|]. by simpl.
Qed.

(** A call that finds at least one token after the refill is admitted. *)
Lemma allow_request_admits self request cache t x t' y :
  not_superuser request →
  bucket_at cache (cache_key_of self request) t x →
  t' < t + 3600 →
  (x + (t' - t) * refill_rate self <= capacity self →
   y == x + (t' - t) * refill_rate self) →
  (capacity self < x + (t' - t) * refill_rate self → y == capacity self) →
  1 <= y →
  ∃ cache', allow_request self request t' cache = (true, cache') ∧
            bucket_at cache' (cache_key_of self request) t' (y - 1).
Proof.
  intros Hn Hb Ht Hy1 Hy2 Hy.
  destruct (bucket_at_get _ _ _ _ _ Hb Ht) as (b & Hget & Hx & Hl).
  rewrite (allow_request_refill self request t' cache b Hn Hget). cbv zeta.
  rewrite Hl.
  set (r := py_min _ _).
  assert (Hr : r == y).
  { subst r. destruct (py_min_cases (tokens b + (t' - t) * refill_rate self)
                         (capacity self)) as [[-> H]|[-> H]].
    - assert (Hc : x + (t' - t) * refill_rate self <= capacity self) by lra.
      specialize (Hy1 Hc). lra.
    - assert (Hc : capacity self < x + (t' - t) * refill_rate self) by lra.
      specialize (Hy2 Hc). lra. }
  destruct (Qle_bool 1 r) eqn:Hle.
  - eexists. split; [done|]. apply bucket_at_set; [simpl; lra | done].
  - assert (1 <= r) by lra. apply Qle_bool_iff in H. congruence.
Qed.

(** A call that finds less than one token after the refill is denied. *)
Lemma allow_request_denies self request cache t x t' y :
  not_superuser request →
  bucket_at cache (cache_key_of self request) t x →
  t' < t + 3600 →
  (x + (t' - t) * refill_rate self <= capacity self →
   y == x + (t' - t) * refill_rate self) →
  (capacity self < x + (t' - t) * refill_rate self → y == capacity self) →
  y < 1 →
  ∃ cache', allow_request self request t' cache = (false, cache') ∧
            bucket_at cache' (cache_key_of self request) t' y.
Proof.
  intros Hn Hb Ht Hy1 Hy2 Hy.
  destruct (bucket_at_get _ _ _ _ _ Hb Ht) as (b & Hget & Hx & Hl).
  rewrite (allow_request_refill self request t' cache b Hn Hget). cbv zeta.
  rewrite Hl.
  set (r := py_min _ _).
  assert (Hr : r == y).
  { subst r. destruct (py_min_cases (tokens b + (t' - t) * refill_rate self)
                         (capacity self)) as [[-> H]|[-> H]].
    - assert (Hc : x + (t' - t) * refill_rate self <= capacity self) by lra.
      specialize (Hy1 Hc). lra.
    - assert (Hc : capacity self < x + (t' - t) * refill_rate self) by lra.
      specialize (Hy2 Hc). lra. }
  destruct (Qle_bool 1 r) eqn:Hle.
  - apply Qle_bool_iff in Hle. lra.
  - eexists. split; [done|]. apply bucket_at_set; [simpl; lra | done].
Qed.

Lemma bucket_at_proper cache key t x y :
  x == y → bucket_at cache key t x → bucket_at cache key t y.
Proof.
  intros Hxy (e & He & Hx & Hl & Hexp). exists e. split_and!; auto.
  by rewrite Hx.
Qed.

Lemma wait_refills (R w : Q) :
  0 < R → 1 / R <= w → 1 <= w * R.
Proof.
  intros HR Hw.
  assert (H : (1 / R) * R <= w * R)
    by (apply Qmult_le_compat_r; [done | lra]).
  assert (HR' : ¬ R == 0) by lra.
  rewrite (Qmult_comm (1 / R)), (Qmult_div_r _ _ HR') in H. done.
Qed.

Lemma wait_refills_less (R w : Q) :
  0 < R → w < 2 / R → w * R < 2.
Proof.
  intros HR Hw.
  assert (H : w * R < (2 / R) * R)
    by (apply Qmult_lt_compat_r; done).
  assert (HR' : ¬ R == 0) by lra.
  rewrite (Qmult_comm (2 / R)), (Qmult_div_r _ _ HR') in H. done.
Qed.

Lemma inject_nat_S (k : nat) :
  inject_Z (Z.of_nat (S k)) == inject_Z (Z.of_nat k) + 1.
Proof. rewrite Nat2Z.inj_succ. unfold Z.succ. by rewrite inject_Z_plus. Qed.

(** [k] calls at the time of the stamp, with at least [k] tokens left. *)
Lemma burst_admitted self request t (k : nat) : ∀ cache x,
  not_superuser request →
  bucket_at cache (cache_key_of self request) t x →
  inject_Z (Z.of_nat k) <= x → x <= capacity self →
  ∃ cache', allow_requests self (replicate k (request, t)) cache
            = (replicate k true, cache') ∧
            bucket_at cache' (cache_key_of self request) t
              (x - inject_Z (Z.of_nat k)).
Proof.
  induction k as [|k IH]; intros cache x Hn Hb Hk Hx.
  - exists cache. split; [done|].
    destruct Hb as (e & He & Hx' & Hl & Hexp). exists e. split_and!; auto.
    change (inject_Z (Z.of_nat 0)) with 0. lra.
  - rewrite inject_nat_S in Hk.
    assert (0 <= inject_Z (Z.of_nat k)).
    { change 0 with (inject_Z 0). rewrite <- Zle_Qle. lia. }
    destruct (allow_request_admits self request cache t x t x Hn Hb)
      as (cache1 & Hstep & Hb1); try lra.
    destruct (IH cache1 (x - 1) Hn Hb1) as (cache2 & Hrest & Hb2); try lra.
    exists cache2. simpl. rewrite Hstep, Hrest. split; [done|].
    destruct Hb2 as (e & He & Hx' & Hl & Hexp). exists e. split_and!; auto.
    rewrite Hx', inject_nat_S. lra.
Qed.

(** Calls at the time of the stamp with less than one token left. *)
Lemma burst_denied self request t (n : nat) : ∀ cache x,
  not_superuser request →
  bucket_at cache (cache_key_of self request) t x →
  x < 1 → x <= capacity self →
  ∃ cache', allow_requests self (replicate n (request, t)) cache
            = (replicate n false, cache') ∧
            bucket_at cache' (cache_key_of self request) t x.
Proof.
  induction n as [|n IH]; intros cache x Hn Hb Hx Hcap.
  - by exists cache.
  - destruct (allow_request_denies self request cache t x t x Hn Hb)
      as (cache1 & Hstep & Hb1); try lra.
    destruct (IH cache1 x Hn Hb1 Hx Hcap) as (cache2 & Hrest & Hb2).
    exists cache2. simpl. by rewrite Hstep, Hrest.
Qed.

End BurstSpec.

Module Binary64Spec.
Import Binary64.
Local Open Scope Q_scope.

Lemma pow2_pos k : 0 < 2 ^ k.
Proof. by apply Qpower_0_lt. Qed.

Lemma pow2_add a b : 2 ^ (a + b) == 2 ^ a * 2 ^ b.
Proof. by apply Qpower_plus. Qed.

Lemma pow2_le a b : (a <= b)%Z → 2 ^ a <= 2 ^ b.
Proof. intros H. by apply Qpower_le_compat_l. Qed.

Lemma pow2_lt a b : (a < b)%Z → 2 ^ a < 2 ^ b.
Proof. intros H. by apply Qpower_lt_compat_l. Qed.

Lemma pow2_lt_inv a b : 2 ^ a < 2 ^ b → (a < b)%Z.
Proof. intros H. by apply (Qpower_lt_compat_l_inv 2). Qed.

Lemma pow2_Z n : (0 <= n)%Z → inject_Z (2 ^ n) == 2 ^ n.
Proof. intros H. by rewrite Zpower_Qpower. Qed.

Lemma pow2_S a : 2 ^ (a + 1) == 2 * 2 ^ a.
Proof. rewrite pow2_add. change (2 ^ 1) with 2. ring. Qed.

Lemma pow2_div a b : 2 ^ a / 2 ^ b == 2 ^ (a - b).
Proof.
  replace a with ((a - b) + b)%Z at 1 by ring. rewrite pow2_add.
  field. pose proof (pow2_pos b). lra.
Qed.

(** [x / 2^e], by cross multiplication. *)
Lemma div_pow2_le x y e : x <= y * 2 ^ e ↔ x / 2 ^ e <= y.
Proof.
  pose proof (pow2_pos e) as He. split; intros H.
  - apply Qle_shift_div_r; done.
  - apply (Qmult_le_r _ _ (/ 2 ^ e)); [by apply Qinv_lt_0_compat|].
    unfold Qdiv in H. rewrite <- Qmult_assoc, Qmult_inv_r; lra.
Qed.

Lemma div_pow2_lt x y e : x < y * 2 ^ e ↔ x / 2 ^ e < y.
Proof.
  pose proof (pow2_pos e) as He. split; intros H.
  - apply Qlt_shift_div_r; done.
  - apply (Qmult_lt_r _ _ (/ 2 ^ e)); [by apply Qinv_lt_0_compat|].
    unfold Qdiv in H. rewrite <- Qmult_assoc, Qmult_inv_r; lra.
Qed.

Lemma div_pow2_ge x y e : y * 2 ^ e <= x ↔ y <= x / 2 ^ e.
Proof.
  pose proof (pow2_pos e) as He. split; intros H.
  - apply Qle_shift_div_l; done.
  - apply (Qmult_le_r _ _ (/ 2 ^ e)); [by apply Qinv_lt_0_compat|].
    unfold Qdiv in H. rewrite <- Qmult_assoc, Qmult_inv_r; lra.
Qed.

(** The binary logarithm. *)
Lemma Q_num_den q : q == inject_Z (Qnum q) / inject_Z (Zpos (Qden q)).
Proof. destruct q as [n d]. simpl. by rewrite <- Qmake_Qdiv. Qed.

Lemma log2_bounds (n : Z) :
  (0 < n)%Z → 2 ^ Z.log2 n <= inject_Z n ∧ inject_Z n < 2 ^ (Z.log2 n + 1).
Proof.
  intros Hn. destruct (Z.log2_spec n Hn) as [H1 H2].
  pose proof (Z.log2_nonneg n) as H0.
  rewrite <- !pow2_Z by lia. rewrite <- Zle_Qle, <- Zlt_Qlt.
  split; [done|]. by rewrite Z.add_1_r.
Qed.

Lemma ilog2_spec q : 0 < q → 2 ^ ilog2 q <= q ∧ q < 2 ^ (ilog2 q + 1).
Proof.
  intros Hq. unfold ilog2.
  assert (Hn : (0 < Qnum q)%Z).
  { destruct q as [n d]. unfold Qlt in Hq. simpl in *. lia. }
  destruct (log2_bounds (Qnum q) Hn) as [Hn1 Hn2].
  destruct (log2_bounds (Zpos (Qden q)) eq_refl) as [Hd1 Hd2].
  set (la := Z.log2 (Qnum q)) in *. set (ld := Z.log2 (Zpos (Qden q))) in *.
  assert (Hd0 : 0 < inject_Z (Zpos (Qden q))).
  { change 0 with (inject_Z 0). by rewrite <- Zlt_Qlt. }
  assert (Hqd : q * inject_Z (Zpos (Qden q)) == inject_Z (Qnum q)).
  { rewrite (Q_num_den q) at 1. field. lra. }
  set (n := inject_Z (Qnum q)) in *. set (d := inject_Z (Zpos (Qden q))) in *.
  pose proof (pow2_pos ld) as Hpd. pose proof (pow2_pos (la - ld)) as Hpk.
  assert (Hsplit : 2 ^ la == 2 ^ (la - ld) * 2 ^ ld).
  { rewrite <- pow2_add. by replace (la - ld + ld)%Z with la by ring. }
  assert (Hupper : q < 2 ^ (la - ld + 1)).
  { rewrite pow2_S in Hn2. rewrite pow2_S. nra. }
  assert (Hlower : 2 ^ (la - ld - 1) <= q).
  { assert (Hh : 2 ^ (la - ld) == 2 * 2 ^ (la - ld - 1)).
    { rewrite <- pow2_S. by replace (la - ld - 1 + 1)%Z with (la - ld)%Z by ring. }
    rewrite pow2_S in Hd2. nra. }
  destruct (Qle_bool (2 ^ (la - ld)) q) eqn:Ht.
  - apply Qle_bool_iff in Ht. by split.
  - split; [done|].
    replace (la - ld - 1 + 1)%Z with (la - ld)%Z by ring.
    apply Qnot_le_lt. intros H. apply Qle_bool_iff in H. congruence.
Qed.

Lemma ilog2_unique q k : 2 ^ k <= q → q < 2 ^ (k + 1) → ilog2 q = k.
Proof.
  intros H1 H2.
  assert (Hq : 0 < q) by (pose proof (pow2_pos k); lra).
  destruct (ilog2_spec q Hq) as [H3 H4].
  assert (k < ilog2 q + 1)%Z by (apply pow2_lt_inv; lra).
  assert (ilog2 q < k + 1)%Z by (apply pow2_lt_inv; lra).
  lia.
Qed.

Lemma ilog2_proper x y : 0 < x → x == y → ilog2 x = ilog2 y.
Proof.
  intros Hx Hxy. destruct (ilog2_spec x Hx) as [H1 H2].
  symmetry. apply ilog2_unique; lra.
Qed.

Lemma ilog2_mono x y : 0 < x → x <= y → (ilog2 x <= ilog2 y)%Z.
Proof.
  intros Hx Hxy.
  destruct (ilog2_spec x Hx) as [H1 H2].
  destruct (ilog2_spec y) as [H3 H4]; [lra|].
  assert (ilog2 x < ilog2 y + 1)%Z by (apply pow2_lt_inv; lra). lia.
Qed.


(** Rounding to the nearest integer. *)
Lemma rne_proper x y : x == y → rne x = rne y.
Proof.
  intros H. unfold rne. cbv zeta.
  assert (Hf : Qfloor x = Qfloor y) by (by apply Qfloor_comp).
  rewrite Hf.
  assert (Hc : Qcompare (x - inject_Z (Qfloor y)) (1 # 2)
               = Qcompare (y - inject_Z (Qfloor y)) (1 # 2)).
  { apply Qcompare_comp; [|reflexivity]. by apply Qplus_comp. }
  by rewrite Hc.
Qed.

Lemma rne_near x :
  inject_Z (rne x) - (1 # 2) <= x ∧ x <= inject_Z (rne x) + (1 # 2).
Proof.
  unfold rne. pose proof (Qfloor_le x) as H1. pose proof (Qlt_floor x) as H2.
  rewrite inject_Z_plus in H2. change (inject_Z 1) with 1 in H2.
  destruct (Qcompare_spec (x - inject_Z (Qfloor x)) (1 # 2)) as [H|H|H].
  - destruct (Z.even (Qfloor x)); rewrite ?inject_Z_plus;
      change (inject_Z 1) with 1; lra.
  - lra.
  - rewrite inject_Z_plus. change (inject_Z 1) with 1. lra.
Qed.

Lemma rne_Z x z : x == inject_Z z → rne x = z.
Proof.
  intros H. rewrite (rne_proper _ _ H). unfold rne. rewrite Qfloor_Z.
  destruct (Qcompare_spec (inject_Z z - inject_Z z) (1 # 2)) as [H'|H'|H'];
    [lra | done | lra].
Qed.

Lemma rne_mono x y : x <= y → (rne x <= rne y)%Z.
Proof.
  intros Hxy. destruct (Qeq_dec x y) as [Heq|Hne].
  { by rewrite (rne_proper _ _ Heq). }
  assert (Hlt : x < y) by (apply Qle_lteq in Hxy as [?|?]; done).
  destruct (rne_near x) as [Hx _]. destruct (rne_near y) as [_ Hy].
  destruct (Z_lt_le_dec (rne y) (rne x)) as [H|H]; [|done].
  assert (H' : inject_Z (rne y) + 1 <= inject_Z (rne x)).
  { change 1 with (inject_Z 1). rewrite <- inject_Z_plus, <- Zle_Qle. lia. }
  lra.
Qed.

Lemma rne_nonneg x : 0 <= x → (0 <= rne x)%Z.
Proof. intros H. rewrite <- (rne_Z 0 0 ltac:(reflexivity)). by apply rne_mono. Qed.


(** Rounding a positive number. *)
Lemma exponent_ge q : (-1074 <= exponent q)%Z.
Proof. unfold exponent. lia. Qed.

Lemma exponent_ilog q : (ilog2 q - 52 <= exponent q)%Z.
Proof. unfold exponent. lia. Qed.

Lemma exponent_proper x y : 0 < x → x == y → exponent x = exponent y.
Proof. intros Hx H. unfold exponent. by rewrite (ilog2_proper x y). Qed.

Lemma exponent_mono x y : 0 < x → x <= y → (exponent x <= exponent y)%Z.
Proof.
  intros Hx H. unfold exponent. pose proof (ilog2_mono x y Hx H). lia.
Qed.

Lemma round_pos_eq q :
  round_pos q == inject_Z (rne (q / 2 ^ exponent q)) * 2 ^ exponent q.
Proof. unfold round_pos. apply Qred_correct. Qed.

Lemma scaled_lt q : 0 < q → q / 2 ^ exponent q < 2 ^ 53.
Proof.
  intros Hq. destruct (ilog2_spec q Hq) as [_ H].
  apply (proj1 (div_pow2_lt q (2 ^ 53) (exponent q))). rewrite <- pow2_add.
  eapply Qlt_le_trans; [exact H|]. apply pow2_le.
  pose proof (exponent_ilog q). lia.
Qed.

Lemma scaled_ge q :
  0 < q → exponent q = (ilog2 q - 52)%Z → 2 ^ 52 <= q / 2 ^ exponent q.
Proof.
  intros Hq He. destruct (ilog2_spec q Hq) as [H _].
  apply (proj1 (div_pow2_ge q (2 ^ 52) (exponent q))). rewrite <- pow2_add.
  eapply Qle_trans; [|exact H]. apply pow2_le. lia.
Qed.

Lemma scaled_pos q : 0 < q → 0 < q / 2 ^ exponent q.
Proof.
  intros Hq. apply Qlt_shift_div_l; [apply pow2_pos|]. lra.
Qed.

Lemma significand_le q : 0 < q → (rne (q / 2 ^ exponent q) <= 2 ^ 53)%Z.
Proof.
  intros Hq.
  assert (H : rne (2 ^ 53) = (2 ^ 53)%Z) by (apply rne_Z; by rewrite pow2_Z).
  rewrite <- H. apply rne_mono, Qlt_le_weak, scaled_lt, Hq.
Qed.

Lemma significand_ge q :
  0 < q → exponent q = (ilog2 q - 52)%Z →
  (2 ^ 52 <= rne (q / 2 ^ exponent q))%Z.
Proof.
  intros Hq He.
  assert (H : rne (2 ^ 52) = (2 ^ 52)%Z) by (apply rne_Z; by rewrite pow2_Z).
  rewrite <- H. by apply rne_mono, scaled_ge.
Qed.

Lemma significand_nonneg q : 0 < q → (0 <= rne (q / 2 ^ exponent q))%Z.
Proof. intros Hq. apply rne_nonneg, Qlt_le_weak, scaled_pos, Hq. Qed.

Lemma round_pos_nonneg q : 0 < q → 0 <= round_pos q.
Proof.
  intros Hq. rewrite round_pos_eq. apply Qmult_le_0_compat.
  - change 0 with (inject_Z 0). rewrite <- Zle_Qle.
    by apply significand_nonneg.
  - apply Qlt_le_weak, pow2_pos.
Qed.

Lemma round_pos_proper x y : 0 < x → x == y → round_pos x = round_pos y.
Proof.
  intros Hx H. unfold round_pos. cbv zeta.
  rewrite (exponent_proper x y Hx H).
  rewrite (rne_proper (x / 2 ^ exponent y) (y / 2 ^ exponent y)); [done|].
  by apply Qmult_comp.
Qed.

Lemma round_pos_mono x y : 0 < x → x <= y → round_pos x <= round_pos y.
Proof.
  intros Hx Hxy. assert (Hy : 0 < y) by lra.
  rewrite !round_pos_eq.
  pose proof (exponent_mono x y Hx Hxy) as He.
  pose proof (pow2_pos (exponent x)) as Hpx.
  pose proof (pow2_pos (exponent y)) as Hpy.
  destruct (Z.eq_dec (exponent x) (exponent y)) as [Heq|Hne].
  - rewrite Heq. apply Qmult_le_compat_r; [|lra].
    rewrite <- Zle_Qle. apply rne_mono.
    apply Qmult_le_compat_r; [done|].
    apply Qlt_le_weak, Qinv_lt_0_compat, pow2_pos.
  - assert (Hlt : (exponent x + 1 <= exponent y)%Z) by lia.
    assert (Hnormal : exponent y = (ilog2 y - 52)%Z).
    { pose proof (exponent_ge x). unfold exponent in *. lia. }
    pose proof (significand_le x Hx) as Hmx.
    pose proof (significand_ge y Hy Hnormal) as Hmy.
    rewrite Zle_Qle in Hmx, Hmy. rewrite pow2_Z in Hmx, Hmy by done.
    assert (H1 : inject_Z (rne (x / 2 ^ exponent x)) * 2 ^ exponent x
                 <= 2 ^ (53 + exponent x)).
    { rewrite pow2_add. apply Qmult_le_compat_r; [done|lra]. }
    assert (H2 : 2 ^ (52 + exponent y)
                 <= inject_Z (rne (y / 2 ^ exponent y)) * 2 ^ exponent y).
    { rewrite pow2_add. apply Qmult_le_compat_r; [done|lra]. }
    assert (H3 : 2 ^ (53 + exponent x) <= 2 ^ (52 + exponent y))
      by (apply pow2_le; lia).
    lra.
Qed.

(** Rounding in general. *)
Lemma Qnum_pos q : 0 < q → ∃ p, Qnum q = Zpos p.
Proof.
  destruct q as [[|p|p] d]; unfold Qlt; simpl; intros H; try lia. eauto.
Qed.

Lemma Qnum_neg q : q < 0 → ∃ p, Qnum q = Zneg p.
Proof.
  destruct q as [[|p|p] d]; unfold Qlt; simpl; intros H; try lia. eauto.
Qed.

Lemma Qnum_zero q : q == 0 → Qnum q = 0%Z.
Proof. destruct q as [n d]. unfold Qeq. simpl. lia. Qed.

Lemma round64_pos q : 0 < q → round64 q = round_pos q.
Proof. intros H. unfold round64. by destruct (Qnum_pos q H) as [p ->]. Qed.

Lemma round64_neg q : q < 0 → round64 q = - round_pos (- q).
Proof. intros H. unfold round64. by destruct (Qnum_neg q H) as [p ->]. Qed.

Lemma round64_zero q : q == 0 → round64 q = 0.
Proof. intros H. unfold round64. by rewrite (Qnum_zero q H). Qed.

Lemma round64_proper x y : x == y → round64 x = round64 y.
Proof.
  intros H. destruct (Q_dec x 0) as [[Hx|Hx]|Hx].
  - rewrite !round64_neg by lra. f_equal.
    apply round_pos_proper; [lra|]. by rewrite H.
  - rewrite !round64_pos by lra. by apply round_pos_proper.
  - rewrite !round64_zero; [done| |done]. by rewrite <- H.
Qed.

Lemma round64_nonneg q : 0 <= q → 0 <= round64 q.
Proof.
  intros H. destruct (Qeq_dec q 0) as [Hz|Hz].
  - rewrite (round64_zero q Hz). lra.
  - assert (0 < q) by (apply Qle_lteq in H as [?|?]; [done|]; by destruct Hz).
    rewrite round64_pos by done. by apply round_pos_nonneg.
Qed.

Lemma round64_nonpos q : q <= 0 → round64 q <= 0.
Proof.
  intros H. destruct (Qeq_dec q 0) as [Hz|Hz].
  - rewrite (round64_zero q Hz). lra.
  - assert (q < 0) by (apply Qle_lteq in H as [?|?]; [done|]; by destruct Hz).
    rewrite round64_neg by done.
    pose proof (round_pos_nonneg (- q)). lra.
Qed.

(** Rounding is monotone. *)
Lemma round64_mono x y : x <= y → round64 x <= round64 y.
Proof.
  intros H. destruct (Qlt_le_dec 0 x) as [Hx|Hx].
  - rewrite !round64_pos by lra. by apply round_pos_mono.
  - destruct (Qlt_le_dec y 0) as [Hy|Hy].
    + rewrite !round64_neg by lra.
      pose proof (round_pos_mono (- y) (- x)). lra.
    + pose proof (round64_nonpos x Hx). pose proof (round64_nonneg y Hy). lra.
Qed.


(** The numbers of binary64 are not changed by rounding. *)
Lemma ilog2_scaled k j : (0 < k)%Z → ilog2 (inject_Z k * 2 ^ j) = (Z.log2 k + j)%Z.
Proof.
  intros Hk. destruct (log2_bounds k Hk) as [H1 H2].
  pose proof (pow2_pos j) as Hj.
  apply ilog2_unique.
  - rewrite pow2_add. apply Qmult_le_compat_r; [done|lra].
  - replace (Z.log2 k + j + 1)%Z with ((Z.log2 k + 1) + j)%Z by ring.
    rewrite pow2_add. apply Qmult_lt_compat_r; done.
Qed.

Lemma round_pos_fixed k j :
  (0 < k < 2 ^ 53)%Z → (-1074 <= j)%Z →
  round_pos (inject_Z k * 2 ^ j) == inject_Z k * 2 ^ j.
Proof.
  intros [Hk0 Hk] Hj. rewrite round_pos_eq.
  set (q := inject_Z k * 2 ^ j).
  assert (He : (exponent q <= j)%Z).
  { unfold exponent, q. rewrite ilog2_scaled by done.
    assert (Z.log2 k < 53)%Z by (by apply Z.log2_lt_pow2). lia. }
  set (e := exponent q) in *.
  assert (Hs : q / 2 ^ e == inject_Z (k * 2 ^ (j - e))).
  { unfold q. rewrite inject_Z_mult, pow2_Z by lia.
    rewrite <- pow2_div. field. pose proof (pow2_pos e). lra. }
  rewrite (rne_Z _ _ Hs), inject_Z_mult, pow2_Z by lia.
  unfold q. rewrite <- Qmult_assoc, <- pow2_add.
  by replace (j - e + e)%Z with j by ring.
Qed.

Lemma round64_fixed q : representable q → round64 q == q.
Proof.
  intros (k & j & Hq & Hk & Hj).
  rewrite (round64_proper _ _ Hq), Hq.
  pose proof (pow2_pos j) as Hp.
  destruct (Z.lt_trichotomy k 0) as [Hneg|[->|Hpos]].
  - assert (Hlt : inject_Z k * 2 ^ j < 0).
    { assert (inject_Z k < 0)
        by (change 0 with (inject_Z 0); by rewrite <- Zlt_Qlt).
      nra. }
    rewrite (round64_neg _ Hlt).
    assert (Hopp : - (inject_Z k * 2 ^ j) == inject_Z (- k) * 2 ^ j)
      by (rewrite inject_Z_opp; ring).
    assert (Hpos' : 0 < - (inject_Z k * 2 ^ j)) by lra.
    rewrite (round_pos_proper _ _ Hpos' Hopp).
    rewrite round_pos_fixed by lia. rewrite inject_Z_opp. ring.
  - rewrite round64_zero; [|ring]. ring.
  - assert (Hgt : 0 < inject_Z k * 2 ^ j).
    { assert (0 < inject_Z k)
        by (change 0 with (inject_Z 0); by rewrite <- Zlt_Qlt).
      nra. }
    rewrite (round64_pos _ Hgt). apply round_pos_fixed; lia.
Qed.

Lemma round_pos_representable q : 0 < q → representable (round_pos q).
Proof.
  intros Hq. pose proof (significand_le q Hq) as Hle.
  pose proof (significand_nonneg q Hq) as H0.
  pose proof (exponent_ge q) as He.
  destruct (Z.eq_dec (rne (q / 2 ^ exponent q)) (2 ^ 53)) as [Heq|Hne].
  - exists (2 ^ 52)%Z, (exponent q + 1)%Z. split_and!; [|done|lia].
    rewrite round_pos_eq, Heq, pow2_S.
    change (inject_Z (2 ^ 53)) with (2 * inject_Z (2 ^ 52)). ring.
  - exists (rne (q / 2 ^ exponent q)), (exponent q).
    split_and!; [apply round_pos_eq|lia|done].
Qed.

Lemma representable_opp q : representable q → representable (- q).
Proof.
  intros (k & j & Hq & Hk & Hj). exists (- k)%Z, j.
  split_and!; [|lia|done]. rewrite Hq, inject_Z_opp. ring.
Qed.

Lemma round64_representable q : representable (round64 q).
Proof.
  destruct (Q_dec q 0) as [[Hq|Hq]|Hq].
  - rewrite round64_neg by done.
    apply representable_opp, round_pos_representable. lra.
  - rewrite round64_pos by done. by apply round_pos_representable.
  - rewrite round64_zero by done. exists 0%Z, 0%Z. split_and!; [ring|done|done].
Qed.

Lemma round64_idem q : round64 (round64 q) == round64 q.
Proof. apply round64_fixed, round64_representable. Qed.

Lemma representable_Z z : (Z.abs z < 2 ^ 53)%Z → representable (inject_Z z).
Proof. intros H. exists z, 0%Z. split_and!; [|done|done]. change (2 ^ 0) with 1. ring. Qed.

(** The difference between a number of binary64 in [1, 2) and 1 is a
    number of binary64. *)
Lemma representable_minus_one p :
  round64 p == p → 1 <= p → p < 2 → representable (p - 1).
Proof.
  intros Hp H1 H2.
  assert (Hpos : 0 < p) by lra.
  assert (Hl : ilog2 p = 0%Z) by (apply ilog2_unique; [exact H1|exact H2]).
  assert (He : exponent p = (-52)%Z) by (unfold exponent; rewrite Hl; done).
  rewrite (round64_pos p Hpos), round_pos_eq, He in Hp.
  set (m := rne (p / 2 ^ (-52))) in *.
  assert (Hone : 1 == inject_Z (2 ^ 52) * 2 ^ (-52)).
  { rewrite pow2_Z by done. rewrite <- pow2_add. reflexivity. }
  pose proof (pow2_pos (-52)) as Hpp.
  exists (m - 2 ^ 52)%Z, (-52)%Z. split_and!; [| |done].
  - rewrite <- Hp at 1. rewrite Hone at 1.
    unfold Zminus. rewrite inject_Z_plus, inject_Z_opp. ring.
  - assert (Hlo : inject_Z (2 ^ 52) <= inject_Z m).
    { apply (Qmult_le_r _ _ (2 ^ (-52))); [done|]. rewrite <- Hone, Hp. done. }
    assert (Hhi : inject_Z m < inject_Z (2 ^ 53)).
    { apply (Qmult_lt_r _ _ (2 ^ (-52))); [done|]. rewrite Hp.
      change (inject_Z (2 ^ 53)) with (2 * inject_Z (2 ^ 52)).
      rewrite <- Qmult_assoc, <- Hone. lra. }
    rewrite <- Zle_Qle in Hlo. rewrite <- Zlt_Qlt in Hhi. lia.
Qed.


(** Where the rounding reaches 1 and 2: the midpoints below them, which
    the ties to even round up. *)
Lemma round_pos_below x k :
  0 < x → x / 2 ^ exponent x < inject_Z k + (1 # 2) →
  round_pos x <= inject_Z k * 2 ^ exponent x.
Proof.
  intros Hx Hs. rewrite round_pos_eq.
  apply Qmult_le_compat_r; [|apply Qlt_le_weak, pow2_pos].
  destruct (rne_near (x / 2 ^ exponent x)) as [Hn _].
  rewrite <- Zle_Qle.
  assert (H : inject_Z (rne (x / 2 ^ exponent x)) < inject_Z (k + 1)).
  { rewrite inject_Z_plus. change (inject_Z 1) with 1. lra. }
  rewrite <- Zlt_Qlt in H. lia.
Qed.

Lemma round64_one_iff x : 1 <= round64 x ↔ 1 - 2 ^ (-54) <= x.
Proof.
  split.
  - intros H. apply Qnot_lt_le. intros Hx.
    assert (Hlt : round64 x < 1); [|lra].
    destruct (Qlt_le_dec x (1 # 2)) as [Hsmall|Hbig].
    + assert (Hhalf : round64 (1 # 2) == 1 # 2) by (vm_compute; reflexivity).
      pose proof (round64_mono x (1 # 2) (Qlt_le_weak _ _ Hsmall)). lra.
    + assert (Hpos : 0 < x) by lra.
      assert (Hx1 : x < 1).
      { eapply Qlt_trans; [exact Hx|]. vm_compute. reflexivity. }
      assert (Hl : ilog2 x = (-1)%Z).
      { apply ilog2_unique; [exact Hbig|exact Hx1]. }
      assert (He : exponent x = (-53)%Z) by (unfold exponent; by rewrite Hl).
      rewrite (round64_pos x Hpos).
      pose proof (round_pos_below x (2 ^ 53 - 1) Hpos) as Hb.
      rewrite He in Hb.
      assert (Hs : x / 2 ^ (-53) < inject_Z (2 ^ 53 - 1) + (1 # 2)).
      { apply (proj1 (div_pow2_lt x _ (-53))).
        eapply Qlt_le_trans; [exact Hx|]. vm_compute. discriminate. }
      specialize (Hb Hs).
      eapply Qle_lt_trans; [exact Hb|]. vm_compute. reflexivity.
  - intros H. pose proof (round64_mono _ _ H) as Hm.
    assert (Hone : round64 (1 - 2 ^ (-54)) == 1) by (vm_compute; reflexivity).
    lra.
Qed.

Lemma round64_two_iff x : round64 x < 2 ↔ x < 2 - 2 ^ (-53).
Proof.
  split.
  - intros H. apply Qnot_le_lt. intros Hx.
    pose proof (round64_mono _ _ Hx) as Hm.
    assert (Htwo : round64 (2 - 2 ^ (-53)) == 2) by (vm_compute; reflexivity).
    lra.
  - intros Hx.
    destruct (Qlt_le_dec x 1) as [Hsmall|Hbig].
    + assert (Hone : round64 1 == 1) by (vm_compute; reflexivity).
      pose proof (round64_mono x 1 (Qlt_le_weak _ _ Hsmall)). lra.
    + assert (Hpos : 0 < x) by lra.
      assert (Hx2 : x < 2).
      { eapply Qlt_trans; [exact Hx|]. vm_compute. reflexivity. }
      assert (Hl : ilog2 x = 0%Z).
      { apply ilog2_unique; [exact Hbig|exact Hx2]. }
      assert (He : exponent x = (-52)%Z) by (unfold exponent; by rewrite Hl).
      rewrite (round64_pos x Hpos).
      pose proof (round_pos_below x (2 ^ 53 - 1) Hpos) as Hb.
      rewrite He in Hb.
      assert (Hs : x / 2 ^ (-52) < inject_Z (2 ^ 53 - 1) + (1 # 2)).
      { apply (proj1 (div_pow2_lt x _ (-52))).
        eapply Qlt_le_trans; [exact Hx|]. vm_compute. discriminate. }
      specialize (Hb Hs).
      eapply Qle_lt_trans; [exact Hb|]. vm_compute. reflexivity.
Qed.

End Binary64Spec.

Module Throttle64Spec.
Import Throttling ThrottleSpec BurstSpec Binary64 Binary64Spec.
Local Open Scope Q_scope.

(** The arithmetic of floats where it is exact. *)
Lemma fsub_same t : fsub t t = 0.
Proof. unfold fsub. apply round64_zero. ring. Qed.

Lemma fmul_0_l r : fmul 0 r = 0.
Proof. unfold fmul. apply round64_zero. ring. Qed.

Lemma fadd_0_r x y : is_float x → y == 0 → fadd x y == x.
Proof.
  intros Hx Hy. unfold fadd.
  rewrite (round64_proper (x + y) x) by lra. exact Hx.
Qed.

Lemma fadd_0_l x y : is_float y → x == 0 → fadd x y == y.
Proof.
  intros Hy Hx. unfold fadd.
  rewrite (round64_proper (x + y) y) by lra. exact Hy.
Qed.

Lemma is_float_round q : is_float (round64 q).
Proof. apply round64_idem. Qed.

Lemma is_float_proper x y : x == y → is_float x → is_float y.
Proof.
  unfold is_float. intros H Hx. rewrite <- (round64_proper x y H). lra.
Qed.

Lemma is_float_Z z : (Z.abs z < 2 ^ 53)%Z → is_float (inject_Z z).
Proof. intros H. by apply round64_fixed, representable_Z. Qed.

Lemma fsub_nonneg a b : b <= a → 0 <= fsub a b.
Proof. intros H. apply round64_nonneg. lra. Qed.

Lemma fmul_nonneg a b : 0 <= a → 0 <= b → 0 <= fmul a b.
Proof. intros Ha Hb. by apply round64_nonneg, Qmult_le_0_compat. Qed.

Lemma fadd_nonneg a b : 0 <= a → 0 <= b → 0 <= fadd a b.
Proof. intros Ha Hb. apply round64_nonneg. lra. Qed.

Lemma round64_le_float x c : x <= c → is_float c → round64 x <= c.
Proof.
  intros H Hc. pose proof (round64_mono x c H). unfold is_float in Hc. lra.
Qed.

Lemma round64_ge_float x c : c <= x → is_float c → c <= round64 x.
Proof.
  intros H Hc. pose proof (round64_mono c x H). unfold is_float in Hc. lra.
Qed.

Lemma is_float_1 : is_float 1.
Proof. apply (is_float_Z 1). done. Qed.

Lemma py_min_proper a a' c : a == a' → py_min a c == py_min a' c.
Proof.
  intros H. destruct (py_min_cases a c) as [[-> H1]|[-> H1]];
    destruct (py_min_cases a' c) as [[-> H2]|[-> H2]]; lra.
Qed.

Lemma py_min_le a c : py_min a c <= c.
Proof. destruct (py_min_cases a c) as [[-> H1]|[-> H1]]; lra. Qed.

Lemma Qle_bool_proper a b : a == b → Qle_bool 1 a = Qle_bool 1 b.
Proof.
  intros H. destruct (Qle_bool 1 a) eqn:Ha, (Qle_bool 1 b) eqn:Hb; try done.
  - apply Qle_bool_iff in Ha. assert (Hb' : 1 <= b) by lra.
    apply Qle_bool_iff in Hb'. congruence.
  - apply Qle_bool_iff in Hb. assert (Ha' : 1 <= a) by lra.
    apply Qle_bool_iff in Ha'. congruence.
Qed.

(** The steps of [allow_request]. *)
Lemma allow_request64_superuser self request t cache u :
  user request = Some u → user_is_superuser u = true →
  Throttling64.allow_request self request t cache = (true, cache).
Proof. intros Hu Hs. unfold Throttling64.allow_request. by rewrite Hu, Hs. Qed.

Lemma allow_request64_fresh self request t cache :
  not_superuser request →
  cache_get t (cache_key_of self request) cache = None →
  Throttling64.allow_request self request t cache
  = (true, cache_set t (cache_key_of self request)
             {| tokens := capacity self - 1; last_update := t |} 3600 cache).
Proof.
  intros Hn Hget.
  unfold Throttling64.allow_request, not_superuser, cache_key_of in *.
  destruct (user request) as [u|]; [rewrite Hn|]; by rewrite Hget.
Qed.

Lemma allow_request64_refill self request t cache b :
  not_superuser request →
  cache_get t (cache_key_of self request) cache = Some b →
  let refilled :=
    py_min (fadd (tokens b) (fmul (fsub t (last_update b)) (refill_rate self)))
           (capacity self) in
  Throttling64.allow_request self request t cache
  = if Qle_bool 1 refilled
    then (true, cache_set t (cache_key_of self request)
                  {| tokens := fsub refilled 1; last_update := t |} 3600 cache)
    else (false, cache_set t (cache_key_of self request)
                   {| tokens := refilled; last_update := t |} 3600 cache).
Proof.
  intros Hn Hget.
  unfold Throttling64.allow_request, not_superuser, cache_key_of in *.
  destruct (user request) as [u|]; [rewrite Hn|]; by rewrite Hget.
Qed.

Lemma python_throttle_bounds self :
  Throttling64.python_throttle self →
  1 <= capacity self ∧ is_float (capacity self) ∧ 0 <= refill_rate self.
Proof.
  intros ((C & HC & H1 & H2) & _ & HR). split_and!; [| |done].
  - rewrite HC. change 1 with (inject_Z 1). rewrite <- Zle_Qle. done.
  - apply (is_float_proper (inject_Z C)); [by symmetry|].
    apply is_float_Z. lia.
Qed.

(** One call keeps the bounds of the buckets of its throttle. *)
Lemma allow_request64_cache_ok self request now t cache :
  Throttling64.python_throttle self →
  cache_ok self now cache → now <= t →
  cache_ok self t (snd (Throttling64.allow_request self request t cache)).
Proof.
  intros Hself Hc Ht.
  destruct (python_throttle_bounds self Hself) as (Hcap & Hfloat & Hrate).
  destruct (superuser_or_not request) as [(u & Hu & Hs)|Hn].
  { rewrite (allow_request64_superuser self request t cache u) by done.
    by eapply cache_ok_later. }
  destruct (cache_get t (cache_key_of self request) cache) as [b|] eqn:Hget.
  - rewrite (allow_request64_refill self request t cache b Hn Hget). cbv zeta.
    apply cache_get_Some in Hget as (e & He & <- & _).
    destruct (Hc _ _ He (owns_cache_key self request)) as (H0 & H1 & H2).
    assert (Hadd : 0 <= fadd (tokens (entry_value e))
                          (fmul (fsub t (last_update (entry_value e)))
                                (refill_rate self))).
    { apply fadd_nonneg; [done|]. apply fmul_nonneg; [|done].
      apply fsub_nonneg. lra. }
    set (x := fadd _ _) in *.
    pose proof (py_min_le x (capacity self)) as Hle.
    assert (Hge : 0 <= py_min x (capacity self))
      by (destruct (py_min_cases x (capacity self)) as [[-> ?]|[-> ?]]; lra).
    set (p := py_min x (capacity self)) in *.
    destruct (Qle_bool 1 p) eqn:Hb; simpl.
    + apply Qle_bool_iff in Hb.
      apply (cache_ok_set self now); auto. unfold bucket_ok; simpl.
      split_and!;
        [apply round64_nonneg; lra | apply round64_le_float; [lra|done] | lra].
    + apply (cache_ok_set self now); auto. unfold bucket_ok; simpl.
      split_and!; lra.
  - rewrite (allow_request64_fresh self request t cache Hn Hget). simpl.
    apply (cache_ok_set self now); auto. unfold bucket_ok; simpl.
    split_and!; lra.
Qed.

(** A call writes at most the bucket of its key. *)
Lemma allow_request64_writes self request t cache :
  snd (Throttling64.allow_request self request t cache) = cache ∨
  ∃ b, snd (Throttling64.allow_request self request t cache)
       = cache_set t (cache_key_of self request) b 3600 cache.
Proof.
  destruct (superuser_or_not request) as [(u & Hu & Hs)|Hn].
  { left. by rewrite (allow_request64_superuser self request t cache u). }
  right.
  destruct (cache_get t (cache_key_of self request) cache) as [b|] eqn:Hget.
  - rewrite (allow_request64_refill self request t cache b Hn Hget). cbv zeta.
    destruct (Qle_bool 1 _); simpl; eauto.
  - rewrite (allow_request64_fresh self request t cache Hn Hget). simpl. eauto.
Qed.

(** A call through another throttle leaves the buckets of [self] alone. *)
Lemma allow_request64_cache_ok_other self other request now t cache :
  separate self other →
  cache_ok self now cache → now <= t →
  cache_ok self t (snd (Throttling64.allow_request other request t cache)).
Proof.
  intros Hsep Hc Ht.
  destruct (allow_request64_writes other request t cache) as [->|[b ->]].
  - by eapply cache_ok_later.
  - unfold cache_set. apply map_Forall_insert_2.
    + intros Hown. unfold cache_key_of in Hown. by rewrite Hsep in Hown.
    + by eapply cache_ok_later.
Qed.

(** Calls through the throttles of several classes that share the cache,
    at times that do not go back, keep the bounds. *)
Lemma serve64_cache_ok classes calls : ∀ now cache,
  Throttling64.well_configured classes →
  Forall (λ c, fst (fst c) ∈ classes) calls →
  (∀ T, T ∈ classes → cache_ok T now cache) →
  times_from now calls →
  ∀ T, T ∈ classes →
    cache_ok T (last_time now calls) (snd (Throttling64.serve calls cache)).
Proof.
  induction calls as [|[[U request] t] rest IH];
    intros now cache Hwc Hin Hc Ht T HT; simpl; [by apply Hc|].
  destruct Ht as [Ht Hrest].
  inversion Hin as [|? ? HU Hin']; subst. simpl in HU.
  assert (Hstep : ∀ T', T' ∈ classes →
            cache_ok T' t (snd (Throttling64.allow_request U request t cache))).
  { intros T' HT'. destruct Hwc as [Hcfg Hsep].
    destruct (Hsep T' U HT' HU) as [->|Hs].
    - rewrite Forall_forall in Hcfg.
      eapply allow_request64_cache_ok; eauto.
    - eapply allow_request64_cache_ok_other; eauto. }
  destruct (Throttling64.allow_request U request t cache) as [ok cache'].
  specialize (IH t cache' Hwc Hin' Hstep Hrest T HT).
  by destruct (Throttling64.serve rest cache') as [oks cache''].
Qed.

(** The throttles of the source. *)
Lemma throttle_classes64_well_configured :
  Throttling64.well_configured Throttling64.throttle_classes.
Proof.
  split.
  - unfold Throttling64.throttle_classes, Throttling64.python_throttle.
    repeat constructor;
      try (eexists; split; [apply Qeq_refl | cbn; lia]);
      try (vm_compute; reflexivity); try (vm_compute; discriminate).
  - intros T U HT HU. unfold Throttling64.throttle_classes in *.
    repeat (apply elem_of_cons in HT as [->|HT]);
      try (by apply elem_of_nil in HT);
      repeat (apply elem_of_cons in HU as [->|HU]);
      try (by apply elem_of_nil in HU);
      first [by left | right; intros ident; reflexivity].
Qed.

Lemma allow_requests64_app self l1 : ∀ l2 cache,
  Throttling64.allow_requests self (l1 ++ l2) cache
  = let '(oks1, cache1) := Throttling64.allow_requests self l1 cache in
    let '(oks2, cache2) := Throttling64.allow_requests self l2 cache1 in
    ((oks1 ++ oks2)%list, cache2).
Proof.
  induction l1 as [|[request t] l1 IH]; intros l2 cache; simpl.
  - by destruct (Throttling64.allow_requests self l2 cache).
  - destruct (Throttling64.allow_request self request t cache) as [ok cache'].
    rewrite IH.
    destruct (Throttling64.allow_requests self l1 cache') as [oks1 cache1].
    by destruct (Throttling64.allow_requests self l2 cache1).
Qed.

(** A call on a live bucket: the refill is judged, and stored with one
    token less when the call is admitted. *)
Lemma allow_request64_step self request cache t x t' y :
  not_superuser request →
  bucket_at cache (cache_key_of self request) t x →
  t' < t + 3600 →
  (∀ x', x' == x →
     py_min (fadd x' (fmul (fsub t' t) (refill_rate self))) (capacity self)
     == y) →
  ∃ cache',
    Throttling64.allow_request self request t' cache = (Qle_bool 1 y, cache') ∧
    bucket_at cache' (cache_key_of self request) t'
      (if Qle_bool 1 y then round64 (y - 1) else y).
Proof.
  intros Hn Hb Ht Hy.
  destruct (bucket_at_get _ _ _ _ _ Hb Ht) as (b & Hget & Hx & Hl).
  rewrite (allow_request64_refill self request t' cache b Hn Hget). cbv zeta.
  rewrite Hl. specialize (Hy (tokens b) Hx).
  set (r := py_min _ _) in *.
  rewrite (Qle_bool_proper r y Hy).
  destruct (Qle_bool 1 y).
  - eexists. split; [done|]. apply bucket_at_set; [|done]. simpl.
    unfold fsub. rewrite (round64_proper (r - 1) (y - 1)) by lra. reflexivity.
  - eexists. split; [done|]. by apply bucket_at_set.
Qed.

(** A call at the time of the stamp finds the tokens as they are. *)
Lemma same_instant_refill self t x x' :
  is_float x → x <= capacity self → x' == x →
  py_min (fadd x' (fmul (fsub t t) (refill_rate self))) (capacity self) == x.
Proof.
  intros Hx Hcap Hx'. rewrite fsub_same, fmul_0_l.
  assert (H : fadd x' 0 == x).
  { rewrite (fadd_0_r x' 0); [done| |reflexivity].
    by apply (is_float_proper x). }
  destruct (py_min_cases (fadd x' 0) (capacity self)) as [[-> ?]|[-> ?]]; lra.
Qed.

(** [k] calls at the time of the stamp, with [m >= k] tokens left. *)
Lemma burst64_admitted self request t (k : nat) : ∀ cache (m : nat),
  not_superuser request →
  bucket_at cache (cache_key_of self request) t (inject_Z (Z.of_nat m)) →
  (k ≤ m)%nat → (Z.of_nat m < 2 ^ 53)%Z →
  inject_Z (Z.of_nat m) <= capacity self →
  ∃ cache', Throttling64.allow_requests self (replicate k (request, t)) cache
            = (replicate k true, cache') ∧
            bucket_at cache' (cache_key_of self request) t
              (inject_Z (Z.of_nat (m - k))).
Proof.
  induction k as [|k IH]; intros cache m Hn Hb Hk Hm Hcap.
  - exists cache. split; [done|]. by rewrite Nat.sub_0_r.
  - destruct m as [|m]; [lia|].
    assert (Hfl : is_float (inject_Z (Z.of_nat (S m))))
      by (apply is_float_Z; lia).
    destruct (allow_request64_step self request cache t _ t
                (inject_Z (Z.of_nat (S m))) Hn Hb) as (cache1 & Hstep & Hb1);
      [lra | intros x' Hx'; by apply same_instant_refill |].
    assert (Hone : Qle_bool 1 (inject_Z (Z.of_nat (S m))) = true).
    { apply Qle_bool_iff. change 1 with (inject_Z 1). rewrite <- Zle_Qle. lia. }
    rewrite Hone in Hstep, Hb1.
    assert (Hb1' : bucket_at cache1 (cache_key_of self request) t
                     (inject_Z (Z.of_nat m))).
    { eapply bucket_at_proper; [|exact Hb1].
      assert (Heq : inject_Z (Z.of_nat (S m)) - 1 == inject_Z (Z.of_nat m)).
      { rewrite inject_nat_S. ring. }
      rewrite (round64_proper _ _ Heq). apply is_float_Z. lia. }
    destruct (IH cache1 m Hn Hb1') as (cache2 & Hrest & Hb2); [lia|lia| |].
    { rewrite inject_nat_S in Hcap. lra. }
    exists cache2. simpl. rewrite Hstep, Hrest. split; [done|].
    by replace (S m - S k)%nat with (m - k)%nat by lia.
Qed.

(** Calls at the time of the stamp with less than one token left. *)
Lemma burst64_denied self request t (n : nat) : ∀ cache x,
  not_superuser request →
  bucket_at cache (cache_key_of self request) t x →
  is_float x → x < 1 → x <= capacity self →
  ∃ cache', Throttling64.allow_requests self (replicate n (request, t)) cache
            = (replicate n false, cache') ∧
            bucket_at cache' (cache_key_of self request) t x.
Proof.
  induction n as [|n IH]; intros cache x Hn Hb Hfl Hx Hcap.
  - by exists cache.
  - destruct (allow_request64_step self request cache t x t x Hn Hb)
      as (cache1 & Hstep & Hb1);
      [lra | intros x' Hx'; by apply same_instant_refill |].
    assert (Hone : Qle_bool 1 x = false).
    { destruct (Qle_bool 1 x) eqn:H; [|done]. apply Qle_bool_iff in H. lra. }
    rewrite Hone in Hstep, Hb1.
    destruct (IH cache1 x Hn Hb1 Hfl Hx Hcap) as (cache2 & Hrest & Hb2).
    exists cache2. simpl. by rewrite Hstep, Hrest.
Qed.

(** The burst: from a fresh bucket, [C] calls at once are admitted and
    leave a bucket without tokens; the next call is denied. *)
Lemma burst64_from_fresh self (C : nat) request t0 cache :
  (1 ≤ C)%nat → (Z.of_nat C < 2 ^ 53)%Z →
  capacity self == inject_Z (Z.of_nat C) →
  not_superuser request →
  cache_get t0 (cache_key_of self request) cache = None →
  ∃ cache', Throttling64.allow_requests self
              (replicate (C + 1) (request, t0)) cache
            = ((replicate C true ++ [false])%list, cache') ∧
            bucket_at cache' (cache_key_of self request) t0 0.
Proof.
  intros HC Hsmall Hcap Hn Hfresh.
  destruct C as [|k]; [lia|]. pose proof Hcap as Hcap'.
  rewrite inject_nat_S in Hcap.
  assert (0 <= inject_Z (Z.of_nat k)).
  { change 0 with (inject_Z 0). rewrite <- Zle_Qle. lia. }
  rewrite replicate_add, allow_requests64_app. simpl.
  rewrite (allow_request64_fresh self request t0 cache Hn Hfresh).
  set (cache1 := cache_set _ _ _ _ _).
  assert (Hb1 : bucket_at cache1 (cache_key_of self request) t0
                  (inject_Z (Z.of_nat k))).
  { apply bucket_at_set; [simpl; lra|done]. }
  destruct (burst64_admitted self request t0 k cache1 k Hn Hb1)
    as (cache2 & Hrun & Hb2); [lia|lia|lra|].
  rewrite Hrun. rewrite Nat.sub_diag in Hb2.
  destruct (burst64_denied self request t0 1 cache2 0 Hn Hb2)
    as (cache3 & Hdeny & Hb3); [by apply (is_float_Z 0)|lra|lra|].
  simpl in Hdeny.
  destruct (Throttling64.allow_request self request t0 cache2) as [ok cache3'].
  injection Hdeny as -> ->.
  exists cache3. by split.
Qed.

(** The first call after a wait, on a bucket without tokens: the refill
    is what the wait has brought, capped at the capacity. *)
Lemma refill_after_wait self t0 t1 x' :
  x' == 0 →
  py_min (fadd x' (fmul (fsub t1 t0) (refill_rate self))) (capacity self)
  == py_min (fmul (fsub t1 t0) (refill_rate self)) (capacity self).
Proof.
  intros Hx'. apply py_min_proper, fadd_0_l; [|done]. apply is_float_round.
Qed.

End Throttle64Spec.

Module ThrottleClaims.
Import Throttling ThrottleSpec Binary64 Binary64Spec Throttle64Spec.
Local Open Scope Q_scope.

(** C4 does not hold as stated: the limiter takes the clock as it reads
    it, and a reading earlier than the stamp of the bucket gives a
    negative refill.  After eleven calls at second 60 the bucket of the
    exports is empty; a call at second 30 stores minus five tokens. *)
Lemma clock_set_back_stores_negative_tokens :
  ¬ Throttling64.always_within_bounds Throttling64.ExportsThrottle.
Proof.
  intros H.
  specialize (H (replicate 11 (Sample.operator_request, 60)
                 ++ [(Sample.operator_request, 30)])).
  assert (Hclock : Forall (λ c : Request * Q, Throttling64.clock_reading (snd c))
                     (replicate 11 (Sample.operator_request, 60)
                      ++ [(Sample.operator_request, 30)])).
  { apply Forall_app. split.
    - apply Forall_replicate. unfold Throttling64.clock_reading, is_float.
      simpl. split; [vm_compute; reflexivity | lra].
    - repeat constructor; try (vm_compute; reflexivity);
        try (vm_compute; discriminate). }
  specialize (H Hclock).
  set (cache := snd _) in H.
  destruct (cache !! cache_key_of Throttling64.ExportsThrottle
                       Sample.operator_request) as [e|] eqn:He.
  - pose proof (H _ _ He (owns_cache_key _ _)) as [Hlow _].
    revert Hlow. vm_compute in He. injection He as <-. vm_compute. auto.
  - vm_compute in He. discriminate He.
Qed.

(** C4 (amended).  For throttle classes as the module defines them (an
    integer capacity of at least one token, a refill rate that is a
    float and not negative, prefixes that keep the keys of two classes
    apart; those of the source are such), and readings of the clock that
    do not go back, the token count of every stored bucket stays between
    0 and the capacity of its throttle: a fresh bucket starts with
    [capacity - 1] tokens, the refill is the minimum of the capacity and
    [stored + elapsed * refill_rate] computed in binary64, an admitted
    call stores the refill less one, a denied call stores the refill as
    it is. *)
Theorem stored_tokens_within_bounds (classes : list Throttle)
    (calls : list (Throttle * Request * Q)) (now : Q)
    (cache : gmap string CacheEntry) :
  Throttling64.well_configured classes →
  Forall (λ c, fst (fst c) ∈ classes) calls →
  Forall (λ c, Throttling64.clock_reading (snd c)) calls →
  (∀ T, T ∈ classes → cache_ok T now cache) →
  times_from now calls →
  (∀ T, T ∈ classes →
     tokens_within_bounds T (snd (Throttling64.serve calls cache))) ∧
  (∀ self request t c, not_superuser request →
     let key := cache_key_of self request in
     match cache_get t key c with
     | None =>
         Throttling64.allow_request self request t c
         = (true, cache_set t key {| tokens := capacity self - 1;
                                     last_update := t |} 3600 c)
     | Some b =>
         let elapsed := round64 (t - last_update b) in
         let added := round64 (elapsed * refill_rate self) in
         let refilled := py_min (round64 (tokens b + added)) (capacity self) in
         refilled == Qmin (capacity self) (round64 (tokens b + added)) ∧
         Throttling64.allow_request self request t c
         = if Qle_bool 1 refilled
           then (true, cache_set t key {| tokens := round64 (refilled - 1);
                                          last_update := t |} 3600 c)
           else (false, cache_set t key {| tokens := refilled;
                                           last_update := t |} 3600 c)
     end).
Proof.
  intros Hwc Hin _ Hc Ht. split.
  - intros T HT. eapply cache_ok_bounds. by eapply serve64_cache_ok.
  - intros self request t c Hn key.
    destruct (cache_get t key c) as [b|] eqn:Hget.
    + cbv zeta. split; [apply py_min_Qmin|].
      by apply allow_request64_refill.
    + by apply allow_request64_fresh.
Qed.

Lemma stored_tokens_within_bounds_witness :
  tokens_within_bounds Throttling64.OrdersThrottle
    (snd (Throttling64.serve
            [(Throttling64.OrdersThrottle, Sample.operator_request, 0);
             (Throttling64.ProductsThrottle, Sample.operator_request, 0);
             (Throttling64.OrdersThrottle, Sample.operator_request,
              round64 (12 # 10))] ∅)).
Proof.
  apply (stored_tokens_within_bounds Throttling64.throttle_classes
           [(Throttling64.OrdersThrottle, Sample.operator_request, 0);
            (Throttling64.ProductsThrottle, Sample.operator_request, 0);
            (Throttling64.OrdersThrottle, Sample.operator_request,
             round64 (12 # 10))] 0 ∅).
  - apply throttle_classes64_well_configured.
  - repeat constructor; simpl; unfold Throttling64.throttle_classes;
      repeat first [apply list_elem_of_here | apply list_elem_of_further].
  - unfold Throttling64.clock_reading, is_float.
    repeat constructor; simpl; try lra;
      try (vm_compute; reflexivity); try (vm_compute; discriminate).
  - intros T _. apply map_Forall_empty.
  - simpl. split_and!; try done; vm_compute; discriminate.
  - unfold Throttling64.throttle_classes.
    apply list_elem_of_further, list_elem_of_here.
Defined.

End ThrottleClaims.

Module BurstClaims.
Import Throttling ThrottleSpec BurstSpec Binary64 Binary64Spec Throttle64Spec.
Local Open Scope Q_scope.

(** C2 does not hold as stated: a reading of the clock three seconds
    after the burst is more than [1 / refill_rate] later, and two
    further calls are admitted. *)
Lemma long_wait_admits_two :
  ¬ Throttling64.one_more_after_any_wait Throttling64.OrdersThrottle 50
      Sample.operator_request.
Proof.
  intros H. specialize (H 0 3 1%nat).
  assert (H0 : Throttling64.clock_reading 0)
    by (split; [vm_compute; reflexivity | lra]).
  assert (H3 : Throttling64.clock_reading 3)
    by (split; [vm_compute; reflexivity | lra]).
  assert (Hw : 1 / refill_rate Throttling64.OrdersThrottle <= 3 - 0)
    by (vm_compute; discriminate).
  specialize (H H0 H3 Hw). vm_compute in H. discriminate H.
Qed.

(** C2 (amended).  From a fresh bucket, for a throttle with an integer
    capacity of [C >= 1] tokens and a float as refill rate, in the
    arithmetic of binary64: [C] calls at one reading [t0] of the clock
    are all admitted and the next one is denied.  What a later reading
    [t1], before the bucket expires, admits is decided by the refill the
    limiter computes, [(t1 - t0) * refill_rate] with both operations
    rounded: below 1 no call is admitted, from 1 and below 2 exactly one
    call is admitted and the calls that follow it at once are denied,
    from 2 on two calls are admitted when the capacity allows.  With
    [elapsed] the float nearest to [t1 - t0], the refill is at least 1
    exactly when [elapsed * refill_rate >= 1 - 2^-54], and below 2
    exactly when [elapsed * refill_rate < 2 - 2^-53].  For the throttles
    of the source an elapsed time of at least [wait()], the float nearest
    to [1 / refill_rate], gives a refill of at least 1. *)
Theorem burst_then_one_more (self : Throttle) (C : nat) (request : Request)
    (t0 t1 : Q) (cache : gmap string CacheEntry) :
  (1 ≤ C)%nat → (Z.of_nat C < 2 ^ 53)%Z →
  capacity self == inject_Z (Z.of_nat C) →
  is_float (refill_rate self) → 0 <= refill_rate self →
  not_superuser request →
  Throttling64.clock_reading t0 → Throttling64.clock_reading t1 →
  t1 < t0 + 3600 →
  cache_get t0 (cache_key_of self request) cache = None →
  let refill := fmul (fsub t1 t0) (refill_rate self) in
  let burst := replicate (C + 1) (request, t0) in
  fst (Throttling64.allow_requests self burst cache)
  = (replicate C true ++ [false])%list ∧
  (∀ n : nat, refill < 1 →
     fst (Throttling64.allow_requests self
            (burst ++ replicate n (request, t1)) cache)
     = (replicate C true ++ [false] ++ replicate n false)%list) ∧
  (∀ n : nat, 1 <= refill → refill < 2 →
     fst (Throttling64.allow_requests self
            (burst ++ replicate (S n) (request, t1)) cache)
     = (replicate C true ++ [false] ++ [true] ++ replicate n false)%list) ∧
  (2 <= refill → (2 ≤ C)%nat →
     fst (Throttling64.allow_requests self
            (burst ++ replicate 2 (request, t1)) cache)
     = (replicate C true ++ [false; true; true])%list) ∧
  (1 <= refill ↔ 1 - 2 ^ (-54) <= fsub t1 t0 * refill_rate self) ∧
  (refill < 2 ↔ fsub t1 t0 * refill_rate self < 2 - 2 ^ (-53)) ∧
  (self ∈ Throttling64.throttle_classes →
   ∀ w, Throttling64.wait self = Some w → w <= fsub t1 t0 → 1 <= refill).
Proof.
  intros HC Hsmall Hcap HRf HR Hn _ _ Hlive Hfresh. cbv zeta.
  destruct (burst64_from_fresh self C request t0 cache HC Hsmall Hcap Hn Hfresh)
    as (cache1 & Hburst & Hb1).
  set (r := fmul (fsub t1 t0) (refill_rate self)).
  set (y := py_min r (capacity self)).
  assert (Hcap1 : 1 <= capacity self).
  { rewrite Hcap. change 1 with (inject_Z 1). rewrite <- Zle_Qle. lia. }
  assert (Hcapf : is_float (capacity self)).
  { apply (is_float_proper (inject_Z (Z.of_nat C))); [by symmetry|].
    apply is_float_Z. lia. }
  assert (Hrf : is_float r) by apply is_float_round.
  assert (Hy : (y = r ∧ r <= capacity self) ∨ (y = capacity self ∧ capacity self < r))
    by apply py_min_cases.
  assert (Hyf : is_float y) by (destruct Hy as [[-> _]|[-> _]]; done).
  assert (Hyc : y <= capacity self) by apply py_min_le.
  (* the first call at [t1] *)
  destruct (allow_request64_step self request cache1 t0 0 t1 y Hn Hb1 Hlive)
    as (cache2 & Hfirst & Hb2).
  { intros x' Hx'. by apply refill_after_wait. }
  split; [by rewrite Hburst|].
  split; [|split; [|split; [|split; [apply round64_one_iff
                                    |split; [apply round64_two_iff|]]]]].
  - intros n Hr. rewrite allow_requests64_app, Hburst.
    destruct n as [|n]; [simpl; by rewrite app_nil_r|].
    assert (Hy1 : y < 1) by (destruct Hy as [[-> ?]|[-> ?]]; lra).
    assert (Hone : Qle_bool 1 y = false).
    { destruct (Qle_bool 1 y) eqn:H; [|done]. apply Qle_bool_iff in H. lra. }
    rewrite Hone in Hfirst, Hb2. simpl. rewrite Hfirst.
    destruct (burst64_denied self request t1 n cache2 y Hn Hb2 Hyf Hy1 Hyc)
      as (cache3 & Hdeny & _).
    rewrite Hdeny. simpl. by rewrite <- app_assoc.
  - intros n Hr1 Hr2. rewrite allow_requests64_app, Hburst.
    assert (Hy1 : 1 <= y) by (destruct Hy as [[-> ?]|[-> ?]]; lra).
    assert (Hy2 : y < 2) by (destruct Hy as [[-> ?]|[-> ?]]; lra).
    assert (Hone : Qle_bool 1 y = true) by (by apply Qle_bool_iff).
    rewrite Hone in Hfirst, Hb2. simpl. rewrite Hfirst.
    assert (Hexact : round64 (y - 1) == y - 1)
      by (by apply round64_fixed, representable_minus_one).
    destruct (burst64_denied self request t1 n cache2 (round64 (y - 1)) Hn Hb2)
      as (cache3 & Hdeny & _); [apply is_float_round|lra|lra|].
    rewrite Hdeny. simpl. by rewrite <- app_assoc.
  - intros Hr HC2. rewrite allow_requests64_app, Hburst.
    assert (Hcap2 : 2 <= capacity self).
    { rewrite Hcap. change 2 with (inject_Z 2). rewrite <- Zle_Qle. lia. }
    assert (Hy2 : 2 <= y) by (destruct Hy as [[-> ?]|[-> ?]]; lra).
    assert (Hone : Qle_bool 1 y = true) by (apply Qle_bool_iff; lra).
    rewrite Hone in Hfirst, Hb2. simpl. rewrite Hfirst.
    set (z := round64 (y - 1)) in *.
    assert (Hz1 : 1 <= z).
    { apply round64_ge_float; [lra|apply is_float_1]. }
    assert (Hzc : z <= capacity self)
      by (apply round64_le_float; [lra|done]).
    destruct (allow_request64_step self request cache2 t1 z t1 z Hn Hb2)
      as (cache3 & Hsecond & _); [lra| |].
    { intros x' Hx'. apply same_instant_refill; [apply is_float_round|done|done]. }
    assert (Hone' : Qle_bool 1 z = true) by (by apply Qle_bool_iff).
    rewrite Hone' in Hsecond. rewrite Hsecond. simpl.
    by rewrite <- app_assoc.
  - intros Hself w Hw Hlong.
    assert (Hmono : fmul w (refill_rate self) <= r).
    { apply round64_mono. apply Qmult_le_compat_r; done. }
    assert (Hclass : 1 <= fmul w (refill_rate self)).
    { unfold Throttling64.throttle_classes in Hself.
      repeat (apply elem_of_cons in Hself as [->|Hself]);
        try (by apply elem_of_nil in Hself);
        vm_compute in Hw; injection Hw as <-; vm_compute; discriminate. }
    lra.
Qed.

Lemma burst_then_one_more_witness :
  Throttling64.clock_reading 1762171200 ∧
  Throttling64.clock_reading (round64 (1762171200 + (12 # 10))) ∧
  fst (Throttling64.allow_requests Throttling64.OrdersThrottle
         (replicate 51 (Sample.operator_request, 1762171200)
          ++ replicate 3 (Sample.operator_request,
                          round64 (1762171200 + (12 # 10)))) ∅)
  = (replicate 50 true ++ [false] ++ [true] ++ replicate 2 false)%list.
Proof.
  assert (Ht0 : Throttling64.clock_reading 1762171200).
  { unfold Throttling64.clock_reading, is_float.
    split; [vm_compute; reflexivity | lra]. }
  assert (Ht1 : Throttling64.clock_reading (round64 (1762171200 + (12 # 10)))).
  { unfold Throttling64.clock_reading. split; [apply is_float_round|].
    vm_compute. discriminate. }
  split; [exact Ht0|]. split; [exact Ht1|].
  assert (Hcap : capacity Throttling64.OrdersThrottle
                 == inject_Z (Z.of_nat 50)) by reflexivity.
  assert (HC : (1 ≤ 50)%nat) by lia.
  assert (Hsmall : (Z.of_nat 50 < 2 ^ 53)%Z) by reflexivity.
  assert (HRf : is_float (refill_rate Throttling64.OrdersThrottle))
    by apply is_float_round.
  assert (HR : 0 <= refill_rate Throttling64.OrdersThrottle)
    by (vm_compute; discriminate).
  assert (Hn : not_superuser Sample.operator_request) by reflexivity.
  assert (Hlive : round64 (1762171200 + (12 # 10)) < 1762171200 + 3600)
    by reflexivity.
  assert (Hfresh : cache_get 1762171200
            (cache_key_of Throttling64.OrdersThrottle Sample.operator_request)
            ∅ = None) by reflexivity.
  destruct (burst_then_one_more Throttling64.OrdersThrottle 50
              Sample.operator_request 1762171200
              (round64 (1762171200 + (12 # 10))) ∅
              HC Hsmall Hcap HRf HR Hn Ht0 Ht1 Hlive Hfresh)
    as (_ & _ & Hone & _).
  apply (Hone 2%nat).
  - vm_compute. discriminate.
  - reflexivity.
Defined.

(** In binary64 as well a longer wait admits more: 2.4 seconds after
    the burst, two calls. *)
Lemma two_calls_after_a_longer_wait :
  fst (Throttling64.allow_requests Throttling64.OrdersThrottle
         (replicate 51 (Sample.operator_request, 0)
          ++ replicate 3 (Sample.operator_request, round64 (24 # 10))) ∅)
  = (replicate 50 true ++ [false; true; true; false])%list.
Proof. vm_compute. reflexivity. Qed.

End BurstClaims.

(* ===================================================================== *)
(** ** The rate limiter over time *)
(* ===================================================================== *)

Module ThrottleRunsSpec.
Import Throttling ThrottleSpec BurstSpec ThrottleRuns.
Local Open Scope Q_scope.

Lemma inject_nat_nonneg (n : nat) : 0 <= inject_Z (Z.of_nat n).
Proof. change 0 with (inject_Z 0). rewrite <- Zle_Qle. lia. Qed.

Lemma cache_get_entry t key cache :
  cache_get t key cache
  = match cache !! key with
    | Some e => if Qlt_le_dec t (expires_at e) then Some (entry_value e)
                else None
    | None => None
    end.
Proof. reflexivity. Qed.

Lemma tokens_found_bounds self key t cache :
  1 <= capacity self → 0 <= refill_rate self → entry_ok cache key t →
  0 <= tokens_found self key t cache ∧
  tokens_found self key t cache <= capacity self.
Proof.
  intros Hcap HR Hok. unfold tokens_found.
  destruct (cache_get t key cache) as [b|] eqn:Hget; [|lra].
  apply cache_get_Some in Hget as (e & He & <- & _).
  destruct (Hok e He) as (H0 & Hl & _).
  assert (0 <= (t - last_update (entry_value e)) * refill_rate self)
    by (apply Qmult_le_0_compat; lra).
  destruct (py_min_cases (tokens (entry_value e)
              + (t - last_update (entry_value e)) * refill_rate self)
              (capacity self)) as [[-> ?]|[-> ?]]; lra.
Qed.

(** The state a call leaves: the answer is whether a token was found, and
    the bucket holds what was found, less one when the call was admitted,
    stamped with the time of the call. *)
Lemma allow_request_step self request t cache :
  not_superuser request →
  let key := cache_key_of self request in
  let y := tokens_found self key t cache in
  ∃ cache', allow_request self request t cache
            = (Qle_bool 1 y || negb (bool_decide (is_Some (cache_get t key cache))),
               cache') ∧
    ∃ e, cache' !! key = Some e ∧ last_update (entry_value e) = t ∧
         expires_at e = t + 3600 ∧
         tokens (entry_value e)
         = if bool_decide (is_Some (cache_get t key cache))
           then (if Qle_bool 1 y then y - 1 else y)
           else capacity self - 1.
Proof.
  intros Hn key y. subst y. unfold tokens_found.
  destruct (cache_get t key cache) as [b|] eqn:Hget.
  - rewrite (allow_request_refill self request t cache b Hn Hget). cbv zeta.
    rewrite bool_decide_true by eauto. simpl.
    destruct (Qle_bool 1 _) eqn:Hle; simpl.
    + eexists. split; [reflexivity|]. unfold cache_set. eexists.
      rewrite lookup_insert_eq. by split_and!.
    + eexists. split; [reflexivity|]. unfold cache_set. eexists.
      rewrite lookup_insert_eq. by split_and!.
  - rewrite (allow_request_fresh self request t cache Hn Hget).
    rewrite bool_decide_false by (intros [? ?]; discriminate).
    rewrite orb_true_r.
    eexists. split; [reflexivity|]. unfold cache_set. eexists.
    rewrite lookup_insert_eq. by split_and!.
Qed.


(** A call is admitted exactly when it finds a token. *)
Lemma allow_request_answer self request t cache :
  1 <= capacity self → not_superuser request →
  fst (allow_request self request t cache)
  = Qle_bool 1 (tokens_found self (cache_key_of self request) t cache).
Proof.
  intros Hcap Hn.
  destruct (allow_request_step self request t cache Hn) as (cache' & -> & _).
  cbn [fst]. unfold tokens_found.
  destruct (cache_get t (cache_key_of self request) cache) as [b|].
  - rewrite bool_decide_true by eauto. simpl. by rewrite orb_false_r.
  - rewrite bool_decide_false by (intros [? ?]; discriminate).
    simpl. rewrite orb_true_r. symmetry. by apply Qle_bool_iff.
Qed.

Lemma wait_Some self w :
  wait self = Some w → 0 < refill_rate self ∧ w = 1 / refill_rate self.
Proof.
  unfold wait. destruct (Qlt_le_dec 0 (refill_rate self)); [|done].
  by intros [= <-].
Qed.

(** *** Buckets of different keys *)

Lemma allow_request_local self request t c1 c2 :
  c1 !! cache_key_of self request = c2 !! cache_key_of self request →
  fst (allow_request self request t c1) = fst (allow_request self request t c2)
  ∧ snd (allow_request self request t c1) !! cache_key_of self request
    = snd (allow_request self request t c2) !! cache_key_of self request.
Proof.
  intros Heq.
  destruct (superuser_or_not request) as [(u & Hu & Hs)|Hn].
  { by rewrite !(allow_request_superuser self request t _ u). }
  assert (Hget : cache_get t (cache_key_of self request) c1
                 = cache_get t (cache_key_of self request) c2)
    by (by rewrite !cache_get_entry, Heq).
  destruct (cache_get t (cache_key_of self request) c2) as [b|] eqn:Hget2.
  - rewrite (allow_request_refill self request t c1 b Hn Hget),
      (allow_request_refill self request t c2 b Hn Hget2). cbv zeta.
    destruct (Qle_bool 1 _); simpl; unfold cache_set;
      by rewrite !lookup_insert_eq.
  - rewrite (allow_request_fresh self request t c1 Hn Hget),
      (allow_request_fresh self request t c2 Hn Hget2). simpl.
    unfold cache_set. by rewrite !lookup_insert_eq.
Qed.

Lemma allow_request_other_key self request t cache key :
  cache_key_of self request ≠ key →
  snd (allow_request self request t cache) !! key = cache !! key.
Proof.
  intros Hne.
  destruct (allow_request_writes self request t cache) as [->|[b ->]];
    [done|]. unfold cache_set. by rewrite lookup_insert_ne.
Qed.

Lemma answers_on_agree self key calls : ∀ c1 c2,
  c1 !! key = c2 !! key →
  answers_on self key calls c1
  = fst (allow_requests self (calls_on self key calls) c2).
Proof.
  induction calls as [|[request t] rest IH]; intros c1 c2 Heq; [done|].
  unfold calls_on. rewrite filter_cons. cbn [answers_on fst].
  destruct (allow_request self request t c1) as [ok1 c1'] eqn:H1.
  destruct (decide (cache_key_of self request = key)) as [<-|Hne].
  - cbn [allow_requests].
    destruct (allow_request self request t c2) as [ok2 c2'] eqn:H2.
    destruct (allow_request_local self request t c1 c2 Heq) as [Hok Hc].
    rewrite H1, H2 in Hok, Hc. simpl in Hok, Hc. subst ok2.
    specialize (IH c1' c2' Hc). unfold calls_on in IH.
    destruct (allow_requests self _ c2') as [oks c2'']. simpl in *.
    by rewrite IH.
  - apply IH.
    pose proof (allow_request_other_key self request t c1 key Hne) as Hk.
    rewrite H1 in Hk. simpl in Hk. by rewrite Hk.
Qed.

Lemma user_keys_differ self r1 r2 u1 u2 :
  user r1 = Some u1 → user r2 = Some u2 → user_id u1 ≠ user_id u2 →
  cache_key_of self r1 ≠ cache_key_of self r2.
Proof.
  intros H1 H2 Hne Heq. unfold cache_key_of in Heq. rewrite H1, H2 in Heq.
  apply Hne.
  do 3 apply (inj (String.append _)) in Heq. by apply (inj pretty) in Heq.
Qed.

End ThrottleRunsSpec.

Module ThrottleRunsClaims.
Import Throttling ThrottleSpec BurstSpec ThrottleRuns ThrottleRunsSpec.
Local Open Scope Q_scope.



(** X4. The answers to the calls that use one bucket key are those the
    same calls get on their own: the calls of other clients, interleaved
    with them, change nothing; and two authenticated users with different
    ids never share a key. *)
Theorem clients_do_not_interfere (self : Throttle) (key : string)
    (calls : list (Request * Q)) (cache : gmap string CacheEntry) :
  answers_on self key calls cache
  = fst (allow_requests self (calls_on self key calls) cache) ∧
  ∀ r1 r2 u1 u2,
    user r1 = Some u1 → user r2 = Some u2 → user_id u1 ≠ user_id u2 →
    cache_key_of self r1 ≠ cache_key_of self r2.
Proof.
  split; [by apply answers_on_agree | apply user_keys_differ].
Qed.

End ThrottleRunsClaims.

Module Throttle64Claims.
Import Throttling ThrottleSpec BurstSpec ThrottleRuns Binary64 Binary64Spec
  Throttle64Spec.
Local Open Scope Q_scope.

(** The bucket a call leaves: stamped with the time of the call, kept
    for an hour, and without a negative count when the call found none
    and the clock had not gone back. *)
Lemma allow_request64_leaves self request t cache :
  Throttling64.python_throttle self →
  not_superuser request →
  entry_ok cache (cache_key_of self request) t →
  ∃ e, snd (Throttling64.allow_request self request t cache)
         !! cache_key_of self request = Some e ∧
       last_update (entry_value e) = t ∧ expires_at e = t + 3600 ∧
       0 <= tokens (entry_value e).
Proof.
  intros Hself Hn Hok.
  destruct (python_throttle_bounds self Hself) as (Hcap & Hfloat & Hrate).
  destruct (cache_get t (cache_key_of self request) cache) as [b|] eqn:Hget.
  - rewrite (allow_request64_refill self request t cache b Hn Hget). cbv zeta.
    apply cache_get_Some in Hget as (e & He & <- & _).
    destruct (Hok e He) as (H0 & Hl & _).
    assert (Hadd : 0 <= fadd (tokens (entry_value e))
                          (fmul (fsub t (last_update (entry_value e)))
                                (refill_rate self))).
    { apply fadd_nonneg; [done|]. apply fmul_nonneg; [|done].
      by apply fsub_nonneg. }
    set (x := fadd _ _) in *.
    assert (Hge : 0 <= py_min x (capacity self))
      by (destruct (py_min_cases x (capacity self)) as [[-> ?]|[-> ?]]; lra).
    set (p := py_min x (capacity self)) in *.
    destruct (Qle_bool 1 p) eqn:Hb; cbn [snd]; unfold cache_set;
      eexists; rewrite lookup_insert_eq; (split; [reflexivity|]);
      cbn [entry_value expires_at last_update tokens]; split_and!; try done.
    apply Qle_bool_iff in Hb. apply round64_nonneg. lra.
  - rewrite (allow_request64_fresh self request t cache Hn Hget).
    cbn [snd]. unfold cache_set. eexists. rewrite lookup_insert_eq.
    split; [reflexivity|].
    cbn [entry_value expires_at last_update tokens]. split_and!; try done. lra.
Qed.

(** The throttles of the source refill a token in the time [wait]
    announces. *)
Lemma wait_refills_in_binary64 self w :
  self ∈ Throttling64.throttle_classes →
  Throttling64.wait self = Some w →
  is_float w ∧ 1 <= fmul w (refill_rate self).
Proof.
  intros Hself Hw. unfold Throttling64.throttle_classes in Hself.
  repeat (apply elem_of_cons in Hself as [->|Hself]);
    try (by apply elem_of_nil in Hself);
    vm_compute in Hw; injection Hw as <-;
    (split; [vm_compute; reflexivity | vm_compute; discriminate]).
Qed.

(** X30. In the arithmetic of binary64 and for the throttles of the
    source, the delay announced by [wait] is enough: whatever the answer
    to a call (that finds a bucket without a negative count, not stamped
    later than its reading of the clock, or no bucket), a call of the
    same client at a reading of the clock that is at least [wait()]
    later is admitted. *)
Theorem wait_is_enough_in_binary64 (self : Throttle)
    (request : Request) (t t' w : Q) (cache : gmap string CacheEntry) :
  self ∈ Throttling64.throttle_classes →
  Throttling64.wait self = Some w →
  Throttling64.clock_reading t → Throttling64.clock_reading t' →
  entry_ok cache (cache_key_of self request) t →
  t + w <= t' →
  fst (Throttling64.allow_request self request t'
         (snd (Throttling64.allow_request self request t cache))) = true.
Proof.
  intros Hself Hw _ _ Hok Ht.
  assert (Hpy : Throttling64.python_throttle self).
  { destruct throttle_classes64_well_configured as [Hall _].
    rewrite Forall_forall in Hall. by apply Hall. }
  destruct (python_throttle_bounds self Hpy) as (Hcap & Hfloat & Hrate).
  destruct (wait_refills_in_binary64 self w Hself Hw) as [Hwf Hw1].
  destruct (superuser_or_not request) as [(u & Hu & Hs)|Hn].
  { by rewrite !(allow_request64_superuser self request _ _ u). }
  destruct (allow_request64_leaves self request t cache Hpy Hn Hok)
    as (e & He & Hl & Hexp & Hx).
  set (cache' := snd _) in *.
  destruct (cache_get t' (cache_key_of self request) cache') as [b|] eqn:Hget.
  - rewrite (allow_request64_refill self request t' cache' b Hn Hget).
    cbv zeta.
    apply cache_get_Some in Hget as (e' & He' & <- & _).
    rewrite He in He'. injection He' as <-. rewrite Hl.
    assert (Helapsed : w <= fsub t' t)
      by (apply round64_ge_float; [lra|done]).
    assert (Hrefill : 1 <= fmul (fsub t' t) (refill_rate self)).
    { eapply Qle_trans; [exact Hw1|]. apply round64_mono.
      by apply Qmult_le_compat_r. }
    assert (Hfound : 1 <= fadd (tokens (entry_value e))
                            (fmul (fsub t' t) (refill_rate self))).
    { apply round64_ge_float; [lra|apply is_float_1]. }
    set (x := fadd _ _) in *.
    assert (Hp : 1 <= py_min x (capacity self))
      by (destruct (py_min_cases x (capacity self)) as [[-> ?]|[-> ?]]; lra).
    apply Qle_bool_iff in Hp. by rewrite Hp.
  - by rewrite (allow_request64_fresh self request t' cache' Hn Hget).
Qed.

Lemma wait_is_enough_in_binary64_witness :
  fst (Throttling64.allow_request Throttling64.ExportsThrottle
         Sample.operator_request 6
         (snd (Throttling64.allow_request Throttling64.ExportsThrottle
                 Sample.operator_request (1 # 16)
                 (snd (Throttling64.allow_requests Throttling64.ExportsThrottle
                         (calls_at Sample.operator_request (replicate 10 0))
                         ∅))))) = false ∧
  fst (Throttling64.allow_request Throttling64.ExportsThrottle
         Sample.operator_request (6 + (1 # 16))
         (snd (Throttling64.allow_request Throttling64.ExportsThrottle
                 Sample.operator_request (1 # 16)
                 (snd (Throttling64.allow_requests Throttling64.ExportsThrottle
                         (calls_at Sample.operator_request (replicate 10 0))
                         ∅))))) = true.
Proof.
  split; [vm_compute; reflexivity|].
  apply (wait_is_enough_in_binary64 Throttling64.ExportsThrottle
           Sample.operator_request (1 # 16) (6 + (1 # 16)) 6).
  - unfold Throttling64.throttle_classes.
    do 3 apply list_elem_of_further. apply list_elem_of_here.
  - vm_compute. reflexivity.
  - split; [vm_compute; reflexivity | vm_compute; discriminate].
  - split; [vm_compute; reflexivity | vm_compute; discriminate].
  - intros e He. vm_compute in He. injection He as <-.
    split_and!; [vm_compute; discriminate | vm_compute; discriminate
                | reflexivity].
  - vm_compute. discriminate.
Defined.

(** *** Buckets of different keys *)

Lemma allow_request64_local self request t c1 c2 :
  c1 !! cache_key_of self request = c2 !! cache_key_of self request →
  fst (Throttling64.allow_request self request t c1)
  = fst (Throttling64.allow_request self request t c2)
  ∧ snd (Throttling64.allow_request self request t c1)
      !! cache_key_of self request
    = snd (Throttling64.allow_request self request t c2)
        !! cache_key_of self request.
Proof.
  intros Heq.
  destruct (superuser_or_not request) as [(u & Hu & Hs)|Hn].
  { by rewrite !(allow_request64_superuser self request t _ u). }
  assert (Hget : cache_get t (cache_key_of self request) c1
                 = cache_get t (cache_key_of self request) c2)
    by (unfold cache_get; by rewrite Heq).
  destruct (cache_get t (cache_key_of self request) c2) as [b|] eqn:Hget2.
  - rewrite (allow_request64_refill self request t c1 b Hn Hget),
      (allow_request64_refill self request t c2 b Hn Hget2). cbv zeta.
    destruct (Qle_bool 1 _); simpl; unfold cache_set;
      by rewrite !lookup_insert_eq.
  - rewrite (allow_request64_fresh self request t c1 Hn Hget),
      (allow_request64_fresh self request t c2 Hn Hget2). simpl.
    unfold cache_set. by rewrite !lookup_insert_eq.
Qed.

Lemma allow_request64_other_key self request t cache key :
  cache_key_of self request ≠ key →
  snd (Throttling64.allow_request self request t cache) !! key = cache !! key.
Proof.
  intros Hne.
  destruct (allow_request64_writes self request t cache) as [->|[b ->]];
    [done|]. unfold cache_set. by rewrite lookup_insert_ne.
Qed.

Lemma answers_on64_agree self key calls : ∀ c1 c2,
  c1 !! key = c2 !! key →
  Throttling64.answers_on self key calls c1
  = fst (Throttling64.allow_requests self (calls_on self key calls) c2).
Proof.
  induction calls as [|[request t] rest IH]; intros c1 c2 Heq; [done|].
  unfold calls_on. rewrite filter_cons. cbn [Throttling64.answers_on fst].
  destruct (Throttling64.allow_request self request t c1) as [ok1 c1'] eqn:H1.
  destruct (decide (cache_key_of self request = key)) as [<-|Hne].
  - cbn [Throttling64.allow_requests].
    destruct (Throttling64.allow_request self request t c2) as [ok2 c2'] eqn:H2.
    destruct (allow_request64_local self request t c1 c2 Heq) as [Hok Hc].
    rewrite H1, H2 in Hok, Hc. simpl in Hok, Hc. subst ok2.
    specialize (IH c1' c2' Hc). unfold calls_on in IH.
    destruct (Throttling64.allow_requests self _ c2') as [oks c2'']. simpl in *.
    by rewrite IH.
  - apply IH.
    pose proof (allow_request64_other_key self request t c1 key Hne) as Hk.
    rewrite H1 in Hk. simpl in Hk. by rewrite Hk.
Qed.

(** X31. In binary64 as well, the answers to the calls that use one
    bucket key are those the same calls get on their own: the calls of
    other clients, interleaved with them, change nothing; and two
    authenticated users with different ids never share a key. *)
Theorem other_clients_change_nothing_in_binary64 (self : Throttle)
    (key : string) (calls : list (Request * Q))
    (cache : gmap string CacheEntry) :
  Throttling64.answers_on self key calls cache
  = fst (Throttling64.allow_requests self (calls_on self key calls) cache) ∧
  ∀ r1 r2 u1 u2,
    user r1 = Some u1 → user r2 = Some u2 → user_id u1 ≠ user_id u2 →
    cache_key_of self r1 ≠ cache_key_of self r2.
Proof.
  split; [by apply answers_on64_agree|].
  intros r1 r2 u1 u2 H1 H2 Hne Heq.
  unfold cache_key_of in Heq. rewrite H1, H2 in Heq. apply Hne.
  do 3 apply (inj (String.append _)) in Heq. by apply (inj pretty) in Heq.
Qed.

End Throttle64Claims.

Module PipelineSpec.
Import Models Job Tasks Views ProcessSpec RetryClaims Pipeline.

(** What a run leaves, when the order and its product exist. *)
Lemma db_after_process_order env id d o p :
  orders d !! id = Some o → products d !! product_id o = Some p →
  db_after (process_order env id) d
  = if bool_decide (approval_decision env = true ∧ quantity o ≤ stock_quantity p)
    then db_set_orders
           (<[id := finished env Approved o]>
              (<[id := marked_processing env o]> (orders d)))
           (db_set_products
              (<[product_id o := deducted env (quantity o) p]> (products d)) d)
    else db_set_orders
           (<[id := finished env Failed o]>
              (<[id := marked_processing env o]> (orders d))) d.
Proof.
  intros Ho Hp. unfold db_after.
  pose proof (process_order_cases env id d) as H. rewrite Ho in H.
  cbv zeta in H. rewrite Hp in H.
  destruct (approval_decision env) eqn:Hd.
  - destruct (decide (quantity o ≤ stock_quantity p)).
    + rewrite bool_decide_true by done. by rewrite H.
    + rewrite bool_decide_false by tauto. by rewrite H.
  - rewrite bool_decide_false by (intros [? _]; done). by rewrite H.
Qed.

(** The retry action on the state a run of the task leaves. *)
Lemma retry_after_process env now id d o p :
  orders d !! id = Some o → products d !! product_id o = Some p →
  let d1 := db_after (process_order env id) d in
  ∃ resp w, run (retry now id) d1 = (inr resp, w) ∧
    (status_code resp = HTTP_200_OK ↔ ¬ approves env d o) ∧
    (status_code resp = HTTP_200_OK →
       products (db w) = products d ∧
       log w = [OrderSaved id (reset_for_retry now (finished env Failed o));
                TaskQueued (ProcessOrderTask id)] ∧
       ∃ o', orders (db w) !! id = Some o' ∧ status o' = Pending ∧
             has_been_processed o' = false ∧ order_frame o o') ∧
    (status_code resp ≠ HTTP_200_OK →
       w = {| db := d1; log := [] |} ∧
       orders d1 !! id = Some (finished env Approved o) ∧
       stock_of d1 (product_id o) = Some (stock_quantity p - quantity o)).
Proof.
  intros Ho Hp d1. subst d1.
  rewrite (db_after_process_order env id d o p Ho Hp).
  destruct (decide (approval_decision env = true ∧ quantity o ≤ stock_quantity p))
    as [[Hd Hq]|Hno].
  - rewrite bool_decide_true by done.
    set (d1 := db_set_orders _ _).
    assert (Ho1 : orders d1 !! id = Some (finished env Approved o))
      by (subst d1; simpl; by rewrite lookup_insert_eq).
    destruct (retry_rejected now id d1 _ Ho1) as (resp & Hrun & Hcode).
    { simpl. intros [? _]. discriminate. }
    exists resp, {| db := d1; log := [] |}. split; [done|].
    rewrite Hcode. split_and!.
    + split; [discriminate|]. intros Hn. destruct Hn. split; eauto.
    + discriminate.
    + intros _. split_and!; [done|done|].
      subst d1. unfold stock_of. simpl. by rewrite lookup_insert_eq.
  - rewrite bool_decide_false by done.
    set (d1 := db_set_orders _ _).
    assert (Ho1 : orders d1 !! id = Some (finished env Failed o))
      by (subst d1; simpl; by rewrite lookup_insert_eq).
    eexists _, _. split; [by apply (retry_accepted now id d1 _ Ho1)|].
    simpl. split_and!.
    + split; [|done]. intros _ [Hd (p' & Hp' & Hq)].
      rewrite Hp in Hp'. injection Hp' as <-. tauto.
    + intros _. split_and!; [done|done|].
      eexists. rewrite lookup_insert_eq. split_and!; [done|done|done|].
      by repeat split.
    + intros Hne. by destruct Hne.
Qed.

End PipelineSpec.

Module PipelineClaims.
Import Models Job Tasks Views ProcessSpec RetryClaims Pipeline PipelineSpec.

(** X5. The task looks neither at the status nor at [has_been_processed]
    of the order: run again on the same order, it reserves again.  After
    [n] runs that all draw approval, with stock for all of them, the
    product has lost [n] times the quantity of the order. *)
Theorem repeated_runs_deduct_again (envs : list ProcessEnv) (id : Z)
    (d : Db) (o : Order) (p : Product) :
  orders d !! id = Some o → products d !! product_id o = Some p →
  Forall (λ env, approval_decision env = true) envs →
  0 ≤ quantity o →
  Z.of_nat (length envs) * quantity o ≤ stock_quantity p →
  stock_of (process_repeatedly envs id d) (product_id o)
  = Some (stock_quantity p - Z.of_nat (length envs) * quantity o).
Proof.
  intros Ho Hp Henvs Hq. revert d o p Ho Hp Hq.
  induction Henvs as [|env envs Hd _ IH]; intros d o p Ho Hp Hq Hn.
  - unfold stock_of. simpl. rewrite Hp. simpl. f_equal. lia.
  - cbn [process_repeatedly].
    rewrite (db_after_process_order env id d o p Ho Hp).
    cbn [length] in Hn.
    rewrite bool_decide_true by (split; [done|nia]).
    rewrite (IH _ (finished env Approved o) (deducted env (quantity o) p)).
    + simpl. f_equal. cbn [length]. lia.
    + simpl. by rewrite lookup_insert_eq.
    + simpl. by rewrite lookup_insert_eq.
    + done.
    + simpl. nia.
Qed.

Lemma repeated_runs_deduct_again_witness :
  stock_of (process_repeatedly [Sample.env_approve; Sample.env_approve] 3
              Sample.db0) 2
  = Some (3 - Z.of_nat 2 * 1).
Proof.
  apply (repeated_runs_deduct_again [Sample.env_approve; Sample.env_approve]
           3 Sample.db0 Sample.order3 Sample.gadget).
  - reflexivity.
  - reflexivity.
  - repeat constructor.
  - simpl. lia.
  - simpl. lia.
Defined.

(** X6. A retry that follows a run of the task is accepted exactly when
    the run did not approve the order, and then the run has left the
    products as they were: the order is pending again, unprocessed, and
    nothing has been deducted for it.  After an approving run the retry is
    refused and changes nothing. *)
Theorem retry_after_run (env : ProcessEnv) (now : datetime) (id : Z)
    (d : Db) (o : Order) (p : Product) :
  orders d !! id = Some o → products d !! product_id o = Some p →
  let d1 := db_after (process_order env id) d in
  ∃ resp w, run (retry now id) d1 = (inr resp, w) ∧
    (status_code resp = HTTP_200_OK ↔ ¬ approves env d o) ∧
    (status_code resp = HTTP_200_OK →
       products (db w) = products d ∧
       log w = [OrderSaved id (reset_for_retry now (finished env Failed o));
                TaskQueued (ProcessOrderTask id)] ∧
       ∃ o', orders (db w) !! id = Some o' ∧ status o' = Pending ∧
             has_been_processed o' = false ∧ order_frame o o') ∧
    (status_code resp ≠ HTTP_200_OK →
       w = {| db := d1; log := [] |} ∧
       orders d1 !! id = Some (finished env Approved o) ∧
       stock_of d1 (product_id o) = Some (stock_quantity p - quantity o)).
Proof. apply retry_after_process. Qed.

Lemma retry_after_run_witness :
  ∃ resp w,
    run (retry (Sample.at_second 11 0 0) 1)
        (db_after (process_order Sample.env_reject 1) Sample.db0)
    = (inr resp, w) ∧ status_code resp = HTTP_200_OK.
Proof.
  destruct (retry_after_run Sample.env_reject (Sample.at_second 11 0 0) 1
              Sample.db0 Sample.order1 Sample.widget eq_refl eq_refl)
    as (resp & w & Hrun & Hiff & _).
  exists resp, w. split; [exact Hrun|].
  apply Hiff. intros [Hd _]. vm_compute in Hd. discriminate.
Defined.

(** X7. However often an order is sent through processing by retries, its
    quantity is deducted from the stock at most once: after any number of
    rounds of task run and retry, the products are either as at the start
    or differ by one deduction for the order, and in the latter case the
    order is approved. *)
Theorem retries_deduct_at_most_once (rounds : list (ProcessEnv * datetime))
    (id : Z) (d : Db) (o : Order) (p : Product) :
  orders d !! id = Some o → products d !! product_id o = Some p →
  let d' := retry_rounds rounds id d in
  products d' = products d ∨
  (∃ env o', products d' = <[product_id o := deducted env (quantity o) p]> (products d)
          ∧ quantity o ≤ stock_quantity p
          ∧ orders d' !! id = Some o' ∧ status o' = Approved).
Proof.
  revert d o p.
  induction rounds as [|[env now] rest IH]; intros d o p Ho Hp; cbv zeta.
  - by left.
  - cbn [retry_rounds].
    destruct (retry_after_process env now id d o p Ho Hp)
      as (resp & w & Hrun & Hiff & Hyes & Hno).
    rewrite Hrun. cbn [snd].
    destruct (decide (status_code resp = HTTP_200_OK)) as [Hc|Hc].
    + destruct (Hyes Hc) as (Hprod & Hlog & o' & Ho' & _ & _ & Hframe).
      rewrite Hlog. unfold queued. simpl. rewrite bool_decide_true by done.
      simpl.
      destruct Hframe as (_ & Hpid & Hqty & _).
      assert (Hp' : products (db w) !! product_id o' = Some p)
        by (by rewrite Hprod, Hpid).
      destruct (IH (db w) o' p Ho' Hp') as [Hsame|(env' & o'' & H1 & H2 & H3)].
      * left. by rewrite Hsame.
      * right. exists env', o''. rewrite H1, Hprod, Hpid, Hqty.
        split_and!; [done|lia|tauto|tauto].
    + destruct (Hno Hc) as (-> & Ho1 & Hstock). simpl.
      right. exists env, (finished env Approved o).
      assert (Happ : approval_decision env = true ∧ quantity o ≤ stock_quantity p).
      { destruct (decide (approval_decision env = true
                          ∧ quantity o ≤ stock_quantity p)) as [|Hn]; [done|].
        destruct Hc. apply Hiff. intros [Hd (p' & Hp' & Hq)].
        rewrite Hp in Hp'. injection Hp' as <-. tauto. }
      destruct Happ as [Hd Hq].
      rewrite (db_after_process_order env id d o p Ho Hp) in Ho1 |- *.
      rewrite bool_decide_true by done. simpl. split_and!; try done.
      by rewrite lookup_insert_eq.
Qed.

Lemma retries_deduct_at_most_once_witness :
  products (retry_rounds [(Sample.env_reject, Sample.at_second 11 0 0);
                          (Sample.env_approve, Sample.at_second 11 5 0)]
              1 Sample.db0) = products Sample.db0 ∨
  (∃ env o',
     products (retry_rounds [(Sample.env_reject, Sample.at_second 11 0 0);
                             (Sample.env_approve, Sample.at_second 11 5 0)]
                 1 Sample.db0)
     = <[product_id Sample.order1
         := deducted env (quantity Sample.order1) Sample.widget]>
         (products Sample.db0)
     ∧ quantity Sample.order1 ≤ stock_quantity Sample.widget
     ∧ orders (retry_rounds [(Sample.env_reject, Sample.at_second 11 0 0);
                             (Sample.env_approve, Sample.at_second 11 5 0)]
                 1 Sample.db0) !! 1 = Some o'
     ∧ status o' = Approved).
Proof.
  apply (retries_deduct_at_most_once
           [(Sample.env_reject, Sample.at_second 11 0 0);
            (Sample.env_approve, Sample.at_second 11 5 0)]
           1 Sample.db0 Sample.order1 Sample.widget); reflexivity.
Defined.

End PipelineClaims.

Module ExportOrderSpec.
Import Models Job Tasks ExportSpec QuerySpec.

Lemma lex_compare_antisym xs : ∀ ys,
  lex_compare ys xs = CompOpp (lex_compare xs ys).
Proof.
  induction xs as [|x xs IH]; intros [|y ys]; simpl; try done.
  rewrite (Z.compare_antisym x y).
  destruct (x ?= y); simpl; auto.
Qed.

Lemma lex_compare_le_trans xs : ∀ ys zs,
  lex_compare xs ys ≠ Gt → lex_compare ys zs ≠ Gt → lex_compare xs zs ≠ Gt.
Proof.
  induction xs as [|x xs IH]; intros [|y ys] [|z zs]; simpl; try done.
  destruct (Z.compare_spec x y), (Z.compare_spec y z), (Z.compare_spec x z);
    try done; try lia; subst; eauto.
Qed.

Lemma datetime_leb_total a b : datetime_leb a b = true ∨ datetime_leb b a = true.
Proof.
  unfold datetime_leb, datetime_compare.
  rewrite (lex_compare_antisym (datetime_fields a) (datetime_fields b)).
  destruct (lex_compare _ _); simpl; auto.
Qed.

Lemma datetime_leb_trans a b c :
  datetime_leb a b = true → datetime_leb b c = true → datetime_leb a c = true.
Proof.
  unfold datetime_leb, datetime_compare. intros Hab Hbc.
  pose proof (lex_compare_le_trans (datetime_fields a) (datetime_fields b)
                (datetime_fields c)) as H.
  destruct (lex_compare (datetime_fields a) (datetime_fields b)); try done;
    destruct (lex_compare (datetime_fields b) (datetime_fields c)); try done;
    destruct (lex_compare (datetime_fields a) (datetime_fields c)); try done;
    exfalso; by apply H.
Qed.

Lemma newer_first_total : Total newer_first.
Proof. intros a b. unfold newer_first. apply datetime_leb_total. Qed.

Lemma newer_first_trans : Transitive newer_first.
Proof.
  intros a b c Hab Hbc. unfold newer_first in *.
  by apply (datetime_leb_trans _ (created_at (snd b))).
Qed.

Lemma StronglySorted_all_orders d : StronglySorted newer_first (all_orders d).
Proof.
  apply @StronglySorted_merge_sort;
    [apply newer_first_trans | apply newer_first_total].
Qed.

Lemma StronglySorted_omap {A B} (R : relation A) (R' : relation B)
    (f : A → option B) (l : list A) :
  (∀ a b a' b', R a b → f a = Some a' → f b = Some b' → R' a' b') →
  StronglySorted R l → StronglySorted R' (omap f l).
Proof.
  intros Hf. induction 1 as [|a l Hl IH Hall]; simpl; [constructor|].
  destruct (f a) as [a'|] eqn:Ha; [|done].
  constructor; [done|].
  apply Forall_forall. intros b' Hb'. apply list_elem_of_omap in Hb'
    as (b & Hb & Hfb).
  rewrite Forall_forall in Hall. eauto.
Qed.

(** The orders of the artifact, newest first. *)
Lemma export_queryset_sorted d ids :
  StronglySorted
    (λ r1 r2, datetime_leb (created_at (row_order r2))
                           (created_at (row_order r1)) = true)
    (export_queryset d ids).
Proof.
  unfold export_queryset.
  apply (StronglySorted_omap newer_first); [|apply StronglySorted_all_orders].
  intros [i o] [j o'] r r' HR Hr Hr'. cbn [fst] in *.
  destruct (bool_decide (i ∈ ids)); [|done].
  destruct (bool_decide (j ∈ ids)); [|done].
  apply select_related_Some in Hr as (_ & -> & _).
  apply select_related_Some in Hr' as (_ & -> & _).
  exact HR.
Qed.

Lemma export_queryset_no_match d ids :
  (∀ i, i ∈ ids → orders d !! i = None) → export_queryset d ids = [].
Proof.
  intros Hnone. destruct (export_queryset d ids) as [|r rest] eqn:E; [done|].
  assert (Hr : r ∈ export_queryset d ids) by (rewrite E; apply list_elem_of_here).
  apply elem_of_export_queryset in Hr as (i & o & Ho & Hi & _).
  rewrite (Hnone i Hi) in Ho. done.
Qed.

End ExportOrderSpec.

Module ExportOrderClaims.
Import Models Job Tasks ExportSpec QuerySpec ExportOrderSpec Pipeline.

(** X8. The lines of the artifact after the header are one per exported
    order, newest first: no line is followed by the line of an order
    created later, whatever the order of the ids in the request. *)
Theorem export_rows_newest_first (d : Db) (ids : list Z) :
  csv_content d ids = header_row :: map order_row (export_queryset d ids) ∧
  StronglySorted
    (λ r1 r2, datetime_leb (created_at (row_order r2))
                           (created_at (row_order r1)) = true)
    (export_queryset d ids) ∧
  ∀ ids', ids' ≡ₚ ids → csv_content d ids' = csv_content d ids.
Proof.
  split_and!; [done | apply export_queryset_sorted |].
  intros ids' Hperm. unfold csv_content. f_equal. f_equal.
  apply export_queryset_same_ids. intros i. by rewrite Hperm.
Qed.

(** X9. An export whose ids match no order is not an error: the job
    stores an artifact that is the header line alone and marks the export
    [ready]. *)
Theorem export_of_no_orders (env : ExportEnv) (id : Z) (ids : list Z)
    (d : Db) (e : Export) (stored : string) (u : User) :
  (∀ i, i ∈ ids → orders d !! i = None) →
  exports d !! id = Some e →
  storage_outcome env (export_path id) = inr stored →
  requester_user d e = inr u →
  let d' := db_after (generate_export env id ids) d in
  fst (run (generate_export env id ids) d) = inr (Generated id) ∧
  files d' !! stored = Some header_line ∧
  exports d' !! id = Some (export_ready stored e).
Proof.
  intros Hnone He Hs Hu d'. subst d'. unfold db_after.
  rewrite (generate_export_stored env id ids d e stored He Hs), Hu.
  cbn [fst snd db]. unfold csv_content.
  rewrite (export_queryset_no_match d ids Hnone). simpl.
  rewrite !lookup_insert_eq. by split_and!.
Qed.

Lemma export_of_no_orders_witness :
  files (db_after (generate_export Sample.storage_keeps_name 1 [7; 8])
           Sample.db0) !! export_path 1 = Some header_line.
Proof.
  apply (export_of_no_orders Sample.storage_keeps_name 1 [7; 8] Sample.db0
           Sample.export1 (export_path 1) Sample.alice).
  - intros i Hi. apply list_elem_of_In in Hi. simpl in Hi.
    destruct Hi as [<-|[<-|[]]]; reflexivity.
  - reflexivity.
  - reflexivity.
  - reflexivity.
Defined.

(** X10. The export job only reads the business data: whatever happens,
    companies, users, profiles, products and orders are as before, no
    other export row is touched, and no file is written except under the
    name the storage answers for this export. *)
Theorem generate_export_frame (env : ExportEnv) (id : Z) (ids : list Z)
    (d : Db) :
  let d' := db_after (generate_export env id ids) d in
  companies d' = companies d ∧ users d' = users d ∧
  profiles d' = profiles d ∧ products d' = products d ∧
  orders d' = orders d ∧
  (∀ j, j ≠ id → exports d' !! j = exports d !! j) ∧
  (∀ name, storage_outcome env (export_path id) ≠ inr name →
     files d' !! name = files d !! name).
Proof.
  cbv zeta. unfold db_after.
  destruct (exports d !! id) as [e|] eqn:He.
  - destruct (storage_outcome env (export_path id)) as [msg|stored] eqn:Hs.
    + rewrite (generate_export_storage_error env id ids d e msg He Hs).
      simpl. split_and!; try done.
      intros j Hj. by rewrite lookup_insert_ne.
    + rewrite (generate_export_stored env id ids d e stored He Hs).
      destruct (requester_user d e); simpl; split_and!; try done.
      * intros j Hj. by rewrite !lookup_insert_ne.
      * intros name Hn. rewrite lookup_insert_ne; [done|congruence].
      * intros j Hj. by rewrite lookup_insert_ne.
      * intros name Hn. rewrite lookup_insert_ne; [done|congruence].
  - rewrite (generate_export_not_found env id ids d He). by simpl.
Qed.

End ExportOrderClaims.

Module ReferenceCodeSpec.
Import ReferenceCode.

Lemma upper_hex_digit n :
  0 ≤ n < 16 → is_upper_hex (upper_char (hex_digit n)) = true.
Proof.
  intros Hn.
  assert (H : n ∈ seqZ 0 16) by (apply elem_of_seqZ; lia).
  apply list_elem_of_In in H. simpl in H.
  repeat (destruct H as [<-|H]; [reflexivity|]). done.
Qed.

(** The bits from 96 up are those of the random number: the variant and
    the version sit below. *)
Lemma uuid4_high_bits random :
  Z.shiftr (uuid4 random) 96 = Z.shiftr random 96.
Proof.
  apply Z.bits_inj'. intros n Hn. rewrite !Z.shiftr_spec by done.
  unfold uuid4.
  rewrite Z.lor_spec, Z.land_spec, Z.lor_spec, Z.land_spec.
  rewrite !Z.lnot_spec by lia.
  rewrite !Z.shiftl_spec by lia.
  assert (H1 : Z.testbit 49152 (n + 96 - 48) = false)
    by (apply Z.bits_above_log2; [lia | simpl; lia]).
  assert (H2 : Z.testbit 32768 (n + 96 - 48) = false)
    by (apply Z.bits_above_log2; [lia | simpl; lia]).
  assert (H3 : Z.testbit 61440 (n + 96 - 64) = false)
    by (apply Z.bits_above_log2; [lia | simpl; lia]).
  assert (H4 : Z.testbit 4 (n + 96 - 76) = false)
    by (apply Z.bits_above_log2; [lia | simpl; lia]).
  rewrite H1, H2, H3, H4. simpl.
  by rewrite !andb_true_r, !orb_false_r.
Qed.

Lemma high_digit (k : Z) (u : Z) :
  0 ≤ k → u / 16 ^ (24 + k) = Z.shiftr u 96 / 16 ^ k.
Proof.
  intros Hk. rewrite Z.shiftr_div_pow2 by lia.
  rewrite Z.pow_add_r by lia. rewrite Z.div_div by lia.
  change (16 ^ 24) with (2 ^ 96). done.
Qed.

(** The first eight digits of [hex] are the digits of the 32 high bits. *)
Lemma substring_hex u :
  String.substring 0 8 (hex u) = hex_digits 8 (Z.shiftr u 96).
Proof.
  unfold hex. cbn [hex_digits String.substring].
  change (Z.of_nat 31) with (24 + 7). change (Z.of_nat 30) with (24 + 6).
  change (Z.of_nat 29) with (24 + 5). change (Z.of_nat 28) with (24 + 4).
  change (Z.of_nat 27) with (24 + 3). change (Z.of_nat 26) with (24 + 2).
  change (Z.of_nat 25) with (24 + 1). change (Z.of_nat 24) with (24 + 0).
  rewrite !high_digit by lia. reflexivity.
Qed.

Lemma upper_hex_digits k n :
  all_chars is_upper_hex (upper (hex_digits k n)) = true
  ∧ String.length (upper (hex_digits k n)) = k.
Proof.
  induction k as [|k [IH1 IH2]]; [done|]. cbn [hex_digits upper all_chars String.length].
  rewrite IH1, IH2, upper_hex_digit; [done|].
  apply Z.mod_pos_bound. lia.
Qed.

End ReferenceCodeSpec.

Module ReferenceCodeClaims.
Import ReferenceCode ReferenceCodeSpec.

(** X11. The reference code of a new order is [ORD-] followed by exactly
    eight upper-case hexadecimal digits, and these are the 32 high bits of
    the random number behind the UUID: the version and variant bits that
    [uuid4] fixes never show in it. *)
Theorem reference_code_format (random : Z) :
  ∃ digits,
    reference_code_of (uuid4 random) = "ORD-" +:+ digits ∧
    String.length digits = 8%nat ∧
    all_chars is_upper_hex digits = true ∧
    digits = upper (hex_digits 8 (Z.shiftr random 96)).
Proof.
  exists (upper (hex_digits 8 (Z.shiftr random 96))).
  unfold reference_code_of. rewrite substring_hex, uuid4_high_bits.
  destruct (upper_hex_digits 8 (Z.shiftr random 96)) as [H1 H2].
  by split_and!.
Qed.

End ReferenceCodeClaims.

Module ApiSpec.
Import Models Job Tasks Views ReferenceCode Api.

Lemma profile_of_Some d uid pid pr :
  profile_of d uid = Some (pid, pr) →
  profiles d !! pid = Some pr ∧ profile_user_id pr = uid.
Proof.
  unfold profile_of. intros H.
  destruct (list_find _ _) as [[k ip]|] eqn:Hfind; [|done].
  simpl in H. injection H as ->.
  apply list_find_Some in Hfind as (Hk & HP & _). simpl in HP.
  split; [|done].
  apply elem_of_map_to_list. by eapply list_elem_of_lookup_2.
Qed.

Lemma user_profile_Some d request pid pr :
  user_profile d request = Some (pid, pr) →
  profiles d !! pid = Some pr ∧ request_user request = Some (profile_user_id pr).
Proof.
  unfold user_profile. destruct (request_user request) as [uid|]; [|done].
  simpl. intros H. apply profile_of_Some in H as [? <-]. done.
Qed.

Lemma company_of_Some d pr c :
  company_of d pr = inr c ↔
  c = profile_company_id pr ∧ is_Some (companies d !! profile_company_id pr).
Proof.
  unfold company_of, fetch.
  destruct (companies d !! profile_company_id pr); simpl.
  - split; [intros [= <-]; eauto | intros [-> _]; done].
  - split; [done | intros [_ [? ?]]; done].
Qed.

Lemma company_of_integrity d pid pr :
  referential_integrity d → profiles d !! pid = Some pr →
  company_of d pr = inr (profile_company_id pr).
Proof.
  intros (_ & _ & Hprof & _) Hpr. apply company_of_Some. split; [done|].
  by destruct (Hprof pid pr Hpr).
Qed.

Lemma has_permission_member d request c :
  c ≠ IsAuthenticated → has_permission c d request = true →
  ∃ pid pr, member d request pid pr.
Proof.
  intros Hc. unfold member.
  destruct c; try done; simpl;
    unfold IsCompanyMember_has_permission, IsOperator_has_permission,
      IsViewer_has_permission, IsAdmin_has_permission;
    destruct (user_profile d request) as [[pid pr]|]; try done;
    intros H; exists pid, pr; (split; [done|]);
    destruct (is_blocked pr); try done.
  - by rewrite andb_false_r in H.
  - by destruct (bool_decide _).
  - by rewrite andb_false_r in H.
Qed.

Lemma member_authenticated d request pid pr :
  member d request pid pr → IsAuthenticated_has_permission d request = true.
Proof.
  intros [H _]. apply user_profile_Some in H as [_ H].
  unfold IsAuthenticated_has_permission. rewrite H. by apply bool_decide_true.
Qed.

Lemma check_permissions_member d request :
  check_permissions [IsAuthenticated; IsCompanyMember] d request = true
  ↔ ∃ pid pr, member d request pid pr.
Proof.
  unfold check_permissions. simpl. rewrite andb_true_r. split.
  - intros [_ H]%andb_true_iff.
    by apply (has_permission_member d request IsCompanyMember).
  - intros (pid & pr & Hm). rewrite (member_authenticated d request pid pr Hm).
    destruct Hm as [Hp Hb]. unfold IsCompanyMember_has_permission.
    by rewrite Hp, Hb.
Qed.

Lemma check_permissions_orders d request :
  check_permissions OrderViewSet_permission_classes d request = true
  ↔ ∃ pid pr, member d request pid pr
              ∧ (role pr = "operator" ∨ role pr = "admin").
Proof.
  unfold check_permissions, OrderViewSet_permission_classes. simpl.
  rewrite andb_true_r. split.
  - intros [_ [H1 H2]%andb_true_iff]%andb_true_iff.
    unfold IsCompanyMember_has_permission, IsOperator_has_permission in *.
    destruct (user_profile d request) as [[pid pr]|] eqn:Hp; [|done].
    exists pid, pr. apply andb_true_iff in H2 as [Hrole Hb].
    apply negb_true_iff in Hb. split; [done|].
    apply bool_decide_eq_true in Hrole.
    apply list_elem_of_In in Hrole. simpl in Hrole.
    destruct Hrole as [<-|[<-|[]]]; auto.
  - intros (pid & pr & Hm & Hrole).
    rewrite (member_authenticated d request pid pr Hm).
    destruct Hm as [Hp Hb].
    unfold IsCompanyMember_has_permission, IsOperator_has_permission.
    rewrite Hp, Hb. simpl. rewrite andb_true_r.
    apply bool_decide_eq_true.
    destruct Hrole as [->| ->];
      [apply list_elem_of_here | apply list_elem_of_further, list_elem_of_here].
Qed.

Lemma fetch_Some {R} m (table : gmap Z R) id r :
  table !! id = Some r → fetch m table id = inr r.
Proof. unfold fetch. by intros ->. Qed.

Lemma product_queryset_lookup d request pid pr qs i p :
  user_profile d request = Some (pid, pr) →
  ProductViewSet_get_queryset d request = inr qs →
  qs !! i = Some p ↔
  products d !! i = Some p ∧ product_company_id p = profile_company_id pr
  ∧ product_is_active p = true.
Proof.
  unfold ProductViewSet_get_queryset. intros -> H.
  destruct (company_of d pr) as [|c] eqn:Hc; [done|].
  apply company_of_Some in Hc as [-> _]. simpl in H. injection H as <-.
  rewrite map_lookup_filter_Some. simpl. tauto.
Qed.

Lemma export_queryset_lookup d request pid pr qs i e :
  user_profile d request = Some (pid, pr) →
  ExportViewSet_get_queryset d request = inr qs →
  qs !! i = Some e ↔
  exports d !! i = Some e
  ∧ profile_company_id <$> profiles d !! requested_by_id e
    = Some (profile_company_id pr).
Proof.
  unfold ExportViewSet_get_queryset. intros -> H.
  destruct (company_of d pr) as [|c] eqn:Hc; [done|].
  apply company_of_Some in Hc as [-> _]. simpl in H. injection H as <-.
  rewrite map_lookup_filter_Some. simpl. tauto.
Qed.

Lemma order_queryset_lookup d request pid pr qs i o :
  user_profile d request = Some (pid, pr) →
  OrderViewSet_get_queryset d request = inr qs →
  qs !! i = Some o ↔
  orders d !! i = Some o
  ∧ ((role pr = "admin"
      ∧ product_company_id <$> products d !! product_id o
        = Some (profile_company_id pr))
     ∨ (role pr = "operator" ∧ created_by_id o = pid)).
Proof.
  unfold OrderViewSet_get_queryset. intros -> H.
  destruct (decide (role pr = "admin")) as [Hr|Hr].
  - destruct (company_of d pr) as [|c] eqn:Hc; [done|].
    apply company_of_Some in Hc as [-> _]. simpl in H. injection H as <-.
    rewrite map_lookup_filter_Some. simpl. rewrite Hr.
    split; [intros [? ?]; auto | intros [? [[_ ?]|[? _]]]; done].
  - destruct (decide (role pr = "operator")) as [Hr'|Hr'].
    + injection H as <-. rewrite map_lookup_filter_Some. simpl.
      split; [intros [? ?]; auto | intros [? [[? _]|[_ ?]]]; done].
    + injection H as <-. rewrite lookup_empty.
      split; [done | intros [_ [[? _]|[? _]]]; done].
Qed.

(** The object permissions of the three viewsets are those of
    [IsCompanyMember]. *)
Lemma check_object_permissions_member d request classes obj :
  classes = [IsAuthenticated; IsCompanyMember]
  ∨ classes = [IsAuthenticated; IsCompanyMember; IsOperator] →
  check_object_permissions classes d request obj
  = IsCompanyMember_has_object_permission d request obj.
Proof.
  intros [-> | ->]; simpl;
    by destruct (IsCompanyMember_has_object_permission d request obj)
      as [|[]].
Qed.

Lemma order_object_permission d request pid pr o p :
  user_profile d request = Some (pid, pr) →
  is_Some (companies d !! profile_company_id pr) →
  products d !! product_id o = Some p →
  is_Some (companies d !! product_company_id p) →
  IsCompanyMember_has_object_permission d request (ObjOrder o)
  = inr (bool_decide (product_company_id p = profile_company_id pr)).
Proof.
  intros Hp [c Hc] Hprod [c' Hc'].
  unfold IsCompanyMember_has_object_permission, company_of.
  rewrite Hp, (fetch_Some _ _ _ _ Hc). simpl.
  rewrite (fetch_Some _ _ _ _ Hprod). simpl.
  by rewrite (fetch_Some _ _ _ _ Hc').
Qed.

Lemma referential_integrity_db0 : referential_integrity Sample.db0.
Proof.
  unfold referential_integrity. split_and!; intros i x Hi;
    apply elem_of_map_to_list, list_elem_of_In in Hi; vm_compute in Hi;
    decompose [or] Hi; try done;
    match goal with H : _ = (_, _) |- _ => injection H as <- <- end;
    try split; by eexists.
Qed.

Lemma OrderViewSet_retry_run now request pk d :
  run (OrderViewSet_retry now request pk) d
  = if check_permissions OrderViewSet_permission_classes d request then
      match OrderViewSet_get_object d request pk with
      | inl e => (inl e, {| db := d; log := [] |})
      | inr (Done _) =>
          match run (retry now pk) d with
          | (inr resp, w) => (inr (Done resp), w)
          | (inl e, w) => (inl e, w)
          end
      | inr Http404 => (inr Http404, {| db := d; log := [] |})
      | inr PermissionDenied => (inr PermissionDenied, {| db := d; log := [] |})
      end
    else (inr PermissionDenied, {| db := d; log := [] |}).
Proof.
  unfold run, OrderViewSet_retry, get_db, lift.
  unfold mbind, M_bind, mret, M_ret. cbn [db].
  destruct (check_permissions OrderViewSet_permission_classes d request);
    [|done].
  cbn [negb].
  by destruct (OrderViewSet_get_object d request pk) as [e|[o| |]].
Qed.

Lemma OrderViewSet_get_object_eq d request pk :
  OrderViewSet_get_object d request pk
  = match OrderViewSet_get_queryset d request with
    | inl e => inl e
    | inr qs =>
        match qs !! pk with
        | None => inr Http404
        | Some o =>
            match IsCompanyMember_has_object_permission d request (ObjOrder o) with
            | inl e => inl e
            | inr ok => inr (if ok then Done o else PermissionDenied)
            end
        end
    end.
Proof.
  unfold OrderViewSet_get_object.
  destruct (OrderViewSet_get_queryset d request) as [e|qs]; [done|].
  cbn [mbind exn_bind]. destruct (qs !! pk) as [o|]; [|done].
  by rewrite check_object_permissions_member by auto.
Qed.

Lemma foldr_max_ge (l : list Z) k : k ∈ l → k ≤ foldr Z.max 0 l.
Proof.
  induction l as [|x l IH]; [by intros ?%elem_of_nil|].
  intros [->|H]%elem_of_cons; simpl; [lia|]. specialize (IH H). lia.
Qed.

Lemma next_id_fresh {R} (table : gmap Z R) : table !! next_id table = None.
Proof.
  destruct (table !! next_id table) as [r|] eqn:H; [|done].
  assert (Hin : next_id table ∈ fst <$> map_to_list table).
  { apply list_elem_of_fmap. exists (next_id table, r).
    split; [done|]. by apply elem_of_map_to_list. }
  apply foldr_max_ge in Hin. unfold next_id in Hin at 1. lia.
Qed.

Lemma code_taken_iff d code :
  Exists (λ io : Z * Order, reference_code (snd io) = code)
         (map_to_list (orders d))
  ↔ ∃ i o, orders d !! i = Some o ∧ reference_code o = code.
Proof.
  rewrite Exists_exists. split.
  - intros ([i o] & Hin & Hc). apply elem_of_map_to_list in Hin. eauto.
  - intros (i & o & Hin & Hc). exists (i, o).
    split; [by apply elem_of_map_to_list | done].
Qed.

(** A run of [Order.objects.create]. *)
Lemma Order_objects_create_run env product quantity created_by w :
  let code := reference_code_of (uuid4 (uuid_random env)) in
  Order_objects_create env code product quantity created_by w
  = if bool_decide (Exists (λ io : Z * Order, reference_code (snd io) = code)
                           (map_to_list (orders (db w))))
    then (inl (BackendError (integrity_error env)), w)
    else (inr (next_id (orders (db w)),
               new_order env product quantity created_by),
          {| db := db_set_orders
                     (<[next_id (orders (db w))
                        := new_order env product quantity created_by]>
                        (orders (db w))) (db w);
             log := log w ++ [OrderSaved (next_id (orders (db w)))
                                (new_order env product quantity created_by)] |}).
Proof.
  cbv zeta. unfold Order_objects_create, get_db, raise, effect.
  unfold mbind, M_bind, mret, M_ret. cbn [db].
  by destruct (bool_decide _).
Qed.

Lemma perform_create_run env request product quantity d pid pr :
  user_profile d request = Some (pid, pr) →
  let code := reference_code_of (uuid4 (uuid_random env)) in
  let id := next_id (orders d) in
  let o := new_order env product quantity pid in
  run (perform_create env request product quantity) d
  = if bool_decide (Exists (λ io : Z * Order, reference_code (snd io) = code)
                           (map_to_list (orders d)))
    then (inl (BackendError (integrity_error env)), {| db := d; log := [] |})
    else (inr tt,
          {| db := db_set_orders (<[id := o]> (orders d)) d;
             log := [OrderSaved id o; TaskQueued (ProcessOrderTask id)] |}).
Proof.
  intros Hp. cbv zeta.
  unfold run, perform_create, OrderSerializer_create, get_db.
  unfold mbind at 1 2, M_bind. cbn [db]. rewrite Hp.
  rewrite Order_objects_create_run. cbn [db log].
  destruct (bool_decide _); [done|].
  unfold delay, effect, get_db, mbind, M_bind. by simpl.
Qed.

Lemma validate_product_accepts d request pid pr product p :
  user_profile d request = Some (pid, pr) →
  validate_product d request (product, p) = inr (inr (product, p)) →
  product_company_id p = profile_company_id pr.
Proof.
  unfold validate_product. intros -> H. cbn [snd] in H.
  destruct (fetch MCompany (companies d) (product_company_id p)) as [|c0];
    [done|].
  cbn [mbind exn_bind] in H.
  destruct (company_of d pr) as [|c] eqn:Hco; [done|].
  apply company_of_Some in Hco as [-> _]. cbn [mbind exn_bind] in H.
  destruct (decide (product_company_id p ≠ profile_company_id pr)); [done|].
  by apply dec_stable.
Qed.

(** A run of [BulkOrderSerializer.create] that returns, from any state. *)
Lemma BulkOrderSerializer_create_returns request data : ∀ w0 created w1 pid pr,
  user_profile (db w0) request = Some (pid, pr) →
  BulkOrderSerializer_create request data w0 = (inr created, w1) →
  Forall2 (λ item io, snd io = new_order (fst item) (fst (snd item))
                                 (snd (snd item)) pid) data created ∧
  NoDup (fst <$> created) ∧
  (∀ id o, (id, o) ∈ created →
     orders (db w0) !! id = None ∧ orders (db w1) !! id = Some o ∧
     ∀ j o', orders (db w0) !! j = Some o' →
             reference_code o' ≠ reference_code o) ∧
  (∀ j, j ∉ fst <$> created → orders (db w1) !! j = orders (db w0) !! j) ∧
  NoDup ((λ io, reference_code (snd io)) <$> created) ∧
  profiles (db w1) = profiles (db w0) ∧ products (db w1) = products (db w0) ∧
  queued_tasks (log w1) = queued_tasks (log w0).
Proof.
  induction data as [|[env [product quantity]] rest IH];
    intros w0 created w1 pid pr Hp Hrun.
  - injection Hrun as <- <-.
    split_and!; [constructor | constructor | | done | constructor
                | done | done | done].
    intros id o H. by apply elem_of_nil in H.
  - cbn [BulkOrderSerializer_create] in Hrun.
    unfold get_db in Hrun. unfold mbind at 1 2, M_bind in Hrun.
    cbn [db] in Hrun. rewrite Hp in Hrun.
    rewrite Order_objects_create_run in Hrun.
    destruct (bool_decide _) eqn:Htaken; [done|].
    apply bool_decide_eq_false in Htaken. rewrite code_taken_iff in Htaken.
    set (id0 := next_id (orders (db w0))) in *.
    set (o0 := new_order env product quantity pid) in *.
    set (w' := {| db := _; log := _ |}) in *.
    unfold mbind, M_bind in Hrun.
    destruct (BulkOrderSerializer_create request rest w')
      as [[e|created'] w1'] eqn:Hrest; [done|].
    injection Hrun as <- <-.
    assert (Hp' : user_profile (db w') request = Some (pid, pr)) by exact Hp.
    destruct (IH w' created' w1' pid pr Hp' Hrest)
      as (Hall & Hnodup & Hnew & Hold & Hcodes & Hprof & Hprod & Hq).
    assert (Hfresh0 : orders (db w0) !! id0 = None) by apply next_id_fresh.
    assert (Hid0 : id0 ∉ fst <$> created').
    { intros Hin. apply list_elem_of_fmap in Hin as ([i o] & -> & Hin).
      destruct (Hnew _ _ Hin) as (Hnone & _). subst w'. simpl in Hnone.
      by rewrite lookup_insert_eq in Hnone. }
    split_and!.
    + constructor; [done|exact Hall].
    + cbn [fmap list_fmap]. constructor; [exact Hid0|exact Hnodup].
    + intros id o [[= -> ->]|Hin]%elem_of_cons.
      * split_and!; [done| |].
        -- rewrite (Hold id0 Hid0). subst w'. simpl.
           by rewrite lookup_insert_eq.
        -- intros j o' Hj Hc. apply Htaken. eauto.
      * destruct (Hnew _ _ Hin) as (Hnone & Hsome & Hc).
        subst w'. simpl in Hnone, Hc.
        assert (id ≠ id0)
          by (intros ->; by rewrite lookup_insert_eq in Hnone).
        rewrite lookup_insert_ne in Hnone by done.
        split_and!; [done|done|].
        intros j o' Hj. apply (Hc j). rewrite lookup_insert_ne; [done|].
        intros ->. by rewrite Hfresh0 in Hj.
    + intros j Hj. cbn [fmap list_fmap] in Hj.
      apply not_elem_of_cons in Hj as [Hne Hj].
      rewrite (Hold j Hj). subst w'. simpl. by rewrite lookup_insert_ne.
    + cbn [fmap list_fmap]. constructor; [|exact Hcodes].
      intros Hin. apply list_elem_of_fmap in Hin as ([i o] & Heq & Hin).
      destruct (Hnew _ _ Hin) as (_ & _ & Hc).
      apply (Hc id0 o0); [|done]. subst w'. simpl.
      by rewrite lookup_insert_eq.
    + by rewrite Hprof.
    + by rewrite Hprod.
    + rewrite Hq. subst w'. unfold queued_tasks. simpl.
      rewrite omap_app. simpl. by rewrite app_nil_r.
Qed.

Lemma delay_all_run ids : ∀ w,
  delay_all ids w
  = (inr tt, {| db := db w;
                log := log w ++ (TaskQueued ∘ ProcessOrderTask <$> ids) |}).
Proof.
  induction ids as [|id rest IH]; intros w.
  - simpl. unfold mret, M_ret. rewrite app_nil_r. by destruct w.
  - cbn [delay_all]. unfold delay, effect, get_db, mbind, M_bind.
    rewrite IH. simpl. by rewrite <- app_assoc.
Qed.

Lemma queued_tasks_delayed l ids :
  queued_tasks (l ++ (TaskQueued ∘ ProcessOrderTask <$> ids))
  = queued_tasks l ++ (ProcessOrderTask <$> ids).
Proof.
  unfold queued_tasks. rewrite omap_app. f_equal.
  induction ids as [|id rest IH]; [done|]. simpl. f_equal. exact IH.
Qed.

Lemma ExportViewSet_get_object_eq d request pk :
  ExportViewSet_get_object d request pk
  = match ExportViewSet_get_queryset d request with
    | inl e => inl e
    | inr qs =>
        match qs !! pk with
        | None => inr Http404
        | Some e =>
            match IsCompanyMember_has_object_permission d request (ObjExport e) with
            | inl ex => inl ex
            | inr ok => inr (if ok then Done e else PermissionDenied)
            end
        end
    end.
Proof.
  unfold ExportViewSet_get_object.
  destruct (ExportViewSet_get_queryset d request) as [e|qs]; [done|].
  cbn [mbind exn_bind]. destruct (qs !! pk) as [e|]; [|done].
  by rewrite check_object_permissions_member by auto.
Qed.

(** A run of [BulkOrderSerializer.create] that raises has created the
    orders of the items before the one whose reference code is taken. *)
Lemma BulkOrderSerializer_create_raises request data : ∀ w0 e w1 pid pr,
  user_profile (db w0) request = Some (pid, pr) →
  BulkOrderSerializer_create request data w0 = (inl e, w1) →
  ∃ done item rest created,
    data = done ++ item :: rest ∧
    BulkOrderSerializer_create request done w0 = (inr created, w1) ∧
    e = BackendError (integrity_error (fst item)) ∧
    ∃ i o, orders (db w1) !! i = Some o ∧
           reference_code o = reference_code_of (uuid4 (uuid_random (fst item))).
Proof.
  induction data as [|[env [product quantity]] rest IH];
    intros w0 e w1 pid pr Hp Hrun; [done|].
  cbn [BulkOrderSerializer_create] in Hrun.
  unfold get_db in Hrun. unfold mbind at 1 2, M_bind in Hrun.
  cbn [db] in Hrun. rewrite Hp in Hrun.
  rewrite Order_objects_create_run in Hrun.
  destruct (bool_decide _) eqn:Htaken.
  - injection Hrun as <- <-.
    apply bool_decide_eq_true in Htaken. rewrite code_taken_iff in Htaken.
    exists [], (env, (product, quantity)), rest, []. by split_and!.
  - set (w' := {| db := _; log := _ |}) in *.
    unfold mbind, M_bind in Hrun.
    destruct (BulkOrderSerializer_create request rest w')
      as [[e'|created'] w1'] eqn:Hrest; [|done].
    injection Hrun as <- <-.
    destruct (IH w' e' w1' pid pr Hp Hrest)
      as (done & item & rest' & created & -> & Hdone & He & Hcode).
    exists ((env, (product, quantity)) :: done), item, rest',
      ((next_id (orders (db w0)), new_order env product quantity pid)
       :: created).
    split_and!; [done| |done|done].
    cbn [BulkOrderSerializer_create].
    unfold get_db. unfold mbind at 1 2, M_bind. cbn [db]. rewrite Hp.
    rewrite Order_objects_create_run, Htaken.
    fold w'. unfold mbind, M_bind. by rewrite Hdone.
Qed.

End ApiSpec.

Module ApiClaims.
Import Models Job Tasks Views ReferenceCode Api ApiSpec.

(** X12. No endpoint of the API serves a user without profile or with a
    blocked one: every permission class of [permissions.py] that looks at
    the profile grants only to unblocked profiles; the product and export
    endpoints let in exactly these, and the order endpoints exactly those
    among them whose role is operator or admin, so never a viewer. *)
Theorem permissions_need_an_unblocked_profile (d : Db) (request : HttpRequest) :
  (∀ c, c ≠ IsAuthenticated → has_permission c d request = true →
        ∃ pid pr, member d request pid pr) ∧
  (check_permissions ProductViewSet_permission_classes d request = true
   ↔ ∃ pid pr, member d request pid pr) ∧
  (check_permissions ExportViewSet_permission_classes d request = true
   ↔ ∃ pid pr, member d request pid pr) ∧
  (check_permissions OrderViewSet_permission_classes d request = true
   ↔ ∃ pid pr, member d request pid pr
               ∧ (role pr = "operator" ∨ role pr = "admin")).
Proof.
  split_and!.
  - intros c. apply has_permission_member.
  - apply check_permissions_member.
  - apply check_permissions_member.
  - apply check_permissions_orders.
Qed.

(** X13. What a user is listed is of the user's company: a listed product
    belongs to it and is active, a listed export was requested by one of
    its members, and both pass the object permission; an order is listed
    to an admin when its product belongs to the company, and then passes
    the object permission, and to an operator when the operator created
    it; to any other role no order is listed. *)
Theorem listed_rows_belong_to_the_company (d : Db) (request : HttpRequest)
    (pid : Z) (pr : Profile) :
  user_profile d request = Some (pid, pr) →
  (∀ qs i p, ProductViewSet_get_queryset d request = inr qs →
     qs !! i = Some p →
     products d !! i = Some p ∧
     product_company_id p = profile_company_id pr ∧
     product_is_active p = true ∧
     check_object_permissions ProductViewSet_permission_classes d request
       (ObjProduct p) = inr true) ∧
  (∀ qs i e, ExportViewSet_get_queryset d request = inr qs →
     qs !! i = Some e →
     exports d !! i = Some e ∧
     profile_company_id <$> profiles d !! requested_by_id e
     = Some (profile_company_id pr) ∧
     check_object_permissions ExportViewSet_permission_classes d request
       (ObjExport e) = inr true) ∧
  (∀ qs i o, OrderViewSet_get_queryset d request = inr qs →
     qs !! i = Some o →
     orders d !! i = Some o ∧
     ((role pr = "admin" ∧
       product_company_id <$> products d !! product_id o
       = Some (profile_company_id pr) ∧
       check_object_permissions OrderViewSet_permission_classes d request
         (ObjOrder o) = inr true)
      ∨ (role pr = "operator" ∧ created_by_id o = pid))).
Proof.
  intros Hp. split_and!.
  - intros qs i p Hqs Hi.
    pose proof Hi as Hi'.
    apply (product_queryset_lookup d request pid pr qs i p Hp Hqs) in Hi
      as (Hrow & Hc & Ha).
    split_and!; try done.
    rewrite check_object_permissions_member by auto.
    unfold ProductViewSet_get_queryset in Hqs. rewrite Hp in Hqs.
    destruct (company_of d pr) as [|c] eqn:Hco; [done|].
    apply company_of_Some in Hco as [-> [c Hco]].
    unfold IsCompanyMember_has_object_permission, company_of.
    rewrite Hp, (fetch_Some _ _ _ _ Hco). simpl.
    rewrite Hc, (fetch_Some _ _ _ _ Hco). simpl.
    by rewrite bool_decide_true.
  - intros qs i e Hqs Hi.
    apply (export_queryset_lookup d request pid pr qs i e Hp Hqs) in Hi
      as (Hrow & Hc).
    split_and!; try done.
    rewrite check_object_permissions_member by auto.
    unfold ExportViewSet_get_queryset in Hqs. rewrite Hp in Hqs.
    destruct (company_of d pr) as [|c] eqn:Hco; [done|].
    apply company_of_Some in Hco as [-> [c Hco]].
    destruct (profiles d !! requested_by_id e) as [requester|] eqn:Hreq;
      [|done].
    simpl in Hc. injection Hc as Hc.
    unfold IsCompanyMember_has_object_permission, company_of.
    rewrite Hp, (fetch_Some _ _ _ _ Hco). simpl.
    rewrite (fetch_Some _ _ _ _ Hreq). simpl.
    rewrite Hc, (fetch_Some _ _ _ _ Hco). simpl.
    by rewrite bool_decide_true.
  - intros qs i o Hqs Hi.
    apply (order_queryset_lookup d request pid pr qs i o Hp Hqs) in Hi
      as (Hrow & Hcase).
    split; [done|]. destruct Hcase as [[Hrole Hc]|?]; [left|by right].
    split_and!; try done.
    rewrite check_object_permissions_member by auto.
    unfold OrderViewSet_get_queryset in Hqs. rewrite Hp in Hqs.
    rewrite decide_True in Hqs by done.
    destruct (company_of d pr) as [|c] eqn:Hco; [done|].
    apply company_of_Some in Hco as [-> Hco].
    destruct (products d !! product_id o) as [p|] eqn:Hprod; [|done].
    simpl in Hc. injection Hc as Hc.
    rewrite (order_object_permission d request pid pr o p); try done.
    + by rewrite bool_decide_true.
    + by rewrite Hc.
Qed.

Lemma listed_rows_belong_to_the_company_witness :
  products Sample.db0 !! 1 = Some Sample.widget ∧
  product_company_id Sample.widget = profile_company_id Sample.alice_profile ∧
  product_is_active Sample.widget = true ∧
  check_object_permissions ProductViewSet_permission_classes Sample.db0
    ApiSample.alice_request (ObjProduct Sample.widget) = inr true.
Proof.
  destruct (listed_rows_belong_to_the_company Sample.db0
              ApiSample.alice_request 1 Sample.alice_profile eq_refl)
    as (Hproducts & _ & _).
  apply (Hproducts
           (filter (λ ip, product_company_id (snd ip) = 1
                          ∧ product_is_active (snd ip) = true)
                   (products Sample.db0)) 1 Sample.widget).
  - reflexivity.
  - vm_compute. reflexivity.
Defined.

(** X14. The retry endpoint acts only on an order that is listed to its
    caller: whenever the request writes to the database or queues a task,
    the caller has an unblocked profile of the company of the order's
    product and is an admin, or the operator who created the order, and
    the effect is that of the retry action; in every other case nothing
    is written and nothing queued. *)
Theorem retry_acts_only_on_listed_orders (now : datetime)
    (request : HttpRequest) (pk : Z) (d : Db) :
  (∃ pid pr o p,
     member d request pid pr ∧
     orders d !! pk = Some o ∧ products d !! product_id o = Some p ∧
     product_company_id p = profile_company_id pr ∧
     (role pr = "admin" ∨ role pr = "operator" ∧ created_by_id o = pid) ∧
     ∃ resp, run (retry now pk) d = (inr resp, snd (run (retry now pk) d)) ∧
       run (OrderViewSet_retry now request pk) d
       = (inr (Done resp), snd (run (retry now pk) d)))
  ∨ (snd (run (OrderViewSet_retry now request pk) d) = {| db := d; log := [] |}
     ∧ ∀ resp, fst (run (OrderViewSet_retry now request pk) d)
               ≠ inr (Done resp)).
Proof.
  rewrite OrderViewSet_retry_run.
  destruct (check_permissions OrderViewSet_permission_classes d request)
    eqn:Hperm; [|right; by simpl].
  apply check_permissions_orders in Hperm as (pid & pr & [Hp Hb] & Hrole).
  rewrite OrderViewSet_get_object_eq.
  destruct (OrderViewSet_get_queryset d request) as [ex|qs] eqn:Hqs;
    [right; by simpl|].
  destruct (qs !! pk) as [o|] eqn:Ho; [|right; by simpl].
  apply (order_queryset_lookup d request pid pr qs pk o Hp Hqs) in Ho
    as (Hrow & Hcase).
  destruct (IsCompanyMember_has_object_permission d request (ObjOrder o))
    as [ex|[]] eqn:Hobj; [right; by simpl| |right; by simpl].
  left.
  unfold IsCompanyMember_has_object_permission in Hobj. rewrite Hp in Hobj.
  destruct (company_of d pr) as [|c] eqn:Hco; [done|].
  apply company_of_Some in Hco as [-> Hco]. simpl in Hobj.
  unfold fetch in Hobj.
  destruct (products d !! product_id o) as [p|] eqn:Hprod; [|done].
  simpl in Hobj. destruct (companies d !! product_company_id p); [|done].
  simpl in Hobj. injection Hobj as Hobj. apply bool_decide_eq_true in Hobj.
  exists pid, pr, o, p. split_and!; try done.
  { destruct Hcase as [[? _]|[? ?]]; auto. }
  destruct (decide (status o = Failed ∧ has_been_processed o = true))
    as [[Hs Hf]|Hn].
  - rewrite (RetryClaims.retry_accepted now pk d o Hrow Hs Hf). simpl. eauto.
  - destruct (RetryClaims.retry_rejected now pk d o Hrow Hn)
      as (resp & Hrun & _).
    rewrite Hrun. simpl. eauto.
Qed.

(** X15. An order created through the API is seen by its company and by
    nobody else: when the product passed [validate_product], the new
    order, pending and unprocessed under a fresh id, with its task queued,
    is listed to the admins of the creator's company and to the creator
    if an operator, and to no other profile. *)
Theorem created_order_is_seen_by_its_company (env : CreateEnv)
    (request : HttpRequest) (product quantity : Z) (d : Db)
    (pid : Z) (pr : Profile) (p : Product) (w : World) :
  referential_integrity d →
  user_profile d request = Some (pid, pr) →
  products d !! product = Some p →
  validate_product d request (product, p) = inr (inr (product, p)) →
  run (perform_create env request product quantity) d = (inr tt, w) →
  ∃ id,
    orders d !! id = None ∧
    db w = db_set_orders (<[id := new_order env product quantity pid]> (orders d)) d ∧
    log w = [OrderSaved id (new_order env product quantity pid);
             TaskQueued (ProcessOrderTask id)] ∧
    ∀ request' pid' pr',
      user_profile (db w) request' = Some (pid', pr') →
      (sees_order (db w) request' id
       ↔ (role pr' = "admin" ∧ profile_company_id pr' = profile_company_id pr)
         ∨ (role pr' = "operator" ∧ pid' = pid)).
Proof.
  intros Hri Hp Hprod Hval Hrun.
  pose proof (validate_product_accepts d request pid pr product p Hp Hval)
    as Hcompany.
  rewrite (perform_create_run env request product quantity d pid pr Hp) in Hrun.
  cbv zeta in Hrun. destruct (bool_decide _); [done|].
  injection Hrun as <-. exists (next_id (orders d)).
  split_and!; [apply next_id_fresh | done | done |].
  intros request' pid' pr' Hp'. cbn [db] in *.
  set (d' := db_set_orders _ d) in *.
  assert (Hpr' : profiles d !! pid' = Some pr')
    by (by apply (user_profile_Some d' request' pid' pr') in Hp' as [? _]).
  pose proof (company_of_integrity d pid' pr' Hri Hpr') as Hco.
  unfold sees_order. split.
  - intros (qs & Hqs & [o Ho]).
    apply (order_queryset_lookup d' request' pid' pr' qs _ o Hp' Hqs) in Ho
      as (Hrow & Hcase).
    subst d'. simpl in Hrow, Hcase. rewrite lookup_insert_eq in Hrow.
    injection Hrow as <-. simpl in Hcase. rewrite Hprod in Hcase.
    simpl in Hcase. rewrite Hcompany in Hcase.
    destruct Hcase as [[? [= ?]]|[? ?]]; auto.
  - intros Hcase.
    assert (Hqs : ∃ qs, OrderViewSet_get_queryset d' request' = inr qs).
    { unfold OrderViewSet_get_queryset. rewrite Hp'.
      change (company_of d' pr') with (company_of d pr'). rewrite Hco.
      destruct (decide (role pr' = "admin")); [by eexists|].
      destruct (decide (role pr' = "operator")); by eexists. }
    destruct Hqs as [qs Hqs]. exists qs. split; [done|].
    exists (new_order env product quantity pid).
    apply (order_queryset_lookup d' request' pid' pr' qs _ _ Hp' Hqs).
    subst d'. simpl. rewrite lookup_insert_eq, Hprod. simpl.
    rewrite Hcompany. split; [done|].
    destruct Hcase as [[? ->]|[? ->]]; auto.
Qed.

Lemma created_order_is_seen_by_its_company_witness :
  ∃ id,
    orders Sample.db0 !! id = None ∧
    db (snd (run (perform_create ApiSample.create_env ApiSample.alice_request
                    1 2) Sample.db0))
    = db_set_orders
        (<[id := new_order ApiSample.create_env 1 2 1]> (orders Sample.db0))
        Sample.db0 ∧
    log (snd (run (perform_create ApiSample.create_env ApiSample.alice_request
                     1 2) Sample.db0))
    = [OrderSaved id (new_order ApiSample.create_env 1 2 1);
       TaskQueued (ProcessOrderTask id)] ∧
    ∀ request' pid' pr',
      user_profile
        (db (snd (run (perform_create ApiSample.create_env
                         ApiSample.alice_request 1 2) Sample.db0)))
        request' = Some (pid', pr') →
      (sees_order
         (db (snd (run (perform_create ApiSample.create_env
                          ApiSample.alice_request 1 2) Sample.db0)))
         request' id
       ↔ (role pr' = "admin"
          ∧ profile_company_id pr' = profile_company_id Sample.alice_profile)
         ∨ (role pr' = "operator" ∧ pid' = 1)).
Proof.
  apply (created_order_is_seen_by_its_company ApiSample.create_env
           ApiSample.alice_request 1 2 Sample.db0 1 Sample.alice_profile
           Sample.widget).
  - apply referential_integrity_db0.
  - reflexivity.
  - reflexivity.
  - reflexivity.
  - vm_compute. reflexivity.
Defined.

(** X16. A bulk creation that goes through creates one order per item,
    in the order of the request, each under a fresh id of its own, with a
    reference code no other order has, pending and unprocessed in the name
    of the caller; it leaves the other orders alone and queues exactly one
    task per created order, in the same order. *)
Theorem bulk_create_queues_every_order (request : HttpRequest)
    (orders_data : list (CreateEnv * (Z * Z))) (d : Db)
    (pid : Z) (pr : Profile) (created : list (Z * Order)) (w : World) :
  user_profile d request = Some (pid, pr) →
  run (bulk_create_valid request orders_data) d = (inr created, w) →
  Forall2 (λ item io, snd io = new_order (fst item) (fst (snd item))
                                 (snd (snd item)) pid)
          orders_data created ∧
  NoDup (fst <$> created) ∧
  NoDup ((λ io, reference_code (snd io)) <$> created) ∧
  (∀ id o, (id, o) ∈ created →
     orders d !! id = None ∧ orders (db w) !! id = Some o ∧
     ∀ j o', orders d !! j = Some o' → reference_code o' ≠ reference_code o) ∧
  (∀ j, j ∉ fst <$> created → orders (db w) !! j = orders d !! j) ∧
  queued_tasks (log w) = ProcessOrderTask <$> (fst <$> created).
Proof.
  intros Hp Hrun. unfold run, bulk_create_valid in Hrun.
  unfold mbind at 1, M_bind in Hrun.
  destruct (BulkOrderSerializer_create request orders_data _)
    as [[e|created'] w1] eqn:Hbulk; [done|].
  unfold mbind, M_bind in Hrun. rewrite delay_all_run in Hrun.
  unfold mret, M_ret in Hrun. injection Hrun as <- <-.
  destruct (BulkOrderSerializer_create_returns request orders_data
              {| db := d; log := [] |} _ _ pid pr Hp Hbulk) as (H1 & H2 & H3 & H4 & H5 & _ & _ & H6).
  cbn [db log] in *. split_and!; try done.
  rewrite queued_tasks_delayed, H6. done.
Qed.

Lemma bulk_create_queues_every_order_witness :
  ∃ created w,
    run (bulk_create_valid ApiSample.alice_request
           [(ApiSample.create_env, (1, 2)); (ApiSample.create_env', (1, 3))])
        Sample.db0 = (inr created, w) ∧
    queued_tasks (log w) = ProcessOrderTask <$> (fst <$> created).
Proof.
  eexists _, _. split; [vm_compute; reflexivity|].
  eapply (bulk_create_queues_every_order ApiSample.alice_request
            [(ApiSample.create_env, (1, 2)); (ApiSample.create_env', (1, 3))]
            Sample.db0 1 Sample.alice_profile).
  - reflexivity.
  - vm_compute. reflexivity.
Defined.

(** X17. What the export job stores is what the download endpoint
    serves: after a run of [generate_export] whose file the storage
    accepted, a member of the requester's company whose company has not
    switched exports off downloads exactly the artifact; to a user of
    another company the export does not exist (404). *)
Theorem download_serves_the_artifact (env : ExportEnv) (id : Z)
    (ids : list Z) (d : Db) (e : Export) (stored : string)
    (toggles : gmap Z FeatureToggle) :
  referential_integrity d →
  exports d !! id = Some e →
  storage_outcome env (export_path id) = inr stored →
  stored ≠ EmptyString →
  let d' := Pipeline.db_after (generate_export env id ids) d in
  ∀ request pid pr,
    user_profile d request = Some (pid, pr) →
    (profile_company_id <$> profiles d !! requested_by_id e
     = Some (profile_company_id pr) →
     (∀ t, toggles !! profile_company_id pr = Some t →
           exports_enabled t = true) →
     download toggles d' request id
     = inr (Done (FileResponse (csv_string (csv_content d ids))
                    ("attachment; filename=" +:+
                     quoted ("export_" +:+ pretty id +:+ ".csv"))))) ∧
    (profile_company_id <$> profiles d !! requested_by_id e
     ≠ Some (profile_company_id pr) →
     download toggles d' request id = inr Http404).
Proof.
  intros Hri He Hs Hne d' request pid pr Hp.
  assert (Hpr : profiles d !! pid = Some pr)
    by (by apply user_profile_Some in Hp as [? _]).
  pose proof (company_of_integrity d pid pr Hri Hpr) as Hco.
  pose proof Hri as (_ & _ & Hprofiles & Hexports).
  destruct (Hexports id e He) as [requester Hreq].
  destruct (Hprofiles _ _ Hreq) as [[u Hu] [c Hc]].
  assert (Hd' : d' = db_set_exports (<[id := export_ready stored e]> (exports d))
                       (db_set_files
                          (<[stored := csv_string (csv_content d ids)]>
                             (files d)) d)).
  { subst d'. unfold Pipeline.db_after.
    rewrite (ExportSpec.generate_export_stored env id ids d e stored He Hs).
    unfold requester_user. by rewrite Hreq, Hu. }
  assert (Hp' : user_profile d' request = Some (pid, pr))
    by (by rewrite Hd').
  assert (Hco' : company_of d' pr = inr (profile_company_id pr))
    by (by rewrite Hd').
  assert (Hqs : ExportViewSet_get_queryset d' request
                = inr (filter (λ ie, profile_company_id
                                       <$> profiles d' !! requested_by_id (snd ie)
                                     = Some (profile_company_id pr))
                              (exports d'))).
  { unfold ExportViewSet_get_queryset. by rewrite Hp', Hco'. }
  unfold download. rewrite ExportViewSet_get_object_eq, Hqs.
  rewrite Hreq. simpl. split.
  - intros [= Hsame] Htoggle.
    rewrite (map_lookup_filter_Some_2 _ _ id (export_ready stored e)); cycle 1.
    { rewrite Hd'. simpl. by rewrite lookup_insert_eq. }
    { rewrite Hd'. simpl. by rewrite Hreq, <- Hsame. }
    unfold IsCompanyMember_has_object_permission.
    rewrite Hp', Hco'. cbn [mbind exn_bind].
    replace (requested_by_id (export_ready stored e)) with (requested_by_id e)
      by done.
    replace (profiles d') with (profiles d) by (by rewrite Hd').
    replace (companies d') with (companies d) by (by rewrite Hd').
    rewrite (fetch_Some _ _ _ _ Hreq). cbn [mbind exn_bind].
    rewrite (fetch_Some _ _ _ _ Hc). cbn [mbind exn_bind mret exn_ret].
    rewrite bool_decide_true by done.
    unfold feature_disabled. rewrite Hp', Hco'.
    cbn [mbind exn_bind mret exn_ret].
    assert (Hoff : match toggles !! profile_company_id pr with
                   | Some toggle => negb (exports_enabled toggle)
                   | None => false
                   end = false).
    { destruct (toggles !! profile_company_id pr) as [t|] eqn:Ht; [|done].
      by rewrite (Htoggle t eq_refl). }
    rewrite Hoff. simpl. rewrite decide_False by done.
    rewrite Hd'. simpl. by rewrite lookup_insert_eq.
  - intros Hother.
    rewrite map_lookup_filter_None_2; [done|].
    right. intros e' He' Hsame. rewrite Hd' in He', Hsame. simpl in He', Hsame.
    rewrite lookup_insert_eq in He'. injection He' as <-.
    simpl in Hsame. by rewrite Hreq in Hsame.
Qed.

Lemma download_serves_the_artifact_witness :
  download ∅
    (Pipeline.db_after (generate_export Sample.storage_keeps_name 1 [1; 3])
       Sample.db0)
    ApiSample.alice_request 1
  = inr (Done (FileResponse (csv_string (csv_content Sample.db0 [1; 3]))
                 ("attachment; filename=" +:+
                  quoted ("export_" +:+ pretty 1 +:+ ".csv")))).
Proof.
  apply (download_serves_the_artifact Sample.storage_keeps_name 1 [1; 3]
           Sample.db0 Sample.export1 (export_path 1) ∅
           referential_integrity_db0 eq_refl eq_refl
           ltac:(discriminate) ApiSample.alice_request 1 Sample.alice_profile
           eq_refl).
  - reflexivity.
  - intros t Ht. by rewrite lookup_empty in Ht.
Defined.

(** X28. Nothing in a bulk creation undoes what it has done: when the
    creation of an item fails because its reference code is taken, the
    orders created for the items before it stay in the database, pending,
    and no task has been queued for any of them; the tasks are queued only
    after every order is created. *)
Theorem bulk_create_failure_queues_nothing (request : HttpRequest)
    (orders_data : list (CreateEnv * (Z * Z))) (d : Db)
    (pid : Z) (pr : Profile) (e : Exn) (w : World) :
  user_profile d request = Some (pid, pr) →
  run (bulk_create_valid request orders_data) d = (inl e, w) →
  queued_tasks (log w) = [] ∧
  ∃ done item rest created,
    orders_data = done ++ item :: rest ∧
    run (BulkOrderSerializer_create request done) d = (inr created, w) ∧
    length created = length done ∧
    (∀ id o, (id, o) ∈ created →
       orders d !! id = None ∧ orders (db w) !! id = Some o ∧
       status o = Pending ∧ has_been_processed o = false) ∧
    e = BackendError (integrity_error (fst item)) ∧
    ∃ i o, orders (db w) !! i = Some o ∧
           reference_code o = reference_code_of (uuid4 (uuid_random (fst item))).
Proof.
  intros Hp Hrun. unfold run, bulk_create_valid in Hrun.
  unfold mbind at 1, M_bind in Hrun.
  destruct (BulkOrderSerializer_create request orders_data _)
    as [[e'|created'] w1] eqn:Hbulk.
  - injection Hrun as <- <-.
    destruct (BulkOrderSerializer_create_raises request orders_data
                {| db := d; log := [] |} e' w1 pid pr Hp Hbulk)
      as (done & item & rest & created & Hdata & Hdone & He & Hcode).
    destruct (BulkOrderSerializer_create_returns request done
                {| db := d; log := [] |} created w1 pid pr Hp Hdone)
      as (Hall & _ & Hnew & _ & _ & _ & _ & Hq).
    split; [exact Hq|].
    exists done, item, rest, created. split_and!; try done.
    + symmetry. by eapply Forall2_length.
    + intros id o Hin. destruct (Hnew id o Hin) as (H1 & H2 & _).
      split_and!; try done.
      * apply list_elem_of_lookup in Hin as [k Hk].
        destruct (Forall2_lookup_r _ _ _ _ _ Hall Hk) as (it & _ & Ho).
        simpl in Ho. by rewrite Ho.
      * apply list_elem_of_lookup in Hin as [k Hk].
        destruct (Forall2_lookup_r _ _ _ _ _ Hall Hk) as (it & _ & Ho).
        simpl in Ho. by rewrite Ho.
  - unfold mbind, M_bind in Hrun. rewrite delay_all_run in Hrun. done.
Qed.

Lemma bulk_create_failure_queues_nothing_witness :
  ∃ e w,
    run (bulk_create_valid ApiSample.alice_request
           [(ApiSample.create_env, (1, 2)); (ApiSample.create_env, (1, 3))])
        Sample.db0 = (inl e, w) ∧
    queued_tasks (log w) = [] ∧
    is_Some (orders (db w) !! next_id (orders Sample.db0)).
Proof.
  eexists _, _. split; [vm_compute; reflexivity|].
  split.
  - eapply (bulk_create_failure_queues_nothing ApiSample.alice_request
              [(ApiSample.create_env, (1, 2)); (ApiSample.create_env, (1, 3))]
              Sample.db0 1 Sample.alice_profile).
    + reflexivity.
    + vm_compute. reflexivity.
  - vm_compute. by eexists.
Defined.

End ApiClaims.

Module AdminSpec.
Import Models Job Tasks Views Api ApiSpec Admin.

(** The retry action from any state of the job. *)
Lemma retry_from now pk w o :
  orders (db w) !! pk = Some o →
  retry now pk w
  = if decide (status o = Failed ∧ has_been_processed o = true)
    then (inr {| status_code := HTTP_200_OK;
                 data := [("message", "Order " +:+ reference_code o
                                      +:+ " queued for retry")] |},
          {| db := db_set_orders (<[pk := reset_for_retry now o]> (orders (db w)))
                     (db w);
             log := (log w ++ [OrderSaved pk (reset_for_retry now o)])
                    ++ [TaskQueued (ProcessOrderTask pk)] |})
    else (inr {| status_code := HTTP_400_BAD_REQUEST;
                 data := [("error",
                           if decide (status o = Failed)
                           then "Order has not been processed yet"
                           else "Only failed orders can be retried")] |}, w).
Proof.
  intros Ho.
  unfold retry, get_row, order_save, delay, effect, get_db, raise.
  unfold mbind, M_bind, mret, M_ret. rewrite Ho.
  destruct (decide (status o = Failed)) as [Hs|Hs].
  - rewrite bool_decide_true by done. cbn [negb].
    destruct (has_been_processed o) eqn:Hb; cbn [negb].
    + rewrite decide_True by done. reflexivity.
    + rewrite decide_False by (intros [_ ?]; done). reflexivity.
  - rewrite bool_decide_false by done. cbn [negb].
    rewrite decide_False by (intros [? _]; done). reflexivity.
Qed.

Lemma accepted_cons resp resps :
  accepted (resp :: resps)
  = ((if decide (status_code resp = HTTP_200_OK) then 1 else 0)
     + accepted resps)%nat.
Proof.
  unfold accepted. rewrite filter_cons.
  by destruct (decide (status_code resp = HTTP_200_OK)).
Qed.

Lemma failed_and_processed_cons d id rest :
  failed_and_processed d (id :: rest)
  = match orders d !! id with
    | Some o =>
        if decide (status o = Failed ∧ has_been_processed o = true)
        then (id, o) :: failed_and_processed d rest
        else failed_and_processed d rest
    | None => failed_and_processed d rest
    end.
Proof.
  unfold failed_and_processed. cbn [omap list_omap].
  destruct (orders d !! id) as [o|]; [|done]. cbn [mbind option_bind].
  by destruct (decide _).
Qed.

(** The loop of the admin action and the retries of the API, side by
    side: [d0] is the database the admin action read its rows from. *)
Lemma retry_each_retry_all now d0 ids : ∀ w count,
  NoDup ids →
  (∀ id, id ∈ ids → is_Some (orders d0 !! id)
                    ∧ orders (db w) !! id = orders d0 !! id) →
  ∃ resps w', retry_all now ids w = (inr resps, w') ∧
              retry_each now (failed_and_processed d0 ids) count w
              = (inr (count + accepted resps)%nat, w').
Proof.
  induction ids as [|id rest IH]; intros w count Hnodup Hrows.
  - exists [], w. split; [done|]. simpl. unfold mret, M_ret.
    by rewrite Nat.add_0_r.
  - apply NoDup_cons in Hnodup as [Hid Hnodup].
    destruct (Hrows id (list_elem_of_here _ _)) as [[o Ho] Hsame].
    rewrite Ho in Hsame.
    cbn [retry_all]. unfold mbind at 1, M_bind.
    rewrite (retry_from (now id) id w o Hsame).
    rewrite failed_and_processed_cons, Ho.
    destruct (decide (status o = Failed ∧ has_been_processed o = true))
      as [Hfp|Hfp].
    + set (w1 := {| db := _; log := _ |}).
      destruct (IH w1 (count + 1)%nat Hnodup) as (resps & w' & Hall & Heach).
      { intros id' Hin. destruct (Hrows id' (list_elem_of_further _ _ _ Hin))
          as [Hex Heq]. split; [done|]. subst w1. simpl.
        rewrite lookup_insert_ne; [done|]. intros ->. done. }
      eexists _, w'. unfold mbind, M_bind. rewrite Hall.
      split; [reflexivity|].
      cbn [retry_each]. unfold order_save, delay, effect, get_db.
      unfold mbind, M_bind, mret, M_ret. cbn [db log].
      fold (reset_for_retry (now id) o).
      subst w1. rewrite Heach.
      rewrite accepted_cons. simpl. f_equal. f_equal. lia.
    + destruct (IH w count Hnodup) as (resps & w' & Hall & Heach).
      { intros id' Hin. by apply Hrows, list_elem_of_further. }
      eexists _, w'. unfold mbind, M_bind. rewrite Hall.
      split; [reflexivity|].
      rewrite Heach. rewrite accepted_cons. simpl. done.
Qed.

Lemma approve_orders_lookup queryset d id :
  orders (snd (approve_orders queryset d)) !! id
  = (λ o, if bool_decide (id ∈ queryset) && bool_decide (status o = Pending)
          then order_set_status Approved o else o) <$> orders d !! id.
Proof.
  unfold approve_orders. cbn [snd]. simpl. rewrite map_lookup_imap.
  by destruct (orders d !! id).
Qed.

Lemma failed_count_orders d d' id :
  orders d' = orders d → failed_count d' id = failed_count d id.
Proof. unfold failed_count. by intros ->. Qed.

(** The loop of the blocking action, on rows read from [d0]. *)
Lemma deactivate_each_spec now d0 l : ∀ d,
  (∀ id pr, (id, pr) ∈ l → profiles d0 !! id = Some pr) →
  orders d = orders d0 →
  let d' := deactivate_each now l d in
  (∀ j, profiles d' !! j
        = if bool_decide (j ∈ l.*1 ∧ (3 ≤ failed_count d0 j)%nat)
          then blocked_at (now j) <$> profiles d0 !! j
          else profiles d !! j) ∧
  companies d' = companies d ∧ users d' = users d ∧
  products d' = products d ∧ orders d' = orders d ∧
  exports d' = exports d ∧ files d' = files d.
Proof.
  induction l as [|[id pr] rest IH]; intros d Hread Hord; cbv zeta.
  - simpl. by split_and!.
  - cbn [deactivate_each].
    rewrite (failed_count_orders d0 d id Hord).
    set (d1 := if bool_decide _ then _ else d).
    assert (Hord1 : orders d1 = orders d0)
      by (subst d1; by destruct (bool_decide _)).
    destruct (IH d1) as (Hprof & Hc & Hu & Hp & Ho & He & Hf);
      [intros ???; by apply Hread, list_elem_of_further | done |].
    split_and!.
    + intros j. rewrite Hprof. cbn [fmap list_fmap fst].
      destruct (decide (j ∈ rest.*1 ∧ (3 ≤ failed_count d0 j)%nat))
        as [[Hin Hn]|Hnot].
      * rewrite !bool_decide_true; [done | | done].
        split; [by apply list_elem_of_further | done].
      * rewrite (bool_decide_false _ Hnot).
        destruct (decide (j = id)) as [->|Hne].
        -- subst d1.
           destruct (decide (3 ≤ failed_count d0 id)%nat) as [Hn|Hn].
           ++ rewrite !bool_decide_true;
                [ | split; [apply list_elem_of_here | done] | done].
              simpl. rewrite lookup_insert_eq.
              by rewrite (Hread id pr (list_elem_of_here _ _)).
           ++ rewrite !bool_decide_false; [done | tauto | done].
        -- rewrite bool_decide_false.
           ++ subst d1. destruct (bool_decide _); [|done]. simpl.
              by rewrite lookup_insert_ne.
           ++ intros [[?|?]%elem_of_cons ?]; [done|tauto].
    + rewrite Hc. subst d1. by destruct (bool_decide _).
    + rewrite Hu. subst d1. by destruct (bool_decide _).
    + rewrite Hp. subst d1. by destruct (bool_decide _).
    + rewrite Ho. subst d1. by destruct (bool_decide _).
    + rewrite He. subst d1. by destruct (bool_decide _).
    + rewrite Hf. subst d1. by destruct (bool_decide _).
Qed.

Lemma deactivate_spec now queryset d :
  let d' := deactivate_profiles_with_failed_orders now queryset d in
  (∀ j, profiles d' !! j
        = (λ pr, if bool_decide (j ∈ queryset ∧ (3 ≤ failed_count d j)%nat)
                 then blocked_at (now j) pr else pr)
          <$> profiles d !! j) ∧
  companies d' = companies d ∧ users d' = users d ∧
  products d' = products d ∧ orders d' = orders d ∧
  exports d' = exports d ∧ files d' = files d.
Proof.
  cbv zeta. unfold deactivate_profiles_with_failed_orders.
  set (l := omap _ queryset).
  assert (Hl : ∀ id pr, (id, pr) ∈ l ↔ id ∈ queryset ∧ profiles d !! id = Some pr).
  { intros id pr. subst l. rewrite list_elem_of_omap. split.
    - intros (i & Hi & Hf). destruct (profiles d !! i) as [p|] eqn:Hp; [|done].
      simpl in Hf. injection Hf as -> ->. done.
    - intros [Hi Hp]. exists id. rewrite Hp. done. }
  destruct (deactivate_each_spec now d l d) as (Hprof & Hrest);
    [intros id pr H; by apply Hl in H as [_ ?] | done |].
  split; [|exact Hrest].
  intros j. rewrite Hprof.
  destruct (profiles d !! j) as [pr|] eqn:Hj; simpl.
  - apply option_eq. intros x.
    assert (Hiff : j ∈ l.*1 ↔ j ∈ queryset).
    { rewrite list_elem_of_fmap. split.
      - intros ([i p] & -> & Hin). by apply Hl in Hin as [? _].
      - intros Hin. exists (j, pr). split; [done|]. by apply Hl. }
    destruct (decide (j ∈ queryset ∧ (3 ≤ failed_count d j)%nat)) as [Hc|Hc].
    + rewrite !bool_decide_true; [done|done|tauto].
    + rewrite !bool_decide_false; [done|done|tauto].
  - by destruct (bool_decide _).
Qed.

Lemma profile_of_unique d pid pr :
  one_profile_per_user d → profiles d !! pid = Some pr →
  profile_of d (profile_user_id pr) = Some (pid, pr).
Proof.
  intros Huniq Hpr. unfold profile_of.
  destruct (list_find_elem_of
              (λ ip : Z * Profile, profile_user_id (snd ip) = profile_user_id pr)
              (map_to_list (profiles d)) (pid, pr)) as [[k [i p]] Hfind];
    [by apply elem_of_map_to_list | done |].
  rewrite Hfind. simpl.
  apply list_find_Some in Hfind as (Hk & HP & _). simpl in HP.
  apply list_elem_of_lookup_2, elem_of_map_to_list in Hk.
  assert (i = pid) by (by apply (Huniq i pid p pr)). subst i.
  rewrite Hk in Hpr. by injection Hpr as ->.
Qed.

Lemma db_set_exports_csv_content m d ids :
  csv_content (db_set_exports m d) ids = csv_content d ids.
Proof. reflexivity. Qed.

End AdminSpec.

Module AdminClaims.
Import Models Job Tasks Views Api ApiSpec Admin AdminSpec.

(** X21. The admin action "retry failed orders" does to the selected
    orders what the retry endpoint of the API does to each of them in
    turn: the same rows are reset, the same tasks queued in the same
    order, and the number the action reports is the number of retries the
    API would have accepted. *)
Theorem admin_retry_is_the_api_retry (now : Z → datetime)
    (queryset : list Z) (d : Db) :
  NoDup queryset →
  Forall (λ id, is_Some (orders d !! id)) queryset →
  ∃ resps w,
    run (retry_all now queryset) d = (inr resps, w) ∧
    run (retry_failed_orders now queryset) d = (inr (accepted resps), w).
Proof.
  intros Hnodup Hex.
  destruct (retry_each_retry_all now d queryset {| db := d; log := [] |} 0%nat
              Hnodup) as (resps & w & Hall & Heach).
  { intros id Hin. rewrite Forall_forall in Hex. split; [by apply Hex|done]. }
  exists resps, w. split; [exact Hall|].
  unfold run, retry_failed_orders, get_db, mbind, M_bind. cbn [db].
  exact Heach.
Qed.

Lemma admin_retry_is_the_api_retry_witness :
  ∃ resps w,
    run (retry_all (λ _, Sample.at_second 11 0 0) [1; 3]) Sample.db0
    = (inr resps, w) ∧
    run (retry_failed_orders (λ _, Sample.at_second 11 0 0) [1; 3]) Sample.db0
    = (inr (accepted resps), w).
Proof.
  apply (admin_retry_is_the_api_retry (λ _, Sample.at_second 11 0 0) [1; 3]
           Sample.db0).
  - apply NoDup_cons. split; [|apply NoDup_singleton].
    intros H. apply list_elem_of_In in H. simpl in H. lia.
  - repeat constructor; by eexists.
Defined.

(** X20. Approving orders by hand in the admin site changes the status of
    the selected pending orders and nothing else: no stock is deducted,
    the processed flag and the modification time stay.  Nor does it take
    the order out of processing: a run of the task afterwards ends exactly
    as if the order had not been approved, with the status the task
    decides. *)
Theorem approval_by_hand_leaves_the_stock (queryset : list Z) (d : Db) :
  let d' := snd (approve_orders queryset d) in
  products d' = products d ∧
  (∀ id o, orders d !! id = Some o →
     ∃ o', orders d' !! id = Some o' ∧ order_rest_equal o o' ∧
           has_been_processed o' = has_been_processed o ∧
           status o' = if bool_decide (id ∈ queryset ∧ status o = Pending)
                       then Approved else status o) ∧
  (∀ id, orders d !! id = None → orders d' !! id = None) ∧
  (∀ env id o p,
     orders d !! id = Some o → products d !! product_id o = Some p →
     orders (Pipeline.db_after (process_order env id) d') !! id
     = orders (Pipeline.db_after (process_order env id) d) !! id ∧
     products (Pipeline.db_after (process_order env id) d')
     = products (Pipeline.db_after (process_order env id) d)).
Proof.
  cbv zeta. split_and!.
  - reflexivity.
  - intros id o Ho. rewrite approve_orders_lookup, Ho. simpl.
    eexists. split; [reflexivity|].
    destruct (decide (id ∈ queryset)) as [Hin|Hin];
      destruct (decide (status o = Pending)) as [Hs|Hs];
      rewrite ?(bool_decide_true _ Hin), ?(bool_decide_false _ Hin),
        ?(bool_decide_true _ Hs), ?(bool_decide_false _ Hs); simpl;
      (rewrite bool_decide_true by done) || (rewrite bool_decide_false by tauto);
      by repeat split.
  - intros id Ho. by rewrite approve_orders_lookup, Ho.
  - intros env id o p Ho Hp.
    set (d' := snd (approve_orders queryset d)).
    assert (Ho' : ∃ o', orders d' !! id = Some o' ∧ product_id o' = product_id o
                        ∧ quantity o' = quantity o
                        ∧ ∀ st, finished env st o' = finished env st o).
    { subst d'. rewrite approve_orders_lookup, Ho. simpl. eexists.
      split; [reflexivity|]. by destruct (_ && _). }
    destruct Ho' as (o' & Ho' & Hpid & Hq & Hfin).
    assert (Hp' : products d' !! product_id o' = Some p) by (by rewrite Hpid).
    rewrite (PipelineSpec.db_after_process_order env id d' o' p Ho' Hp').
    rewrite (PipelineSpec.db_after_process_order env id d o p Ho Hp).
    rewrite Hq.
    destruct (bool_decide _); simpl; rewrite !lookup_insert_eq, ?Hfin, ?Hpid;
      done.
Qed.

(** X22. The blocking action of the admin site blocks exactly the
    selected profiles that have three or more failed orders and stamps
    their [updated_at] with the time of the save: it unblocks nobody,
    touches no other field and no other table.  Doing it again saves the
    same profiles again: the flags stay as they are and only the stamps
    of these profiles move.  A profile it has blocked is refused by
    every profile check of the API. *)
Theorem three_failed_orders_block_the_profile (now now' : Z → datetime)
    (queryset : list Z) (d : Db) :
  let d' := deactivate_profiles_with_failed_orders now queryset d in
  let d'' := deactivate_profiles_with_failed_orders now' queryset d' in
  (∀ id, profiles d' !! id
         = (λ pr, if bool_decide (id ∈ queryset ∧ (3 ≤ failed_count d id)%nat)
                  then profile_set_updated_at (now id)
                         (profile_set_is_blocked true pr)
                  else pr)
           <$> profiles d !! id) ∧
  (∀ id pr pr', profiles d !! id = Some pr → profiles d' !! id = Some pr' →
     is_blocked pr = true → is_blocked pr' = true) ∧
  (companies d' = companies d ∧ users d' = users d ∧ products d' = products d
   ∧ orders d' = orders d ∧ exports d' = exports d ∧ files d' = files d) ∧
  (∀ id, profiles d'' !! id
         = (λ pr, if bool_decide (id ∈ queryset ∧ (3 ≤ failed_count d id)%nat)
                  then profile_set_updated_at (now' id) pr else pr)
           <$> profiles d' !! id) ∧
  (one_profile_per_user d →
   ∀ request id pr c,
     user_profile d request = Some (id, pr) →
     id ∈ queryset → (3 ≤ failed_count d id)%nat →
     c ≠ IsAuthenticated → has_permission c d' request = false).
Proof.
  cbv zeta.
  destruct (deactivate_spec now queryset d) as (Hprof & Hrest).
  set (d' := deactivate_profiles_with_failed_orders now queryset d) in *.
  split; [exact Hprof|]. split; [|split; [exact Hrest|split]].
  - intros id pr pr' Hpr Hpr' Hb. rewrite Hprof, Hpr in Hpr'. simpl in Hpr'.
    injection Hpr' as <-. by destruct (bool_decide _).
  - destruct (deactivate_spec now' queryset d') as (Hprof' & _).
    intros j. rewrite Hprof', Hprof.
    rewrite (failed_count_orders d d' j) by (apply Hrest).
    destruct (profiles d !! j) as [pr|]; [|done]. simpl.
    by destruct (bool_decide _).
  - intros Huniq request id pr c Hp Hin Hn Hc.
    apply user_profile_Some in Hp as [Hpr Huser].
    assert (Hpr' : profiles d' !! id = Some (blocked_at (now id) pr)).
    { rewrite Hprof, Hpr. simpl. by rewrite bool_decide_true. }
    assert (Huniq' : one_profile_per_user d').
    { intros i j p q Hi Hj Heq. rewrite Hprof in Hi, Hj.
      destruct (profiles d !! i) as [p0|] eqn:Hi0; [|done].
      destruct (profiles d !! j) as [q0|] eqn:Hj0; [|done].
      simpl in Hi, Hj. injection Hi as <-. injection Hj as <-.
      apply (Huniq i j p0 q0 Hi0 Hj0).
      by destruct (bool_decide _), (bool_decide _). }
    pose proof (profile_of_unique d' id _ Huniq' Hpr') as Hof.
    simpl in Hof.
    destruct (has_permission c d' request) eqn:Hperm; [|done].
    apply has_permission_member in Hperm as (pid' & pr' & Hm & Hb); [|done].
    unfold user_profile in Hm. rewrite Huser in Hm. simpl in Hm.
    rewrite Hof in Hm. injection Hm as <- <-. done.
Qed.

(** X23. Exporting selected orders from the admin site: the action
    creates a pending export in the name of the caller and queues the
    job for it; when that job has run with a storage that accepts the
    file, the export is ready and its file is the artifact of exactly the
    selected orders, which are themselves untouched. *)
Theorem admin_export_of_selected_orders (now : datetime)
    (request : HttpRequest) (queryset : list Z) (d : Db) (pid : Z)
    (pr : Profile) (env : ExportEnv) (stored : string) :
  referential_integrity d →
  user_profile d request = Some (pid, pr) →
  storage_outcome env (export_path (next_id (exports d))) = inr stored →
  let id := next_id (exports d) in
  let w1 := snd (run (export_selected_orders now request queryset) d) in
  let d2 := Pipeline.db_after (generate_export env id queryset) (db w1) in
  exports d !! id = None ∧
  run (export_selected_orders now request queryset) d = (inr (Some id), w1) ∧
  log w1 = [ExportSaved id (new_export now pid);
            TaskQueued (GenerateExportTask id queryset)] ∧
  fst (run (generate_export env id queryset) (db w1)) = inr (Generated id) ∧
  exports d2 !! id = Some (export_ready stored (new_export now pid)) ∧
  files d2 !! stored = Some (csv_string (csv_content d queryset)) ∧
  orders d2 = orders d.
Proof.
  intros Hri Hp Hs. cbv zeta.
  assert (Hrun : run (export_selected_orders now request queryset) d
                 = (inr (Some (next_id (exports d))),
                    {| db := db_set_exports
                               (<[next_id (exports d) := new_export now pid]>
                                  (exports d)) d;
                       log := [ExportSaved (next_id (exports d))
                                 (new_export now pid);
                               TaskQueued (GenerateExportTask
                                             (next_id (exports d)) queryset)] |})).
  { unfold run, export_selected_orders, get_db. unfold mbind at 1, M_bind.
    cbn [db]. rewrite Hp. reflexivity. }
  rewrite Hrun. cbn [snd db log].
  set (id := next_id (exports d)) in *.
  set (d1 := db_set_exports _ d).
  assert (He : exports d1 !! id = Some (new_export now pid))
    by (subst d1; simpl; apply lookup_insert_eq).
  apply user_profile_Some in Hp as [Hpr _].
  destruct Hri as (_ & _ & Hprofiles & _).
  destruct (Hprofiles pid pr Hpr) as [[u Hu] _].
  assert (Hreq : requester_user d1 (new_export now pid) = inr u).
  { unfold requester_user. simpl. by rewrite Hpr, Hu. }
  unfold Pipeline.db_after.
  rewrite (ExportSpec.generate_export_stored env id queryset d1 _ stored He Hs).
  rewrite Hreq. cbn [fst snd db].
  split_and!; try done.
  - apply next_id_fresh.
  - simpl. apply lookup_insert_eq.
  - simpl. apply lookup_insert_eq.
Qed.

Lemma admin_export_of_selected_orders_witness :
  files (Pipeline.db_after
           (generate_export Sample.storage_keeps_name
              (next_id (exports Sample.db0)) [1; 3])
           (db (snd (run (export_selected_orders (Sample.at_second 12 0 0)
                            ApiSample.bob_request [1; 3]) Sample.db0))))
    !! export_path (next_id (exports Sample.db0))
  = Some (csv_string (csv_content Sample.db0 [1; 3])).
Proof.
  apply (admin_export_of_selected_orders (Sample.at_second 12 0 0)
           ApiSample.bob_request [1; 3] Sample.db0 2 Sample.bob_profile
           Sample.storage_keeps_name
           (export_path (next_id (exports Sample.db0)))
           referential_integrity_db0 eq_refl eq_refl).
Defined.



(** X19. For a user who is not a superuser the admin site and the API
    list the same orders; the API lists the products the admin site
    lists, without the inactive ones; and they list the same exports
    except to an operator, to whom the admin site shows the exports the
    operator requested while the API shows those of the whole company. *)
Theorem admin_site_and_api_listings (d : Db) (request : HttpRequest) :
  is_superuser_request d request = false →
  OrderAdmin_get_queryset d request = OrderViewSet_get_queryset d request ∧
  (∀ i p, listed (ProductViewSet_get_queryset d request) i p
          ↔ listed (ProductAdmin_get_queryset d request) i p
            ∧ product_is_active p = true) ∧
  (∀ pid pr, user_profile d request = Some (pid, pr) →
     role pr ≠ "operator" →
     ExportAdmin_get_queryset d request = ExportViewSet_get_queryset d request) ∧
  (∀ pid pr i e, user_profile d request = Some (pid, pr) →
     role pr = "operator" →
     (listed (ExportAdmin_get_queryset d request) i e
      ↔ exports d !! i = Some e ∧ requested_by_id e = pid) ∧
     (listed (ExportViewSet_get_queryset d request) i e
      ↔ is_Some (companies d !! profile_company_id pr) ∧
        exports d !! i = Some e ∧
        profile_company_id <$> profiles d !! requested_by_id e
        = Some (profile_company_id pr))).
Proof.
  intros Hsuper. split_and!.
  - unfold OrderAdmin_get_queryset, OrderViewSet_get_queryset.
    rewrite Hsuper. by destruct (user_profile d request) as [[pid pr]|].
  - intros i p. unfold listed, ProductAdmin_get_queryset,
      ProductViewSet_get_queryset. rewrite Hsuper.
    destruct (user_profile d request) as [[pid pr]|].
    + destruct (company_of d pr) as [ex|c]; simpl.
      * split; [by intros (? & ? & _) | by intros [(? & ? & _) _]].
      * split.
        -- intros (qs & [= <-] & Hi).
           apply map_lookup_filter_Some in Hi as (Hi & Hc & Ha). simpl in *.
           split; [|done]. eexists. split; [done|].
           by apply map_lookup_filter_Some.
        -- intros [(qs & [= <-] & Hi) Ha].
           apply map_lookup_filter_Some in Hi as (Hi & Hc). simpl in *.
           eexists. split; [done|]. by apply map_lookup_filter_Some.
    + simpl. split.
      * intros (qs & [= <-] & Hi). by rewrite lookup_empty in Hi.
      * intros [(qs & [= <-] & Hi) _]. by rewrite lookup_empty in Hi.
  - intros pid pr Hp Hrole.
    unfold ExportAdmin_get_queryset, ExportViewSet_get_queryset.
    rewrite Hsuper, Hp. by rewrite decide_False by done.
  - intros pid pr i e Hp Hrole.
    unfold listed, ExportAdmin_get_queryset, ExportViewSet_get_queryset.
    rewrite Hsuper, Hp. rewrite decide_True by done. split.
    + split.
      * intros (qs & [= <-] & Hi). by apply map_lookup_filter_Some in Hi.
      * intros Hi. eexists. split; [done|]. by apply map_lookup_filter_Some.
    + destruct (company_of d pr) as [ex|c] eqn:Hco; simpl.
      * split; [by intros (? & ? & _)|]. intros (Hc & _).
        assert (company_of d pr = inr (profile_company_id pr))
          by (by apply company_of_Some). congruence.
      * apply company_of_Some in Hco as [-> Hc]. split.
        -- intros (qs & [= <-] & Hi).
           by apply map_lookup_filter_Some in Hi as (Hi & Hcomp).
        -- intros (_ & Hi & Hcomp). eexists. split; [done|].
           by apply map_lookup_filter_Some.
Qed.

Lemma admin_site_and_api_listings_witness :
  OrderAdmin_get_queryset Sample.db0 ApiSample.alice_request
  = OrderViewSet_get_queryset Sample.db0 ApiSample.alice_request.
Proof.
  apply (admin_site_and_api_listings Sample.db0 ApiSample.alice_request).
  reflexivity.
Defined.

End AdminClaims.

Module UploadSpec.
Import Models Job Tasks Api ApiSpec Upload.

Lemma product_by_sku_Some d s id p :
  product_by_sku d s = Some (id, p) → products d !! id = Some p ∧ sku p = s.
Proof.
  unfold product_by_sku. intros H.
  destruct (list_find _ _) as [[k ip]|] eqn:Hfind; [|done].
  simpl in H. injection H as ->.
  apply list_find_Some in Hfind as (Hk & HP & _). simpl in HP.
  split; [|done].
  apply elem_of_map_to_list. by eapply list_elem_of_lookup_2.
Qed.

Lemma product_by_sku_None d s i p :
  product_by_sku d s = None → products d !! i = Some p → sku p ≠ s.
Proof.
  unfold product_by_sku. intros H Hi.
  destruct (list_find _ _) as [[k ip]|] eqn:Hfind; [done|].
  apply list_find_None in Hfind. rewrite Forall_forall in Hfind.
  apply (Hfind (i, p)). by apply elem_of_map_to_list.
Qed.

Lemma product_by_sku_unique d id p :
  unique_skus d → products d !! id = Some p →
  product_by_sku d (sku p) = Some (id, p).
Proof.
  intros Huniq Hp.
  destruct (product_by_sku d (sku p)) as [[i q]|] eqn:Hby.
  - apply product_by_sku_Some in Hby as [Hq Hs].
    assert (i = id) by (by apply (Huniq i id q p)). subst i.
    rewrite Hq in Hp. by injection Hp as ->.
  - by destruct (product_by_sku_None d (sku p) id p Hby Hp).
Qed.

(** What an accepted or refused row means. *)
Lemma parse_stock_cases env s :
  (∃ n, parse_stock env s = inr n ∧ py_int env s = inr n ∧ 0 ≤ n)
  ∨ parse_stock env s = inl ("Invalid Stock Quantity: " +:+ s).
Proof.
  unfold parse_stock. destruct (py_int env s) as [e|n]; simpl; [by right|].
  destruct (Z.ltb_spec n 0); [by right|]. left. eauto.
Qed.

Lemma process_row_inl env company n row d msg :
  process_row env company n row d = inl msg → row_error env row msg.
Proof.
  unfold process_row, row_error.
  destruct (row_get env row "SKU") as [e1|s] eqn:H1; simpl.
  { unfold row_get in H1. destruct (row !! "SKU") as [[v|]|]; try done.
    injection H1 as <-. intros [= <-]. auto. }
  destruct (row_get env row "Name") as [e2|name] eqn:H2; simpl.
  { unfold row_get in H2. destruct (row !! "Name") as [[v|]|]; try done.
    injection H2 as <-. intros [= <-]. auto. }
  destruct (row_get env row "Stock Quantity") as [e3|qs] eqn:H3; simpl.
  { unfold row_get in H3.
    destruct (row !! "Stock Quantity") as [[v|]|]; try done.
    injection H3 as <-. intros [= <-]. auto. }
  destruct (decide (s = EmptyString)); [intros [= <-]; auto|].
  destruct (decide (name = EmptyString)); [intros [= <-]; auto|].
  destruct (decide (qs = EmptyString)); [intros [= <-]; auto|].
  destruct (parse_stock_cases env qs) as [(q & Hq & _ & _)|Hq];
    rewrite Hq; simpl.
  - destruct (companies d !! company); [|intros [= <-]; auto 10].
    unfold update_or_create.
    destruct (database_refuses env s name q) as [e|] eqn:Hdb; simpl; [|done].
    intros [= <-]. do 6 right. exists s, name, q. split; [|done].
    unfold valid_row. split_and!; try done. exists qs. by split_and!.
  - intros [= <-]. do 4 right. left. eauto.
Qed.

Lemma process_row_inr env company n row d d' :
  process_row env company n row d = inr d' →
  ∃ s name qs q,
    row_get env row "SKU" = inr s ∧ s ≠ EmptyString ∧
    row_get env row "Name" = inr name ∧ name ≠ EmptyString ∧
    row_get env row "Stock Quantity" = inr qs ∧ qs ≠ EmptyString ∧
    parse_stock env qs = inr q ∧ 0 ≤ q ∧
    is_Some (companies d !! company) ∧
    database_refuses env s name q = None ∧
    d' = fst (write_product (clock_row_created env n) (clock_row env n)
                s name q company d).
Proof.
  unfold process_row.
  destruct (row_get env row "SKU") as [e1|s]; simpl; [done|].
  destruct (row_get env row "Name") as [e2|name]; simpl; [done|].
  destruct (row_get env row "Stock Quantity") as [e3|qs]; simpl; [done|].
  destruct (decide (s = EmptyString)); [done|].
  destruct (decide (name = EmptyString)); [done|].
  destruct (decide (qs = EmptyString)); [done|].
  destruct (parse_stock_cases env qs) as [(q & Hq & _ & Hpos)| ->]; simpl;
    [|done].
  rewrite Hq. simpl.
  destruct (companies d !! company) eqn:Hc; [|done].
  unfold update_or_create.
  destruct (database_refuses env s name q) as [e|] eqn:Hdb; simpl; [done|].
  intros [= <-]. exists s, name, qs, q. split_and!; eauto.
Qed.

Lemma process_row_valid env company n row d s name qs q :
  row_get env row "SKU" = inr s → s ≠ EmptyString →
  row_get env row "Name" = inr name → name ≠ EmptyString →
  row_get env row "Stock Quantity" = inr qs → qs ≠ EmptyString →
  parse_stock env qs = inr q →
  is_Some (companies d !! company) →
  database_refuses env s name q = None →
  process_row env company n row d
  = inr (fst (write_product (clock_row_created env n) (clock_row env n)
                s name q company d)).
Proof.
  intros H1 Hs H2 Hn H3 Hqs Hq [c Hc] Hdb. unfold process_row.
  rewrite H1, H2, H3. simpl.
  rewrite !decide_False by done. rewrite Hq. simpl. rewrite Hc.
  unfold update_or_create. by rewrite Hdb.
Qed.

(** The product [update_or_create] writes. *)
Lemma write_product_spec created now s name q company d :
  unique_skus d →
  let d' := fst (write_product created now s name q company d) in
  ∃ id p',
    d' = db_set_products (<[id := p']> (products d)) d ∧
    sku p' = s ∧ product_name p' = name ∧ stock_quantity p' = q ∧
    product_company_id p' = company ∧ product_is_active p' = true ∧
    (match products d !! id with
     | Some p => sku p = s ∧ product_created_at p' = product_created_at p
     | None => ∀ i p, products d !! i = Some p → sku p ≠ s
     end) ∧
    unique_skus d'.
Proof.
  intros Huniq. cbv zeta. unfold write_product.
  destruct (product_by_sku d s) as [[id p]|] eqn:Hby; cbn [fst].
  - apply product_by_sku_Some in Hby as [Hp Hs].
    eexists id, _. split; [reflexivity|]. simpl. rewrite Hp.
    split_and!; try done.
    intros i j pi pj Hi Hj Heq. simpl in Hi, Hj.
    apply lookup_insert_Some in Hi as [[<- <-]|[Hi' Hi]];
      apply lookup_insert_Some in Hj as [[<- <-]|[Hj' Hj]]; try done.
    + simpl in Heq. apply (Huniq id j p pj Hp Hj). congruence.
    + simpl in Heq. apply (Huniq i id pi p Hi Hp). congruence.
    + by apply (Huniq i j pi pj).
  - eexists (next_id (products d)), _. split; [reflexivity|]. simpl.
    rewrite next_id_fresh. split_and!; try done.
    { intros i p. by apply product_by_sku_None. }
    intros i j pi pj Hi Hj Heq. simpl in Hi, Hj.
    apply lookup_insert_Some in Hi as [[<- <-]|[Hi' Hi]];
      apply lookup_insert_Some in Hj as [[<- <-]|[Hj' Hj]]; try done.
    + simpl in Heq. by destruct (product_by_sku_None d s j pj Hby Hj).
    + simpl in Heq. by destruct (product_by_sku_None d s i pi Hby Hi).
    + by apply (Huniq i j pi pj).
Qed.

Lemma process_rows_app env company rows1 : ∀ rows2 n st,
  process_rows env company n (rows1 ++ rows2) st
  = process_rows env company (n + Z.of_nat (length rows1)) rows2
      (process_rows env company n rows1 st).
Proof.
  induction rows1 as [|row rows1 IH]; intros rows2 n st.
  - simpl. f_equal. lia.
  - cbn [app process_rows length]. rewrite IH. f_equal. lia.
Qed.

(** The counters and the log of the loop. *)
Lemma process_rows_counts env company rows : ∀ n st,
  let st' := process_rows env company n rows st in
  ∃ lines,
    progress_log st' = progress_log st ++ lines ∧
    progress_errors st' = progress_errors st + Z.of_nat (length lines) ∧
    progress_processed st' + progress_errors st'
    = progress_processed st + progress_errors st + Z.of_nat (length rows) ∧
    progress_processed st ≤ progress_processed st' ∧
    Forall (λ line, ∃ (k : nat) row msg,
              rows !! k = Some row ∧ row_error env row msg ∧
              line = "Row " +:+ pretty (n + Z.of_nat k) +:+ ": " +:+ msg)
           lines.
Proof.
  induction rows as [|row rest IH]; intros n st; cbv zeta.
  - exists []. simpl. rewrite app_nil_r. split_and!; try done; lia.
  - cbn [process_rows].
    destruct (process_row env company n row (progress_db st)) as [msg|d']
      eqn:Hrow.
    + destruct (IH (n + 1) {| progress_db := progress_db st;
                              progress_processed := progress_processed st;
                              progress_errors := progress_errors st + 1;
                              progress_log := progress_log st
                                ++ ["Row " +:+ pretty n +:+ ": " +:+ msg] |})
        as (lines & Hlog & Herr & Hsum & Hle & Hall).
      cbn [progress_log progress_errors progress_processed] in *.
      exists (("Row " +:+ pretty n +:+ ": " +:+ msg) :: lines).
      split_and!.
      * rewrite Hlog, <- app_assoc. done.
      * rewrite Herr. cbn [length]. lia.
      * rewrite Hsum. cbn [length]. lia.
      * done.
      * constructor.
        -- exists 0%nat, row, msg. split_and!; [done| |].
           ++ by eapply process_row_inl.
           ++ by rewrite Z.add_0_r.
        -- eapply Forall_impl; [exact Hall|]. simpl.
           intros line (k & r & m & Hk & Hm & ->).
           exists (S k), r, m. split_and!; [done|done|].
           by replace (n + 1 + Z.of_nat k) with (n + Z.of_nat (S k)) by lia.
    + destruct (IH (n + 1) {| progress_db := d';
                              progress_processed := progress_processed st + 1;
                              progress_errors := progress_errors st;
                              progress_log := progress_log st |})
        as (lines & Hlog & Herr & Hsum & Hle & Hall).
      cbn [progress_log progress_errors progress_processed] in *.
      exists lines. split_and!; try done.
      * rewrite Hsum. cbn [length]. lia.
      * lia.
      * eapply Forall_impl; [exact Hall|]. simpl.
        intros line (k & r & m & Hk & Hm & ->).
        exists (S k), r, m. split_and!; [done|done|].
        by replace (n + 1 + Z.of_nat k) with (n + Z.of_nat (S k)) by lia.
Qed.

Lemma upload_effect_refl company d : upload_effect company d d.
Proof.
  unfold upload_effect. split_and!; try done.
  - intros i p Hp. exists p. auto.
  - intros i p' Hp' Hn. congruence.
Qed.

Lemma upload_effect_trans company d1 d2 d3 :
  upload_effect company d1 d2 → upload_effect company d2 d3 →
  upload_effect company d1 d3.
Proof.
  intros (Hc & Hu & Hp & Ho & He & Hf & Hold & Hnew)
         (Hc' & Hu' & Hp' & Ho' & He' & Hf' & Hold' & Hnew').
  unfold upload_effect. split_and!; try congruence.
  - intros i p Hi. destruct (Hold i p Hi) as (p2 & Hi2 & Hs & Ht & Hcase).
    destruct (Hold' i p2 Hi2) as (p3 & Hi3 & Hs' & Ht' & Hcase').
    exists p3. split_and!; try congruence.
    destruct Hcase' as [->|?]; auto.
  - intros i p3 Hi3 Hnone.
    destruct (products d2 !! i) as [p2|] eqn:Hi2; [|by eapply Hnew'].
    destruct (Hold' i p2 Hi2) as (p3' & Hi3' & _ & _ & Hcase).
    rewrite Hi3 in Hi3'. injection Hi3' as <-.
    destruct Hcase as [->|?]; [|done]. by eapply Hnew.
Qed.

(** One accepted row. *)
Lemma write_product_effect created now s name q company d :
  unique_skus d → s ≠ EmptyString → name ≠ EmptyString → 0 ≤ q →
  let d' := fst (write_product created now s name q company d) in
  unique_skus d' ∧ upload_effect company d d' ∧
  ∀ i p, products d !! i = Some p → sku p = s →
         ∃ p', products d' !! i = Some p' ∧ uploaded_product company p'.
Proof.
  intros Huniq Hs Hn Hq. cbv zeta.
  destruct (write_product_spec created now s name q company d Huniq)
    as (id & p' & Hd' & Hsku & Hname & Hstock & Hcomp & Hact & Hcase & Huniq').
  rewrite Hd' in *. clear Hd'.
  assert (Hup : uploaded_product company p')
    by (unfold uploaded_product; split_and!; congruence || lia).
  split; [done|]. split.
  - unfold upload_effect. simpl. split_and!; try done.
    + intros i p Hi. destruct (decide (i = id)) as [->|Hne].
      * rewrite Hi in Hcase. destruct Hcase as [Hs' Ht].
        exists p'. rewrite lookup_insert_eq. split_and!; auto; congruence.
      * exists p. rewrite lookup_insert_ne by done. auto.
    + intros i p'' Hi Hnone.
      apply lookup_insert_Some in Hi as [[<- <-]|[_ Hi]]; [done|congruence].
  - intros i p Hi Hsi. simpl.
    destruct (products d !! id) as [p0|] eqn:Hid.
    + destruct Hcase as [Hs0 _].
      assert (id = i) by (apply (Huniq id i p0 p Hid Hi); congruence).
      subst id. exists p'. by rewrite lookup_insert_eq.
    + by destruct (Hcase i p Hi).
Qed.

Lemma process_row_effect env company n row d d' :
  unique_skus d → process_row env company n row d = inr d' →
  unique_skus d' ∧ upload_effect company d d'.
Proof.
  intros Huniq Hrow.
  apply process_row_inr in Hrow
    as (s & name & qs & q & _ & Hs & _ & Hn & _ & _ & _ & Hq & _ & _ & ->).
  by destruct (write_product_effect (clock_row_created env n)
                 (clock_row env n) s name q company d
                 Huniq Hs Hn Hq) as (? & ? & _).
Qed.

Lemma process_rows_effect env company rows : ∀ n st,
  unique_skus (progress_db st) →
  unique_skus (progress_db (process_rows env company n rows st)) ∧
  upload_effect company (progress_db st)
    (progress_db (process_rows env company n rows st)).
Proof.
  induction rows as [|row rest IH]; intros n st Huniq.
  - split; [done|apply upload_effect_refl].
  - cbn [process_rows].
    destruct (process_row env company n row (progress_db st)) as [msg|d']
      eqn:Hrow.
    + apply (IH (n + 1) {| progress_db := progress_db st |}). done.
    + destruct (process_row_effect env company n row _ d' Huniq Hrow)
        as [Huniq' Heff].
      destruct (IH (n + 1) {| progress_db := d';
                              progress_processed := progress_processed st + 1;
                              progress_errors := progress_errors st;
                              progress_log := progress_log st |} Huniq')
        as [Huniq'' Heff'].
      split; [done|]. by eapply upload_effect_trans.
Qed.

(** The database a run leaves. *)
Lemma process_product_upload_db env upload_id w upload :
  up_uploads w !! upload_id = Some upload →
  up_db (snd (process_product_upload env upload_id w))
  = match read_rows env (upload_file upload) with
    | inl _ => up_db w
    | inr (rows, _) =>
        progress_db (process_rows env (upload_company_id upload) 2 rows
                       {| progress_db := up_db w; progress_processed := 0;
                          progress_errors := 0; progress_log := [] |})
    end.
Proof.
  intros Hu. unfold process_product_upload. rewrite Hu.
  cbn [upload_set_status upload_file upload_company_id].
  destruct (read_rows env (upload_file upload)) as [msg|[rows [msg|]]].
  - unfold mark_upload_failed, upload_save. cbn [snd up_uploads].
    by rewrite lookup_insert_eq.
  - unfold mark_upload_failed, upload_save. cbn [snd up_uploads].
    by rewrite lookup_insert_eq.
  - reflexivity.
Qed.

Lemma unique_skus_db0 : unique_skus Sample.db0.
Proof.
  intros i j p q Hi Hj.
  apply elem_of_map_to_list, list_elem_of_In in Hi.
  apply elem_of_map_to_list, list_elem_of_In in Hj.
  vm_compute in Hi, Hj.
  destruct Hi as [[= <- <-]|[[= <- <-]|[]]];
    destruct Hj as [[= <- <-]|[[= <- <-]|[]]]; try done.
Qed.

(** A product whose SKU an accepted row carries belongs to the company of
    the upload when the loop ends. *)
Lemma process_rows_takes_over env company rows row name q i p : ∀ n st,
  unique_skus (progress_db st) →
  is_Some (companies (progress_db st) !! company) →
  products (progress_db st) !! i = Some p →
  row ∈ rows → accepted_row env row (sku p) name q →
  ∃ p', products (progress_db (process_rows env company n rows st)) !! i
        = Some p' ∧ sku p' = sku p ∧ uploaded_product company p'.
Proof.
  intros n st Huniq Hc Hp Hin
         [(Hsku & Hs & Hname & Hn & qs & Hqs & Hq & Hparse) Hdb].
  apply list_elem_of_split in Hin as (l1 & l2 & ->).
  rewrite process_rows_app. cbn [process_rows].
  destruct (process_rows_effect env company l1 n st Huniq) as [Huniq1 Heff1].
  set (st1 := process_rows env company n l1 st) in *.
  destruct Heff1 as (Hc1 & _ & _ & _ & _ & _ & Hold1 & _).
  destruct (Hold1 i p Hp) as (p1 & Hp1 & Hs1 & _ & _).
  assert (Hpos : 0 ≤ q).
  { destruct (parse_stock_cases env qs) as [(q' & Hq' & _ & ?)|Hq'];
      rewrite Hq' in Hparse; [by injection Hparse as <-|done]. }
  rewrite (process_row_valid env company _ row (progress_db st1) (sku p)
             name qs q); try done; [|by rewrite Hc1].
  destruct (write_product_effect
              (clock_row_created env (n + Z.of_nat (length l1)))
              (clock_row env (n + Z.of_nat (length l1))) (sku p) name q
              company (progress_db st1) Huniq1 Hs Hn Hpos)
    as (Huniq2 & Heff2 & Htake).
  destruct (Htake i p1 Hp1 Hs1) as (p2 & Hp2 & Hup2).
  destruct Heff2 as (_ & _ & _ & _ & _ & _ & Hold2 & _).
  destruct (Hold2 i p1 Hp1) as (p2' & Hp2' & Hs2 & _ & _).
  rewrite Hp2 in Hp2'. injection Hp2' as <-.
  set (st2 := {| progress_db := fst (write_product _ _ _ _ _ _ _) |}).
  destruct (process_rows_effect env company l2
              (n + Z.of_nat (length l1) + 1) st2 Huniq2) as [_ Heff3].
  destruct Heff3 as (_ & _ & _ & _ & _ & _ & Hold3 & _).
  destruct (Hold3 i p2 Hp2) as (p3 & Hp3 & Hs3 & _ & Hcase).
  exists p3. split_and!; [done|congruence|].
  destruct Hcase as [->|?]; done.
Qed.

(** A row is judged without looking at the products. *)
Lemma process_row_values env company n row d :
  match row_values env row with
  | Some (s, name, q) =>
      s ≠ EmptyString ∧ name ≠ EmptyString ∧ 0 ≤ q ∧
      process_row env company n row d
      = match companies d !! company with
        | Some _ => inr (fst (write_product (clock_row_created env n)
                                (clock_row env n) s name q company d))
        | None => inl (exn_str (DoesNotExist MCompany))
        end
  | None => ∃ msg, ∀ n' d', is_Some (companies d' !! company) →
                            process_row env company n' row d' = inl msg
  end.
Proof.
  unfold row_values, process_row.
  destruct (row_get env row "SKU") as [e1|s]; simpl; [eauto|].
  destruct (row_get env row "Name") as [e2|name]; simpl; [eauto|].
  destruct (row_get env row "Stock Quantity") as [e3|qs]; simpl; [eauto|].
  destruct (decide (s = EmptyString)); [eauto|].
  destruct (decide (name = EmptyString)); [eauto|].
  destruct (decide (qs = EmptyString)); [eauto|].
  destruct (parse_stock_cases env qs) as [(q & Hq & _ & Hpos)|Hq];
    rewrite Hq; simpl; [|eauto].
  unfold update_or_create.
  destruct (database_refuses env s name q) as [e|] eqn:Hdb; simpl.
  - exists e. intros n' d' [c ->]. done.
  - by split_and!.
Qed.

Lemma write_product_companies created now s name q company d :
  companies (fst (write_product created now s name q company d)) = companies d.
Proof. unfold write_product. by destruct (product_by_sku d s) as [[? ?]|]. Qed.

(** The last accepted row of a SKU decides the product. *)
Lemma process_rows_last_values env company rows : ∀ n st,
  unique_skus (progress_db st) →
  is_Some (companies (progress_db st) !! company) →
  let d := progress_db st in
  let d' := progress_db (process_rows env company n rows st) in
  unique_skus d' ∧ companies d' = companies d ∧
  (∀ i p, products d !! i = Some p →
     ∃ p', products d' !! i = Some p' ∧
           match last_values env rows (sku p) with
           | Some v => upserted company v p p'
           | None => p' = p
           end) ∧
  (∀ i p', products d' !! i = Some p' → products d !! i = None →
     (∀ j p, products d !! j = Some p → sku p ≠ sku p') ∧
     ∃ v, last_values env rows (sku p') = Some v ∧
          product_name p' = fst v ∧ stock_quantity p' = snd v ∧
          product_company_id p' = company ∧ product_is_active p' = true) ∧
  (∀ s v, last_values env rows s = Some v →
     ∃ i p', products d' !! i = Some p' ∧ sku p' = s).
Proof.
  induction rows as [|row rest IH]; intros n st Huniq Hc; cbv zeta.
  - simpl. split_and!; try done.
    + intros i p Hp. eauto.
    + intros i p' Hp' Hn. congruence.
  - cbn [process_rows last_values].
    pose proof (process_row_values env company n row (progress_db st)) as Hrow.
    destruct (row_values env row) as [[[s0 name0] q0]|].
    + destruct Hrow as (Hs0 & Hn0 & Hq0 & Hrow). rewrite Hrow.
      destruct Hc as [cc Hc]. rewrite Hc.
      destruct (write_product_spec (clock_row_created env n)
                  (clock_row env n) s0 name0 q0 company
                  (progress_db st) Huniq)
        as (id0 & p0' & Hmid & Hsku0 & Hname0 & Hstock0 & Hcomp0 & Hact0
            & Hcase & Huniq1).
      set (dmid := fst (write_product _ _ _ _ _ _ _)) in *.
      set (st1 := {| progress_db := dmid |}).
      assert (Hc1 : is_Some (companies (progress_db st1) !! company)).
      { subst st1 dmid. cbn [progress_db].
        rewrite write_product_companies. by eexists. }
      destruct (IH (n + 1) st1 Huniq1 Hc1)
        as (Huniq' & Hcomp' & HA1 & HA2 & HA3).
      cbn [progress_db] in *.
      assert (Hmid_lookup : ∀ i, products dmid !! i
                = if decide (i = id0) then Some p0'
                  else products (progress_db st) !! i).
      { intros i. rewrite Hmid. simpl. destruct (decide (i = id0)) as [->|?];
          [by rewrite lookup_insert_eq | by rewrite lookup_insert_ne]. }
      assert (Hother : ∀ i p, products (progress_db st) !! i = Some p →
                              i ≠ id0 → sku p ≠ s0).
      { intros i p Hp Hne Hs.
        destruct (products (progress_db st) !! id0) as [p0|] eqn:Hid0.
        - destruct Hcase as [Hsp0 _]. apply Hne.
          apply (Huniq i id0 p p0 Hp Hid0). congruence.
        - by apply (Hcase i p Hp). }
      split_and!.
      * done.
      * rewrite Hcomp'. subst dmid. apply write_product_companies.
      * intros i p Hp. destruct (decide (i = id0)) as [->|Hne].
        -- rewrite Hp in Hcase. destruct Hcase as [Hsp Hcr].
           destruct (HA1 id0 p0') as (p' & Hp' & Hlast).
           { rewrite Hmid_lookup. by rewrite decide_True. }
           exists p'. split; [done|]. rewrite Hsku0, <- Hsp in Hlast.
           destruct (last_values env rest (sku p)) as [v|].
           ++ destruct Hlast as (H1 & H2 & H3 & H4 & H5 & H6).
              unfold upserted. split_and!; congruence.
           ++ subst p'. rewrite decide_True by congruence.
              unfold upserted. simpl. split_and!; congruence.
        -- destruct (HA1 i p) as (p' & Hp' & Hlast).
           { rewrite Hmid_lookup. by rewrite decide_False. }
           exists p'. split; [done|].
           destruct (last_values env rest (sku p)) as [v|]; [done|].
           rewrite decide_False; [done|].
           intros Heq. by apply (Hother i p Hp Hne).
      * intros i p' Hp' Hnone.
        destruct (products dmid !! i) as [pmid|] eqn:Hi.
        -- rewrite Hmid_lookup in Hi.
           destruct (decide (i = id0)) as [->|Hne]; [|congruence].
           injection Hi as <-. rewrite Hnone in Hcase.
           destruct (HA1 id0 p0') as (p'' & Hp'' & Hlast).
           { rewrite Hmid_lookup. by rewrite decide_True. }
           rewrite Hp' in Hp''. injection Hp'' as <-.
           rewrite Hsku0 in Hlast.
           destruct (last_values env rest s0) as [v|] eqn:Hv.
           ++ destruct Hlast as (H1 & H2 & H3 & H4 & H5 & H6).
              rewrite H1, Hsku0, Hv. split.
              ** intros j p Hj. by apply (Hcase j p).
              ** exists v. by split_and!.
           ++ subst p'. rewrite Hsku0, Hv. rewrite decide_True by done. split.
              ** intros j p Hj. by apply (Hcase j p).
              ** exists (name0, q0). by split_and!.
        -- destruct (HA2 i p' Hp' Hi) as (Hnew & v & Hv & Hfields).
           split.
           ++ intros j p Hj. destruct (decide (j = id0)) as [->|Hne].
              ** rewrite Hj in Hcase. destruct Hcase as [Hsp _].
                 intros Heq. apply (Hnew id0 p0').
                 { rewrite Hmid_lookup. by rewrite decide_True. }
                 congruence.
              ** apply (Hnew j p). rewrite Hmid_lookup.
                 by rewrite decide_False.
           ++ exists v. by rewrite Hv.
      * intros s v Hlast.
        destruct (last_values env rest s) as [v'|] eqn:Hv.
        -- by apply (HA3 s v').
        -- destruct (decide (s0 = s)) as [<-|]; [|done].
           destruct (HA1 id0 p0') as (p' & Hp' & Hl).
           { rewrite Hmid_lookup. by rewrite decide_True. }
           rewrite Hsku0, Hv in Hl. subst p'. eauto.
    + destruct Hrow as [msg Hrow]. rewrite Hrow by done.
      destruct (IH (n + 1) {| progress_db := progress_db st;
                              progress_processed := progress_processed st;
                              progress_errors := progress_errors st + 1;
                              progress_log := progress_log st
                                ++ ["Row " +:+ pretty n +:+ ": " +:+ msg] |}
                  Huniq Hc)
        as (Huniq' & Hcomp' & HA1 & HA2 & HA3).
      cbn [progress_db] in *. split_and!; try done.
      * intros i p Hp. destruct (HA1 i p Hp) as (p' & Hp' & Hl).
        exists p'. split; [done|].
        by destruct (last_values env rest (sku p)).
      * intros i p' Hp' Hn. destruct (HA2 i p' Hp' Hn) as (H1 & v & Hv & H2).
        split; [done|]. exists v. by rewrite Hv.
      * intros s v Hl. destruct (last_values env rest s) as [v'|] eqn:Hv;
          [|done]. by apply (HA3 s v').
Qed.

(** The counters and the log do not depend on the products. *)
Lemma process_rows_counters env company rows : ∀ n st st',
  is_Some (companies (progress_db st) !! company) →
  is_Some (companies (progress_db st') !! company) →
  progress_processed st = progress_processed st' →
  progress_errors st = progress_errors st' →
  progress_log st = progress_log st' →
  let r := process_rows env company n rows st in
  let r' := process_rows env company n rows st' in
  progress_processed r = progress_processed r' ∧
  progress_errors r = progress_errors r' ∧
  progress_log r = progress_log r'.
Proof.
  induction rows as [|row rest IH]; intros n st st' Hc Hc' H1 H2 H3; cbv zeta.
  - done.
  - cbn [process_rows].
    pose proof (process_row_values env company n row (progress_db st)) as Hr.
    pose proof (process_row_values env company n row (progress_db st')) as Hr'.
    destruct (row_values env row) as [[[s0 name0] q0]|].
    + destruct Hr as (_ & _ & _ & ->). destruct Hr' as (_ & _ & _ & ->).
      destruct Hc as [cc Hc]. destruct Hc' as [cc' Hc']. rewrite Hc, Hc'.
      apply IH; cbn [progress_db progress_processed progress_errors
                       progress_log]; try congruence.
      * rewrite write_product_companies. by eexists.
      * rewrite write_product_companies. by eexists.
    + destruct Hr as [msg Hr]. rewrite !Hr by done.
      apply IH; cbn [progress_db progress_processed progress_errors
                       progress_log]; try congruence; done.
Qed.

End UploadSpec.

Module UploadClaims.
Import Models Job Tasks Api ApiSpec Upload UploadSpec.

(** X24. An upload whose file can be read to its end is always marked
    completed, also when every row is refused: each row the reader
    yields is counted once, as processed or as an error; the error log
    has one entry per refused row, [Row n: ...] with [n] two more than
    the number of rows the reader yielded before this one (the line of
    the row in the file only as long as the reader skips no blank line
    and no field spans lines), and the text is one of the six of the
    task, never the one about a negative stock, or the text with which
    the database refused the values of a row that passed the
    validation. *)
Theorem upload_counts_every_row (env : UploadEnv) (upload_id : Z)
    (w : UploadWorld) (upload : ProductUpload) (rows : list (gmap string (option string))) :
  up_uploads w !! upload_id = Some upload →
  read_rows env (upload_file upload) = inr (rows, None) →
  ∃ processed errors lines upload',
    fst (process_product_upload env upload_id w)
    = UploadDone upload_id processed errors ∧
    processed + errors = Z.of_nat (length rows) ∧
    0 ≤ processed ∧ errors = Z.of_nat (length lines) ∧
    up_uploads (snd (process_product_upload env upload_id w)) !! upload_id
    = Some upload' ∧
    upload_status upload' = UploadCompleted ∧
    processed_count upload' = processed ∧ error_count upload' = errors ∧
    errors_log upload' = String.concat newline lines ∧
    Forall (λ line, ∃ (k : nat) row msg,
              rows !! k = Some row ∧ row_error env row msg ∧
              line = "Row " +:+ pretty (2 + Z.of_nat k) +:+ ": " +:+ msg)
           lines.
Proof.
  intros Hu Hread. unfold process_product_upload. rewrite Hu.
  cbn [upload_set_status upload_file]. rewrite Hread.
  set (st0 := {| progress_db := _; progress_processed := 0;
                 progress_errors := 0; progress_log := [] |}).
  destruct (process_rows_counts env (upload_company_id upload) rows 2 st0)
    as (lines & Hlog & Herr & Hsum & Hle & Hall).
  cbn [upload_company_id] in *.
  set (st := process_rows _ _ _ _ _) in *.
  subst st0. cbn [progress_log progress_errors progress_processed] in *.
  simpl in Hlog. subst lines.
  eexists _, _, (progress_log st), _. cbn [fst snd].
  split_and!;
    [reflexivity | lia | lia | lia
    | unfold upload_save; cbn [up_uploads]; apply lookup_insert_eq
    | reflexivity | reflexivity | reflexivity | reflexivity | exact Hall].
Qed.

Lemma upload_counts_every_row_witness :
  (∃ processed errors lines upload',
    fst (process_product_upload UploadSample.env_big 1 UploadSample.world0)
    = UploadDone 1 processed errors ∧
    processed + errors = Z.of_nat (length UploadSample.rows_big) ∧
    0 ≤ processed ∧ errors = Z.of_nat (length lines) ∧
    up_uploads (snd (process_product_upload UploadSample.env_big 1
                       UploadSample.world0)) !! 1 = Some upload' ∧
    upload_status upload' = UploadCompleted ∧
    processed_count upload' = processed ∧ error_count upload' = errors ∧
    errors_log upload' = String.concat newline lines ∧
    Forall (λ line, ∃ (k : nat) row msg,
              UploadSample.rows_big !! k = Some row ∧
              row_error UploadSample.env_big row msg ∧
              line = "Row " +:+ pretty (2 + Z.of_nat k) +:+ ": " +:+ msg)
           lines) ∧
  errors_log <$> up_uploads (snd (process_product_upload UploadSample.env_big 1
                                    UploadSample.world0)) !! 1
  = Some (String.concat newline
            ["Row 3: SKU is required";
             "Row 4: Invalid Stock Quantity: -1";
             "Row 5: Python int too large to convert to SQLite INTEGER"]).
Proof.
  split; [|reflexivity].
  apply (upload_counts_every_row UploadSample.env_big 1 UploadSample.world0
           UploadSample.upload1 UploadSample.rows_big); reflexivity.
Defined.

(** X25. Whatever an upload does to the catalogue, it does in the name
    of its own company: after a run, finished or failed, every product is
    either as before or as an accepted row leaves it, that is active,
    with a stock that is not negative, a name and a SKU, and belonging to
    the company of the upload; no product disappears or changes its SKU,
    SKUs stay unique, and no other table is written. *)
Theorem upload_writes_for_its_company (env : UploadEnv) (upload_id : Z)
    (w : UploadWorld) (upload : ProductUpload) :
  up_uploads w !! upload_id = Some upload →
  unique_skus (up_db w) →
  let d' := up_db (snd (process_product_upload env upload_id w)) in
  unique_skus d' ∧ upload_effect (upload_company_id upload) (up_db w) d'.
Proof.
  intros Hu Huniq. cbv zeta.
  rewrite (process_product_upload_db env upload_id w upload Hu).
  destruct (read_rows env (upload_file upload)) as [msg|[rows reader_error]].
  - split; [done|apply upload_effect_refl].
  - by apply (process_rows_effect env (upload_company_id upload) rows 2
                {| progress_db := up_db w |}).
Qed.

Lemma upload_writes_for_its_company_witness :
  unique_skus (up_db (snd (process_product_upload UploadSample.env 1
                             UploadSample.world0))) ∧
  upload_effect (upload_company_id UploadSample.upload1) Sample.db0
    (up_db (snd (process_product_upload UploadSample.env 1
                   UploadSample.world0))).
Proof.
  apply (upload_writes_for_its_company UploadSample.env 1 UploadSample.world0
           UploadSample.upload1 eq_refl unique_skus_db0).
Defined.

(** X26. SKUs are unique across companies, and the upload looks products
    up by SKU alone: when a row that passes the validation, and whose
    values the database accepts, carries the SKU of an existing product,
    that product, whatever company it belonged to, ends up belonging to
    the company of the upload, under the same id and SKU, whether or not
    the run then finishes. *)
Theorem upload_takes_over_a_foreign_sku (env : UploadEnv) (upload_id : Z)
    (w : UploadWorld) (upload : ProductUpload) (rows : list (gmap string (option string)))
    (reader_error : option string) (i : Z) (p : Product) (row : gmap string (option string))
    (name : string) (q : Z) :
  up_uploads w !! upload_id = Some upload →
  unique_skus (up_db w) →
  read_rows env (upload_file upload) = inr (rows, reader_error) →
  is_Some (companies (up_db w) !! upload_company_id upload) →
  products (up_db w) !! i = Some p →
  row ∈ rows → accepted_row env row (sku p) name q →
  ∃ p', products (up_db (snd (process_product_upload env upload_id w))) !! i
        = Some p' ∧
        sku p' = sku p ∧ uploaded_product (upload_company_id upload) p'.
Proof.
  intros Hu Huniq Hread Hc Hp Hin Hrow.
  rewrite (process_product_upload_db env upload_id w upload Hu), Hread.
  by apply (process_rows_takes_over env (upload_company_id upload) rows row
              name q i p 2 {| progress_db := up_db w |}).
Qed.

Lemma upload_takes_over_a_foreign_sku_witness :
  product_company_id Sample.widget = 1 ∧
  ∃ p', products (up_db (snd (process_product_upload UploadSample.env 1
                                UploadSample.world0))) !! 1 = Some p' ∧
        sku p' = sku Sample.widget ∧ uploaded_product 2 p'.
Proof.
  split; [reflexivity|].
  apply (upload_takes_over_a_foreign_sku UploadSample.env 1 UploadSample.world0
           UploadSample.upload1 UploadSample.rows None 1 Sample.widget
           (UploadSample.csv_row "W-1" "Widget" "5") "Widget" 5
           eq_refl unique_skus_db0 eq_refl).
  - by eexists.
  - reflexivity.
  - apply list_elem_of_here.
  - unfold accepted_row, valid_row. split_and!; try done.
    exists "5". by split_and!.
Defined.

(** X27. A failure of the reader in the middle of the file marks the
    upload failed, with the text of the exception as its log and without
    the counts, but rolls nothing back: the products of the rows read
    before the failure stay written. *)
Theorem failed_upload_is_not_rolled_back (env : UploadEnv) (upload_id : Z)
    (w : UploadWorld) (upload : ProductUpload) (rows : list (gmap string (option string)))
    (msg : string) :
  up_uploads w !! upload_id = Some upload →
  read_rows env (upload_file upload) = inr (rows, Some msg) →
  let r := process_product_upload env upload_id w in
  fst r = UploadError msg ∧
  (∃ upload', up_uploads (snd r) !! upload_id = Some upload' ∧
     upload_status upload' = UploadFailed ∧ errors_log upload' = msg ∧
     processed_count upload' = processed_count upload ∧
     error_count upload' = error_count upload) ∧
  up_db (snd r)
  = progress_db (process_rows env (upload_company_id upload) 2 rows
                   {| progress_db := up_db w; progress_processed := 0;
                      progress_errors := 0; progress_log := [] |}).
Proof.
  intros Hu Hread. cbv zeta. split_and!.
  - unfold process_product_upload. rewrite Hu.
    cbn [upload_set_status upload_file]. by rewrite Hread.
  - unfold process_product_upload. rewrite Hu.
    cbn [upload_set_status upload_file]. rewrite Hread.
    unfold mark_upload_failed, upload_save. cbn [snd up_uploads].
    rewrite lookup_insert_eq. cbn [up_uploads]. eexists.
    split; [apply lookup_insert_eq|]. by split_and!.
  - by rewrite (process_product_upload_db env upload_id w upload Hu), Hread.
Qed.

Lemma failed_upload_is_not_rolled_back_witness :
  fst (process_product_upload UploadSample.env_broken 1 UploadSample.world0)
  = UploadError "line contains NUL" ∧
  (∃ upload',
     up_uploads (snd (process_product_upload UploadSample.env_broken 1
                        UploadSample.world0)) !! 1 = Some upload' ∧
     upload_status upload' = UploadFailed ∧
     errors_log upload' = "line contains NUL" ∧
     processed_count upload' = processed_count UploadSample.upload1 ∧
     error_count upload' = error_count UploadSample.upload1) ∧
  up_db (snd (process_product_upload UploadSample.env_broken 1
                UploadSample.world0))
  = progress_db (process_rows UploadSample.env_broken
                   (upload_company_id UploadSample.upload1) 2
                   UploadSample.rows
                   {| progress_db := up_db UploadSample.world0;
                      progress_processed := 0; progress_errors := 0;
                      progress_log := [] |}).
Proof.
  apply (failed_upload_is_not_rolled_back UploadSample.env_broken 1
           UploadSample.world0 UploadSample.upload1 UploadSample.rows
           "line contains NUL"); reflexivity.
Defined.

(** X29. Uploading the same file again changes nothing but time stamps:
    the second run reports the same counts, creates no product and leaves
    every product with the SKU, name, stock, company and activity the
    first run gave it (the last accepted row of a SKU decides, in both
    runs). *)
Theorem uploading_again_changes_nothing (env : UploadEnv) (upload_id : Z)
    (w : UploadWorld) (upload : ProductUpload)
    (rows : list (gmap string (option string))) :
  up_uploads w !! upload_id = Some upload →
  unique_skus (up_db w) →
  is_Some (companies (up_db w) !! upload_company_id upload) →
  read_rows env (upload_file upload) = inr (rows, None) →
  let r1 := process_product_upload env upload_id w in
  let r2 := process_product_upload env upload_id (snd r1) in
  fst r2 = fst r1 ∧
  ∀ i, match products (up_db (snd r1)) !! i,
             products (up_db (snd r2)) !! i with
       | Some p1, Some p2 => same_product p1 p2
       | None, None => True
       | _, _ => False
       end.
Proof.
  intros Hu Huniq Hc Hread. cbv zeta.
  set (c := upload_company_id upload).
  set (st0 := {| progress_db := up_db w; progress_processed := 0;
                 progress_errors := 0; progress_log := [] |}).
  set (st1 := process_rows env c 2 rows st0).
  assert (Hr1 : process_product_upload env upload_id w
                = (UploadDone upload_id (progress_processed st1)
                     (progress_errors st1),
                   upload_save (clock_finished env) upload_id
                     (upload_set_status UploadCompleted
                        (upload_set_errors_log
                           (String.concat newline (progress_log st1))
                           (upload_set_counts (progress_processed st1)
                              (progress_errors st1)
                              (upload_set_status UploadProcessing upload))))
                     {| up_db := progress_db st1;
                        up_uploads :=
                          up_uploads
                            (upload_save (clock_started env) upload_id
                               (upload_set_status UploadProcessing upload) w) |})).
  { unfold process_product_upload. rewrite Hu.
    cbn [upload_set_status upload_file]. by rewrite Hread. }
  rewrite Hr1. cbn [fst snd].
  set (w1 := upload_save _ _ _ _).
  assert (Hu1 : ∃ upload1, up_uploads w1 !! upload_id = Some upload1
                           ∧ upload_file upload1 = upload_file upload
                           ∧ upload_company_id upload1 = c).
  { subst w1. unfold upload_save. cbn [up_uploads].
    rewrite lookup_insert_eq. eexists. split; [reflexivity|]. done. }
  destruct Hu1 as (upload1 & Hu1 & Hfile1 & Hc1).
  assert (Hdb1 : up_db w1 = progress_db st1) by done.
  set (st0' := {| progress_db := up_db w1; progress_processed := 0;
                  progress_errors := 0; progress_log := [] |}).
  set (st2 := process_rows env c 2 rows st0').
  assert (Hr2 : ∃ w2, process_product_upload env upload_id w1
                      = (UploadDone upload_id (progress_processed st2)
                           (progress_errors st2), w2)
                      ∧ up_db w2 = progress_db st2).
  { unfold process_product_upload. rewrite Hu1.
    cbn [upload_set_status upload_file upload_company_id].
    rewrite Hfile1, Hread, Hc1. eexists. split; reflexivity. }
  destruct Hr2 as (w2 & Hr2 & Hdb2). rewrite Hr2. cbn [fst snd].
  rewrite Hdb1, Hdb2.
  destruct (process_rows_last_values env c rows 2 st0 Huniq Hc)
    as (Huniq1 & Hcomp1 & HA1 & HA2 & HA3).
  fold st1 in Huniq1, Hcomp1, HA1, HA2, HA3. cbn [progress_db] in *.
  assert (Hc' : is_Some (companies (progress_db st0') !! c)).
  { subst st0'. cbn [progress_db]. rewrite Hdb1, Hcomp1. done. }
  assert (Huniq0' : unique_skus (progress_db st0'))
    by (subst st0'; cbn [progress_db]; by rewrite Hdb1).
  destruct (process_rows_last_values env c rows 2 st0' Huniq0' Hc')
    as (_ & _ & HB1 & HB2 & _).
  fold st2 in HB1, HB2. subst st0'. cbn [progress_db] in *.
  rewrite Hdb1 in HB1, HB2.
  split.
  - destruct (process_rows_counters env c rows 2 st0
                {| progress_db := up_db w1; progress_processed := 0;
                   progress_errors := 0; progress_log := [] |})
      as (Hp & He & _); try done.
    fold st1 st2 in Hp, He. by rewrite Hp, He.
  - intros i.
    destruct (products (progress_db st1) !! i) as [p1|] eqn:Hi1.
    + destruct (HB1 i p1 Hi1) as (p2 & -> & Hlast).
      destruct (last_values env rows (sku p1)) as [v|] eqn:Hv;
        [|subst p2; by repeat split].
      destruct Hlast as (H1 & H2 & H3 & H4 & H5 & H6).
      assert (Hfields : product_name p1 = fst v ∧ stock_quantity p1 = snd v
                        ∧ product_company_id p1 = c
                        ∧ product_is_active p1 = true).
      { destruct (products (up_db w) !! i) as [p0|] eqn:Hi0.
        - destruct (HA1 i p0 Hi0) as (p1' & Hp1' & Hlast0).
          rewrite Hi1 in Hp1'. injection Hp1' as <-.
          destruct (last_values env rows (sku p0)) as [v0|] eqn:Hv0.
          + destruct Hlast0 as (G1 & G2 & G3 & G4 & G5 & G6).
            rewrite G1, Hv0 in Hv. injection Hv as <-. done.
          + subst p1. congruence.
        - destruct (HA2 i p1 Hi1 Hi0) as (_ & v0 & Hv0 & G).
          rewrite Hv in Hv0. injection Hv0 as <-. done. }
      destruct Hfields as (F1 & F2 & F3 & F4).
      unfold same_product. split_and!; congruence.
    + destruct (products (progress_db st2) !! i) as [p2|] eqn:Hi2; [|done].
      destruct (HB2 i p2 Hi2 Hi1) as (Hnew & v & Hv & _).
      destruct (HA3 (sku p2) v Hv) as (j & p1 & Hj & Hs).
      by apply (Hnew j p1 Hj).
Qed.

Lemma uploading_again_changes_nothing_witness :
  fst (process_product_upload UploadSample.env 1
         (snd (process_product_upload UploadSample.env 1 UploadSample.world0)))
  = fst (process_product_upload UploadSample.env 1 UploadSample.world0).
Proof.
  apply (uploading_again_changes_nothing UploadSample.env 1 UploadSample.world0
           UploadSample.upload1 UploadSample.rows eq_refl unique_skus_db0).
  - by eexists.
  - reflexivity.
Defined.

End UploadClaims.
